(** * scraperflow: a shallow embedding of the cycle scheduler

    The development follows the TypeScript sources of the library:
    - [src/utils/sleep.ts]                 (module [Sleep])
    - [src/utils/cycle-summary-helper.ts]  (module [Summary])
    - [src/utils/validate-options.ts]      (modules [Validate] and [Trap])
    - [src/scraper-flow.ts]                (modules [FailCounter], [Interval],
                                            [Flow], [Drivers] and [Runner])

    Part I holds the embedding, Parts II and III the properties proved
    about it. *)

From Stdlib Require Import QArith Qround.
From stdpp Require Import gmap strings list.

Set Warnings "-register-all,-clear-no-such-hyp".

(* ===================================================================== *)
(** * Part I. The embedding                                               *)
(* ===================================================================== *)

(** ** JavaScript values

    A JS [number] is a finite value, [NaN] or one of the two infinities.
    Finite doubles are taken as exact rationals. *)
Module Js.

Inductive number :=
| Num (q : Q)
| NaN
| Infinity
| NegInfinity.

Definition of_Z (z : Z) : number := Num (inject_Z z).

(** [Number.isFinite] *)
Definition isFinite (x : number) : bool :=
  match x with Num _ => true | _ => false end.


(** Integer part of a rational, rounding toward zero. *)
Definition Qtrunc (q : Q) : Z := Z.quot (Qnum q) (Zpos (Qden q)).

(** [Math.trunc] *)
Definition trunc (x : number) : number :=
  match x with Num q => of_Z (Qtrunc q) | _ => x end.

(** [Math.max(lo, x)] for an integer [lo]. *)
Definition max_with (lo : Z) (x : number) : number :=
  match x with
  | Num q => if Qle_bool q (inject_Z lo) then of_Z lo else Num q
  | NaN => NaN
  | Infinity => Infinity
  | NegInfinity => of_Z lo
  end.

(** [a / b] on an integer sum and a sample count, as [summarize] uses it. *)
Definition div (a : Z) (b : nat) : number :=
  match b with
  | O => if (a =? 0)%Z then NaN else if (0 <? a)%Z then Infinity else NegInfinity
  | S _ => Num (Qmake a (Pos.of_nat b))
  end.

(** [x || 0] on numbers: [NaN] and zero are falsy. *)
Definition or_zero (x : number) : number :=
  match x with
  | NaN => of_Z 0
  | Num q => if Qeq_bool q 0 then of_Z 0 else Num q
  | _ => x
  end.

(** The integers from [-2^53] to [2^53 - 1]: those whose successor is
    a double. *)
Definition TWO_53 : Z := 9007199254740992.

(** [Number.isSafeInteger] on an integer. *)
Definition isSafeInteger (x : Z) : bool :=
  (- TWO_53 <? x)%Z && (x <? TWO_53)%Z.

(** The value [x++] leaves in a variable that held the integer-valued
    double [x].  The sum [x + 1] is a double up to [2^53].  Beyond, up to
    [2^54], the doubles are the even integers and [x + 1] lies halfway
    between two of them: it is rounded to the one whose significand is
    even.  From [2^54] on it is rounded back to [x]. *)
Definition incr (x : Z) : Z :=
  if (- TWO_53 <=? x)%Z && (x <? TWO_53)%Z then (x + 1)%Z
  else if (Z.abs x <? 2 * TWO_53)%Z && Z.odd (x / 2) then (x + 2)%Z
  else x.

(** Equality of numbers up to the representation of the rational. *)
Definition same (x y : number) : Prop :=
  match x, y with
  | Num p, Num q => (p == q)%Q
  | NaN, NaN | Infinity, Infinity | NegInfinity, NegInfinity => True
  | _, _ => False
  end.

(** Values a user can put into an options object or return from a
    callback.  Functions are known by an identifier only. *)
Inductive value :=
| VUndefined
| VNull
| VBool (b : bool)
| VNumber (n : number)
| VString (s : string)
| VFunction (f : nat)
| VArray (items : list value)
| VObject (props : list (string * value)).

Inductive type_tag :=
| TUndefined | TObject | TBoolean | TNumber | TString | TFunction.

(** The [typeof] operator. *)
Definition typeof (v : value) : type_tag :=
  match v with
  | VUndefined => TUndefined
  | VNull | VArray _ | VObject _ => TObject
  | VBool _ => TBoolean
  | VNumber _ => TNumber
  | VString _ => TString
  | VFunction _ => TFunction
  end.

Definition is_object (v : value) : bool :=
  match typeof v with TObject => true | _ => false end.

(** Truthiness, as [!v] and [v ? a : b] see it. *)
Definition truthy (v : value) : bool :=
  match v with
  | VUndefined | VNull => false
  | VBool b => b
  | VNumber (Num q) => negb (Qeq_bool q 0)
  | VNumber NaN => false
  | VNumber _ => true
  | VString EmptyString => false
  | VString _ => true
  | VFunction _ | VArray _ | VObject _ => true
  end.

(** [v != null] *)
Definition not_nullish (v : value) : bool :=
  match v with VUndefined | VNull => false | _ => true end.

(** Property read [o[k]] on a property list; a missing key reads
    [undefined]. *)
Fixpoint prop (k : string) (props : list (string * value)) : value :=
  match props with
  | [] => VUndefined
  | (k', v) :: rest => if String.eqb k k' then v else prop k rest
  end.

(** Outcome of calling a user function. *)
Inductive completion (A : Type) :=
| Throw
| Return (a : A).
Arguments Throw {A}.
Arguments Return {A} a.

(** A non-negative integer or [+Infinity]: the range of
    [Math.max(0, Math.trunc(v))] on numbers other than [NaN]. *)
Inductive count :=
| Finite (n : nat)
| Unbounded.

(** [n <= c] *)
Definition le_count (n : nat) (c : count) : bool :=
  match c with Finite m => n <=? m | Unbounded => true end.

(** [c <= 0] and [c > 0] *)
Definition is_zero (c : count) : bool :=
  match c with Finite O => true | _ => false end.

(** [c - 1]; only used on counts greater than zero. *)
Definition pred (c : count) : count :=
  match c with Finite n => Finite (Nat.pred n) | Unbounded => Unbounded end.

(** [Math.max(0, Math.trunc(x))] for [x] other than [NaN]. *)
Definition to_count (x : number) : count :=
  match x with
  | Num q => Finite (Z.to_nat (Qtrunc q))
  | Infinity => Unbounded
  | NaN | NegInfinity => Finite 0
  end.

(** JS [Set] kept as the list of its members in insertion order. *)
Section JsSet.
Context {A : Type} `{EqDecision A}.

Definition set_has (x : A) (s : list A) : bool := bool_decide (x ∈ s).

Definition set_add (x : A) (s : list A) : list A :=
  if decide (x ∈ s) then s else s ++ [x].

Definition set_delete (x : A) (s : list A) : list A :=
  filter (λ y, y ≠ x) s.

(** [new Set(xs)] *)
Definition set_of_list (xs : list A) : list A :=
  fold_left (λ s x, set_add x s) xs [].
End JsSet.

End Js.

(** A flow context is an object owned by the engine; only its identity
    matters to the scheduler. *)
Abbreviation Ctx := nat (only parsing).

(** ** [CycleSummaryHelper] (src/utils/cycle-summary-helper.ts) *)
Module Summary.

Inductive AvgType := All | Successful | Failed.

(** The three running pairs hold [sum, count]. *)
Record Helper := {
  completed : bool;
  totalPageCount : Q;
  failedPageList : list Z;
  totalErrorCount : nat;
  startedAt : Z;
  total : Z;
  avg_all : Z * nat;
  avg_successful : Z * nat;
  avg_failed : Z * nat;
}.

(** The constructor; [now] is the value [Date.now()] returns. *)
Definition new (now : Z) : Helper :=
  {| completed := false;
     totalPageCount := 0;
     failedPageList := [];
     totalErrorCount := 0;
     startedAt := now;
     total := 0;
     avg_all := (0%Z, 0);
     avg_successful := (0%Z, 0);
     avg_failed := (0%Z, 0) |}.

Definition with_completed (b : bool) (h : Helper) : Helper :=
  {| completed := b;
     totalPageCount := totalPageCount h;
     failedPageList := failedPageList h;
     totalErrorCount := totalErrorCount h;
     startedAt := startedAt h;
     total := total h;
     avg_all := avg_all h;
     avg_successful := avg_successful h;
     avg_failed := avg_failed h |}.

Definition with_totalPageCount (n : Q) (h : Helper) : Helper :=
  {| completed := completed h;
     totalPageCount := n;
     failedPageList := failedPageList h;
     totalErrorCount := totalErrorCount h;
     startedAt := startedAt h;
     total := total h;
     avg_all := avg_all h;
     avg_successful := avg_successful h;
     avg_failed := avg_failed h |}.

(** [stats.failedPageList.add(page)] *)
Definition add_failed (page : Z) (h : Helper) : Helper :=
  {| completed := completed h;
     totalPageCount := totalPageCount h;
     failedPageList := Js.set_add page (failedPageList h);
     totalErrorCount := totalErrorCount h;
     startedAt := startedAt h;
     total := total h;
     avg_all := avg_all h;
     avg_successful := avg_successful h;
     avg_failed := avg_failed h |}.

(** [stats.totalErrorCount++] *)
Definition count_error (h : Helper) : Helper :=
  {| completed := completed h;
     totalPageCount := totalPageCount h;
     failedPageList := failedPageList h;
     totalErrorCount := S (totalErrorCount h);
     startedAt := startedAt h;
     total := total h;
     avg_all := avg_all h;
     avg_successful := avg_successful h;
     avg_failed := avg_failed h |}.

Definition setTotalTime (now : Z) (h : Helper) : Helper :=
  {| completed := completed h;
     totalPageCount := totalPageCount h;
     failedPageList := failedPageList h;
     totalErrorCount := totalErrorCount h;
     startedAt := startedAt h;
     total := (now - startedAt h)%Z;
     avg_all := avg_all h;
     avg_successful := avg_successful h;
     avg_failed := avg_failed h |}.

Definition bump (time : Z) (timing : Z * nat) : Z * nat :=
  ((timing.1 + time)%Z, S timing.2).

Definition addAvgTiming (type : AvgType) (time : Z) (h : Helper) : Helper :=
  {| completed := completed h;
     totalPageCount := totalPageCount h;
     failedPageList := failedPageList h;
     totalErrorCount := totalErrorCount h;
     startedAt := startedAt h;
     total := total h;
     avg_all := match type with All => bump time (avg_all h) | _ => avg_all h end;
     avg_successful :=
       match type with Successful => bump time (avg_successful h) | _ => avg_successful h end;
     avg_failed :=
       match type with Failed => bump time (avg_failed h) | _ => avg_failed h end |}.

(** The frozen [CycleSummary]. *)
Record CycleSummary := {
  s_completed : bool;
  s_totalPageCount : Q;
  s_failedPageList : list Z;
  s_totalErrorCount : nat;
  s_startedAt : Z;
  s_total : Z;
  s_avg_all : Js.number;
  s_avg_successful : Js.number;
  s_avg_failed : Js.number;
}.

Definition average (timing : Z * nat) : Js.number :=
  Js.or_zero (Js.div timing.1 timing.2).

Definition summarize (now : Z) (h0 : Helper) : CycleSummary :=
  let h := if (total h0 =? 0)%Z then setTotalTime now h0 else h0 in
  {| s_completed := completed h;
     s_totalPageCount := totalPageCount h;
     s_failedPageList := failedPageList h;
     s_totalErrorCount := totalErrorCount h;
     s_startedAt := startedAt h;
     s_total := total h;
     s_avg_all := average (avg_all h);
     s_avg_successful := average (avg_successful h);
     s_avg_failed := average (avg_failed h) |}.

Definition avg_of (type : AvgType) (s : CycleSummary) : Js.number :=
  match type with
  | All => s_avg_all s
  | Successful => s_avg_successful s
  | Failed => s_avg_failed s
  end.

End Summary.

(** ** Validated options (src/types/validated-options.ts)

    The record [validateOptions] returns.  Function-valued options are kept
    as identifiers; what calling them yields is supplied by the
    environment. *)
Module Options.

Inductive PaginationType := None_ | TotalPages | HasMore | Cursor | List.

Inductive IntervalStrategy := dynamic | fixed.

Inductive LogType :=
| validationWarning | generalError | fetchError
| resolveError | responseHandleError | summaryHandleError.

(** A static number, a number interval or a function. *)
Inductive Interval :=
| Scalar (ms : Z)
| Range (a b : Z)
| Func (f : nat).

Inductive Logger :=
| LogFlag (b : bool)
| LogList (l : list Js.value).

Record ErrorHandlingPolicy := {
  retryLimit : Js.count;
  retryDistinctFlows : bool;
  skipPageIfPossible : bool;
  maxTotalPageFails : Js.count;
  maxConsecutivePageFails : Js.count;
}.

Record t := {
  interval : Interval;
  intervalStrategy : IntervalStrategy;
  cycleInterval : option Interval;
  cycleIntervalStrategy : IntervalStrategy;
  initThisContext : option nat;      (* [None]: the built-in [() => ({})] *)
  resetThisContext : bool;
  initFlowContext : option nat;      (* [None]: the built-in [() => ({})] *)
  resetFlowContext : bool;
  responseHandler : option nat;
  summaryHandler : option nat;
  errorHandlingPolicy : ErrorHandlingPolicy;
  logger : Logger;
  concurrency : nat;
  removeContextForRedundantFlows : bool;
  paginationType : PaginationType;
  fetchHandler : option nat;
  paginationStart : Z;
  paginationPrefetch : bool;
  resolveTotalPages : option nat;
  resolveHasMore : option nat;
  resolveCursor : option nat;
  resolveList : option nat;
}.

(** [DEFAULT_OPTIONS] *)
Definition DEFAULT_POLICY : ErrorHandlingPolicy :=
  {| retryLimit := Js.Finite 2;
     retryDistinctFlows := true;
     skipPageIfPossible := false;
     maxTotalPageFails := Js.Unbounded;
     maxConsecutivePageFails := Js.Unbounded |}.

Definition DEFAULT_OPTIONS : t :=
  {| interval := Range 1000 2000;
     intervalStrategy := dynamic;
     cycleInterval := None;
     cycleIntervalStrategy := fixed;
     initThisContext := None;
     resetThisContext := false;
     initFlowContext := None;
     resetFlowContext := false;
     responseHandler := None;
     summaryHandler := None;
     errorHandlingPolicy := DEFAULT_POLICY;
     logger := LogList [Js.VString "validationWarning"; Js.VString "generalError"];
     concurrency := 1;
     removeContextForRedundantFlows := true;
     paginationType := None_;
     fetchHandler := None;
     paginationStart := 1;
     paginationPrefetch := false;
     resolveTotalPages := None;
     resolveHasMore := None;
     resolveCursor := None;
     resolveList := None |}.

End Options.

(** ** The fail counter ([_initFailCounter] in src/scraper-flow.ts) *)
Module FailCounter.
Import Options.

(** The closure variables.  The timeline holds a page number per failure
    and [None] for the [undefined] separator a success leaves. *)
Record t := {
  pageFailTimeline : list (option Z);
  totalPageFails : nat;
  consecutivePageFails : nat;
}.

Definition init : t :=
  {| pageFailTimeline := []; totalPageFails := 0; consecutivePageFails := 0 |}.

Definition canSkipPage (policy : ErrorHandlingPolicy) (fc : t) : bool :=
  skipPageIfPossible policy
  && Js.le_count (totalPageFails fc) (maxTotalPageFails policy)
  && Js.le_count (consecutivePageFails fc) (maxConsecutivePageFails policy).

Definition success (fc : t) : t :=
  {| pageFailTimeline :=
       match last (pageFailTimeline fc) with
       | Some (Some _) => pageFailTimeline fc ++ [None]
       | _ => pageFailTimeline fc
       end;
     totalPageFails := totalPageFails fc;
     consecutivePageFails := 0 |}.

(** [fail(page?)]: the new counter and whether no more pages can be
    skipped. *)
Definition fail (policy : ErrorHandlingPolicy) (page : option Z) (fc : t) : t * bool :=
  let fc' :=
    {| pageFailTimeline :=
         match page with
         | Some p => pageFailTimeline fc ++ [Some p]
         | None => pageFailTimeline fc
         end;
       totalPageFails := S (totalPageFails fc);
       consecutivePageFails := S (consecutivePageFails fc) |} in
  (fc', negb (canSkipPage policy fc')).

(** The loop of [complete] over the timeline from position [i] on; the
    accumulator is [(totalPageFails, consecutivePageFails,
    currentConsPageFails)]. *)
Fixpoint recount (lastPage : Q) (timeline : list (option Z)) (acc : nat * nat * nat)
  : nat * nat * nat :=
  match timeline with
  | [] => acc
  | page :: rest =>
      let '(tot, consec, cur) := acc in
      let '(tot, cur) :=
        match page with
        | Some p => if Qle_bool (inject_Z p) lastPage then (S tot, S cur) else (tot, cur)
        | None => (tot, cur)
        end in
      match page, rest with
      | Some _, _ :: _ => recount lastPage rest (tot, consec, cur)   (* skip if not last *)
      | _, _ => recount lastPage rest (tot, if consec <? cur then cur else consec, 0)
      end
  end.

(** [complete(lastPage?)]: the counter after the recount and whether the
    cycle can be marked as completed. *)
Definition complete (policy : ErrorHandlingPolicy) (lastPage : option Q) (fc : t) : t * bool :=
  let fc' :=
    match lastPage with
    | Some lp =>
        let '(tot, consec, _) := recount lp (pageFailTimeline fc) (0, 0, 0) in
        {| pageFailTimeline := pageFailTimeline fc;
           totalPageFails := tot;
           consecutivePageFails := consec |}
    | None => fc
    end in
  (fc', canSkipPage policy fc').

End FailCounter.

(** ** [sleep] (src/utils/sleep.ts)

    The promise [sleep(ms, signal)] builds, with the timer and the abort
    listener it installs.  Time advances through [Elapse]; the signal
    fires through [Abort]. *)
Module Sleep.

Record t := {
  settled : option bool;     (* the value the promise resolved with *)
  timer : option nat;        (* milliseconds left on the pending timeout *)
  listening : bool;          (* [onabort] is attached to the signal *)
}.

(** [TIMEOUT_MAX] of Node's timers: 2^31 - 1. *)
Definition TIMEOUT_MAX : Z := 2147483647.

(** The delay [setTimeout(callback, ms)] gives its timer.  Node keeps a
    delay between 1 and [TIMEOUT_MAX], cut to an integer, and sets any
    other one, [NaN] and the infinities included, to 1. *)
Definition delay (ms : Js.number) : nat :=
  match ms with
  | Js.Num q =>
      if Qle_bool 1 q && Qle_bool q (inject_Z TIMEOUT_MAX)
      then Z.to_nat (Js.Qtrunc q)
      else 1
  | _ => 1
  end.

(** [signal] is [None] when no signal is passed, else [Some aborted]. *)
Definition sleep (ms : Js.number) (signal : option bool) : t :=
  match signal with
  | Some true => {| settled := Some true; timer := None; listening := false |}
  | Some false => {| settled := None; timer := Some (delay ms); listening := true |}
  | None => {| settled := None; timer := Some (delay ms); listening := false |}
  end.

(** [resolve(v)]: a promise keeps its first value. *)
Definition resolve (v : bool) (settled : option bool) : option bool :=
  match settled with Some _ => settled | None => Some v end.

(** [ontimeout] also removes the listener. *)
Definition ontimeout (s : t) : t :=
  {| settled := resolve false (settled s); timer := None; listening := false |}.

(** [onabort] was added with [once: true], so dispatching it detaches
    it; it clears the timeout. *)
Definition onabort (s : t) : t :=
  {| settled := resolve true (settled s); timer := None; listening := false |}.

Inductive event :=
| Elapse (ms : nat)
| Abort.

Definition step (s : t) (e : event) : t :=
  match e with
  | Elapse d =>
      match timer s with
      | Some remaining =>
          if remaining <=? d then ontimeout s
          else {| settled := settled s; timer := Some (remaining - d);
                  listening := listening s |}
      | None => s
      end
  | Abort => if listening s then onabort s else s
  end.

Definition run (s : t) (es : list event) : t := fold_left step es s.



End Sleep.

(** ** [validateOptions] (src/utils/validate-options.ts) and [create]

    The raw options are a JS object read by key.  Each [set_*] function is
    one [case] group of the proxy's [set] trap, applied once per key by the
    loop over [Object.keys(ALL_OPTIONS_REQUIRED)]; it returns the value the
    target holds afterwards and the warnings it hands to the logger.  A
    warning quotes the value it rejects, and turning that value into text
    can throw: [assign_all] gives the loop as it runs when no text fails,
    and [validateOptions] cuts it at the first text that does. *)
Module Validate.
Import Js Options.

(** What calling user function [f] with no argument yields. *)
Definition Calls := nat → completion value.

(** The text of a warning, known by the template it fills and the value
    it quotes. *)
Inductive Message :=
| InvalidValue (v : value)             (* Invalid value "${String(value)}". *)
| InvalidNumberFinite (n : number)     (* Invalid number value "${value}". Must be a finite number. *)
| InvalidNumber (n : number)           (* Invalid number value "${value}". *)
| InvalidRange (items : list value)    (* Invalid interval range "${value.slice(0, 2).join(' - ')}". *)
| InvalidStrategy (s : string).        (* Invalid interval strategy "${value}". *)

Definition Warnings := list (string * Message).

(** Own property [k] of an object; [None] when the object has none and
    the read goes on to [Object.prototype]. *)
Fixpoint own (k : string) (props : list (string * value)) : option value :=
  match props with
  | [] => None
  | (k', v) :: rest => if String.eqb k k' then Some v else own k rest
  end.

Definition primitive (v : value) : bool :=
  match v with
  | VUndefined | VNull | VBool _ | VNumber _ | VString _ => true
  | VFunction _ | VArray _ | VObject _ => false
  end.

(** The [valueOf] step of the conversion of an object to a string:
    whether it yields a primitive.  [Object.prototype.valueOf] returns
    the object itself. *)
Definition valueOf_converts (calls : Calls) (props : list (string * value)) : bool :=
  match own "valueOf" props with
  | Some (VFunction g) =>
      match calls g with
      | Return r => primitive r
      | Throw => false
      end
  | _ => false
  end.

(** Whether [String(v)] returns; it throws a [TypeError] otherwise.  An
    object is converted by its [toString], then by its [valueOf], the
    first that is callable and returns a primitive; the inherited
    [Object.prototype.toString] returns a string.  An array is joined:
    each item other than [undefined] and [null] is converted in turn. *)
Fixpoint converts (calls : Calls) (v : value) : bool :=
  match v with
  | VUndefined | VNull | VBool _ | VNumber _ | VString _ | VFunction _ => true
  | VArray items =>
      forallb (λ x, match x with VUndefined | VNull => true | _ => converts calls x end)
        items
  | VObject props =>
      match own "toString" props with
      | None => true
      | Some (VFunction f) =>
          match calls f with
          | Return r => primitive r || valueOf_converts calls props
          | Throw => false
          end
      | Some _ => valueOf_converts calls props
      end
  end.

(** [items.join(sep)] returns. *)
Definition joins (calls : Calls) (items : list value) : bool :=
  converts calls (VArray items).

(** Whether the text of a warning can be built. *)
Definition builds (calls : Calls) (m : Message) : bool :=
  match m with
  | InvalidValue v => converts calls v
  | InvalidRange items => joins calls (take 2 items)
  | InvalidNumberFinite _ | InvalidNumber _ | InvalidStrategy _ => true
  end.

Definition keyPath (p : string) : string := "options." +:+ p.
Definition policyKeyPath (p : string) : string := "options.errorHandlingPolicy." +:+ p.

(** [options[k]] *)
Definition get (k : string) (options : gmap string value) : value :=
  default VUndefined (options !! k).

(** [typeof value === 'number' && value in PaginationType] *)
Definition pagination_of (q : Q) : option PaginationType :=
  if Qeq_bool q 0 then Some None_
  else if Qeq_bool q 1 then Some TotalPages
  else if Qeq_bool q 2 then Some HasMore
  else if Qeq_bool q 3 then Some Cursor
  else if Qeq_bool q 4 then Some List
  else None.

Definition set_paginationType (value : value) : PaginationType :=
  match value with
  | VNumber (Num q) => default (paginationType DEFAULT_OPTIONS) (pagination_of q)
  | _ => paginationType DEFAULT_OPTIONS
  end.

(** [Math.max(0, Math.trunc(value))] on a finite number. *)
Definition coerce_ms (q : Q) : Z := Z.max 0 (Qtrunc q).

(** Cases ['interval'] and ['cycleInterval']; [initial] is what the
    target holds when no branch assigns: the default for [interval],
    [undefined] for [cycleInterval]. *)
Definition set_interval (p : string) (initial : option Interval) (value : value)
  : option Interval * Warnings :=
  match value with
  | VNumber (Num q) => (Some (Scalar (coerce_ms q)), [])
  | VNumber n => (initial, [(keyPath p, InvalidNumberFinite n)])
  | VFunction f => (Some (Func f), [])
  | VArray items =>
      match items !! 0, items !! 1 with
      | Some (VNumber (Num a)), Some (VNumber (Num b)) =>
          (Some (Range (coerce_ms a) (coerce_ms b)), [])
      | _, _ => (initial, [(keyPath p, InvalidRange items)])
      end
  | VUndefined => (initial, [])
  | _ => (initial, [(keyPath p, InvalidValue value)])
  end.

(** Cases ['intervalStrategy'] and ['cycleIntervalStrategy']. *)
Definition set_strategy (p : string) (dflt : IntervalStrategy) (value : value)
  : IntervalStrategy * Warnings :=
  match value with
  | VString s =>
      if String.eqb s "dynamic" then (dynamic, [])
      else if String.eqb s "fixed" then (fixed, [])
      else (dflt, [(keyPath p, InvalidStrategy s)])
  | VUndefined => (dflt, [])
  | _ => (dflt, [(keyPath p, InvalidValue value)])
  end.

(** Case ['concurrency']. *)
Definition set_concurrency (value : value) : nat * Warnings :=
  match value with
  | VNumber (Num q) => (Z.to_nat (Z.max 1 (Qtrunc q)), [])
  | VNumber n => (concurrency DEFAULT_OPTIONS, [(keyPath "concurrency", InvalidNumberFinite n)])
  | VUndefined => (concurrency DEFAULT_OPTIONS, [])
  | _ => (concurrency DEFAULT_OPTIONS, [(keyPath "concurrency", InvalidValue value)])
  end.

(** Case ['paginationStart']. *)
Definition set_paginationStart (value : value) : Z * Warnings :=
  match value with
  | VNumber (Num q) => (Qtrunc q, [])
  | VNumber n =>
      (paginationStart DEFAULT_OPTIONS, [(keyPath "paginationStart", InvalidNumberFinite n)])
  | VUndefined => (paginationStart DEFAULT_OPTIONS, [])
  | _ => (paginationStart DEFAULT_OPTIONS, [(keyPath "paginationStart", InvalidValue value)])
  end.

(** The boolean cases, at the top level and inside the policy. *)
Definition set_boolean (path : string) (dflt : bool) (value : value) : bool * Warnings :=
  match value with
  | VBool b => (b, [])
  | VUndefined => (dflt, [])
  | _ => (dflt, [(path, InvalidValue value)])
  end.

(** Cases ['initThisContext'] and ['initFlowContext']; [None] stands for
    the default initialiser. *)
Definition set_init (p : string) (value : value) : option nat * Warnings :=
  match value with
  | VFunction f => (Some f, [])
  | VUndefined => (None, [])
  | _ => (None, [(keyPath p, InvalidValue value)])
  end.

(** The required functions: a value that is not a function leaves the
    property unset. *)
Definition set_required (p : string) (value : value) : option nat * Warnings :=
  match value with
  | VFunction f => (Some f, [])
  | VUndefined => (None, [])
  | _ => (None, [(keyPath p, InvalidValue value)])
  end.

(** Cases ['responseHandler'] and ['summaryHandler']. *)
Definition set_optional (p : string) (value : value) : option nat * Warnings :=
  match value with
  | VFunction f => (Some f, [])
  | VUndefined => (None, [])
  | _ => (None, [(keyPath p, InvalidValue value)])
  end.

(** The numeric cases of the policy proxy. *)
Definition set_policy_number (p : string) (dflt : count) (value : value) : count * Warnings :=
  match value with
  | VNumber NaN => (dflt, [(policyKeyPath p, InvalidNumber NaN)])
  | VNumber n => (to_count n, [])
  | VUndefined => (dflt, [])
  | _ => (dflt, [(policyKeyPath p, InvalidValue value)])
  end.

(** [value ? value[k] : undefined] for the keys of the default policy. *)
Definition policy_prop (k : string) (value : value) : Js.value :=
  match value with
  | VObject props => prop k props
  | _ => VUndefined
  end.

(** Case ['errorHandlingPolicy']. *)
Definition set_errorHandlingPolicy (value : value) : ErrorHandlingPolicy * Warnings :=
  let rl :=
    set_policy_number "retryLimit" (retryLimit DEFAULT_POLICY)
      (policy_prop "retryLimit" value) in
  let rdf :=
    set_boolean (policyKeyPath "retryDistinctFlows") (retryDistinctFlows DEFAULT_POLICY)
      (policy_prop "retryDistinctFlows" value) in
  let skip :=
    set_boolean (policyKeyPath "skipPageIfPossible") (skipPageIfPossible DEFAULT_POLICY)
      (policy_prop "skipPageIfPossible" value) in
  let mt :=
    set_policy_number "maxTotalPageFails" (maxTotalPageFails DEFAULT_POLICY)
      (policy_prop "maxTotalPageFails" value) in
  let mc :=
    set_policy_number "maxConsecutivePageFails" (maxConsecutivePageFails DEFAULT_POLICY)
      (policy_prop "maxConsecutivePageFails" value) in
  ({| retryLimit := rl.1; retryDistinctFlows := rdf.1; skipPageIfPossible := skip.1;
      maxTotalPageFails := mt.1; maxConsecutivePageFails := mc.1 |},
   rl.2 ++ rdf.2 ++ skip.2 ++ mt.2 ++ mc.2).

(** Case ['logger']. *)
Definition set_logger (value : value) : Logger * Warnings :=
  match value with
  | VBool b => (LogFlag b, [])
  | VArray l => (LogList l, [])
  | VUndefined => (logger DEFAULT_OPTIONS, [])
  | _ => (logger DEFAULT_OPTIONS, [(keyPath "logger", InvalidValue value)])
  end.

Inductive result (A : Type) :=
| Thrown (message : string)
| Ok (a : A).
Arguments Thrown {A} message.
Arguments Ok {A} a.

(** The proxy after the loop over the keys, in the order of
    [DEFAULT_OPTIONS], and the warnings logged on the way. *)
Definition assign_all (options : gmap string value) : Options.t * Warnings :=
  let v_interval :=
    set_interval "interval" (Some (interval DEFAULT_OPTIONS)) (get "interval" options) in
  let v_intervalStrategy :=
    set_strategy "intervalStrategy" (intervalStrategy DEFAULT_OPTIONS)
      (get "intervalStrategy" options) in
  let v_cycleInterval :=
    set_interval "cycleInterval" None (get "cycleInterval" options) in
  let v_cycleIntervalStrategy :=
    set_strategy "cycleIntervalStrategy" (cycleIntervalStrategy DEFAULT_OPTIONS)
      (get "cycleIntervalStrategy" options) in
  let v_initThisContext :=
    set_init "initThisContext" (get "initThisContext" options) in
  let v_resetThisContext :=
    set_boolean (keyPath "resetThisContext") (resetThisContext DEFAULT_OPTIONS)
      (get "resetThisContext" options) in
  let v_initFlowContext :=
    set_init "initFlowContext" (get "initFlowContext" options) in
  let v_resetFlowContext :=
    set_boolean (keyPath "resetFlowContext") (resetFlowContext DEFAULT_OPTIONS)
      (get "resetFlowContext" options) in
  let v_responseHandler :=
    set_optional "responseHandler" (get "responseHandler" options) in
  let v_summaryHandler :=
    set_optional "summaryHandler" (get "summaryHandler" options) in
  let v_policy :=
    set_errorHandlingPolicy (get "errorHandlingPolicy" options) in
  let v_logger := set_logger (get "logger" options) in
  let v_concurrency := set_concurrency (get "concurrency" options) in
  let v_remove :=
    set_boolean (keyPath "removeContextForRedundantFlows")
      (removeContextForRedundantFlows DEFAULT_OPTIONS)
      (get "removeContextForRedundantFlows" options) in
  let v_paginationType := set_paginationType (get "paginationType" options) in
  let v_fetchHandler := set_required "fetchHandler" (get "fetchHandler" options) in
  let v_paginationStart := set_paginationStart (get "paginationStart" options) in
  let v_paginationPrefetch :=
    set_boolean (keyPath "paginationPrefetch") (paginationPrefetch DEFAULT_OPTIONS)
      (get "paginationPrefetch" options) in
  let v_resolveTotalPages :=
    set_required "resolveTotalPages" (get "resolveTotalPages" options) in
  let v_resolveHasMore :=
    set_required "resolveHasMore" (get "resolveHasMore" options) in
  let v_resolveCursor :=
    set_required "resolveCursor" (get "resolveCursor" options) in
  let v_resolveList :=
    set_required "resolveList" (get "resolveList" options) in
  ({| interval := default (interval DEFAULT_OPTIONS) v_interval.1;
      intervalStrategy := v_intervalStrategy.1;
      cycleInterval := v_cycleInterval.1;
      cycleIntervalStrategy := v_cycleIntervalStrategy.1;
      initThisContext := v_initThisContext.1;
      resetThisContext := v_resetThisContext.1;
      initFlowContext := v_initFlowContext.1;
      resetFlowContext := v_resetFlowContext.1;
      responseHandler := v_responseHandler.1;
      summaryHandler := v_summaryHandler.1;
      errorHandlingPolicy := v_policy.1;
      logger := v_logger.1;
      concurrency := v_concurrency.1;
      removeContextForRedundantFlows := v_remove.1;
      paginationType := v_paginationType;
      fetchHandler := v_fetchHandler.1;
      paginationStart := v_paginationStart.1;
      paginationPrefetch := v_paginationPrefetch.1;
      resolveTotalPages := v_resolveTotalPages.1;
      resolveHasMore := v_resolveHasMore.1;
      resolveCursor := v_resolveCursor.1;
      resolveList := v_resolveList.1 |},
   v_interval.2 ++ v_intervalStrategy.2 ++ v_cycleInterval.2 ++ v_cycleIntervalStrategy.2
     ++ v_initThisContext.2 ++ v_resetThisContext.2 ++ v_initFlowContext.2
     ++ v_resetFlowContext.2 ++ v_responseHandler.2 ++ v_summaryHandler.2 ++ v_policy.2
     ++ v_logger.2 ++ v_concurrency.2 ++ v_remove.2 ++ v_fetchHandler.2
     ++ v_paginationStart.2 ++ v_paginationPrefetch.2 ++ v_resolveTotalPages.2
     ++ v_resolveHasMore.2 ++ v_resolveCursor.2 ++ v_resolveList.2).

(** [typeof o !== 'undefined'] on an optional function. *)
Definition defined {A} (o : option A) : bool :=
  match o with Some _ => true | None => false end.

(** The checks on required options that follow the loop. *)
Definition check_required (o : Options.t) : result Options.t :=
  match fetchHandler o with
  | None => Thrown "Property fetchHandler is required"
  | Some _ =>
      match paginationType o with
      | TotalPages =>
          if defined (resolveTotalPages o) then Ok o
          else Thrown "Property resolveTotalPages is required"
      | HasMore =>
          if defined (resolveHasMore o) then Ok o
          else Thrown "Property resolveHasMore is required"
      | Cursor =>
          if defined (resolveCursor o) then Ok o
          else Thrown "Property resolveCursor is required"
      | List =>
          if defined (resolveList o) then Ok o
          else Thrown "Property resolveList is required"
      | None_ => Ok o
      end
  end.

(** The warnings the logger received before the text of one could not
    be built, and whether that happened. *)
Fixpoint logged (calls : Calls) (ws : Warnings) : Warnings * bool :=
  match ws with
  | [] => ([], false)
  | w :: rest =>
      if builds calls w.2 then
        let '(ws', thrown) := logged calls rest in
        (w :: ws', thrown)
      else ([], true)
  end.

(** [validateOptions(options, logger)].  The [set] trap builds the text
    of a warning before it calls the logger; when that throws, the loop
    is left at that assignment and [validateOptions] throws with it. *)
Definition validateOptions (calls : Calls) (options : gmap string value)
  : result Options.t * Warnings :=
  let assigned := assign_all options in
  let '(ws, thrown) := logged calls assigned.2 in
  if thrown then (Thrown "Cannot convert object to primitive value", ws)
  else (check_required assigned.1, ws).

(** [initThisContext.call(undefined)]; the default initialiser returns a
    new empty object. *)
Definition call_initThisContext (calls : Calls) (o : Options.t) : completion value :=
  match initThisContext o with
  | Some f => calls f
  | None => Return (VObject [])
  end.

(** A scheduler as the private constructor leaves it. *)
Record ScraperFlow := {
  options : Options.t;
  globalContext : value;
}.

(** [ScraperFlow.create(options)]: the outcome of the constructor and the
    [validationWarning]s it logged. *)
Definition create (calls : Calls) (raw : gmap string value) : result ScraperFlow * Warnings :=
  let validated := validateOptions calls raw in
  (match validated.1 with
   | Thrown m => Thrown m
   | Ok o =>
       match call_initThisContext calls o with
       | Throw => Thrown "initThisContext threw"
       | Return g =>
           if is_object g then Ok {| options := o; globalContext := g |}
           else Thrown "This context should be an object"
       end
   end,
   validated.2).


End Validate.

(** ** [_computeInterval] (src/scraper-flow.ts) *)
Module Interval.
Import Js.

Inductive Property := interval | cycleInterval.

(** What the interval function [f] returns when called with receiver
    [this] and argument [ctx]. *)
Definition Calls (This : Type) := nat → This → option Ctx → completion number.

(** [Math.floor(Math.random() * (b - a + 1)) + a]; [random] is the value
    [Math.random()] returned. *)
Definition draw (a b : Z) (random : Q) : Z :=
  (Qfloor (random * inject_Z (b - a + 1)) + a)%Z.

(** The value of the option after the [undefined] fallback. *)
Definition lookup (o : Options.t) (property : Property) : Options.Interval :=
  match property with
  | interval => Options.interval o
  | cycleInterval =>
      match Options.cycleInterval o with
      | Some i => i
      | None => Options.interval o
      end
  end.

(** [Math.max(0, Math.trunc(x))] *)
Definition coerce (x : number) : number := max_with 0 (trunc x).

(** The default used when an interval function fails. *)
Definition FALLBACK : Z + Z * Z := inr (1000%Z, 2000%Z).

(** The first half of [_computeInterval]: the option with a function
    replaced by what it returned: a number ([inl]) or a range ([inr]);
    the flag tells whether a [generalError] was logged. *)
Definition resolve {This} (calls : Calls This) (o : Options.t)
    (globalContext : This) (property : Property) (ctx : option Ctx)
  : (Z + Z * Z) * bool :=
  match lookup o property with
  | Options.Func f =>
      match calls f globalContext ctx with
      | Return x =>
          match coerce x with
          | Num q => (inl (Qfloor q), false)
          | _ => (FALLBACK, true)
          end
      | Throw => (FALLBACK, true)
      end
  | Options.Scalar ms => (inl ms, false)
  | Options.Range a b => (inr (a, b), false)
  end.

(** The interval in milliseconds. *)
Definition computeInterval {This} (calls : Calls This) (o : Options.t)
    (globalContext : This) (random : Q) (property : Property) (ctx : option Ctx) : Z :=
  match (resolve calls o globalContext property ctx).1 with
  | inr (a, b) => draw a b random
  | inl ms => ms
  end.

End Interval.

(** ** The flow orchestrator ([_startFlowOrchestrator] in src/scraper-flow.ts)

    The scheduler is single-threaded: code runs in synchronous stretches
    separated by [await] and [process.nextTick].  The embedding has one
    transition per stretch.  What the outside world decides -- the clock,
    [Math.random], what user callbacks return, which pending job runs
    next -- comes with the transition.

    Conventions.  [Date.now()] has one value during a stretch.  A user
    callback settles in a later stretch, and one that throws is seen as
    rejected, which is how the executors, all [async] with their calls
    inside [try], see it.  A sleeping worker may be woken by any later
    stretch: the deadline of its timer is left to the schedule.
    [stop(true)] aborts the running signal, and with it the signal of the
    cycle, within the stretch that calls it.

    Left out: user code that calls [stop] or assigns to the options from
    within the stretch that runs it ([step] takes the options of its job,
    [run] the same ones for every job); a flow context that is [null],
    which [_initFlowContext] lets through; and the first stretch of
    [start], in which [_forcedStopOnError] stops nothing. *)
Module Flow.
Import Js.

(** How an awaited user promise settled. *)
Inductive Settled :=
| Rejected
| Fulfilled (v : value).

(** What a call of [options.initFlowContext] does.  An array item that is
    not an object is [None]. *)
Inductive FlowInit :=
| InitThrows
| InitArray (items : list (option Ctx))
| InitObject (c : Ctx)
| InitOther.

(** The environment during one synchronous stretch. *)
Record World := {
  now : Z;                                 (* [Date.now()] *)
  random : Ctx → Q;                        (* [Math.random()] for the interval of a context *)
  intervalCalls : Interval.Calls value;    (* calls of an interval function *)
  flowInits : nat → FlowInit;              (* the successive calls of [initFlowContext] *)
}.

(** The fields of [this.#state] the scheduler reads and writes. *)
Record Engine := {
  globalContext : value;
  flowsContexts : list Ctx;
  isFirstContextInit : bool;
  isConcurrencyFixed : bool;
}.

(** [_initFlowContext]: a context, an array of contexts, or [None] for
    [undefined], in which case a forced stop has been requested. *)
Definition _initFlowContext (r : FlowInit) : option (Ctx + list Ctx) :=
  match r with
  | InitThrows => None
  | InitArray [] => None
  | InitArray items =>
      match mapM id items with
      | Some ctxs => Some (inr ctxs)
      | None => None
      end
  | InitObject c => Some (inl c)
  | InitOther => None
  end.

(** The [for] loops of [_updateFlowsContexts]: [n] more contexts, from
    the [k]-th call of [initFlowContext] on.  The flag is [false] when
    the loop returned [false]. *)
Fixpoint init_each (inits : nat → FlowInit) (n k : nat) (acc : list Ctx) : list Ctx * bool :=
  match n with
  | O => (acc, true)
  | S n' =>
      match _initFlowContext (inits k) with
      | Some (inl ctx) => init_each inits n' (S k) (acc ++ [ctx])
      | Some (inr _) => (acc, false)        (* Inconsistent flow context return type *)
      | None => (acc, false)
      end
  end.

Definition getConcurrencyOptions (o : Options.t) : nat * bool * bool :=
  match Options.paginationType o with
  | Options.None_ | Options.Cursor => (1, true, false)
  | _ => (Options.concurrency o, Options.removeContextForRedundantFlows o, true)
  end.

(** [_updateFlowsContexts(beforeCycleStart)]; whenever it returns
    [false] a forced stop has been requested on the way. *)
Definition _updateFlowsContexts (o : Options.t) (beforeCycleStart : bool)
    (inits : nat → FlowInit) (e : Engine) : Engine * bool :=
  let '(concurrency, removeContextForRedundantFlows, _) := getConcurrencyOptions o in
  if beforeCycleStart then
    if negb (isFirstContextInit e) && negb (Options.resetFlowContext o) then (e, true)
    else
      match _initFlowContext (inits 0) with
      | Some (inr ctxs) =>
          ({| globalContext := globalContext e; flowsContexts := ctxs;
              isFirstContextInit := isFirstContextInit e; isConcurrencyFixed := true |}, true)
      | Some (inl ctx) =>
          let '(newFlowsContexts, ok) := init_each inits (concurrency - 1) 1 [ctx] in
          if ok then
            let redundant :=
              if removeContextForRedundantFlows then []
              else drop (length newFlowsContexts) (flowsContexts e) in
            ({| globalContext := globalContext e;
                flowsContexts := newFlowsContexts ++ redundant;
                isFirstContextInit := isFirstContextInit e;
                isConcurrencyFixed := false |}, true)
          else (e, false)
      | None => (e, false)
      end
  else
    if isConcurrencyFixed e then (e, true)
    else
      let '(ctxs, ok) :=
        init_each inits (concurrency - length (flowsContexts e)) 0 (flowsContexts e) in
      ({| globalContext := globalContext e; flowsContexts := ctxs;
          isFirstContextInit := isFirstContextInit e;
          isConcurrencyFixed := isConcurrencyFixed e |}, ok).

Section Orchestrator.
Context {DState TRetry Frame : Type}.

(** A stretch of the executor ends at an [await] on a user callback,
    leaving a frame behind, or with the executor's promise fulfilled:
    [ret] is the retry payload, [None] for [false].  [done] tells
    whether [done()] was called in the stretch. *)
Inductive Exec :=
| Awaits (d : DState) (done : bool) (k : Frame)
| Returns (d : DState) (done : bool) (ret : option TRetry).

(** A pagination driver: the executor closure it hands to the
    orchestrator, cut at its awaits, and the statements that follow
    [await this._startFlowOrchestrator(...)].  [begin] runs up to the
    call of [fetchHandler].  The two projections name the page a frame
    or a retry payload is about, the identifier the driver would put
    into [failedPageList]. *)
Record Driver := {
  begin : Ctx → count → option TRetry → Z → DState → Exec;
  resume : Frame → Settled → Z → DState → Exec;
  conclude : Z → DState → Summary.CycleSummary;
  page_of_frame : Frame → Z;
  page_of_retry : TRetry → Z;
}.

Variable drv : Driver.
Variable o : Options.t.

Record PendingRetry := {
  retry : TRetry;
  p_flows : list Ctx;          (* [flows: Set<TFlowContext>] *)
  attemptsLeft : count;
}.

(** An invocation of [handleFlowExecution] suspended at one of its
    awaits. *)
Inductive Task :=
| Sleeping (pendingRetry : option PendingRetry)
| Executing (attemptsLeft : count) (pendingRetry : option PendingRetry) (k : Frame)
| Settling (attemptsLeft : count) (pendingRetry : option PendingRetry)
           (ret : option TRetry).

Record State := {
  (* the closure of [_startFlowOrchestrator] *)
  flows : list Ctx;
  pendingRetries : list PendingRetry;
  flowsLastExecution : gmap Ctx Z;
  firstPageReady : bool;
  executorDone : bool;
  resolved : bool;
  (* the scheduler object and the driver's closure *)
  engine : Engine;
  driver : DState;
  (* the event loop *)
  tasks : gmap Ctx Task;       (* suspended [handleFlowExecution] calls *)
  ticks : nat;                 (* queued [process.nextTick(startFlows)] *)
  aborted : bool;              (* [signal.aborted] *)
  summary : option Summary.CycleSummary;   (* what the cycle handler returned *)
  (* observations *)
  fetched : list (Z * Ctx);    (* calls of [fetchHandler]: page and context *)
  dropped : list Z;            (* retries the executor returned [false] for at once *)
}.

Definition set_flows (x : list Ctx) (st : State) : State :=
  {| flows := x; pendingRetries := pendingRetries st;
     flowsLastExecution := flowsLastExecution st; firstPageReady := firstPageReady st;
     executorDone := executorDone st; resolved := resolved st; engine := engine st;
     driver := driver st; tasks := tasks st; ticks := ticks st; aborted := aborted st;
     summary := summary st; fetched := fetched st; dropped := dropped st |}.

Definition set_pendingRetries (x : list PendingRetry) (st : State) : State :=
  {| flows := flows st; pendingRetries := x;
     flowsLastExecution := flowsLastExecution st; firstPageReady := firstPageReady st;
     executorDone := executorDone st; resolved := resolved st; engine := engine st;
     driver := driver st; tasks := tasks st; ticks := ticks st; aborted := aborted st;
     summary := summary st; fetched := fetched st; dropped := dropped st |}.

Definition set_flowsLastExecution (x : gmap Ctx Z) (st : State) : State :=
  {| flows := flows st; pendingRetries := pendingRetries st;
     flowsLastExecution := x; firstPageReady := firstPageReady st;
     executorDone := executorDone st; resolved := resolved st; engine := engine st;
     driver := driver st; tasks := tasks st; ticks := ticks st; aborted := aborted st;
     summary := summary st; fetched := fetched st; dropped := dropped st |}.

Definition set_firstPageReady (x : bool) (st : State) : State :=
  {| flows := flows st; pendingRetries := pendingRetries st;
     flowsLastExecution := flowsLastExecution st; firstPageReady := x;
     executorDone := executorDone st; resolved := resolved st; engine := engine st;
     driver := driver st; tasks := tasks st; ticks := ticks st; aborted := aborted st;
     summary := summary st; fetched := fetched st; dropped := dropped st |}.

Definition set_executorDone (x : bool) (st : State) : State :=
  {| flows := flows st; pendingRetries := pendingRetries st;
     flowsLastExecution := flowsLastExecution st; firstPageReady := firstPageReady st;
     executorDone := x; resolved := resolved st; engine := engine st;
     driver := driver st; tasks := tasks st; ticks := ticks st; aborted := aborted st;
     summary := summary st; fetched := fetched st; dropped := dropped st |}.

Definition set_resolved (x : bool) (s : option Summary.CycleSummary) (st : State) : State :=
  {| flows := flows st; pendingRetries := pendingRetries st;
     flowsLastExecution := flowsLastExecution st; firstPageReady := firstPageReady st;
     executorDone := executorDone st; resolved := x; engine := engine st;
     driver := driver st; tasks := tasks st; ticks := ticks st; aborted := aborted st;
     summary := s; fetched := fetched st; dropped := dropped st |}.

Definition set_engine (x : Engine) (st : State) : State :=
  {| flows := flows st; pendingRetries := pendingRetries st;
     flowsLastExecution := flowsLastExecution st; firstPageReady := firstPageReady st;
     executorDone := executorDone st; resolved := resolved st; engine := x;
     driver := driver st; tasks := tasks st; ticks := ticks st; aborted := aborted st;
     summary := summary st; fetched := fetched st; dropped := dropped st |}.

Definition set_driver (x : DState) (st : State) : State :=
  {| flows := flows st; pendingRetries := pendingRetries st;
     flowsLastExecution := flowsLastExecution st; firstPageReady := firstPageReady st;
     executorDone := executorDone st; resolved := resolved st; engine := engine st;
     driver := x; tasks := tasks st; ticks := ticks st; aborted := aborted st;
     summary := summary st; fetched := fetched st; dropped := dropped st |}.

Definition set_tasks (x : gmap Ctx Task) (st : State) : State :=
  {| flows := flows st; pendingRetries := pendingRetries st;
     flowsLastExecution := flowsLastExecution st; firstPageReady := firstPageReady st;
     executorDone := executorDone st; resolved := resolved st; engine := engine st;
     driver := driver st; tasks := x; ticks := ticks st; aborted := aborted st;
     summary := summary st; fetched := fetched st; dropped := dropped st |}.

Definition set_ticks (x : nat) (st : State) : State :=
  {| flows := flows st; pendingRetries := pendingRetries st;
     flowsLastExecution := flowsLastExecution st; firstPageReady := firstPageReady st;
     executorDone := executorDone st; resolved := resolved st; engine := engine st;
     driver := driver st; tasks := tasks st; ticks := x; aborted := aborted st;
     summary := summary st; fetched := fetched st; dropped := dropped st |}.

Definition set_aborted (x : bool) (st : State) : State :=
  {| flows := flows st; pendingRetries := pendingRetries st;
     flowsLastExecution := flowsLastExecution st; firstPageReady := firstPageReady st;
     executorDone := executorDone st; resolved := resolved st; engine := engine st;
     driver := driver st; tasks := tasks st; ticks := ticks st; aborted := x;
     summary := summary st; fetched := fetched st; dropped := dropped st |}.

Definition set_fetched (x : list (Z * Ctx)) (st : State) : State :=
  {| flows := flows st; pendingRetries := pendingRetries st;
     flowsLastExecution := flowsLastExecution st; firstPageReady := firstPageReady st;
     executorDone := executorDone st; resolved := resolved st; engine := engine st;
     driver := driver st; tasks := tasks st; ticks := ticks st; aborted := aborted st;
     summary := summary st; fetched := x; dropped := dropped st |}.

Definition set_dropped (x : list Z) (st : State) : State :=
  {| flows := flows st; pendingRetries := pendingRetries st;
     flowsLastExecution := flowsLastExecution st; firstPageReady := firstPageReady st;
     executorDone := executorDone st; resolved := resolved st; engine := engine st;
     driver := driver st; tasks := tasks st; ticks := ticks st; aborted := aborted st;
     summary := summary st; fetched := fetched st; dropped := x |}.

(** [finish]: resolves the orchestrator's promise once.  The cycle
    handler awaiting it continues before any other job can touch the
    driver's closure, so its summary is taken here. *)
Definition finish (w : World) (st : State) : State :=
  if resolved st then st
  else set_resolved true (Some (conclude drv (now w) (driver st))) st.

(** [_forcedStopOnError]: [stop(true)] aborts the running signal, whose
    listener aborts the signal of the cycle; [finish] listens to it. *)
Definition forcedStop (w : World) (st : State) : State :=
  finish w (set_aborted true st).

(** [done()] *)
Definition mark_done (done : bool) (st : State) : State :=
  if done then set_executorDone true st else st.

(** [flows.delete(ctx); process.nextTick(startFlows); return] *)
Definition release (ctx : Ctx) (st : State) : State :=
  set_ticks (S (ticks st))
    (set_tasks (delete ctx (tasks st)) (set_flows (set_delete ctx (flows st)) st)).

(** [handleFlowExecution] from [const attemptsLeft = ...] to the await
    on the executor. *)
Definition callExecutor (w : World) (ctx : Ctx) (pendingRetry : option PendingRetry)
    (st : State) : State :=
  let a :=
    match pendingRetry with
    | Some pr => attemptsLeft pr
    | None => Options.retryLimit (Options.errorHandlingPolicy o)
    end in
  match begin drv ctx a (retry <$> pendingRetry) (now w) (driver st) with
  | Awaits d done k =>
      set_tasks (<[ctx := Executing a pendingRetry k]> (tasks st))
        (set_fetched (fetched st ++ [(page_of_frame drv k, ctx)])
           (mark_done done (set_driver d st)))
  | Returns d done ret =>
      set_tasks (<[ctx := Settling a pendingRetry ret]> (tasks st))
        (set_dropped
           (match pendingRetry with
            | Some pr => dropped st ++ [page_of_retry drv (retry pr)]
            | None => dropped st
            end)
           (mark_done done (set_driver d st)))
  end.

(** [handleFlowExecution] after the interval has been waited for:
    [lastExecution.time = Date.now()] and the test that follows. *)
Definition afterInterval (w : World) (ctx : Ctx) (pendingRetry : option PendingRetry)
    (canceled : bool) (st : State) : State :=
  let st := set_flowsLastExecution (<[ctx := now w]> (flowsLastExecution st)) st in
  if canceled || (executorDone st && negb (Validate.defined pendingRetry))
  then release ctx st
  else callExecutor w ctx pendingRetry st.

(** [handleFlowExecution(ctx, pendingRetry)] up to its first await. *)
Definition handleFlowExecution (w : World) (ctx : Ctx) (pendingRetry : option PendingRetry)
    (st : State) : State :=
  match flowsLastExecution st !! ctx with
  | Some time =>
      let elapsedTime := (now w - time)%Z in
      let interval :=
        Interval.computeInterval (intervalCalls w) o (globalContext (engine st))
          (random w ctx) Interval.interval (Some ctx) in
      let wait :=
        match Options.intervalStrategy o with
        | Options.dynamic => (interval - elapsedTime)%Z
        | Options.fixed => interval
        end in
      if (0 <? wait)%Z
      then set_tasks (<[ctx := Sleeping pendingRetry]> (tasks st)) st   (* await sleep *)
      else afterInterval w ctx pendingRetry false st
  | None =>
      callExecutor w ctx pendingRetry
        (set_flowsLastExecution (<[ctx := now w]> (flowsLastExecution st)) st)
  end.

(** The continuation of [await executor(...)]. *)
Definition afterExecutor (ctx : Ctx) (a : count) (pendingRetry : option PendingRetry)
    (ret : option TRetry) (st : State) : State :=
  let st :=
    match ret with
    | None => set_firstPageReady true st
    | Some r =>
        if negb (is_zero a) then
          let flows0 :=
            match pendingRetry with Some pr => p_flows pr | None => [] end in
          set_pendingRetries
            (pendingRetries st ++
               [{| retry := r; p_flows := set_add ctx flows0; attemptsLeft := pred a |}])
            st
        else st
    end in
  release ctx st.

(** *** [startFlows] *)

(** The concurrency in force at this call. *)
Definition currentConcurrency (st : State) : Z :=
  let '(concurrency, _, concurrencySupported) := getConcurrencyOptions o in
  match Options.paginationType o with
  | Options.TotalPages =>
      if negb (Options.paginationPrefetch o) && negb (firstPageReady st) then 1%Z
      else if concurrencySupported && isConcurrencyFixed (engine st)
           then Z.of_nat (length (flowsContexts (engine st)))
           else Z.of_nat concurrency
  | _ =>
      if concurrencySupported && isConcurrencyFixed (engine st)
      then Z.of_nat (length (flowsContexts (engine st)))
      else Z.of_nat concurrency
  end.

(** The compatibility records built for the pending retries, known by
    the position of their retry in [pendingRetries]: [availableFlows]
    per record, [compatibilityMap] from a context to the record holding
    it, and [retryQueue]. *)
Record Matching := {
  availableFlows : gmap nat (list Ctx);
  compatibilityMap : gmap Ctx nat;
  retryQueue : list (nat * PendingRetry);
}.

Definition no_matching : Matching :=
  {| availableFlows := ∅; compatibilityMap := ∅; retryQueue := [] |}.

Definition flows_of (i : nat) (m : Matching) : list Ctx :=
  default [] (availableFlows m !! i).

(** The body of [for (const ctx of availableFlows)] for record [i]. *)
Definition offer (i : nat) (m : Matching) (ctx : Ctx) : Matching :=
  let claim (m : Matching) :=
    {| availableFlows := <[i := set_add ctx (flows_of i m)]> (availableFlows m);
       compatibilityMap := <[ctx := i]> (compatibilityMap m);
       retryQueue := retryQueue m |} in
  match compatibilityMap m !! ctx with
  | Some j =>
      (* Leave at least one flow *)
      if length (flows_of j m) <=? 1 then m
      else claim {| availableFlows := <[j := set_delete ctx (flows_of j m)]> (availableFlows m);
                    compatibilityMap := compatibilityMap m;
                    retryQueue := retryQueue m |}
  | None => claim m
  end.

(** [for (const pendingRetry of pendingRetries)], from position [i]
    on.  Returns the retries (a retry that has visited every context
    has its set reset), the matching and [freeFlowsLeft]. *)
Fixpoint matchRetries (freeContexts : list Ctx) (nContexts : nat) (i : nat)
    (prs : list PendingRetry) (m : Matching) (freeFlowsLeft : Z)
  : list PendingRetry * Matching * Z :=
  match prs with
  | [] => ([], m, freeFlowsLeft)
  | pr :: rest =>
      let reset := nContexts <=? length (p_flows pr) in
      let pr' :=
        if reset
        then {| retry := retry pr; p_flows := []; attemptsLeft := attemptsLeft pr |}
        else pr in
      let available :=
        if reset then freeContexts
        else filter (λ ctx, ctx ∉ p_flows pr) freeContexts in
      let m1 :=
        fold_left (offer i) available
          {| availableFlows := <[i := []]> (availableFlows m);
             compatibilityMap := compatibilityMap m;
             retryQueue := retryQueue m |} in
      match flows_of i m1 with
      | _ :: _ =>
          let m2 :=
            {| availableFlows := availableFlows m1;
               compatibilityMap := compatibilityMap m1;
               retryQueue := retryQueue m1 ++ [(i, pr')] |} in
          let freeFlowsLeft := (freeFlowsLeft - 1)%Z in
          if (freeFlowsLeft <=? 0)%Z then (pr' :: rest, m2, freeFlowsLeft)
          else
            let '(rest', m3, remaining) :=
              matchRetries freeContexts nContexts (S i) rest m2 freeFlowsLeft in
            (pr' :: rest', m3, remaining)
      | [] =>
          let '(rest', m3, remaining) :=
            matchRetries freeContexts nContexts (S i) rest m1 freeFlowsLeft in
          (pr' :: rest', m3, remaining)
      end
  end.

(** [for (const { pendingRetry, availableFlows } of retryQueue)].  The
    pending retries carry their original position so that the splice
    removes the very record.  The flag is [false] when the loop left
    through the forced stop. *)
Fixpoint dispatchRetries (w : World) (m : Matching) (queue : list (nat * PendingRetry))
    (indexed : list (nat * PendingRetry)) (freeContexts : list Ctx) (st : State)
  : State * list Ctx * bool :=
  match queue with
  | [] => (st, freeContexts, true)
  | (i, pendingRetry) :: rest =>
      match flows_of i m with
      | [] => (forcedStop w st, freeContexts, false)
      | ctx :: _ =>
          let indexed := filter (λ e, e.1 ≠ i) indexed in
          let st := set_pendingRetries (indexed.*2) st in
          let st := set_flows (set_add ctx (flows st)) st in
          let st := handleFlowExecution w ctx (Some pendingRetry) st in
          dispatchRetries w m rest indexed (set_delete ctx freeContexts) st
      end
  end.

(** The final [for (const ctx of freeContexts)]. *)
Fixpoint dispatchFresh (w : World) (freeContexts : list Ctx) (freeFlowsLeft : Z)
    (st : State) : State :=
  match freeContexts with
  | [] => st
  | ctx :: rest =>
      let '(pendingRetry, st) :=
        if Options.retryDistinctFlows (Options.errorHandlingPolicy o) then (None, st)
        else
          match pendingRetries st with
          | pr :: prs => (Some pr, set_pendingRetries prs st)
          | [] => (None, st)
          end in
      if executorDone st && negb (Validate.defined pendingRetry) then st
      else
        let st := set_flows (set_add ctx (flows st)) st in
        let st := handleFlowExecution w ctx pendingRetry st in
        let freeFlowsLeft := (freeFlowsLeft - 1)%Z in
        if (freeFlowsLeft <=? 0)%Z then st
        else dispatchFresh w rest freeFlowsLeft st
  end.

Definition quiescent (st : State) : bool :=
  executorDone st
  && match flows st with [] => true | _ => false end
  && match pendingRetries st with [] => true | _ => false end.

Definition startFlows (w : World) (st : State) : State :=
  if resolved st then st
  else if quiescent st then finish w st
  else
    let '(e, ok) := _updateFlowsContexts o false (flowInits w) (engine st) in
    let st := set_engine e st in
    if negb ok then forcedStop w st
    else
      let freeFlowsLeft := (currentConcurrency st - Z.of_nat (length (flows st)))%Z in
      if (freeFlowsLeft <=? 0)%Z then st
      else
        let freeContexts :=
          set_of_list (filter (λ ctx, ctx ∉ flows st) (flowsContexts (engine st))) in
        if Options.retryDistinctFlows (Options.errorHandlingPolicy o) then
          let '(prs, m, freeFlowsLeft) :=
            matchRetries freeContexts (length (flowsContexts (engine st))) 0
              (pendingRetries st) no_matching freeFlowsLeft in
          let st := set_pendingRetries prs st in
          let '(st, freeContexts, ok) :=
            dispatchRetries w m (retryQueue m) (imap pair prs) freeContexts st in
          if negb ok then st
          else if (freeFlowsLeft <=? 0)%Z then st
          else dispatchFresh w freeContexts freeFlowsLeft st
        else dispatchFresh w freeContexts freeFlowsLeft st.

(** *** The event loop *)

(** The jobs that can run next. *)
Inductive Job :=
| Tick                                 (* a queued [startFlows] *)
| Wake (ctx : Ctx)                     (* the sleep of [ctx] settled *)
| Settle (ctx : Ctx) (s : Settled)     (* the callback awaited on [ctx] settled *)
| Continue (ctx : Ctx)                 (* the executor of [ctx] has returned *)
| Abort.                               (* the signal of the cycle fires *)

(** One job; [None] when that job is not pending. *)
Definition step (w : World) (j : Job) (st : State) : option State :=
  match j with
  | Tick =>
      match ticks st with
      | O => None
      | S n => Some (startFlows w (set_ticks n st))
      end
  | Wake ctx =>
      match tasks st !! ctx with
      | Some (Sleeping pendingRetry) =>
          Some (afterInterval w ctx pendingRetry (aborted st) st)
      | _ => None
      end
  | Settle ctx s =>
      match tasks st !! ctx with
      | Some (Executing a pendingRetry k) =>
          match resume drv k s (now w) (driver st) with
          | Awaits d done k' =>
              Some (set_tasks (<[ctx := Executing a pendingRetry k']> (tasks st))
                      (mark_done done (set_driver d st)))
          | Returns d done ret =>
              Some (set_tasks (<[ctx := Settling a pendingRetry ret]> (tasks st))
                      (mark_done done (set_driver d st)))
          end
      | _ => None
      end
  | Continue ctx =>
      match tasks st !! ctx with
      | Some (Settling a pendingRetry ret) =>
          Some (afterExecutor ctx a pendingRetry ret st)
      | _ => None
      end
  | Abort =>
      if aborted st then None else Some (forcedStop w st)
  end.

(** A schedule is the list of jobs the event loop ran, each with the
    world it ran in. *)
Fixpoint run (schedule : list (World * Job)) (st : State) : option State :=
  match schedule with
  | [] => Some st
  | (w, j) :: rest =>
      match step w j st with
      | Some st' => run rest st'
      | None => None
      end
  end.

(** [_startFlowOrchestrator(executor, signal)] up to the end of the
    promise's initialiser. *)
Definition _startFlowOrchestrator (w : World) (signalAborted : bool) (e : Engine)
    (d : DState) : State :=
  let st :=
    {| flows := []; pendingRetries := []; flowsLastExecution := ∅;
       firstPageReady := false; executorDone := false; resolved := false;
       engine := e; driver := d; tasks := ∅; ticks := 0; aborted := signalAborted;
       summary := None; fetched := []; dropped := [] |} in
  if signalAborted then finish w st else startFlows w st.

End Orchestrator.

Arguments Exec : clear implicits.
Arguments Driver : clear implicits.
Arguments PendingRetry : clear implicits.
Arguments Task : clear implicits.
Arguments State : clear implicits.

End Flow.

(** ** The pagination drivers ([_handlePagination*Cycle] in src/scraper-flow.ts)

    Each driver gives the executor it passes to the orchestrator, cut at
    the awaits on [fetchHandler] and on its resolver, the closure
    variables the executor shares, and the statements after the await on
    the orchestrator.  A callback that throws and one whose promise rejects
    both arrive as [Rejected].  [_handleResponse] starts the response
    handler without awaiting it and changes nothing the scheduler reads.
    A page number is an integer-valued double counted up by
    [nextPage++], which is [Js.incr]. *)
Module Drivers.
Import Js Flow Summary.

Section WithOptions.
Variable o : Options.t.

Definition policy := Options.errorHandlingPolicy o.

(** The statements shared by the ends of the TotalPages and HasMore
    executors, from [summaryHelper.addAvgTiming('all', ...)] to the
    call of [failCounter.fail]: the helper, the counter and whether
    [done()] was called. *)
Definition account (successful : bool) (elapsed : Z) (attemptsLeft : count) (page : Z)
    (h : Helper) (fc : FailCounter.t) : Helper * FailCounter.t * bool :=
  let h := addAvgTiming All elapsed h in
  if successful then (addAvgTiming Successful elapsed h, FailCounter.success fc, false)
  else
    let h := addAvgTiming Failed elapsed (count_error h) in
    if is_zero attemptsLeft then
      let '(fc', cannotSkipMore) := FailCounter.fail policy (Some page) fc in
      (add_failed page h, fc', cannotSkipMore)
    else (h, fc, false).

(** *** [PaginationType.None] *)

Record NoneFrame := {
  n_startTime : Z;
  n_attemptsLeft : count;
}.

Definition none_init (now : Z) : Helper :=
  with_totalPageCount 1 (Summary.new now).

Definition none_begin (ctx : Ctx) (attemptsLeft : count) (retry : option unit) (now : Z)
    (h : Helper) : Exec Helper unit NoneFrame :=
  (* done(): we have only one page to fetch *)
  Awaits h true {| n_startTime := now; n_attemptsLeft := attemptsLeft |}.

Definition none_resume (k : NoneFrame) (s : Settled) (now : Z) (h : Helper)
  : Exec Helper unit NoneFrame :=
  let elapsed := (now - n_startTime k)%Z in
  match s with
  | Fulfilled response =>
      let h := addAvgTiming Successful elapsed (with_completed true h) in
      Returns (addAvgTiming All elapsed h) false None
  | Rejected =>
      let h := addAvgTiming Failed elapsed (count_error h) in
      let h := if is_zero (n_attemptsLeft k) then add_failed 1 h else h in
      Returns (addAvgTiming All elapsed h) false (Some tt)
  end.

Definition none_driver : Driver Helper unit NoneFrame :=
  {| begin := none_begin;
     resume := none_resume;
     conclude := λ now h, summarize now h;
     page_of_frame := λ _, 1%Z;
     page_of_retry := λ _, 1%Z |}.

(** *** [PaginationType.TotalPages] *)

Record TotalPagesState := {
  tp_summaryHelper : Helper;
  tp_failCounter : FailCounter.t;
  tp_nextPage : Z;
  tp_lastPage : option Q;
}.

(** The frame holds [response] once [fetchHandler] has returned and the
    executor awaits [resolveTotalPages]. *)
Record PageFrame := {
  startTime : Z;
  page : Z;
  f_attemptsLeft : count;
  response : option value;
}.

Definition totalPages_init (now : Z) : TotalPagesState :=
  {| tp_summaryHelper := Summary.new now;
     tp_failCounter := FailCounter.init;
     tp_nextPage := Options.paginationStart o;
     tp_lastPage := None |}.

Definition totalPages_begin (ctx : Ctx) (attemptsLeft : count) (retry : option Z) (now : Z)
    (d : TotalPagesState) : Exec TotalPagesState Z PageFrame :=
  match retry with
  | Some p =>
      Awaits d false
        {| startTime := now; page := p; f_attemptsLeft := attemptsLeft; response := None |}
  | None =>
      let p := tp_nextPage d in
      let last :=
        match tp_lastPage d with
        | Some lastPage => Qle_bool lastPage (inject_Z p)
        | None => false
        end in
      Awaits
        {| tp_summaryHelper :=
             if last then with_completed true (tp_summaryHelper d) else tp_summaryHelper d;
           tp_failCounter := tp_failCounter d;
           tp_nextPage := incr p;
           tp_lastPage := tp_lastPage d |}
        last
        {| startTime := now; page := p; f_attemptsLeft := attemptsLeft; response := None |}
  end.

Definition totalPages_end (successful : bool) (k : PageFrame) (now : Z)
    (d : TotalPagesState) : Exec TotalPagesState Z PageFrame :=
  let '(h, fc, done) :=
    account successful (now - startTime k) (f_attemptsLeft k) (page k)
      (tp_summaryHelper d) (tp_failCounter d) in
  Returns
    {| tp_summaryHelper := h; tp_failCounter := fc;
       tp_nextPage := tp_nextPage d; tp_lastPage := tp_lastPage d |}
    done
    (if successful then None else Some (page k)).

Definition totalPages_resume (k : PageFrame) (s : Settled) (now : Z)
    (d : TotalPagesState) : Exec TotalPagesState Z PageFrame :=
  match response k, s with
  | None, Fulfilled r =>
      Awaits d false
        {| startTime := startTime k; page := page k;
           f_attemptsLeft := f_attemptsLeft k; response := Some r |}
  | None, Rejected => totalPages_end false k now d
  | Some _, Fulfilled (VNumber (Num totalPages)) =>
      totalPages_end true k now
        {| tp_summaryHelper := with_totalPageCount totalPages (tp_summaryHelper d);
           tp_failCounter := tp_failCounter d;
           tp_nextPage := tp_nextPage d;
           tp_lastPage := Some totalPages |}
  | Some _, _ => totalPages_end false k now d
  end.

Definition totalPages_conclude (now : Z) (d : TotalPagesState) : CycleSummary :=
  let h := tp_summaryHelper d in
  summarize now
    (with_completed
       (completed h && (FailCounter.complete policy (tp_lastPage d) (tp_failCounter d)).2)
       h).

Definition totalPages_driver : Driver TotalPagesState Z PageFrame :=
  {| begin := totalPages_begin;
     resume := totalPages_resume;
     conclude := totalPages_conclude;
     page_of_frame := page;
     page_of_retry := λ p, p |}.

(** *** [PaginationType.HasMore] *)

Record HasMoreState := {
  hm_summaryHelper : Helper;
  hm_failCounter : FailCounter.t;
  hm_nextPage : Z;
  hm_lastPage : option Z;
}.

Definition hasMore_init (now : Z) : HasMoreState :=
  {| hm_summaryHelper := Summary.new now;
     hm_failCounter := FailCounter.init;
     hm_nextPage := Options.paginationStart o;
     hm_lastPage := None |}.

Definition beyond (lastPage : option Z) (p : Z) : bool :=
  match lastPage with
  | Some l => (l <? p)%Z
  | None => false
  end.

Definition hasMore_begin (ctx : Ctx) (attemptsLeft : count) (retry : option Z) (now : Z)
    (d : HasMoreState) : Exec HasMoreState Z PageFrame :=
  match retry with
  | Some p =>
      if beyond (hm_lastPage d) p then Returns d false None
      else
        Awaits d false
          {| startTime := now; page := p; f_attemptsLeft := attemptsLeft;
             response := None |}
  | None =>
      Awaits
        {| hm_summaryHelper := hm_summaryHelper d;
           hm_failCounter := hm_failCounter d;
           hm_nextPage := incr (hm_nextPage d);
           hm_lastPage := hm_lastPage d |}
        false
        {| startTime := now; page := hm_nextPage d; f_attemptsLeft := attemptsLeft;
           response := None |}
  end.

Definition hasMore_end (successful : bool) (done0 : bool) (k : PageFrame) (now : Z)
    (d : HasMoreState) : Exec HasMoreState Z PageFrame :=
  let '(h, fc, done) :=
    account successful (now - startTime k) (f_attemptsLeft k) (page k)
      (hm_summaryHelper d) (hm_failCounter d) in
  Returns
    {| hm_summaryHelper := h; hm_failCounter := fc;
       hm_nextPage := hm_nextPage d; hm_lastPage := hm_lastPage d |}
    (done0 || done)
    (if successful then None else Some (page k)).

Definition hasMore_resume (k : PageFrame) (s : Settled) (now : Z) (d : HasMoreState)
  : Exec HasMoreState Z PageFrame :=
  match response k, s with
  | None, Fulfilled r =>
      Awaits d false
        {| startTime := startTime k; page := page k;
           f_attemptsLeft := f_attemptsLeft k; response := Some r |}
  | None, Rejected => hasMore_end false false k now d
  | Some _, Fulfilled hasMore =>
      if truthy hasMore then hasMore_end true false k now d
      else
        let h := with_completed true (hm_summaryHelper d) in
        let earlier :=
          match hm_lastPage d with
          | Some l => (page k <? l)%Z
          | None => true
          end in
        hasMore_end true true k now
          {| hm_summaryHelper :=
               if earlier then with_totalPageCount (inject_Z (page k)) h else h;
             hm_failCounter := hm_failCounter d;
             hm_nextPage := hm_nextPage d;
             hm_lastPage := if earlier then Some (page k) else hm_lastPage d |}
  | Some _, Rejected => hasMore_end false false k now d
  end.

Definition hasMore_conclude (now : Z) (d : HasMoreState) : CycleSummary :=
  let h := hm_summaryHelper d in
  summarize now
    (with_completed
       (completed h
        && (FailCounter.complete policy (inject_Z <$> hm_lastPage d) (hm_failCounter d)).2)
       h).

Definition hasMore_driver : Driver HasMoreState Z PageFrame :=
  {| begin := hasMore_begin;
     resume := hasMore_resume;
     conclude := hasMore_conclude;
     page_of_frame := page;
     page_of_retry := λ p, p |}.

(** *** [PaginationType.Cursor] *)

Record CursorState := {
  c_summaryHelper : Helper;
  c_nextPageCursor : value;
  c_nextPageNum : Z;
}.

Record CursorRetry := {
  r_cursor : value;
  r_pageNum : Z;
}.

Record CursorFrame := {
  c_startTime : Z;
  cursor : value;
  pageNum : Z;
  c_attemptsLeft : count;
  c_response : option value;
}.

Definition cursor_init (now : Z) : CursorState :=
  {| c_summaryHelper := Summary.new now;
     c_nextPageCursor := VUndefined;
     c_nextPageNum := 1 |}.

Definition cursor_begin (ctx : Ctx) (attemptsLeft : count) (retry : option CursorRetry)
    (now : Z) (d : CursorState) : Exec CursorState CursorRetry CursorFrame :=
  match retry with
  | Some r =>
      Awaits d false
        {| c_startTime := now; cursor := r_cursor r; pageNum := r_pageNum r;
           c_attemptsLeft := attemptsLeft; c_response := None |}
  | None =>
      Awaits
        {| c_summaryHelper := c_summaryHelper d;
           c_nextPageCursor := c_nextPageCursor d;
           c_nextPageNum := incr (c_nextPageNum d) |}
        false
        {| c_startTime := now; cursor := c_nextPageCursor d; pageNum := c_nextPageNum d;
           c_attemptsLeft := attemptsLeft; c_response := None |}
  end.

Definition cursor_end (successful : bool) (done0 : bool) (k : CursorFrame) (now : Z)
    (d : CursorState) : Exec CursorState CursorRetry CursorFrame :=
  let elapsed := (now - c_startTime k)%Z in
  let h := addAvgTiming All elapsed (c_summaryHelper d) in
  if successful then
    Returns
      {| c_summaryHelper := addAvgTiming Successful elapsed h;
         c_nextPageCursor := c_nextPageCursor d; c_nextPageNum := c_nextPageNum d |}
      done0 None
  else
    let h := addAvgTiming Failed elapsed (count_error h) in
    let exhausted := is_zero (c_attemptsLeft k) in
    Returns
      {| c_summaryHelper := if exhausted then add_failed (pageNum k) h else h;
         c_nextPageCursor := c_nextPageCursor d; c_nextPageNum := c_nextPageNum d |}
      (done0 || exhausted)
      (Some {| r_cursor := cursor k; r_pageNum := pageNum k |}).

Definition cursor_resume (k : CursorFrame) (s : Settled) (now : Z) (d : CursorState)
  : Exec CursorState CursorRetry CursorFrame :=
  match c_response k, s with
  | None, Fulfilled r =>
      Awaits d false
        {| c_startTime := c_startTime k; cursor := cursor k; pageNum := pageNum k;
           c_attemptsLeft := c_attemptsLeft k; c_response := Some r |}
  | None, Rejected => cursor_end false false k now d
  | Some _, Fulfilled resolvedCursor =>
      if not_nullish resolvedCursor then
        cursor_end true false k now
          {| c_summaryHelper := c_summaryHelper d;
             c_nextPageCursor := resolvedCursor;
             c_nextPageNum := c_nextPageNum d |}
      else
        cursor_end true true k now
          {| c_summaryHelper := with_completed true (c_summaryHelper d);
             c_nextPageCursor := c_nextPageCursor d;
             c_nextPageNum := c_nextPageNum d |}
  | Some _, Rejected => cursor_end false false k now d
  end.

Definition cursor_conclude (now : Z) (d : CursorState) : CycleSummary :=
  summarize now
    (with_totalPageCount (inject_Z (c_nextPageNum d - 1)) (c_summaryHelper d)).

Definition cursor_driver : Driver CursorState CursorRetry CursorFrame :=
  {| begin := cursor_begin;
     resume := cursor_resume;
     conclude := cursor_conclude;
     page_of_frame := pageNum;
     page_of_retry := r_pageNum |}.

(** *** [PaginationType.List] *)

Record ListState := {
  l_summaryHelper : Helper;
  l_failCounter : FailCounter.t;
  pageListItems : list value;
  nextPageIndex : nat;
}.

Record ListRetry := {
  r_item : value;
  r_index : nat;
}.

Record ListFrame := {
  l_startTime : Z;
  item : value;
  index : nat;
  l_attemptsLeft : count;
}.

Definition list_init (now : Z) (items : list value) : ListState :=
  {| l_summaryHelper := Summary.new now;
     l_failCounter := FailCounter.init;
     pageListItems := items;
     nextPageIndex := 0 |}.

Definition list_begin (ctx : Ctx) (attemptsLeft : count) (retry : option ListRetry)
    (now : Z) (d : ListState) : Exec ListState ListRetry ListFrame :=
  match retry with
  | Some r =>
      Awaits d false
        {| l_startTime := now; item := r_item r; index := r_index r;
           l_attemptsLeft := attemptsLeft |}
  | None =>
      let i := nextPageIndex d in
      let it := default VUndefined (pageListItems d !! i) in
      let last := length (pageListItems d) <=? S i in
      let d' :=
        {| l_summaryHelper :=
             if last then with_completed true (l_summaryHelper d) else l_summaryHelper d;
           l_failCounter := l_failCounter d;
           pageListItems := pageListItems d;
           nextPageIndex := S i |} in
      if length (pageListItems d) <=? i then Returns d' last None
      else
        Awaits d' last
          {| l_startTime := now; item := it; index := i; l_attemptsLeft := attemptsLeft |}
  end.

Definition list_resume (k : ListFrame) (s : Settled) (now : Z) (d : ListState)
  : Exec ListState ListRetry ListFrame :=
  let elapsed := (now - l_startTime k)%Z in
  match s with
  | Fulfilled response =>
      let h := addAvgTiming Successful elapsed (l_summaryHelper d) in
      Returns
        {| l_summaryHelper := addAvgTiming All elapsed h;
           l_failCounter := FailCounter.success (l_failCounter d);
           pageListItems := pageListItems d;
           nextPageIndex := nextPageIndex d |}
        false None
  | Rejected =>
      let h := addAvgTiming Failed elapsed (count_error (l_summaryHelper d)) in
      let '(h, fc, done) :=
        if is_zero (l_attemptsLeft k) then
          let '(fc', cannotSkipMore) := FailCounter.fail policy None (l_failCounter d) in
          (add_failed (Z.of_nat (index k)) h, fc', cannotSkipMore)
        else (h, l_failCounter d, false) in
      Returns
        {| l_summaryHelper := addAvgTiming All elapsed h;
           l_failCounter := fc;
           pageListItems := pageListItems d;
           nextPageIndex := nextPageIndex d |}
        done
        (Some {| r_item := item k; r_index := index k |})
  end.

Definition list_conclude (now : Z) (d : ListState) : CycleSummary :=
  let h := with_totalPageCount (inject_Z (Z.of_nat (nextPageIndex d))) (l_summaryHelper d) in
  summarize now
    (with_completed
       (completed h && (FailCounter.complete policy None (l_failCounter d)).2)
       h).

Definition list_driver : Driver ListState ListRetry ListFrame :=
  {| begin := list_begin;
     resume := list_resume;
     conclude := list_conclude;
     page_of_frame := λ k, Z.of_nat (index k);
     page_of_retry := λ r, Z.of_nat (r_index r) |}.

(** *** The cycle handlers *)

Definition _handlePaginationNoneCycle (w : World) (signalAborted : bool) (e : Engine) :=
  _startFlowOrchestrator none_driver o w signalAborted e (none_init (now w)).

Definition _handlePaginationTotalPagesCycle (w : World) (signalAborted : bool)
    (e : Engine) :=
  _startFlowOrchestrator totalPages_driver o w signalAborted e (totalPages_init (now w)).

Definition _handlePaginationHasMoreCycle (w : World) (signalAborted : bool)
    (e : Engine) :=
  _startFlowOrchestrator hasMore_driver o w signalAborted e (hasMore_init (now w)).

Definition _handlePaginationCursorCycle (w : World) (signalAborted : bool)
    (e : Engine) :=
  _startFlowOrchestrator cursor_driver o w signalAborted e (cursor_init (now w)).

(** [resolveList] is awaited first; a list that is not a non-empty
    array ends the cycle with the empty summary ([inl]). *)
Definition _handlePaginationListCycle (w : World) (signalAborted : bool) (e : Engine)
    (resolveList : Settled) :=
  match resolveList with
  | Fulfilled (VArray (it :: items)) =>
      inr (_startFlowOrchestrator list_driver o w signalAborted e
             (list_init (now w) (it :: items)))
  | _ => inl (summarize (now w) (Summary.new (now w)))
  end.

End WithOptions.

End Drivers.

(** ** Assigning to validated options

    [validateOptions] returns the proxy itself, so an assignment
    [flow.options[p] = value] made later goes through the same [set] trap
    (src/utils/validate-options.ts).  Each [trap_*] function is one [case]
    group of the trap on a target that holds [current]; by then the loop
    of [validateOptions] has defined every property that has a default,
    [paginationType] included.  The log lists what the trap hands to the
    logger; an assignment whose warning cannot be turned into text
    ([Validate.builds]) throws at that point, which the module leaves
    out. *)
Module Trap.
Import Js Options Validate.

(** What the trap logs: the warnings of the loop, and two more. *)
Inductive Notice :=
| Invalid (m : Message)
| ReadonlyProperty        (* Readonly property. *)
| UnknownProperty.        (* Unknown property. *)

Definition Log := list (string * Notice).

Definition invalid (w : Warnings) : Log := prod_map id Invalid <$> w.

(** Cases ['interval'] and ['cycleInterval']; [dflt] is what
    [undefined] assigns: the default for [interval], [undefined] for
    [cycleInterval]. *)
Definition trap_interval (p : string) (dflt current : option Interval) (value : value)
  : option Interval * Warnings :=
  match value with
  | VNumber (Num q) => (Some (Scalar (coerce_ms q)), [])
  | VNumber n => (current, [(keyPath p, InvalidNumberFinite n)])
  | VFunction f => (Some (Func f), [])
  | VArray items =>
      match items !! 0, items !! 1 with
      | Some (VNumber (Num a)), Some (VNumber (Num b)) =>
          (Some (Range (coerce_ms a) (coerce_ms b)), [])
      | _, _ => (current, [(keyPath p, InvalidRange items)])
      end
  | VUndefined => (dflt, [])
  | _ => (current, [(keyPath p, InvalidValue value)])
  end.

(** Cases ['intervalStrategy'] and ['cycleIntervalStrategy']. *)
Definition trap_strategy (p : string) (dflt current : IntervalStrategy) (value : value)
  : IntervalStrategy * Warnings :=
  match value with
  | VString s =>
      if String.eqb s "dynamic" then (dynamic, [])
      else if String.eqb s "fixed" then (fixed, [])
      else (current, [(keyPath p, InvalidStrategy s)])
  | VUndefined => (dflt, [])
  | _ => (current, [(keyPath p, InvalidValue value)])
  end.

(** Case ['concurrency']. *)
Definition trap_concurrency (current : nat) (value : value) : nat * Warnings :=
  match value with
  | VNumber (Num q) => (Z.to_nat (Z.max 1 (Qtrunc q)), [])
  | VNumber n => (current, [(keyPath "concurrency", InvalidNumberFinite n)])
  | VUndefined => (concurrency DEFAULT_OPTIONS, [])
  | _ => (current, [(keyPath "concurrency", InvalidValue value)])
  end.

(** Case ['paginationStart']. *)
Definition trap_paginationStart (current : Z) (value : value) : Z * Warnings :=
  match value with
  | VNumber (Num q) => (Qtrunc q, [])
  | VNumber n => (current, [(keyPath "paginationStart", InvalidNumberFinite n)])
  | VUndefined => (paginationStart DEFAULT_OPTIONS, [])
  | _ => (current, [(keyPath "paginationStart", InvalidValue value)])
  end.

(** The boolean cases, at the top level and inside the policy. *)
Definition trap_boolean (path : string) (dflt current : bool) (value : value)
  : bool * Warnings :=
  match value with
  | VBool b => (b, [])
  | VUndefined => (dflt, [])
  | _ => (current, [(path, InvalidValue value)])
  end.

(** Cases ['initThisContext'] and ['initFlowContext']; [None] stands for
    the default initialiser. *)
Definition trap_init (p : string) (current : option nat) (value : value)
  : option nat * Warnings :=
  match value with
  | VFunction f => (Some f, [])
  | VUndefined => (None, [])
  | _ => (current, [(keyPath p, InvalidValue value)])
  end.

(** The required functions: only a function is assigned. *)
Definition trap_required (p : string) (current : option nat) (value : value)
  : option nat * Warnings :=
  match value with
  | VFunction f => (Some f, [])
  | VUndefined => (current, [])
  | _ => (current, [(keyPath p, InvalidValue value)])
  end.

(** Cases ['responseHandler'] and ['summaryHandler']. *)
Definition trap_optional (p : string) (current : option nat) (value : value)
  : option nat * Warnings :=
  match value with
  | VFunction f => (Some f, [])
  | VUndefined => (None, [])
  | _ => (current, [(keyPath p, InvalidValue value)])
  end.

(** The numeric cases of the policy proxy. *)
Definition trap_policy_number (p : string) (dflt current : count) (value : value)
  : count * Warnings :=
  match value with
  | VNumber NaN => (current, [(policyKeyPath p, InvalidNumber NaN)])
  | VNumber n => (to_count n, [])
  | VUndefined => (dflt, [])
  | _ => (current, [(policyKeyPath p, InvalidValue value)])
  end.

(** Case ['logger']. *)
Definition trap_logger (current : Logger) (value : value) : Logger * Warnings :=
  match value with
  | VBool b => (LogFlag b, [])
  | VArray l => (LogList l, [])
  | VUndefined => (logger DEFAULT_OPTIONS, [])
  | _ => (current, [(keyPath "logger", InvalidValue value)])
  end.

(** A [case] of a [switch] on [p] writes [target[p]] only: property [k]
    is what its case leaves when [p] is [k], and is not touched
    otherwise. *)
Definition on {A} (k p : string) (trap : A → value → A * Warnings) (current : A)
    (value : value) : A * Warnings :=
  if String.eqb p k then trap current value else (current, []).

(** Known keys of the policy. *)
Definition POLICY_KEYS : list string :=
  ["retryLimit"; "retryDistinctFlows"; "skipPageIfPossible"; "maxTotalPageFails";
   "maxConsecutivePageFails"].

(** The [set] trap of the policy proxy:
    [options.errorHandlingPolicy[p] = value]. *)
Definition set_policy (p : string) (value : value) (c : ErrorHandlingPolicy)
  : ErrorHandlingPolicy * Log :=
  let rl :=
    on "retryLimit" p (trap_policy_number "retryLimit" (retryLimit DEFAULT_POLICY))
      (retryLimit c) value in
  let rdf :=
    on "retryDistinctFlows" p
      (trap_boolean (policyKeyPath "retryDistinctFlows") (retryDistinctFlows DEFAULT_POLICY))
      (retryDistinctFlows c) value in
  let skip :=
    on "skipPageIfPossible" p
      (trap_boolean (policyKeyPath "skipPageIfPossible") (skipPageIfPossible DEFAULT_POLICY))
      (skipPageIfPossible c) value in
  let mt :=
    on "maxTotalPageFails" p
      (trap_policy_number "maxTotalPageFails" (maxTotalPageFails DEFAULT_POLICY))
      (maxTotalPageFails c) value in
  let mc :=
    on "maxConsecutivePageFails" p
      (trap_policy_number "maxConsecutivePageFails" (maxConsecutivePageFails DEFAULT_POLICY))
      (maxConsecutivePageFails c) value in
  ({| retryLimit := rl.1; retryDistinctFlows := rdf.1; skipPageIfPossible := skip.1;
      maxTotalPageFails := mt.1; maxConsecutivePageFails := mc.1 |},
   invalid (rl.2 ++ rdf.2 ++ skip.2 ++ mt.2 ++ mc.2)
   ++ (if bool_decide (p ∈ POLICY_KEYS) then [] else [(policyKeyPath p, UnknownProperty)])).

(** Case ['errorHandlingPolicy']: the loop over the keys of the default
    policy, each assigned through the policy proxy. *)
Definition trap_errorHandlingPolicy (current : ErrorHandlingPolicy) (value : value)
  : ErrorHandlingPolicy * Log :=
  fold_left
    (λ acc k, let r := set_policy k (policy_prop k value) acc.1 in (r.1, acc.2 ++ r.2))
    POLICY_KEYS (current, []).

(** [Object.keys(DEFAULT_OPTIONS)] *)
Definition KEYS : list string :=
  ["interval"; "intervalStrategy"; "cycleInterval"; "cycleIntervalStrategy";
   "initThisContext"; "resetThisContext"; "initFlowContext"; "resetFlowContext";
   "responseHandler"; "summaryHandler"; "errorHandlingPolicy"; "logger"; "concurrency";
   "removeContextForRedundantFlows"; "paginationType"; "fetchHandler"; "paginationStart";
   "paginationPrefetch"; "resolveTotalPages"; "resolveHasMore"; "resolveCursor";
   "resolveList"].

(** The [set] trap of the options proxy: [options[p] = value] on
    validated options [o].  [paginationType] was defined not writable
    by the loop. *)
Definition set (p : string) (value : value) (o : Options.t) : Options.t * Log :=
  let v_interval :=
    on "interval" p (trap_interval "interval" (Some (interval DEFAULT_OPTIONS)))
      (Some (interval o)) value in
  let v_intervalStrategy :=
    on "intervalStrategy" p
      (trap_strategy "intervalStrategy" (intervalStrategy DEFAULT_OPTIONS))
      (intervalStrategy o) value in
  let v_cycleInterval :=
    on "cycleInterval" p (trap_interval "cycleInterval" None) (cycleInterval o) value in
  let v_cycleIntervalStrategy :=
    on "cycleIntervalStrategy" p
      (trap_strategy "cycleIntervalStrategy" (cycleIntervalStrategy DEFAULT_OPTIONS))
      (cycleIntervalStrategy o) value in
  let v_initThisContext :=
    on "initThisContext" p (trap_init "initThisContext") (initThisContext o) value in
  let v_resetThisContext :=
    on "resetThisContext" p
      (trap_boolean (keyPath "resetThisContext") (resetThisContext DEFAULT_OPTIONS))
      (resetThisContext o) value in
  let v_initFlowContext :=
    on "initFlowContext" p (trap_init "initFlowContext") (initFlowContext o) value in
  let v_resetFlowContext :=
    on "resetFlowContext" p
      (trap_boolean (keyPath "resetFlowContext") (resetFlowContext DEFAULT_OPTIONS))
      (resetFlowContext o) value in
  let v_responseHandler :=
    on "responseHandler" p (trap_optional "responseHandler") (responseHandler o) value in
  let v_summaryHandler :=
    on "summaryHandler" p (trap_optional "summaryHandler") (summaryHandler o) value in
  let v_policy :=
    if String.eqb p "errorHandlingPolicy"
    then trap_errorHandlingPolicy (errorHandlingPolicy o) value
    else (errorHandlingPolicy o, []) in
  let v_logger := on "logger" p trap_logger (logger o) value in
  let v_concurrency := on "concurrency" p trap_concurrency (concurrency o) value in
  let v_remove :=
    on "removeContextForRedundantFlows" p
      (trap_boolean (keyPath "removeContextForRedundantFlows")
         (removeContextForRedundantFlows DEFAULT_OPTIONS))
      (removeContextForRedundantFlows o) value in
  let v_fetchHandler :=
    on "fetchHandler" p (trap_required "fetchHandler") (fetchHandler o) value in
  let v_paginationStart :=
    on "paginationStart" p trap_paginationStart (paginationStart o) value in
  let v_paginationPrefetch :=
    on "paginationPrefetch" p
      (trap_boolean (keyPath "paginationPrefetch") (paginationPrefetch DEFAULT_OPTIONS))
      (paginationPrefetch o) value in
  let v_resolveTotalPages :=
    on "resolveTotalPages" p (trap_required "resolveTotalPages") (resolveTotalPages o)
      value in
  let v_resolveHasMore :=
    on "resolveHasMore" p (trap_required "resolveHasMore") (resolveHasMore o) value in
  let v_resolveCursor :=
    on "resolveCursor" p (trap_required "resolveCursor") (resolveCursor o) value in
  let v_resolveList :=
    on "resolveList" p (trap_required "resolveList") (resolveList o) value in
  ({| interval := default (interval o) v_interval.1;
      intervalStrategy := v_intervalStrategy.1;
      cycleInterval := v_cycleInterval.1;
      cycleIntervalStrategy := v_cycleIntervalStrategy.1;
      initThisContext := v_initThisContext.1;
      resetThisContext := v_resetThisContext.1;
      initFlowContext := v_initFlowContext.1;
      resetFlowContext := v_resetFlowContext.1;
      responseHandler := v_responseHandler.1;
      summaryHandler := v_summaryHandler.1;
      errorHandlingPolicy := v_policy.1;
      logger := v_logger.1;
      concurrency := v_concurrency.1;
      removeContextForRedundantFlows := v_remove.1;
      paginationType := paginationType o;
      fetchHandler := v_fetchHandler.1;
      paginationStart := v_paginationStart.1;
      paginationPrefetch := v_paginationPrefetch.1;
      resolveTotalPages := v_resolveTotalPages.1;
      resolveHasMore := v_resolveHasMore.1;
      resolveCursor := v_resolveCursor.1;
      resolveList := v_resolveList.1 |},
   invalid
     (v_interval.2 ++ v_intervalStrategy.2 ++ v_cycleInterval.2
        ++ v_cycleIntervalStrategy.2 ++ v_initThisContext.2 ++ v_resetThisContext.2
        ++ v_initFlowContext.2 ++ v_resetFlowContext.2 ++ v_responseHandler.2
        ++ v_summaryHandler.2)
   ++ v_policy.2
   ++ invalid
        (v_logger.2 ++ v_concurrency.2 ++ v_remove.2 ++ v_fetchHandler.2
           ++ v_paginationStart.2 ++ v_paginationPrefetch.2 ++ v_resolveTotalPages.2
           ++ v_resolveHasMore.2 ++ v_resolveCursor.2 ++ v_resolveList.2)
   ++ (if String.eqb p "paginationType" then [(keyPath p, ReadonlyProperty)] else [])
   ++ (if bool_decide (p ∈ KEYS) then [] else [(keyPath p, UnknownProperty)])).

End Trap.

(** ** [start], [startOnce], [stop] and the cycle loop (src/scraper-flow.ts)

    [_startCycleLoop] is an [async] function: it runs in stretches that
    end at an [await].  The cycle handler is taken as given: it is called,
    and later its promise resolves with a summary.  The user code a
    stretch runs -- the initialisers, the summary handler, the listeners
    of [cycleSummary], the interval function -- can call [stop] on the
    scheduler that runs it: the environment of the stretch lists those
    calls.  A call of [stop] made by the user code of a cycle (the fetch
    handler, the resolvers) is a [Stop] job of its own once [start] has
    returned, and does nothing before that, [state.running] being
    assigned when the first stretch is over.  User code that calls
    [start] or assigns to the options from within a stretch is not part
    of the model. *)
Module Runner.
Import Js Flow.

(** [signal.reason] *)
Inductive Reason := forcedStop | gracefulStop.

(** Where the loop is suspended. *)
Inductive Phase :=
| Idle                                              (* no loop has been started, or the last one is over *)
| InCycle (startTime : Z)                           (* [await cycleHandler(...)] *)
| InSummaryHandler (startTime : Z) (s : Summary.CycleSummary)
                                                    (* [await this.options.summaryHandler.call(...)] *)
| Sleeping (s : Sleep.t)                            (* [await sleep(..., signal)] *)
| Returned.                                         (* the loop is left; the [finally] callback is pending *)

Record t := {
  running : bool;                   (* [state.running] is defined *)
  signal : option Reason;           (* the signal of the last [start]: its reason once aborted *)
  listening : bool;                 (* [onabort] of the loop is attached to the signal *)
  currentCycle : option bool;       (* [currentCycleAbortController]: whether its signal is aborted *)
  phase : Phase;
  state : Engine;                   (* [this.#state] *)
  cycles : nat;                     (* calls of the cycle handler *)
  emitted : list Summary.CycleSummary;   (* the [cycleSummary] events *)
}.

(** The user code the loop calls in the course of a stretch. *)
Inductive Callback :=
| InitThis              (* [options.initThisContext] *)
| InitFlow              (* the calls of [options.initFlowContext] *)
| SummaryHandler        (* [options.summaryHandler], up to its first [await] *)
| Listeners             (* the listeners of [cycleSummary] *)
| CycleInterval.        (* the function given as [cycleInterval] or [interval] *)

(** What a stretch finds in its environment. *)
Record Env := {
  world_of : World;
  chance : Q;                              (* [Math.random()] for the cycle interval *)
  thisCalls : nat → completion value;      (* what a call of [initThisContext] yields *)
  stops : Callback → list bool;            (* the calls of [stop(forced)] a callback makes
                                              on the scheduler that runs it, in order *)
}.

Definition with_signal (x : option Reason) (r : t) : t :=
  {| running := running r; signal := x; listening := listening r;
     currentCycle := currentCycle r; phase := phase r; state := state r;
     cycles := cycles r; emitted := emitted r |}.

Definition with_currentCycle (x : option bool) (r : t) : t :=
  {| running := running r; signal := signal r; listening := listening r;
     currentCycle := x; phase := phase r; state := state r;
     cycles := cycles r; emitted := emitted r |}.

Definition with_phase (x : Phase) (r : t) : t :=
  {| running := running r; signal := signal r; listening := listening r;
     currentCycle := currentCycle r; phase := x; state := state r;
     cycles := cycles r; emitted := emitted r |}.

Definition with_state (x : Engine) (r : t) : t :=
  {| running := running r; signal := signal r; listening := listening r;
     currentCycle := currentCycle r; phase := phase r; state := x;
     cycles := cycles r; emitted := emitted r |}.

Definition aborted (r : t) : bool :=
  match signal r with Some _ => true | None => false end.

Section Loop.
Variable o : Options.t.

(** [onabort] of the loop; [evt_forcedStop] is [evt.forcedStop]. *)
Definition onabort (evt_forcedStop : option bool) (r : t) : t :=
  let forcedStop' :=
    match evt_forcedStop with
    | Some b => b
    | None => match signal r with Some forcedStop => true | _ => false end
    end in
  if forcedStop' then
    match currentCycle r with
    | Some _ => with_currentCycle (Some true) r
    | None => r
    end
  else r.

(** An [abort] event on the signal: the listener of the loop, and
    that of a sleep in progress. *)
Definition dispatch (evt_forcedStop : option bool) (r : t) : t :=
  let r := if listening r then onabort evt_forcedStop r else r in
  match phase r with
  | Sleeping s => with_phase (Sleeping (Sleep.step s Sleep.Abort)) r
  | _ => r
  end.

(** [stop(forced)] *)
Definition stop (forced : bool) (r : t) : t :=
  if negb (running r) then r
  else
    match signal r with
    | None =>
        dispatch None (with_signal (Some (if forced then forcedStop else gracefulStop)) r)
    | Some _ => if forced then dispatch (Some true) r else r
    end.

Definition _forcedStopOnError (r : t) : t := stop true r.

(** The end of [_startCycleLoop]. *)
Definition leave (r : t) : t :=
  {| running := running r; signal := signal r; listening := false;
     currentCycle := currentCycle r; phase := Returned; state := state r;
     cycles := cycles r; emitted := emitted r |}.

(** [this.options.initThisContext.call(this.globalContext,
    this.globalContext)] *)
Definition call_initThisContext (env : Env) : completion value :=
  match Options.initThisContext o with
  | Some f => thisCalls env f
  | None => Return (VObject [])
  end.

(** The calls of [stop] a callback makes while the loop runs it. *)
Definition reenter (env : Env) (c : Callback) (r : t) : t :=
  fold_left (λ r forced, stop forced r) (stops env c) r.

(** The reset of the global context at the head of a round; the flag
    is [false] when the round breaks. *)
Definition resetThisContext (env : Env) (r : t) : t * bool :=
  if Options.resetThisContext o && negb (isFirstContextInit (state r)) then
    let r := reenter env InitThis r in
    match call_initThisContext env with
    | Return g =>
        if is_object g then
          (with_state
             {| globalContext := g; flowsContexts := flowsContexts (state r);
                isFirstContextInit := isFirstContextInit (state r);
                isConcurrencyFixed := isConcurrencyFixed (state r) |} r, true)
        else (r, false)
    | Throw => (r, false)
    end
  else (r, true).

(** Whether [_updateFlowsContexts(true)] calls [initFlowContext]. *)
Definition initialises (r : t) : bool :=
  isFirstContextInit (state r) || Options.resetFlowContext o.

(** The loop from its condition to the call of the cycle handler.
    The signal is tested at the head of the round only. *)
Definition iterate (env : Env) (r : t) : t :=
  if aborted r then leave r
  else
    let '(r, ok) := resetThisContext env (with_currentCycle (Some false) r) in
    if ok then
      let '(e, ok) := _updateFlowsContexts o true (flowInits (world_of env)) (state r) in
      let r := if initialises r then reenter env InitFlow r else r in
      if ok then
        {| running := running r; signal := signal r; listening := listening r;
           currentCycle := currentCycle r; phase := InCycle (now (world_of env));
           state :=
             {| globalContext := globalContext e; flowsContexts := flowsContexts e;
                isFirstContextInit := false;
                isConcurrencyFixed := isConcurrencyFixed e |};
           cycles := S (cycles r); emitted := emitted r |}
      else leave (_forcedStopOnError (with_state e r))
    else leave (_forcedStopOnError r).

(** [start()]: the loop runs to its first [await] before
    [state.running] is assigned. *)
Definition start (env : Env) (r : t) : t * bool :=
  if running r then (r, false)
  else
    let r :=
      iterate env
        {| running := false; signal := None; listening := true; currentCycle := None;
           phase := phase r; state := state r; cycles := cycles r;
           emitted := emitted r |} in
    ({| running := true; signal := signal r; listening := listening r;
        currentCycle := currentCycle r; phase := phase r; state := state r;
        cycles := cycles r; emitted := emitted r |}, true).

(** [startOnce()] *)
Definition startOnce (env : Env) (r : t) : t :=
  let '(r, started) := start env r in
  if started then stop false r else r.

Definition sleep (ms : Z) (r : t) : t :=
  with_phase (Sleeping (Sleep.sleep (Js.of_Z ms) (Some (aborted r)))) r.

(** The loop from the [cycleSummary] event on. *)
Definition summarized (env : Env) (startTime : Z) (s : Summary.CycleSummary) (r : t) : t :=
  let r :=
    reenter env Listeners
      {| running := running r; signal := signal r; listening := listening r;
         currentCycle := currentCycle r; phase := phase r; state := state r;
         cycles := cycles r; emitted := emitted r ++ [s] |} in
  let interval :=
    Interval.computeInterval (intervalCalls (world_of env)) o (globalContext (state r))
      (chance env) Interval.cycleInterval None in
  let r :=
    match Interval.lookup o Interval.cycleInterval with
    | Options.Func _ => reenter env CycleInterval r
    | _ => r
    end in
  match Options.cycleIntervalStrategy o with
  | Options.dynamic =>
      let dynamicInterval := (interval - (now (world_of env) - startTime))%Z in
      if (0 <? dynamicInterval)%Z then sleep dynamicInterval r else iterate env r
  | Options.fixed =>
      if (0 <? interval)%Z then sleep interval r else iterate env r
  end.

(** The calls of the interface and the continuations of the loop. *)
Inductive Job :=
| Start
| StartOnce
| Stop (forced : bool)
| CycleEnds (s : Summary.CycleSummary)      (* the promise of the cycle handler resolved *)
| HandlerSettles                            (* the promise of [summaryHandler] settled *)
| Timeout                                   (* the timer of the sleep fired *)
| Wake                                      (* the promise of the sleep has resolved *)
| Finally.                                  (* the [finally] callback of [start] *)

(** One stretch; [None] when the job cannot run in this state. *)
Definition step (env : Env) (j : Job) (r : t) : option t :=
  match j, phase r with
  | Start, _ => Some (start env r).1
  | StartOnce, _ => Some (startOnce env r)
  | Stop forced, _ => Some (stop forced r)
  | CycleEnds s, InCycle startTime =>
      match Options.summaryHandler o with
      | Some _ =>
          Some (with_phase (InSummaryHandler startTime s) (reenter env SummaryHandler r))
      | None => Some (summarized env startTime s r)
      end
  | HandlerSettles, InSummaryHandler startTime s => Some (summarized env startTime s r)
  | Timeout, Sleeping s =>
      match Sleep.timer s with
      | Some _ => Some (with_phase (Sleeping (Sleep.ontimeout s)) r)
      | None => None
      end
  | Wake, Sleeping s =>
      match Sleep.settled s with
      | Some _ => Some (iterate env r)
      | None => None
      end
  | Finally, Returned =>
      Some {| running := false; signal := signal r; listening := listening r;
              currentCycle := currentCycle r; phase := Idle; state := state r;
              cycles := cycles r; emitted := emitted r |}
  | _, _ => None
  end.

Fixpoint run (jobs : list (Env * Job)) (r : t) : option t :=
  match jobs with
  | [] => Some r
  | (env, j) :: rest =>
      match step env j r with
      | Some r' => run rest r'
      | None => None
      end
  end.

(** The scheduler as the constructor leaves it. *)
Definition created (globalContext : value) : t :=
  {| running := false; signal := None; listening := false; currentCycle := None;
     phase := Idle;
     state :=
       {| globalContext := globalContext; flowsContexts := [];
          isFirstContextInit := true; isConcurrencyFixed := false |};
     cycles := 0; emitted := [] |}.
End Loop.
End Runner.

(* ===================================================================== *)
(** * Part II. Properties                                                 *)
(* ===================================================================== *)

(** ** The fail counter *)
Section FailCounterFacts.
Import Options FailCounter.

(** [n <= c] as a proposition. *)
Definition within (n : nat) (c : Js.count) : Prop :=
  match c with
  | Js.Finite m => n ≤ m
  | Js.Unbounded => True
  end.

Lemma le_count_within n c : Js.le_count n c = true ↔ within n c.
Proof.
  destruct c as [m|]; simpl; [|tauto].
  apply Nat.leb_le.
Qed.

(** The budget test of the counter, as the policy words it. *)
Definition may_skip (policy : ErrorHandlingPolicy) (fc : FailCounter.t) : Prop :=
  skipPageIfPossible policy = true
  ∧ within (totalPageFails fc) (maxTotalPageFails policy)
  ∧ within (consecutivePageFails fc) (maxConsecutivePageFails policy).

Lemma canSkipPage_may_skip policy fc : canSkipPage policy fc = true ↔ may_skip policy fc.
Proof.
  unfold canSkipPage, may_skip.
  rewrite !andb_true_iff, !le_count_within. tauto.
Qed.

(** C6. Every call of [fail] adds exactly one to both counters and
    returns the negation of the budget test on the counters after the
    increment. *)
Theorem fail_increments_and_reports policy page fc :
  let fc' := (fail policy page fc).1 in
  let cannotSkipMore := (fail policy page fc).2 in
  totalPageFails fc' = totalPageFails fc + 1
  ∧ consecutivePageFails fc' = consecutivePageFails fc + 1
  ∧ (cannotSkipMore = true ↔ ¬ may_skip policy fc').
Proof.
  simpl. split; [lia|]. split; [lia|].
  rewrite negb_true_iff, <- not_true_iff_false.
  by rewrite canSkipPage_may_skip.
Qed.

(** Without [skipPageIfPossible] the counter never lets a cycle count as
    completed, whatever happened in it. *)
Lemma complete_without_skip policy lastPage fc :
  skipPageIfPossible policy = false → (complete policy lastPage fc).2 = false.
Proof.
  intros Hskip. unfold complete. simpl. unfold canSkipPage. by rewrite Hskip.
Qed.
End FailCounterFacts.

(** ** The summary helper *)
Section SummaryFacts.
Import Summary.

(** What a driver can do to the helper between its creation and
    [summarize]. *)
Inductive Op :=
| OpTiming (type : AvgType) (time : Z)
| OpError
| OpFailed (page : Z)
| OpCompleted (b : bool)
| OpTotalPageCount (n : Q)
| OpTotalTime (now : Z).

Definition apply (h : Helper) (op : Op) : Helper :=
  match op with
  | OpTiming type time => addAvgTiming type time h
  | OpError => count_error h
  | OpFailed page => add_failed page h
  | OpCompleted b => with_completed b h
  | OpTotalPageCount n => with_totalPageCount n h
  | OpTotalTime now => setTotalTime now h
  end.

#[local] Instance AvgType_eq_dec : EqDecision AvgType.
Proof. solve_decision. Defined.

(** The timings recorded for a category, in order. *)
Fixpoint recorded (type : AvgType) (ops : list Op) : list Z :=
  match ops with
  | [] => []
  | OpTiming type' time :: rest =>
      if decide (type' = type) then time :: recorded type rest else recorded type rest
  | _ :: rest => recorded type rest
  end.

Definition sum (xs : list Z) : Z := foldr Z.add 0%Z xs.

(** The arithmetic mean: sum divided by count. *)
Definition mean (xs : list Z) : Q :=
  (inject_Z (sum xs) / inject_Z (Z.of_nat (length xs)))%Q.

Definition pair_of (type : AvgType) (h : Helper) : Z * nat :=
  match type with
  | All => avg_all h
  | Successful => avg_successful h
  | Failed => avg_failed h
  end.

Lemma pair_of_apply type h op :
  pair_of type (apply h op) =
    match op with
    | OpTiming type' time =>
        if decide (type' = type) then bump time (pair_of type h) else pair_of type h
    | _ => pair_of type h
    end.
Proof. destruct op as [type' time| | | | |]; try done. by destruct type, type'. Qed.

Lemma pair_of_fold type ops : ∀ h,
  pair_of type (fold_left apply ops h) =
    (((pair_of type h).1 + sum (recorded type ops))%Z,
     (pair_of type h).2 + length (recorded type ops)).
Proof.
  induction ops as [|op ops IH]; intros h; simpl.
  - destruct (pair_of type h). simpl. f_equal; lia.
  - rewrite IH, pair_of_apply.
    destruct op as [type' time| | | | |]; simpl; try done.
    destruct (decide (type' = type)); simpl; [|done].
    f_equal; unfold sum; simpl; lia.
Qed.

Lemma average_mean (s : Z) (n : nat) xs :
  s = sum xs → n = length xs → Js.same (average (s, n)) (Js.Num (mean xs)).
Proof.
  intros -> ->. unfold average, mean.
  destruct xs as [|x xs]; [reflexivity|].
  set (t := sum (x :: xs)). set (n := length (x :: xs)).
  assert (Hq : (t # Pos.of_nat n == inject_Z t / inject_Z (Z.of_nat n))%Q).
  { rewrite Qmake_Qdiv. f_equiv. unfold inject_Z. f_equiv. subst n. simpl length. lia. }
  change (Js.div (t, n).1 (t, n).2) with (Js.Num (t # Pos.of_nat n)).
  unfold Js.or_zero.
  destruct (Qeq_bool (t # Pos.of_nat n) 0) eqn:Hz.
  - apply Qeq_bool_iff in Hz.
    change (0 == inject_Z t / inject_Z (Z.of_nat n))%Q.
    by rewrite <- Hq, Hz.
  - exact Hq.
Qed.

Lemma summarize_avg now h type :
  avg_of type (summarize now h) = average (pair_of type h).
Proof. unfold summarize. by destruct (total h =? 0)%Z, type. Qed.

(** C8. Whatever a driver did to the helper, each of [timings.avg.all],
    [timings.avg.successful] and [timings.avg.failed] of the summary is
    the arithmetic mean (sum divided by count) of the timings recorded
    by [addAvgTiming] for that category, and it is 0 when the category
    has no sample. *)
Theorem summarize_averages_are_means now0 now ops type :
  let s := summarize now (fold_left apply ops (Summary.new now0)) in
  let xs := recorded type ops in
  Js.same (avg_of type s) (Js.Num (mean xs))
  ∧ match xs with [] => avg_of type s = Js.of_Z 0 | _ :: _ => True end.
Proof.
  simpl. rewrite summarize_avg, pair_of_fold.
  assert (Hnew : pair_of type (Summary.new now0) = (0%Z, 0)) by by destruct type.
  rewrite Hnew. simpl. split.
  - by apply average_mean.
  - by destruct (recorded type ops).
Qed.
End SummaryFacts.

(** ** The sleeper *)
Section SleepFacts.
Import Sleep.









End SleepFacts.

(** ** The interval computer *)
Section IntervalFacts.
Import Js Interval.

Lemma coerce_Num q : coerce (Num q) = of_Z (Z.max 0 (Qtrunc q)).
Proof.
  unfold coerce, trunc, max_with, of_Z.
  destruct (Qle_bool _ _) eqn:Hle.
  - apply Qle_bool_iff in Hle. rewrite <- Zle_Qle in Hle.
    do 2 f_equal. lia.
  - assert (¬ (Qtrunc q ≤ 0)%Z) as Hn.
    { intros H. rewrite (Zle_Qle (Qtrunc q) 0) in H. apply Qle_bool_iff in H. congruence. }
    do 2 f_equal. lia.
Qed.

Lemma Qfloor_inject_Z z : Qfloor (inject_Z z) = z.
Proof. unfold Qfloor, inject_Z. simpl. apply Z.div_1_r. Qed.

(** The preimage of each value of [draw] is an interval of length
    [1 / (b - a + 1)]. *)
Lemma draw_uniform a b random :
  (a ≤ b)%Z → (0 <= random)%Q → (random < 1)%Q →
  (a ≤ draw a b random ≤ b)%Z
  ∧ ∀ k : Z,
      draw a b random = (a + k)%Z
      ↔ (inject_Z k / inject_Z (b - a + 1) <= random)%Q
        ∧ (random < (inject_Z k + 1) / inject_Z (b - a + 1))%Q.
Proof.
  intros Hab H0 H1. unfold draw.
  set (n := (b - a + 1)%Z).
  assert (Hn : (0 < inject_Z n)%Q).
  { change (inject_Z 0 < inject_Z n)%Q. rewrite <- Zlt_Qlt. lia. }
  set (x := (random * inject_Z n)%Q).
  assert (Hx0 : (0 <= x)%Q) by (apply Qmult_le_0_compat; [done|by apply Qlt_le_weak]).
  assert (Hxn : (x < inject_Z n)%Q).
  { unfold x. rewrite <- (Qmult_1_l (inject_Z n)) at 2.
    by apply Qmult_lt_compat_r. }
  pose proof (Qfloor_le x) as Hfl. pose proof (Qlt_floor x) as Hfu.
  split.
  - assert (0 ≤ Qfloor x)%Z.
    { apply Qfloor_resp_le in Hx0. exact Hx0. }
    assert (Qfloor x < n)%Z.
    { rewrite Zlt_Qlt. eapply Qle_lt_trans; [exact Hfl|exact Hxn]. }
    lia.
  - intros k.
    assert (Hnz : ¬ (inject_Z n == 0)%Q).
    { intros E. rewrite E in Hn. by apply Qlt_irrefl in Hn. }
    assert (Hdiv1 : (inject_Z k / inject_Z n <= random)%Q ↔ (inject_Z k <= x)%Q).
    { split; intros H.
      - assert (E : (inject_Z k == inject_Z k / inject_Z n * inject_Z n)%Q) by (by field).
        rewrite E. apply Qmult_le_compat_r; [done|by apply Qlt_le_weak].
      - by apply Qle_shift_div_r. }
    assert (Hdiv2 : (random < (inject_Z k + 1) / inject_Z n)%Q ↔ (x < inject_Z k + 1)%Q).
    { split; intros H.
      - assert (E : (inject_Z k + 1 == (inject_Z k + 1) / inject_Z n * inject_Z n)%Q)
          by (by field).
        rewrite E. by apply Qmult_lt_compat_r.
      - by apply Qlt_shift_div_l. }
    rewrite Hdiv1, Hdiv2.
    split.
    + intros Hk. assert (Qfloor x = k) as <- by lia.
      split; [done|]. rewrite <- (inject_Z_plus _ 1). done.
    + intros [Hk1 Hk2].
      assert (k ≤ Qfloor x)%Z.
      { apply Qfloor_resp_le in Hk1. by rewrite Qfloor_inject_Z in Hk1. }
      assert (Qfloor x < k + 1)%Z.
      { rewrite Zlt_Qlt. eapply Qle_lt_trans; [exact Hfl|].
        by rewrite inject_Z_plus. }
      lia.
Qed.
End IntervalFacts.

Section IntervalFacts2.
Import Js Interval.
Context {This : Type}.

(** The option as configured: [interval] always holds a value,
    [cycleInterval] may be [undefined]. *)
Definition configured (o : Options.t) (property : Property) : option Options.Interval :=
  match property with
  | interval => Some (Options.interval o)
  | cycleInterval => Options.cycleInterval o
  end.

Lemma lookup_configured o property :
  lookup o property = default (Options.interval o) (configured o property).
Proof. destruct property; [done|]. simpl. by destruct (Options.cycleInterval o). Qed.

(** C4, amended.  For [interval] and [cycleInterval] alike: an
    undefined [cycleInterval] falls back to [interval]; a function is
    called with the global context as receiver, a finite result [x]
    gives [max 0 (trunc x)], and a thrown error, [NaN] or [+Infinity]
    gives a draw from the default range 1000..2000; a range [a, b]
    gives [draw a b], which for [a <= b] and a random number in [0, 1)
    lies in [a, b] and takes each value on a slice of equal width
    [1 / (b - a + 1)]; a scalar is returned as it is. *)
Theorem computeInterval_resolution (calls : Calls This) o (g : This) random property ctx :
  let effective := default (Options.interval o) (configured o property) in
  let r := computeInterval calls o g random property ctx in
  (configured o property = None →
     r = computeInterval calls o g random interval ctx)
  ∧ (∀ f, effective = Options.Func f →
       (calls f g ctx = Throw → r = draw 1000 2000 random)
       ∧ (calls f g ctx = Return NaN ∨ calls f g ctx = Return Infinity →
          r = draw 1000 2000 random)
       ∧ (∀ q, calls f g ctx = Return (Num q) → r = Z.max 0 (Qtrunc q)))
  ∧ (∀ a b, effective = Options.Range a b →
       r = draw a b random
       ∧ ((a ≤ b)%Z → (0 <= random)%Q → (random < 1)%Q →
          (a ≤ r ≤ b)%Z
          ∧ ∀ k : Z,
              r = (a + k)%Z
              ↔ (inject_Z k / inject_Z (b - a + 1) <= random)%Q
                ∧ (random < (inject_Z k + 1) / inject_Z (b - a + 1))%Q))
  ∧ (∀ ms, effective = Options.Scalar ms → r = ms).
Proof.
  simpl. rewrite <- lookup_configured.
  unfold computeInterval, resolve.
  split; [|split; [|split]].
  - destruct property; [done|]. simpl. by intros ->.
  - intros f ->. split; [|split].
    + by intros ->.
    + by intros [-> | ->].
    + intros q ->. rewrite coerce_Num. unfold of_Z. cbn [fst]. apply Qfloor_inject_Z.
  - intros a b ->. simpl. split; [done|]. apply draw_uniform.
  - by intros ms ->.
Qed.
End IntervalFacts2.

Section IntervalExamples.
Import Js Interval.

Definition no_interval_calls : Calls value := λ _ _ _, Throw.

(** The theorem at work on the default options, where [cycleInterval]
    is unset and [interval] is the range 1000..2000. *)
Lemma computeInterval_resolution_witness :
  let r :=
    computeInterval no_interval_calls Options.DEFAULT_OPTIONS VUndefined (1 # 2)
      cycleInterval None in
  r = computeInterval no_interval_calls Options.DEFAULT_OPTIONS VUndefined (1 # 2)
        interval None
  ∧ (1000 ≤ r ≤ 2000)%Z.
Proof.
  pose proof (computeInterval_resolution no_interval_calls Options.DEFAULT_OPTIONS
                VUndefined (1 # 2) cycleInterval None) as (Hfallback & _ & Hrange & _).
  split.
  - exact (Hfallback eq_refl).
  - destruct (Hrange 1000%Z 2000%Z eq_refl) as [_ Hin].
    refine (proj1 (Hin _ _ _)); [lia|done|done].
Defined.

(** A raw options object whose interval range is written backwards. *)
Definition reversed_range_raw : gmap string value :=
  <["interval" := VArray [VNumber (of_Z 5); VNumber (of_Z 2)]]>
    (<["fetchHandler" := VFunction 0]> ∅).

Definition reversed_range_options : Options.t :=
  (Validate.assign_all reversed_range_raw).1.

(** A raw options object whose interval is a function. *)
Definition function_interval_raw : gmap string value :=
  <["interval" := VFunction 7]> (<["fetchHandler" := VFunction 0]> ∅).

Definition function_interval_options : Options.t :=
  (Validate.assign_all function_interval_raw).1.

(** The claim of C4 fails on a range [[5, 2]]: the options validate
    without a warning and the interval computed is 4, outside
    [[5, 2]].  It also fails on an interval function returning
    [-Infinity], a non-finite result for which 0 is used and not a draw
    from the default range, which gives 1500 for the same random
    number. *)
Lemma computeInterval_reversed_range :
  ((∀ calls,
      Validate.validateOptions calls reversed_range_raw
      = (Validate.Ok reversed_range_options, []))
   ∧ Options.interval reversed_range_options = Options.Range 5 2
   ∧ computeInterval no_interval_calls reversed_range_options VUndefined (1 # 2)
       interval None = 4%Z
   ∧ ¬ (5 ≤ 4 ≤ 2)%Z)
  ∧ (Options.interval function_interval_options = Options.Func 7
     ∧ computeInterval (λ _ _ _, Return NegInfinity) function_interval_options
         VUndefined (1 # 2) interval None = 0%Z
     ∧ draw 1000 2000 (1 # 2) = 1500%Z).
Proof.
  split.
  - split; [|split; [|split]]; [by intros calls; vm_compute|by vm_compute..|lia].
  - split; [|split]; by vm_compute.
Qed.

(** An interval function that returns [-Infinity] yields 0. *)
Lemma computeInterval_negative_infinity o (g : value) random property ctx f :
  Interval.lookup o property = Options.Func f →
  computeInterval (λ _ _ _, Return NegInfinity) o g random property ctx = 0%Z.
Proof. intros H. unfold computeInterval, resolve. by rewrite H. Qed.
End IntervalExamples.

(** ** Option validation and [create] *)
Section ValidateFacts.
Import Js Options Validate.









































(** *** What the validator replaces without a warning *)






















End ValidateFacts.

Section ValidateExamples.
Import Js Options Validate.






(** [null] passes the test on the global context. *)
Lemma create_accepts_null_context :
  let raw : gmap string value :=
    <["fetchHandler" := VFunction 0]> (<["initThisContext" := VFunction 1]> ∅) in
  (create (λ _, Return VNull) raw).1
  = Ok {| options := (assign_all raw).1; globalContext := VNull |}.
Proof. by vm_compute. Qed.

End ValidateExamples.

(** ** JS sets as lists *)
Section JsSetFacts.
Import Js.
Context {A : Type} `{EqDecision A}.
Implicit Types (x y : A) (s xs acc : list A).

Lemma elem_of_set_add x y s : x ∈ set_add y s ↔ x = y ∨ x ∈ s.
Proof. unfold set_add. case_decide; set_solver. Qed.

Lemma NoDup_set_add y s : NoDup s → NoDup (set_add y s).
Proof.
  unfold set_add. case_decide; [done|]. intros Hs.
  apply NoDup_app. split; [done|]. split; [set_solver|]. apply NoDup_singleton.
Qed.

Lemma set_add_new y s : y ∉ s → set_add y s = s ++ [y].
Proof. unfold set_add. by case_decide. Qed.

Lemma elem_of_set_delete x y s : x ∈ set_delete y s ↔ x ≠ y ∧ x ∈ s.
Proof. unfold set_delete. by rewrite list_elem_of_filter. Qed.

Lemma NoDup_set_delete y s : NoDup s → NoDup (set_delete y s).
Proof. apply NoDup_filter. Qed.

Lemma set_delete_survivor x y s : x ∈ s → x ≠ y → set_delete y s ≠ [].
Proof.
  intros Hx Hxy Hnil. assert (x ∈ set_delete y s) as H by by apply elem_of_set_delete.
  rewrite Hnil in H. by apply not_elem_of_nil in H.
Qed.

Lemma set_of_list_spec xs : ∀ acc,
  NoDup acc →
  NoDup (fold_left (λ s x, set_add x s) xs acc)
  ∧ ∀ x, x ∈ fold_left (λ s x, set_add x s) xs acc ↔ x ∈ acc ∨ x ∈ xs.
Proof.
  induction xs as [|y xs IH]; intros acc Hacc; simpl.
  - split; [done|]. set_solver.
  - destruct (IH (set_add y acc)) as [Hn He]; [by apply NoDup_set_add|].
    split; [done|]. intros x. rewrite He, elem_of_set_add. set_solver.
Qed.

Lemma NoDup_set_of_list xs : NoDup (set_of_list xs).
Proof. apply set_of_list_spec. constructor. Qed.

Lemma elem_of_set_of_list x xs : x ∈ set_of_list xs ↔ x ∈ xs.
Proof.
  unfold set_of_list. destruct (set_of_list_spec xs []) as [_ H]; [constructor|].
  rewrite H. set_solver.
Qed.
End JsSetFacts.

(** ** The retry matching of [startFlows] *)
Section MatchingFacts.
Import Js Flow.
Context {TRetry : Type}.
Implicit Types (m : @Matching TRetry) (pr : PendingRetry TRetry).
Implicit Types (prs : list (PendingRetry TRetry)) (c ctx : Ctx).

(** What holds of the compatibility records while and after they are
    built: a context is held by at most one record, which the map names;
    a record holds free contexts its retry has not visited; a queued
    record holds at least one. *)
Record matched (freeContexts : list Ctx) prs (n : nat) m : Prop := {
  m_owner : ∀ i c, c ∈ flows_of i m → compatibilityMap m !! c = Some i;
  m_free : ∀ i c, c ∈ flows_of i m → c ∈ freeContexts;
  m_unvisited : ∀ i c pr, c ∈ flows_of i m → prs !! i = Some pr → c ∉ p_flows pr;
  m_nodup : ∀ i, NoDup (flows_of i m);
  m_bound : ∀ i, n ≤ i → flows_of i m = [];
  m_queue : ∀ i pr, (i, pr) ∈ retryQueue m → i < n ∧ prs !! i = Some pr ∧ flows_of i m ≠ [];
  m_queue_nodup : NoDup (retryQueue m).*1;
}.

Lemma flows_of_insert i j fl m' m :
  availableFlows m' = <[j := fl]> (availableFlows m) →
  flows_of i m' = if decide (j = i) then fl else flows_of i m.
Proof.
  intros H. unfold flows_of. rewrite H, lookup_insert.
  by case_decide.
Qed.

Lemma flows_of_no_matching i : flows_of i (@no_matching TRetry) = [].
Proof. unfold flows_of. simpl. by rewrite lookup_empty. Qed.

Lemma matched_no_matching freeContexts : matched freeContexts [] 0 (@no_matching TRetry).
Proof.
  split.
  - intros i c. rewrite flows_of_no_matching. by intros ?%not_elem_of_nil.
  - intros i c. rewrite flows_of_no_matching. by intros ?%not_elem_of_nil.
  - intros i c pr. rewrite flows_of_no_matching. by intros ?%not_elem_of_nil.
  - intros i. rewrite flows_of_no_matching. constructor.
  - intros i _. apply flows_of_no_matching.
  - intros i pr. simpl. by intros ?%not_elem_of_nil.
  - constructor.
Qed.

Lemma matched_weaken freeContexts prs prs' n n' m :
  matched freeContexts prs n m → n ≤ n' →
  (∀ i pr, i < n → prs !! i = Some pr → prs' !! i = Some pr) →
  (∀ i pr, i < n → prs' !! i = Some pr → prs !! i = Some pr) →
  matched freeContexts prs' n' m.
Proof.
  intros [] Hn H1 H2. split; try done.
  - intros i c pr Hc Hpr.
    destruct (decide (i < n)) as [Hi|Hi].
    + eapply m_unvisited0; [done|]. by apply H2.
    + rewrite m_bound0 in Hc by lia. by apply not_elem_of_nil in Hc.
  - intros i Hi. apply m_bound0. lia.
  - intros i pr Hq. destruct (m_queue0 _ _ Hq) as (?&?&?).
    split; [lia|]. split; [|done]. by apply H1.
Qed.

(** Opening the record for the next retry. *)
Lemma matched_open freeContexts prs pr m :
  matched freeContexts prs (length prs) m →
  matched freeContexts (prs ++ [pr]) (S (length prs))
    {| availableFlows := <[length prs := []]> (availableFlows m);
       compatibilityMap := compatibilityMap m;
       retryQueue := retryQueue m |}.
Proof.
  intros Hm.
  set (m0 := {| availableFlows := _ |}).
  assert (Hfl : ∀ i, flows_of i m0 = flows_of i m).
  { intros i. rewrite (flows_of_insert i (length prs) [] m0 m) by done.
    case_decide as Hi; [|done]. subst i. symmetry. by apply Hm. }
  destruct Hm. split; simpl; try setoid_rewrite Hfl; try done.
  - intros i c pr' Hc Hpr'.
    destruct (decide (i < length prs)) as [Hi|Hi].
    + rewrite lookup_app_l in Hpr' by done. eauto.
    + rewrite m_bound0 in Hc by lia. by apply not_elem_of_nil in Hc.
  - intros i Hi. apply m_bound0. lia.
  - intros i pr' Hq. destruct (m_queue0 _ _ Hq) as (?&?&?).
    split; [lia|]. split; [|done]. by rewrite lookup_app_l.
Qed.

Lemma offer_queue i m ctx : retryQueue (offer i m ctx) = retryQueue m.
Proof. unfold offer. repeat case_match; done. Qed.

(** One context offered to record [i]. *)
Lemma matched_offer freeContexts prs n i pr m ctx :
  matched freeContexts prs n m →
  i < n → prs !! i = Some pr → ctx ∈ freeContexts → ctx ∉ p_flows pr →
  matched freeContexts prs n (offer i m ctx).
Proof.
  intros Hm Hi Hpr Hfree Hnew.
  (* the record [i] claims [ctx] in a matching [m1] that may have lost it
     from another record *)
  assert (Hclaim : ∀ m1,
    matched freeContexts prs n m1 →
    (∀ j, j ≠ i → ctx ∉ flows_of j m1) →
    matched freeContexts prs n
      {| availableFlows := <[i := set_add ctx (flows_of i m1)]> (availableFlows m1);
         compatibilityMap := <[ctx := i]> (compatibilityMap m1);
         retryQueue := retryQueue m1 |}).
  { intros m1 Hm1 Hothers. set (m2 := {| availableFlows := _ |}).
    assert (Hfl : ∀ j, flows_of j m2
              = if decide (i = j) then set_add ctx (flows_of i m1) else flows_of j m1).
    { intros j. by apply flows_of_insert. }
    destruct Hm1. split; simpl.
    - intros j c. rewrite Hfl. case_decide as Hij.
      + subst j. rewrite elem_of_set_add. intros [->|Hc].
        * by rewrite lookup_insert_eq.
        * destruct (decide (c = ctx)) as [->|Hne]; [by rewrite lookup_insert_eq|].
          rewrite lookup_insert_ne by done. eauto.
      + intros Hc. assert (c ≠ ctx) by (intros ->; by eapply Hothers).
        rewrite lookup_insert_ne by done. eauto.
    - intros j c. rewrite Hfl. case_decide; [|eauto].
      rewrite elem_of_set_add. intros [->|?]; eauto.
    - intros j c pr'. rewrite Hfl. case_decide as Hij; [|eauto].
      subst j. rewrite elem_of_set_add. intros [->|?] Hpr'; [congruence|eauto].
    - intros j. rewrite Hfl. case_decide; [|eauto]. by apply NoDup_set_add.
    - intros j Hj. rewrite Hfl. case_decide; [lia|eauto].
    - intros j pr' Hq. destruct (m_queue0 _ _ Hq) as (?&?&Hne).
      split; [done|]. split; [done|]. rewrite Hfl. case_decide; [|done].
      subst j. intros Hnil. assert (ctx ∈ set_add ctx (flows_of i m1)) as Hin
        by (apply elem_of_set_add; by left).
      rewrite Hnil in Hin. by apply not_elem_of_nil in Hin.
    - done. }
  unfold offer.
  destruct (compatibilityMap m !! ctx) as [j|] eqn:Hmap.
  - destruct (length (flows_of j m) <=? 1) eqn:Hlen; [done|].
    apply Nat.leb_gt in Hlen.
    set (m1 := {| availableFlows := <[j := set_delete ctx (flows_of j m)]> (availableFlows m);
                  compatibilityMap := compatibilityMap m;
                  retryQueue := retryQueue m |}).
    assert (Hfl : ∀ j', flows_of j' m1
              = if decide (j = j') then set_delete ctx (flows_of j m) else flows_of j' m).
    { intros j'. by apply flows_of_insert. }
    change (flows_of i {| availableFlows := <[j:=set_delete ctx (flows_of j m)]> (availableFlows m);
                          compatibilityMap := compatibilityMap m;
                          retryQueue := retryQueue m |}) with (flows_of i m1).
    apply (Hclaim m1).
    + destruct Hm. split; simpl.
      * intros j' c. rewrite Hfl. case_decide; [|eauto].
        subst j'. rewrite elem_of_set_delete. intros [_ ?]; eauto.
      * intros j' c. rewrite Hfl. case_decide; [|eauto].
        rewrite elem_of_set_delete. intros [_ ?]; eauto.
      * intros j' c pr'. rewrite Hfl. case_decide; [|eauto].
        subst j'. rewrite elem_of_set_delete. intros [_ ?]; eauto.
      * intros j'. rewrite Hfl. case_decide; [|eauto]. by apply NoDup_set_delete.
      * intros j' Hj'. rewrite Hfl. case_decide; [|eauto].
        subst j'. rewrite (m_bound0 j) in Hlen by done. simpl in Hlen. lia.
      * intros j' pr' Hq. destruct (m_queue0 _ _ Hq) as (?&?&Hne).
        split; [done|]. split; [done|]. rewrite Hfl. case_decide; [|done].
        subst j'. specialize (m_nodup0 j).
        destruct (flows_of j m) as [|a [|b l]] eqn:Hl; simpl in Hlen; [lia..|].
        destruct (decide (a = ctx)) as [->|Ha].
        -- apply (set_delete_survivor b); [set_solver|].
           intros ->. apply NoDup_cons in m_nodup0 as [Hnin _]. set_solver.
        -- apply (set_delete_survivor a); [set_solver|done].
      * done.
    + intros j' Hj'. rewrite Hfl. case_decide.
      * subst j'. rewrite elem_of_set_delete. naive_solver.
      * intros Hc. apply (m_owner _ _ _ _ Hm) in Hc. congruence.
  - apply (Hclaim m Hm).
    intros j Hj Hc. apply (m_owner _ _ _ _ Hm) in Hc. congruence.
Qed.

Lemma matched_offer_all freeContexts prs n i pr available : ∀ m,
  matched freeContexts prs n m →
  i < n → prs !! i = Some pr →
  (∀ ctx, ctx ∈ available → ctx ∈ freeContexts ∧ ctx ∉ p_flows pr) →
  matched freeContexts prs n (fold_left (offer i) available m)
  ∧ retryQueue (fold_left (offer i) available m) = retryQueue m.
Proof.
  induction available as [|ctx available IH]; intros m Hm Hi Hpr Hav; [done|].
  simpl. destruct (IH (offer i m ctx)) as [H1 H2].
  - eapply matched_offer; try done; apply Hav; set_solver.
  - done.
  - done.
  - intros c Hc. apply Hav. set_solver.
  - split; [done|]. by rewrite H2, offer_queue.
Qed.

(** The retries keep their payload and their attempts; a set of visited
    contexts is emptied only when it had reached the number of
    contexts. *)
Definition same_retry (nContexts : nat) pr pr' : Prop :=
  retry pr' = retry pr ∧ attemptsLeft pr' = attemptsLeft pr
  ∧ (p_flows pr' = p_flows pr ∨ (p_flows pr' = [] ∧ nContexts ≤ length (p_flows pr))).

Lemma same_retry_refl nContexts pr : same_retry nContexts pr pr.
Proof. split; [done|]. split; [done|]. by left. Qed.

Lemma matchRetries_spec freeContexts nContexts : ∀ rest seen m remaining,
  matched freeContexts seen (length seen) m →
  let '(rest', m', _) :=
    matchRetries freeContexts nContexts (length seen) rest m remaining in
  matched freeContexts (seen ++ rest') (length (seen ++ rest')) m'
  ∧ Forall2 (same_retry nContexts) rest rest'.
Proof.
  induction rest as [|pr rest IH]; intros seen m remaining Hm.
  - simpl. rewrite app_nil_r. split; [exact Hm|constructor].
  - cbn [matchRetries].
    set (reset := nContexts <=? length (p_flows pr)).
    set (pr' := if reset then _ else pr).
    set (available := if reset then freeContexts else _).
    set (m0 := {| availableFlows := <[length seen := []]> (availableFlows m);
                  compatibilityMap := compatibilityMap m;
                  retryQueue := retryQueue m |}).
    assert (Hsame : same_retry nContexts pr pr').
    { unfold pr', reset. destruct (nContexts <=? _) eqn:Hr; [|apply same_retry_refl].
      apply Nat.leb_le in Hr. split; [done|]. split; [done|]. by right. }
    assert (Hav : ∀ ctx, ctx ∈ available → ctx ∈ freeContexts ∧ ctx ∉ p_flows pr').
    { intros ctx. unfold available, pr'. destruct reset; simpl.
      - intros ?. split; [done|]. apply not_elem_of_nil.
      - rewrite list_elem_of_filter. tauto. }
    destruct (matched_offer_all freeContexts (seen ++ [pr']) (S (length seen))
                (length seen) pr' available m0) as [Hm1 Hq1].
    { by apply matched_open. }
    { lia. }
    { by rewrite lookup_app_r, Nat.sub_diag by lia. }
    { done. }
    set (m1 := fold_left (offer (length seen)) available m0) in *.
    assert (Hlen : S (length seen) = length (seen ++ [pr'])).
    { rewrite length_app. simpl. lia. }
    destruct (flows_of (length seen) m1) as [|c0 fl] eqn:Hfl.
    + specialize (IH (seen ++ [pr']) m1 remaining).
      rewrite <- Hlen in IH.
      destruct (matchRetries freeContexts nContexts (S (length seen)) rest m1 remaining)
        as [[rest' m3] rem3].
      destruct IH as [IH1 IH2]; [done|].
      rewrite <- app_assoc in IH1. simpl in IH1.
      split; [done|]. by constructor.
    + set (m2 := {| availableFlows := availableFlows m1;
                    compatibilityMap := compatibilityMap m1;
                    retryQueue := retryQueue m1 ++ [(length seen, pr')] |}).
      assert (Hm2 : matched freeContexts (seen ++ [pr']) (S (length seen)) m2).
      { destruct Hm1. split; try done.
        - intros i pr0. simpl. rewrite elem_of_app, list_elem_of_singleton.
          intros [Hq|[= -> ->]]; [eauto|].
          split; [lia|]. split; [by rewrite lookup_app_r, Nat.sub_diag by lia|].
          change (flows_of (length seen) m2) with (flows_of (length seen) m1).
          by rewrite Hfl.
        - simpl. rewrite fmap_app. apply NoDup_app. split; [done|].
          split; [|apply NoDup_singleton].
          intros i Hi. rewrite Hq1 in Hi. simpl in Hi.
          apply list_elem_of_fmap in Hi as ([i' pr0] & -> & Hi).
          apply (m_queue _ _ _ _ Hm) in Hi as [Hi _]. simpl. set_solver by lia. }
      destruct (remaining - 1 <=? 0)%Z.
      * split; [|constructor; [done|]].
        -- eapply matched_weaken; [exact Hm2| | |].
           ++ rewrite !length_app. simpl. lia.
           ++ intros i pr0 Hi. rewrite !lookup_app.
              destruct (seen !! i) eqn:Hd; [done|].
              apply lookup_ge_None in Hd. destruct (decide (i = length seen)); [|lia].
              subst. by rewrite Nat.sub_diag.
           ++ intros i pr0 Hi. rewrite !lookup_app.
              destruct (seen !! i) eqn:Hd; [done|].
              apply lookup_ge_None in Hd. destruct (decide (i = length seen)); [|lia].
              subst. by rewrite Nat.sub_diag.
        -- clear. induction rest; constructor; [apply same_retry_refl|done].
      * specialize (IH (seen ++ [pr']) m2 (remaining - 1)%Z).
        rewrite <- Hlen in IH.
        destruct (matchRetries freeContexts nContexts (S (length seen)) rest m2
                    (remaining - 1)%Z) as [[rest' m3] rem3].
        destruct IH as [IH1 IH2]; [done|].
        rewrite <- app_assoc in IH1. simpl in IH1.
        split; [done|]. by constructor.
Qed.

(** The matching [startFlows] computes. *)
Lemma matchRetries_matched freeContexts nContexts prs remaining :
  let '(prs', m, _) :=
    matchRetries freeContexts nContexts 0 prs no_matching remaining in
  matched freeContexts prs' (length prs') m ∧ Forall2 (same_retry nContexts) prs prs'.
Proof.
  pose proof (matchRetries_spec freeContexts nContexts prs [] no_matching remaining
                (matched_no_matching freeContexts)) as H.
  simpl in H. by destruct (matchRetries _ _ _ _ _ _) as [[??]?].
Qed.

(** The contexts two queued records hand out differ. *)
Lemma matched_heads_differ freeContexts prs n m i j pr pr' c fl fl' :
  matched freeContexts prs n m →
  flows_of i m = c :: fl → flows_of j m = c :: fl' → i = j.
Proof.
  intros Hm Hi Hj.
  assert (compatibilityMap m !! c = Some i) as H1
    by (apply (m_owner _ _ _ _ Hm); rewrite Hi; set_solver).
  assert (compatibilityMap m !! c = Some j) as H2
    by (apply (m_owner _ _ _ _ Hm); rewrite Hj; set_solver).
  congruence.
Qed.
End MatchingFacts.

(** ** The orchestrator: who holds which page

    A page is live while a retry for it is queued or a suspended
    [handleFlowExecution] works on it.  The invariant says that a live
    page has one holder, and that live, failed and dropped pages are kept
    apart. *)
Section Ownership.
Import Js Flow.
Context {DState TRetry Frame : Type}.
Variable drv : Driver DState TRetry Frame.

Abbreviation PendingRetry := (PendingRetry TRetry).
Abbreviation Task := (Task TRetry Frame).

(** What the proofs read off a driver: its [failedPageList], the
    [attemptsLeft] a frame took, the pages it has handed out so far
    (given whether [done()] was called), and what it keeps true of its
    payloads. *)
Record View := {
  failed : DState → list Z;
  attempts_of : Frame → count;
  known : DState → bool → Z → Prop;
  retry_ok : DState → TRetry → Prop;
  frame_ok : DState → Frame → Prop;
}.

Variable V : View.

(** A stretch of the executor forgets no page and breaks no payload. *)
Definition advances (d : DState) (done : bool) (d' : DState) : Prop :=
  (∀ ed p, known V d ed p → known V d' (ed || done) p)
  ∧ (∀ r, retry_ok V d r → retry_ok V d' r)
  ∧ (∀ k, frame_ok V d k → frame_ok V d' k).

(** What the orchestrator relies on: a retry keeps its page, a fresh
    task gets a page never handed out before, and a page is put into
    [failedPageList] only by the stretch that ends its last attempt. *)
Record Lawful : Prop := {
  law_begin_retry : ∀ c a r now d,
    retry_ok V d r →
    match begin drv c a (Some r) now d with
    | Awaits d' done k =>
        page_of_frame drv k = page_of_retry drv r ∧ attempts_of V k = a
        ∧ failed V d' = failed V d ∧ advances d done d' ∧ frame_ok V d' k
    | Returns d' done ret =>
        ret = None ∧ failed V d' = failed V d ∧ advances d done d'
    end;
  law_begin_fresh : ∀ c a now d,
    match begin drv c a None now d with
    | Awaits d' done k =>
        ¬ known V d false (page_of_frame drv k)
        ∧ known V d' done (page_of_frame drv k) ∧ attempts_of V k = a
        ∧ failed V d' = failed V d ∧ advances d done d' ∧ frame_ok V d' k
    | Returns d' done ret =>
        ret = None ∧ failed V d' = failed V d ∧ advances d done d'
    end;
  law_resume : ∀ k s now d,
    frame_ok V d k →
    match resume drv k s now d with
    | Awaits d' done k' =>
        page_of_frame drv k' = page_of_frame drv k
        ∧ attempts_of V k' = attempts_of V k
        ∧ failed V d' = failed V d ∧ advances d done d' ∧ frame_ok V d' k'
    | Returns d' done ret =>
        advances d done d'
        ∧ (∀ r, ret = Some r →
             page_of_retry drv r = page_of_frame drv k ∧ retry_ok V d' r)
        ∧ (failed V d' = failed V d
           ∨ (failed V d' = set_add (page_of_frame drv k) (failed V d)
              ∧ is_zero (attempts_of V k) = true ∧ ret ≠ None))
    end;
}.

Definition rp (pr : PendingRetry) : Z := page_of_retry drv (retry pr).

(** The page a suspended task still has to account for. *)
Definition task_page (t : Task) : option Z :=
  match t with
  | Sleeping (Some pr) => Some (rp pr)
  | Sleeping None => None
  | Executing _ _ k => Some (page_of_frame drv k)
  | Settling a _ (Some r) => if is_zero a then None else Some (page_of_retry drv r)
  | Settling _ _ None => None
  end.

Definition task_ok (d : DState) (t : Task) : Prop :=
  match t with
  | Sleeping (Some pr) => retry_ok V d (retry pr)
  | Sleeping None => True
  | Executing a _ k => attempts_of V k = a ∧ frame_ok V d k
  | Settling _ _ (Some r) => retry_ok V d r
  | Settling _ _ None => True
  end.

Section Core.
Variables (fl : list Ctx) (q : list PendingRetry) (ts : gmap Ctx Task).
Variables (d : DState) (ed : bool) (fe : list (Z * Ctx)) (dr : list Z).

Definition held (c : Ctx) (p : Z) : Prop :=
  ∃ t, ts !! c = Some t ∧ task_page t = Some p.

Definition queued (p : Z) : Prop := p ∈ rp <$> q.

Definition live (p : Z) : Prop := queued p ∨ ∃ c, held c p.

Record owned : Prop := {
  o_flows_nodup : NoDup fl;
  o_flows_tasks : ∀ c, c ∈ fl ↔ is_Some (ts !! c);
  o_queue_nodup : NoDup (rp <$> q);
  o_queue_held : ∀ c p, held c p → ¬ queued p;
  o_held_unique : ∀ c1 c2 p, held c1 p → held c2 p → c1 = c2;
  o_known : ∀ p, live p ∨ p ∈ failed V d ∨ p ∈ dr ∨ p ∈ fe.*1 → known V d ed p;
  o_live_failed : ∀ p, live p → p ∉ failed V d;
  o_live_dropped : ∀ p, live p → p ∉ dr;
  o_failed_dropped : ∀ p, p ∈ failed V d → p ∉ dr;
  o_task_ok : ∀ c t, ts !! c = Some t → task_ok d t;
  o_retry_ok : ∀ pr, pr ∈ q → retry_ok V d (retry pr);
}.
End Core.

Abbreviation State := (State DState TRetry Frame).

Definition Owned (st : State) : Prop :=
  owned (flows st) (pendingRetries st) (tasks st) (driver st) (executorDone st)
    (fetched st) (dropped st).

Lemma held_insert ts c t c' p :
  held (<[c := t]> ts) c' p ↔ (c' = c ∧ task_page t = Some p) ∨ (c' ≠ c ∧ held ts c' p).
Proof.
  unfold held. destruct (decide (c' = c)) as [->|Hne].
  - rewrite lookup_insert_eq. naive_solver.
  - rewrite lookup_insert_ne by done. naive_solver.
Qed.

Lemma held_delete ts c c' p :
  held (delete c ts) c' p ↔ c' ≠ c ∧ held ts c' p.
Proof.
  unfold held. destruct (decide (c' = c)) as [->|Hne].
  - rewrite lookup_delete_eq. naive_solver.
  - rewrite lookup_delete_ne by done. naive_solver.
Qed.

(** A fresh task is parked on a free context. *)
Lemma owned_park fl q ts d ed fe dr ctx :
  owned fl q ts d ed fe dr → ctx ∉ fl →
  owned (set_add ctx fl) q (<[ctx := Sleeping None]> ts) d ed fe dr.
Proof.
  intros H Hctx. pose proof H as [].
  assert (Hnone : ts !! ctx = None).
  { destruct (ts !! ctx) eqn:E; [|done]. exfalso. apply Hctx. apply o_flows_tasks0. eauto. }
  assert (Hheld : ∀ c p, held (<[ctx := Sleeping None]> ts) c p ↔ held ts c p).
  { intros c p. rewrite held_insert. split; [naive_solver|].
    intros Hh. right. split; [|done]. intros ->. destruct Hh as (t & Ht & _). congruence. }
  assert (Hlive : ∀ p, live q (<[ctx := Sleeping None]> ts) p ↔ live q ts p).
  { intros p. unfold live. by setoid_rewrite Hheld. }
  split.
  - by apply NoDup_set_add.
  - intros c. rewrite elem_of_set_add, o_flows_tasks0.
    destruct (decide (c = ctx)) as [->|Hne].
    + rewrite lookup_insert_eq. naive_solver.
    + rewrite lookup_insert_ne by done. naive_solver.
  - done.
  - intros c p. rewrite Hheld. eauto.
  - intros c1 c2 p. rewrite !Hheld. eauto.
  - intros p. rewrite Hlive. eauto.
  - intros p. rewrite Hlive. eauto.
  - intros p. rewrite Hlive. eauto.
  - done.
  - intros c t. destruct (decide (c = ctx)) as [->|Hne].
    + rewrite lookup_insert_eq. by intros [= <-].
    + rewrite lookup_insert_ne by done. eauto.
  - done.
Qed.

(** A queued retry is parked on a free context. *)
Lemma owned_park_retry fl q1 pr q2 ts d ed fe dr ctx :
  owned fl (q1 ++ pr :: q2) ts d ed fe dr → ctx ∉ fl →
  owned (set_add ctx fl) (q1 ++ q2) (<[ctx := Sleeping (Some pr)]> ts) d ed fe dr.
Proof.
  intros H Hctx. pose proof H as [].
  assert (Hnone : ts !! ctx = None).
  { destruct (ts !! ctx) eqn:E; [|done]. exfalso. apply Hctx. apply o_flows_tasks0. eauto. }
  assert (Hheld : ∀ c p, held (<[ctx := Sleeping (Some pr)]> ts) c p
                         ↔ (c = ctx ∧ p = rp pr) ∨ held ts c p).
  { intros c p. rewrite held_insert. simpl. split; [naive_solver|].
    intros [[-> ->]|Hh]; [by left|]. right. split; [|done].
    intros ->. destruct Hh as (t & Ht & _). congruence. }
  assert (Hq : ∀ p, queued (q1 ++ pr :: q2) p ↔ p = rp pr ∨ queued (q1 ++ q2) p).
  { intros p. unfold queued. rewrite !fmap_app, fmap_cons. set_solver. }
  assert (Hnq : ¬ queued (q1 ++ q2) (rp pr)).
  { unfold queued. rewrite fmap_app.
    rewrite fmap_app, fmap_cons in o_queue_nodup0.
    apply NoDup_app in o_queue_nodup0 as (_ & H1 & H2).
    apply NoDup_cons in H2 as [H2 _]. set_solver. }
  assert (Hlive : ∀ p, live (q1 ++ q2) (<[ctx := Sleeping (Some pr)]> ts) p
                       ↔ live (q1 ++ pr :: q2) ts p).
  { intros p. unfold live. setoid_rewrite Hheld. rewrite Hq. naive_solver. }
  split.
  - by apply NoDup_set_add.
  - intros c. rewrite elem_of_set_add, o_flows_tasks0.
    destruct (decide (c = ctx)) as [->|Hne].
    + rewrite lookup_insert_eq. naive_solver.
    + rewrite lookup_insert_ne by done. naive_solver.
  - rewrite fmap_app, fmap_cons in o_queue_nodup0. rewrite fmap_app.
    apply NoDup_app in o_queue_nodup0 as (H1 & H2 & H3).
    apply NoDup_cons in H3 as [_ H3]. apply NoDup_app. set_solver.
  - intros c p. rewrite Hheld. intros [[-> ->]|Hh]; [done|].
    intros Hqp. eapply o_queue_held0; [done|]. apply Hq. by right.
  - intros c1 c2 p. rewrite !Hheld.
    intros [[-> ->]|H1] [[-> Hp]|H2]; try done.
    + exfalso. eapply o_queue_held0; [exact H2|]. apply Hq. by left.
    + subst p. exfalso. eapply o_queue_held0; [exact H1|]. apply Hq. by left.
    + eauto.
  - intros p. rewrite Hlive. eauto.
  - intros p. rewrite Hlive. eauto.
  - intros p. rewrite Hlive. eauto.
  - done.
  - intros c t. destruct (decide (c = ctx)) as [->|Hne].
    + rewrite lookup_insert_eq. intros [= <-]. simpl. apply o_retry_ok0. set_solver.
    + rewrite lookup_insert_ne by done. eauto.
  - intros pr' Hpr'. apply o_retry_ok0. set_solver.
Qed.

(** A task ends: [flows.delete(ctx)]. *)
Lemma owned_release fl q ts d ed fe dr ctx :
  owned fl q ts d ed fe dr →
  owned (set_delete ctx fl) q (delete ctx ts) d ed fe dr.
Proof.
  intros H. pose proof H as [].
  assert (Hheld : ∀ c p, held (delete ctx ts) c p → held ts c p).
  { intros c p. rewrite held_delete. tauto. }
  assert (Hlive : ∀ p, live q (delete ctx ts) p → live q ts p).
  { intros p [?|[c ?]]; [by left|]. right. eauto. }
  split.
  - by apply NoDup_set_delete.
  - intros c. rewrite elem_of_set_delete, o_flows_tasks0.
    destruct (decide (c = ctx)) as [->|Hne].
    + rewrite lookup_delete_eq. split; [tauto|]. by intros [? ?].
    + rewrite lookup_delete_ne by done. tauto.
  - done.
  - eauto.
  - eauto.
  - intros p [?|?]; eauto 6.
  - eauto.
  - eauto.
  - done.
  - intros c t Ht. apply lookup_delete_Some in Ht as [_ Ht]. eauto.
  - done.
Qed.

Lemma advances_known d done d' ed p :
  advances d done d' → known V d ed p → known V d' (ed || done) p.
Proof. intros [H _]. apply H. Qed.

(** The task on [ctx] moves on and keeps its page; the page may have
    been fetched once more. *)
Lemma owned_same fl q ts d ed fe dr ctx t t' d' done fe' :
  owned fl q ts d ed fe dr →
  ts !! ctx = Some t →
  task_page t' = task_page t →
  task_ok d' t' →
  advances d done d' →
  failed V d' = failed V d →
  (∀ p, p ∈ fe'.*1 → p ∈ fe.*1 ∨ task_page t = Some p) →
  owned fl q (<[ctx := t']> ts) d' (ed || done) fe' dr.
Proof.
  intros H Ht Hpage Hok Hadv Hfailed Hfe. pose proof H as [].
  assert (Hheld : ∀ c p, held (<[ctx := t']> ts) c p ↔ held ts c p).
  { intros c p. rewrite held_insert, Hpage. unfold held. split.
    - intros [[-> ?]|[_ ?]]; eauto.
    - intros (t0 & Ht0 & Hp). destruct (decide (c = ctx)) as [->|Hne].
      + left. split; [done|]. congruence.
      + right. eauto. }
  assert (Hlive : ∀ p, live q (<[ctx := t']> ts) p ↔ live q ts p).
  { intros p. unfold live. by setoid_rewrite Hheld. }
  destruct Hadv as (Hk & Hr & Hf).
  split.
  - done.
  - intros c. rewrite o_flows_tasks0.
    destruct (decide (c = ctx)) as [->|Hne].
    + rewrite lookup_insert_eq, Ht. split; eauto.
    + by rewrite lookup_insert_ne.
  - done.
  - intros c p. rewrite Hheld. eauto.
  - intros c1 c2 p. rewrite !Hheld. eauto.
  - intros p. rewrite Hlive, Hfailed. intros [?|[?|[?|Hp]]]; try (apply Hk; eauto; fail).
    apply Hk. apply Hfe in Hp as [?|Hp]; [eauto|].
    apply o_known0. left. right. exists ctx, t. done.
  - intros p. rewrite Hlive, Hfailed. eauto.
  - intros p. rewrite Hlive. eauto.
  - rewrite Hfailed. done.
  - intros c t0. destruct (decide (c = ctx)) as [->|Hne].
    + rewrite lookup_insert_eq. by intros [= <-].
    + rewrite lookup_insert_ne by done. intros Ht0.
      specialize (o_task_ok0 _ _ Ht0). destruct t0 as [[pr|]|a pr k|a pr [r|]]; simpl in *;
        naive_solver.
  - intros pr Hpr. apply Hr. eauto.
Qed.

(** The task on [ctx] lets go of its page [p]: the page has succeeded,
    has been put into [failedPageList], or has been dropped. *)
Lemma owned_end fl q ts d ed fe dr ctx t t' d' done dr' p :
  owned fl q ts d ed fe dr →
  ts !! ctx = Some t →
  task_page t = Some p →
  task_page t' = None →
  task_ok d' t' →
  advances d done d' →
  (failed V d' = failed V d ∧ (dr' = dr ∨ dr' = dr ++ [p])
   ∨ failed V d' = set_add p (failed V d) ∧ dr' = dr) →
  owned fl q (<[ctx := t']> ts) d' (ed || done) fe dr'.
Proof.
  intros H Ht Hp Hnone Hok Hadv Hcase. pose proof H as [].
  assert (Hheld : ∀ c x, held (<[ctx := t']> ts) c x ↔ c ≠ ctx ∧ held ts c x).
  { intros c x. rewrite held_insert, Hnone. naive_solver. }
  assert (Hlive : ∀ x, live q (<[ctx := t']> ts) x → live q ts x ∧ x ≠ p).
  { intros x [Hq|[c Hc]].
    - split; [by left|]. intros ->. eapply o_queue_held0; [|exact Hq]. by exists t.
    - apply Hheld in Hc as [Hne Hc]. split; [right; eauto|].
      intros ->. apply Hne. eapply o_held_unique0; [exact Hc|]. by exists t. }
  assert (Hpl : live q ts p) by (right; exists ctx, t; done).
  assert (Hfailed : ∀ x, x ∈ failed V d' → x ∈ failed V d ∨ x = p).
  { intros x. destruct Hcase as [[-> _]|[-> _]]; [eauto|].
    rewrite elem_of_set_add. tauto. }
  assert (Hdropped : ∀ x, x ∈ dr' → x ∈ dr ∨ x = p).
  { intros x. destruct Hcase as [[_ [->| ->]]|[_ ->]]; [eauto| |eauto].
    rewrite elem_of_app, list_elem_of_singleton. tauto. }
  destruct Hadv as (Hk & Hr & Hf).
  split.
  - done.
  - intros c. rewrite o_flows_tasks0.
    destruct (decide (c = ctx)) as [->|Hne].
    + rewrite lookup_insert_eq, Ht. split; eauto.
    + by rewrite lookup_insert_ne.
  - done.
  - intros c x [_ Hc]%Hheld. eauto.
  - intros c1 c2 x [_ H1]%Hheld [_ H2]%Hheld. eauto.
  - intros x Hx. apply Hk. apply o_known0.
    destruct Hx as [Hx|[Hx|[Hx|Hx]]].
    + apply Hlive in Hx as [? _]. eauto.
    + apply Hfailed in Hx as [?| ->]; eauto.
    + apply Hdropped in Hx as [?| ->]; eauto.
    + eauto.
  - intros x [Hx Hne]%Hlive Hin. apply Hfailed in Hin as [?|?]; [|done].
    by eapply o_live_failed0.
  - intros x [Hx Hne]%Hlive Hin. apply Hdropped in Hin as [?|?]; [|done].
    by eapply o_live_dropped0.
  - intros x Hx Hin.
    destruct Hcase as [[Hf' [->| ->]]|[Hf' ->]].
    + rewrite Hf' in Hx. by eapply o_failed_dropped0.
    + rewrite Hf' in Hx. apply elem_of_app in Hin as [Hin|Hin].
      * by eapply o_failed_dropped0.
      * apply list_elem_of_singleton in Hin as ->. by eapply o_live_failed0.
    + rewrite Hf' in Hx. apply elem_of_set_add in Hx as [->|Hx].
      * by eapply o_live_dropped0.
      * by eapply o_failed_dropped0.
  - intros c t0. destruct (decide (c = ctx)) as [->|Hne].
    + rewrite lookup_insert_eq. by intros [= <-].
    + rewrite lookup_insert_ne by done. intros Ht0.
      specialize (o_task_ok0 _ _ Ht0). destruct t0 as [[pr|]|a pr k|a pr [r|]]; simpl in *;
        naive_solver.
  - intros pr Hpr. apply Hr. eauto.
Qed.

(** A parked fresh task starts on a page never handed out before. *)
Lemma owned_fresh fl q ts d fe dr ctx t t' d' done p :
  owned fl q ts d false fe dr →
  ts !! ctx = Some t →
  task_page t = None →
  task_page t' = Some p →
  task_ok d' t' →
  advances d done d' →
  failed V d' = failed V d →
  ¬ known V d false p →
  known V d' done p →
  owned fl q (<[ctx := t']> ts) d' done (fe ++ [(p, ctx)]) dr.
Proof.
  intros H Ht Hnone Hp Hok Hadv Hfailed Hnew Hknown. pose proof H as [].
  assert (Hheld : ∀ c x, held (<[ctx := t']> ts) c x
                         ↔ (c = ctx ∧ x = p) ∨ held ts c x).
  { intros c x. rewrite held_insert, Hp. split.
    - intros [[-> [= ->]]|[_ ?]]; eauto.
    - intros [[-> ->]|Hc]; [by left|]. right. split; [|done].
      intros ->. destruct Hc as (t0 & Ht0 & Hx). congruence. }
  assert (Hlive : ∀ x, live q (<[ctx := t']> ts) x ↔ x = p ∨ live q ts x).
  { intros x. unfold live. setoid_rewrite Hheld. naive_solver. }
  assert (Hunknown : ¬ (live q ts p ∨ p ∈ failed V d ∨ p ∈ dr ∨ p ∈ fe.*1)).
  { intros Hx. apply Hnew. by apply o_known0. }
  destruct Hadv as (Hk & Hr & Hf).
  split.
  - done.
  - intros c. rewrite o_flows_tasks0.
    destruct (decide (c = ctx)) as [->|Hne].
    + rewrite lookup_insert_eq, Ht. split; eauto.
    + by rewrite lookup_insert_ne.
  - done.
  - intros c x. rewrite Hheld. intros [[-> ->]|Hc]; [|eauto].
    intros Hq. apply Hunknown. left. by left.
  - intros c1 c2 x. rewrite !Hheld.
    intros [[-> ->]|H1] [[-> Hx]|H2]; try done.
    + exfalso. apply Hunknown. left. right. eauto.
    + subst x. exfalso. apply Hunknown. left. right. eauto.
    + eauto.
  - intros x. rewrite Hlive, Hfailed, fmap_app, elem_of_app. simpl.
    rewrite list_elem_of_singleton.
    intros [[->|?]|[?|[?|[?|?]]]]; try done;
      try (apply (Hk false); apply o_known0; eauto; fail).
    by subst.
  - intros x. rewrite Hlive, Hfailed. intros [->|?]; [tauto|eauto].
  - intros x. rewrite Hlive. intros [->|?]; [tauto|eauto].
  - rewrite Hfailed. done.
  - intros c t0. destruct (decide (c = ctx)) as [->|Hne].
    + rewrite lookup_insert_eq. by intros [= <-].
    + rewrite lookup_insert_ne by done. intros Ht0.
      specialize (o_task_ok0 _ _ Ht0). destruct t0 as [[pr|]|a pr k|a pr [r|]]; simpl in *;
        naive_solver.
  - intros pr Hpr. apply Hr. eauto.
Qed.

(** The task on [ctx] ends and queues a retry for its page. *)
Lemma owned_requeue fl q ts d ed fe dr ctx t pr :
  owned fl q ts d ed fe dr →
  ts !! ctx = Some t →
  task_page t = Some (rp pr) →
  retry_ok V d (retry pr) →
  owned (set_delete ctx fl) (q ++ [pr]) (delete ctx ts) d ed fe dr.
Proof.
  intros H Ht Hp Hok. pose proof H as [].
  assert (Hheld : ∀ c x, held (delete ctx ts) c x ↔ c ≠ ctx ∧ held ts c x).
  { intros c x. apply held_delete. }
  assert (Hq : ∀ x, queued (q ++ [pr]) x ↔ queued q x ∨ x = rp pr).
  { intros x. unfold queued. rewrite fmap_app, elem_of_app. simpl.
    by rewrite list_elem_of_singleton. }
  assert (Hpl : held ts ctx (rp pr)) by by exists t.
  assert (Hlive : ∀ x, live (q ++ [pr]) (delete ctx ts) x → live q ts x).
  { intros x [[?| ->]%Hq|[c [_ ?]%Hheld]]; [by left| |right; eauto].
    right. eauto. }
  split.
  - by apply NoDup_set_delete.
  - intros c. rewrite elem_of_set_delete, o_flows_tasks0.
    destruct (decide (c = ctx)) as [->|Hne].
    + rewrite lookup_delete_eq. split; [tauto|]. by intros [? ?].
    + rewrite lookup_delete_ne by done. tauto.
  - rewrite fmap_app. apply NoDup_app. split; [done|]. split; [|apply NoDup_singleton].
    intros x Hx. simpl. rewrite list_elem_of_singleton. intros ->.
    by eapply o_queue_held0.
  - intros c x [Hne Hc]%Hheld [?| ->]%Hq; [by eapply o_queue_held0|].
    apply Hne. by eapply o_held_unique0.
  - intros c1 c2 x [_ H1]%Hheld [_ H2]%Hheld. eauto.
  - intros x [?%Hlive|?]; eauto.
  - intros x ?%Hlive. eauto.
  - intros x ?%Hlive. eauto.
  - done.
  - intros c t0 Ht0. apply lookup_delete_Some in Ht0 as [_ Ht0]. eauto.
  - intros pr' [?| ->%list_elem_of_singleton]%elem_of_app; eauto.
Qed.
End Ownership.

(** ** Lists of numbered entries *)
Section Numbered.
Lemma filter_keys_all {A} (l : list (nat * A)) i :
  i ∉ l.*1 → filter (λ e, e.1 ≠ i) l = l.
Proof.
  induction l as [|[j r] l IH]; [done|]. simpl. intros Hi.
  rewrite filter_cons. simpl. destruct (decide (j ≠ i)) as [Hne|Heq].
  - f_equal. apply IH. set_solver.
  - exfalso. apply Hi. apply dec_stable in Heq. subst. set_solver.
Qed.

Lemma filter_key_split {A} (indexed : list (nat * A)) i r :
  NoDup indexed.*1 → (i, r) ∈ indexed →
  ∃ x1 x2, indexed = x1 ++ (i, r) :: x2 ∧ filter (λ e, e.1 ≠ i) indexed = x1 ++ x2.
Proof.
  intros Hnd Hin. apply list_elem_of_split in Hin as (x1 & x2 & ->).
  exists x1, x2. split; [done|].
  rewrite fmap_app, fmap_cons in Hnd. simpl in Hnd.
  apply NoDup_app in Hnd as (_ & H1 & H2). apply NoDup_cons in H2 as [H2 _].
  rewrite filter_app, filter_cons. simpl.
  destruct (decide (i ≠ i)); [done|].
  rewrite !filter_keys_all; [done..|]. intros Hx. apply (H1 _ Hx). set_solver.
Qed.

Lemma imap_pair_fst {A} (l : list A) : ∀ k, (imap (λ i, pair (k + i)) l).*1 = seq k (length l).
Proof.
  induction l as [|x l IH]; intros k; [done|]. simpl. rewrite Nat.add_0_r. f_equal.
  rewrite <- IH. f_equal. apply imap_ext. intros i y _. simpl. f_equal. lia.
Qed.

Lemma imap_pair_snd {A} (l : list A) : ∀ k, (imap (λ i, pair (k + i)) l).*2 = l.
Proof.
  induction l as [|x l IH]; intros k; [done|]. simpl. f_equal.
  rewrite <- (IH (S k)) at 2. f_equal. apply imap_ext. intros i y _. simpl. f_equal. lia.
Qed.
End Numbered.

(** ** The orchestrator: ownership along a run *)
Section OwnershipRun.
Import Js Flow.
Context {DState TRetry Frame : Type}.
Variable drv : Driver DState TRetry Frame.
Variable o : Options.t.
Variable V : View (DState := DState) (TRetry := TRetry) (Frame := Frame).
Hypothesis laws : Lawful drv V.

Abbreviation PendingRetry := (PendingRetry TRetry).
Abbreviation Task := (Task TRetry Frame).
Abbreviation State := (State DState TRetry Frame).

Implicit Types (st : State) (pr : option PendingRetry) (ctx c : Ctx).

(** [ctx] holds [pr] and waits to run. *)
Definition parked ctx pr st : State :=
  set_tasks (<[ctx := Sleeping pr]> (tasks st)) st.

Lemma mark_done_executorDone done st :
  executorDone (mark_done done st) = executorDone st || done.
Proof. destruct done; simpl; by rewrite ?orb_true_r, ?orb_false_r. Qed.

Lemma callExecutor_parked w ctx pr st :
  callExecutor drv o w ctx pr (parked ctx pr st) = callExecutor drv o w ctx pr st.
Proof.
  unfold callExecutor, parked. simpl.
  destruct (begin drv _ _ _ _ _) as [d done k|d done ret]; destruct done; simpl;
    unfold set_tasks; simpl; by rewrite insert_insert_eq.
Qed.

Lemma afterInterval_parked w ctx pr canceled st :
  afterInterval drv o w ctx pr canceled (parked ctx pr st)
  = afterInterval drv o w ctx pr canceled st.
Proof.
  unfold afterInterval. simpl.
  destruct (canceled || _).
  - unfold release, parked, set_ticks, set_tasks, set_flows. simpl.
    by rewrite delete_insert_eq.
  - rewrite <- (callExecutor_parked w ctx pr (set_flowsLastExecution _ st)).
    done.
Qed.

Lemma handleFlowExecution_parked w ctx pr st :
  handleFlowExecution drv o w ctx pr (parked ctx pr st)
  = handleFlowExecution drv o w ctx pr st.
Proof.
  unfold handleFlowExecution. simpl.
  destruct (flowsLastExecution st !! ctx) as [time|].
  - destruct (0 <? _)%Z.
    + unfold parked, set_tasks. simpl. by rewrite insert_insert_eq.
    + apply afterInterval_parked.
  - rewrite <- (callExecutor_parked w ctx pr (set_flowsLastExecution _ st)). done.
Qed.

Lemma Owned_callExecutor w ctx pr st :
  Owned drv V st → tasks st !! ctx = Some (Sleeping pr) →
  (pr = None → executorDone st = false) →
  Owned drv V (callExecutor drv o w ctx pr st).
Proof.
  intros Hown Ht Hfresh. unfold callExecutor.
  pose proof (o_task_ok _ _ _ _ _ _ _ _ _ Hown _ _ Ht) as Hok.
  destruct pr as [r0|]; simpl.
  - pose proof (law_begin_retry _ _ laws ctx (attemptsLeft r0) (retry r0) (now w)
                  (driver st) Hok) as Hlaw.
    destruct (begin drv _ _ _ _ _) as [d' done k|d' done ret].
    + destruct Hlaw as (Hpage & Hatt & Hfailed & Hadv & Hfok).
      unfold Owned. simpl. rewrite mark_done_executorDone.
      replace (flows (mark_done done (set_driver d' st))) with (flows st)
        by by destruct done.
      replace (pendingRetries (mark_done done (set_driver d' st)))
        with (pendingRetries st) by by destruct done.
      replace (driver (mark_done done (set_driver d' st))) with d' by by destruct done.
      replace (dropped (mark_done done (set_driver d' st))) with (dropped st)
        by by destruct done.
      eapply owned_same; [exact Hown|exact Ht|..]; simpl; try done.
      * by rewrite Hpage.
      * intros p. rewrite fmap_app, elem_of_app. simpl. rewrite list_elem_of_singleton.
        intros [?| ->]; [by left|]. right. by rewrite Hpage.
    + destruct Hlaw as (-> & Hfailed & Hadv).
      unfold Owned. simpl. rewrite mark_done_executorDone.
      replace (flows (mark_done done (set_driver d' st))) with (flows st)
        by by destruct done.
      replace (pendingRetries (mark_done done (set_driver d' st)))
        with (pendingRetries st) by by destruct done.
      replace (driver (mark_done done (set_driver d' st))) with d' by by destruct done.
      replace (fetched (mark_done done (set_driver d' st))) with (fetched st)
        by by destruct done.
      eapply owned_end; [exact Hown|exact Ht|..]; simpl; try done.
      left. split; [done|]. by right.
  - pose proof (law_begin_fresh _ _ laws ctx (Options.retryLimit (Options.errorHandlingPolicy o))
                  (now w) (driver st)) as Hlaw.
    destruct (begin drv _ _ _ _ _) as [d' done k|d' done ret].
    + destruct Hlaw as (Hnew & Hknown & Hatt & Hfailed & Hadv & Hfok).
      unfold Owned. simpl. rewrite mark_done_executorDone.
      replace (flows (mark_done done (set_driver d' st))) with (flows st)
        by by destruct done.
      replace (pendingRetries (mark_done done (set_driver d' st)))
        with (pendingRetries st) by by destruct done.
      replace (driver (mark_done done (set_driver d' st))) with d' by by destruct done.
      replace (dropped (mark_done done (set_driver d' st))) with (dropped st)
        by by destruct done.
      unfold Owned in Hown. simpl. rewrite (Hfresh eq_refl) in Hown |- *. simpl.
      eapply owned_fresh; [exact Hown|exact Ht|..]; simpl; done.
    + destruct Hlaw as (-> & Hfailed & Hadv).
      unfold Owned. simpl. rewrite mark_done_executorDone.
      replace (flows (mark_done done (set_driver d' st))) with (flows st)
        by by destruct done.
      replace (pendingRetries (mark_done done (set_driver d' st)))
        with (pendingRetries st) by by destruct done.
      replace (driver (mark_done done (set_driver d' st))) with d' by by destruct done.
      replace (fetched (mark_done done (set_driver d' st))) with (fetched st)
        by by destruct done.
      eapply owned_same; [exact Hown|exact Ht|..]; simpl; try done.
      intros p. by left.
Qed.

Lemma Owned_release ctx st : Owned drv V st → Owned drv V (release ctx st).
Proof. intros H. unfold Owned, release. simpl. by apply owned_release. Qed.

Lemma Owned_afterInterval w ctx pr canceled st :
  Owned drv V st → tasks st !! ctx = Some (Sleeping pr) →
  Owned drv V (afterInterval drv o w ctx pr canceled st).
Proof.
  intros Hown Ht. unfold afterInterval. simpl.
  destruct (canceled || _) eqn:Hc.
  - by apply Owned_release.
  - apply orb_false_iff in Hc as [_ Hc]. apply Owned_callExecutor; [done..|].
    intros ->. simpl in Hc. by rewrite andb_true_r in Hc.
Qed.

Lemma Owned_handleFlowExecution w ctx pr st :
  Owned drv V st → tasks st !! ctx = Some (Sleeping pr) →
  (pr = None → executorDone st = false) →
  Owned drv V (handleFlowExecution drv o w ctx pr st).
Proof.
  intros Hown Ht Hfresh. unfold handleFlowExecution.
  destruct (flowsLastExecution st !! ctx) as [time|].
  - destruct (0 <? _)%Z.
    + unfold Owned. simpl. by rewrite insert_id.
    + by apply Owned_afterInterval.
  - by apply Owned_callExecutor.
Qed.

(** [flows.add(ctx)] and [handleFlowExecution(ctx, undefined)] *)
Lemma Owned_dispatch_fresh w ctx st :
  Owned drv V st → ctx ∉ flows st → executorDone st = false →
  Owned drv V (handleFlowExecution drv o w ctx None (set_flows (set_add ctx (flows st)) st)).
Proof.
  intros Hown Hctx Hed.
  rewrite <- handleFlowExecution_parked.
  apply Owned_handleFlowExecution.
  - unfold Owned. simpl. by apply owned_park.
  - simpl. by rewrite lookup_insert_eq.
  - done.
Qed.

(** A queued retry is taken out, [flows.add(ctx)] and
    [handleFlowExecution(ctx, pendingRetry)] *)
Lemma Owned_dispatch_retry w ctx r q1 q2 st :
  Owned drv V st → ctx ∉ flows st → pendingRetries st = q1 ++ r :: q2 →
  Owned drv V (handleFlowExecution drv o w ctx (Some r)
           (set_flows (set_add ctx (flows st)) (set_pendingRetries (q1 ++ q2) st))).
Proof.
  intros Hown Hctx Hq.
  rewrite <- handleFlowExecution_parked.
  apply Owned_handleFlowExecution.
  - unfold Owned in *. simpl. rewrite Hq in Hown. by apply owned_park_retry.
  - simpl. by rewrite lookup_insert_eq.
  - done.
Qed.

Lemma callExecutor_flows w ctx pr st :
  flows (callExecutor drv o w ctx pr st) = flows st
  ∧ pendingRetries (callExecutor drv o w ctx pr st) = pendingRetries st
  ∧ engine (callExecutor drv o w ctx pr st) = engine st.
Proof.
  unfold callExecutor.
  destruct (begin drv _ _ _ _ _) as [d' done k|d' done ret]; by destruct done.
Qed.

(** What [handleFlowExecution] leaves alone. *)
Lemma handleFlowExecution_frame w ctx pr st :
  (∀ c, c ∈ flows (handleFlowExecution drv o w ctx pr st) → c ∈ flows st)
  ∧ pendingRetries (handleFlowExecution drv o w ctx pr st) = pendingRetries st
  ∧ engine (handleFlowExecution drv o w ctx pr st) = engine st.
Proof.
  unfold handleFlowExecution, afterInterval.
  destruct (flowsLastExecution st !! ctx) as [time|].
  - destruct (0 <? _)%Z; [done|]. simpl.
    destruct (_ && _).
    + simpl. split; [|done]. intros c. rewrite elem_of_set_delete. tauto.
    + destruct (callExecutor_flows w ctx pr
                  (set_flowsLastExecution (<[ctx:=now w]> (flowsLastExecution st)) st))
        as (-> & -> & ->). done.
  - destruct (callExecutor_flows w ctx pr
                (set_flowsLastExecution (<[ctx:=now w]> (flowsLastExecution st)) st))
      as (-> & -> & ->). done.
Qed.

(** The loop over the free contexts. *)
Lemma Owned_dispatchFresh w : ∀ freeContexts remaining st,
  Owned drv V st → NoDup freeContexts → (∀ c, c ∈ freeContexts → c ∉ flows st) →
  Owned drv V (dispatchFresh drv o w freeContexts remaining st).
Proof.
  induction freeContexts as [|ctx rest IH]; intros remaining st Hown Hnd Hfree; [done|].
  apply NoDup_cons in Hnd as [Hctx Hnd].
  cbn [dispatchFresh].
  destruct (Options.retryDistinctFlows _).
  - destruct (executorDone st) eqn:Hed; simpl; [done|].
    destruct (_ <=? 0)%Z.
    + apply Owned_dispatch_fresh; [done| |done]. apply Hfree. set_solver.
    + apply IH; [|done|].
      * apply Owned_dispatch_fresh; [done| |done]. apply Hfree. set_solver.
      * intros c Hc Hin.
        apply (handleFlowExecution_frame w ctx None) in Hin. simpl in Hin.
        apply elem_of_set_add in Hin as [->|Hin]; [done|].
        eapply Hfree; [|done]. set_solver.
  - destruct (pendingRetries st) as [|r prs] eqn:Hq.
    + destruct (executorDone st) eqn:Hed; simpl; [done|].
      destruct (_ <=? 0)%Z.
      * apply Owned_dispatch_fresh; [done| |done]. apply Hfree. set_solver.
      * apply IH; [|done|].
        -- apply Owned_dispatch_fresh; [done| |done]. apply Hfree. set_solver.
        -- intros c Hc Hin.
           apply (handleFlowExecution_frame w ctx None) in Hin. simpl in Hin.
           apply elem_of_set_add in Hin as [->|Hin]; [done|].
           eapply Hfree; [|done]. set_solver.
    + simpl. rewrite andb_false_r.
      assert (Hd : Owned drv V (handleFlowExecution drv o w ctx (Some r)
                    (set_flows (set_add ctx (flows (set_pendingRetries prs st)))
                       (set_pendingRetries prs st)))).
      { apply (Owned_dispatch_retry w ctx r [] prs st); [done| |done].
        apply Hfree. set_solver. }
      destruct (_ <=? 0)%Z; [done|].
      apply IH; [done..|].
      intros c Hc Hin.
      apply (handleFlowExecution_frame w ctx (Some r)) in Hin. simpl in Hin.
      apply elem_of_set_add in Hin as [->|Hin]; [done|].
      eapply Hfree; [|done]. set_solver.
Qed.

Lemma Owned_finish w st : Owned drv V st → Owned drv V (finish drv w st).
Proof. unfold finish. by destruct (resolved st). Qed.

Lemma Owned_forcedStop w st : Owned drv V st → Owned drv V (forcedStop drv w st).
Proof. intros H. unfold forcedStop. by apply Owned_finish. Qed.

(** The loop over the retry queue. *)
Lemma Owned_dispatchRetries w (m : @Matching TRetry) fc0 prs n :
  matched fc0 prs n m →
  ∀ queue indexed freeContexts st,
    Owned drv V st → pendingRetries st = indexed.*2 →
    NoDup indexed.*1 → NoDup queue.*1 →
    (∀ i r, (i, r) ∈ queue → (i, r) ∈ indexed) →
    (∀ i r c l, (i, r) ∈ queue → flows_of i m = c :: l → c ∈ freeContexts) →
    NoDup freeContexts → (∀ c, c ∈ freeContexts → c ∉ flows st) →
    let '(st', free', _) := dispatchRetries drv o w m queue indexed freeContexts st in
    Owned drv V st' ∧ NoDup free' ∧ (∀ c, c ∈ free' → c ∉ flows st').
Proof.
  intros Hm. induction queue as [|[i r] rest IH];
    intros indexed freeContexts st Hown Hq Hki Hkq Hsub Hheads Hnd Hfree; [done|].
  cbn [dispatchRetries].
  destruct (flows_of i m) as [|ctx l] eqn:Hfl.
  { split; [by apply Owned_forcedStop|]. split; [done|].
    intros c Hc. unfold forcedStop, finish. destruct (resolved _); simpl; eauto. }
  assert (Hir : (i, r) ∈ indexed) by (apply Hsub; constructor).
  destruct (filter_key_split indexed i r Hki Hir) as (x1 & x2 & Hsplit & Hfilter).
  rewrite Hfilter.
  assert (Hctx : ctx ∈ freeContexts) by (eapply (Hheads i r); [constructor|done]).
  simpl in Hkq. apply NoDup_cons in Hkq as [Hi Hkq].
  set (st3 := handleFlowExecution drv o w ctx (Some r) _).
  assert (Hown3 : Owned drv V st3).
  { unfold st3. simpl. rewrite fmap_app.
    apply (Owned_dispatch_retry w ctx r (x1.*2) (x2.*2) st); [done|by apply Hfree|].
    by rewrite Hq, Hsplit, fmap_app, fmap_cons. }
  destruct (handleFlowExecution_frame w ctx (Some r)
              (set_flows (set_add ctx (flows (set_pendingRetries ((x1 ++ x2).*2) st)))
                 (set_pendingRetries ((x1 ++ x2).*2) st))) as (Hf3 & Hq3 & _).
  fold st3 in Hf3, Hq3. simpl in Hf3, Hq3.
  assert (Hki' : NoDup (x1 ++ x2).*1).
  { rewrite Hsplit, fmap_app, fmap_cons in Hki. rewrite fmap_app.
    apply NoDup_app in Hki as (H1 & H2 & H3). apply NoDup_cons in H3 as [_ H3].
    apply NoDup_app. set_solver. }
  assert (Hsub' : ∀ i' r', (i', r') ∈ rest → (i', r') ∈ x1 ++ x2).
  { intros i' r' Hin. assert (i' ≠ i).
    { intros ->. apply Hi. apply list_elem_of_fmap. by exists (i, r'). }
    assert ((i', r') ∈ indexed) as Hin' by (apply Hsub; by constructor).
    rewrite Hsplit in Hin'. set_solver. }
  assert (Hheads' : ∀ i' r' c l', (i', r') ∈ rest → flows_of i' m = c :: l' →
                      c ∈ set_delete ctx freeContexts).
  { intros i' r' c l' Hin Hfl'. apply elem_of_set_delete. split.
    - intros ->. assert (i' = i) as -> by by eapply matched_heads_differ.
      apply Hi. apply list_elem_of_fmap. by exists (i, r').
    - eapply (Hheads i' r'); [by constructor|done]. }
  assert (Hfree' : ∀ c, c ∈ set_delete ctx freeContexts → c ∉ flows st3).
  { intros c [Hne Hc]%elem_of_set_delete Hin. apply Hf3 in Hin.
    apply elem_of_set_add in Hin as [?|?]; [done|]. by eapply Hfree. }
  exact (IH (x1 ++ x2) (set_delete ctx freeContexts) st3 Hown3 Hq3 Hki' Hkq Hsub'
           Hheads' (NoDup_set_delete _ _ Hnd) Hfree').
Qed.

Lemma same_retry_pages nContexts (q q' : list PendingRetry) :
  Forall2 (same_retry nContexts) q q' →
  rp drv <$> q' = rp drv <$> q
  ∧ ∀ r', r' ∈ q' → ∃ r, r ∈ q ∧ same_retry nContexts r r'.
Proof.
  induction 1 as [|r r' q q' Hr Hq [IH1 IH2]]; [split; [done|set_solver]|].
  split.
  - simpl. f_equal; [|done]. unfold rp. by destruct Hr as [-> _].
  - intros x [->|Hx]%elem_of_cons; [exists r; set_solver|].
    destruct (IH2 x Hx) as (y & ? & ?). exists y. set_solver.
Qed.

Lemma owned_same_retries nContexts fl (q q' : list PendingRetry) ts d ed fe dr :
  Forall2 (same_retry nContexts) q q' →
  owned drv V fl q ts d ed fe dr → owned drv V fl q' ts d ed fe dr.
Proof.
  intros [Hp Hr]%same_retry_pages [].
  assert (Hq : ∀ p, queued drv q' p ↔ queued drv q p) by (intros p; unfold queued; by rewrite Hp).
  assert (Hl : ∀ p, live drv q' ts p ↔ live drv q ts p) by (intros p; unfold live; by rewrite Hq).
  split; try done.
  - by rewrite Hp.
  - intros c p. rewrite Hq. eauto.
  - intros p. rewrite Hl. eauto.
  - intros p. rewrite Hl. eauto.
  - intros p. rewrite Hl. eauto.
  - intros r' (r & Hin & Hsame & _)%Hr. rewrite Hsame. eauto.
Qed.

Lemma Owned_startFlows w st : Owned drv V st → Owned drv V (startFlows drv o w st).
Proof.
  intros Hown. unfold startFlows.
  destruct (resolved st); [done|].
  destruct (quiescent st); [by apply Owned_finish|].
  destruct (_updateFlowsContexts _ _ _ _) as [e ok].
  destruct ok; simpl; [|by apply Owned_forcedStop].
  destruct (_ <=? 0)%Z; [done|].
  set (freeContexts := set_of_list _).
  assert (Hnd : NoDup freeContexts) by apply NoDup_set_of_list.
  assert (Hfree : ∀ c, c ∈ freeContexts → c ∉ flows st).
  { intros c [? _]%elem_of_set_of_list%list_elem_of_filter. done. }
  destruct (Options.retryDistinctFlows _); [|by apply Owned_dispatchFresh].
  pose proof (matchRetries_matched freeContexts (length (flowsContexts e))
                (pendingRetries st)
                (currentConcurrency o (set_engine e st) - Z.of_nat (length (flows st)))%Z)
    as Hmatch.
  destruct (matchRetries _ _ _ _ _ _) as [[prs m] remaining].
  destruct Hmatch as [Hm Hsame].
  pose proof (Owned_dispatchRetries w m _ _ _ Hm (retryQueue m) (imap pair prs)
                freeContexts (set_pendingRetries prs (set_engine e st))) as Hloop.
  destruct (dispatchRetries _ _ _ _ _ _ _ _) as [[st' free'] ok].
  destruct Hloop as (Hown' & Hnd' & Hfree').
  - unfold Owned in *. simpl. by eapply owned_same_retries.
  - simpl. symmetry. exact (imap_pair_snd prs 0).
  - assert ((imap pair prs).*1 = seq 0 (length prs)) as -> by exact (imap_pair_fst prs 0).
    apply NoDup_seq.
  - apply (m_queue_nodup _ _ _ _ Hm).
  - intros i r Hin. apply (m_queue _ _ _ _ Hm) in Hin as (_ & Hi & _).
    apply list_elem_of_lookup. exists i. rewrite list_lookup_imap, Hi. done.
  - intros i r c l _ Hfl. apply (m_free _ _ _ _ Hm i). rewrite Hfl. set_solver.
  - done.
  - done.
  - destruct ok; simpl; [|done].
    destruct (_ <=? 0)%Z; [done|]. by apply Owned_dispatchFresh.
Qed.

Lemma Owned_step w j st st' :
  Owned drv V st → step drv o w j st = Some st' → Owned drv V st'.
Proof.
  intros Hown Hstep. destruct j as [|ctx|ctx s|ctx|]; simpl in Hstep.
  - destruct (ticks st) as [|n]; [done|]. injection Hstep as <-.
    by apply Owned_startFlows.
  - destruct (tasks st !! ctx) as [[pr| |]|] eqn:Ht; try done. injection Hstep as <-.
    by apply Owned_afterInterval.
  - destruct (tasks st !! ctx) as [[|a pr k|]|] eqn:Ht; try done.
    destruct (o_task_ok _ _ _ _ _ _ _ _ _ Hown _ _ Ht) as [Hatt Hfok].
    pose proof (law_resume _ _ laws k s (now w) (driver st) Hfok) as Hlaw.
    destruct (resume drv k s (now w) (driver st)) as [d' done k'|d' done ret];
      injection Hstep as <-.
    + destruct Hlaw as (Hpage & Hatt' & Hfailed & Hadv & Hfok').
      unfold Owned. simpl. rewrite mark_done_executorDone.
      replace (flows (mark_done done (set_driver d' st))) with (flows st)
        by by destruct done.
      replace (pendingRetries (mark_done done (set_driver d' st)))
        with (pendingRetries st) by by destruct done.
      replace (driver (mark_done done (set_driver d' st))) with d' by by destruct done.
      replace (dropped (mark_done done (set_driver d' st))) with (dropped st)
        by by destruct done.
      replace (fetched (mark_done done (set_driver d' st))) with (fetched st)
        by by destruct done.
      eapply owned_same; [exact Hown|exact Ht|..]; simpl; try done.
      * by rewrite Hpage.
      * split; [congruence|done].
      * intros p. by left.
    + destruct Hlaw as (Hadv & Hret & Hfail).
      unfold Owned. simpl. rewrite mark_done_executorDone.
      replace (flows (mark_done done (set_driver d' st))) with (flows st)
        by by destruct done.
      replace (pendingRetries (mark_done done (set_driver d' st)))
        with (pendingRetries st) by by destruct done.
      replace (driver (mark_done done (set_driver d' st))) with d' by by destruct done.
      replace (dropped (mark_done done (set_driver d' st))) with (dropped st)
        by by destruct done.
      replace (fetched (mark_done done (set_driver d' st))) with (fetched st)
        by by destruct done.
      destruct ret as [r|].
      * destruct (Hret r eq_refl) as [Hpage Hrok].
        destruct (is_zero a) eqn:Hz.
        -- eapply owned_end; [exact Hown|exact Ht|..]; simpl; try done.
           ++ by rewrite Hz.
           ++ destruct Hfail as [?|(? & _)]; [left|right]; by eauto.
        -- eapply owned_same; [exact Hown|exact Ht|..]; simpl; try done.
           ++ by rewrite Hz, Hpage.
           ++ destruct Hfail as [?|(_ & Hz' & _)]; [done|]. congruence.
           ++ intros p. by left.
      * eapply owned_end; [exact Hown|exact Ht|..]; simpl; try done.
        destruct Hfail as [?|(_ & _ & ?)]; [|done]. left. by eauto.
  - destruct (tasks st !! ctx) as [[| |a pr ret]|] eqn:Ht; try done.
    injection Hstep as <-. unfold afterExecutor.
    destruct ret as [r|].
    + destruct (is_zero a) eqn:Hz; simpl; [by apply Owned_release|].
      unfold Owned, release. simpl.
      eapply owned_requeue; [exact Hown|exact Ht|..]; simpl.
      * by rewrite Hz.
      * apply (o_task_ok _ _ _ _ _ _ _ _ _ Hown _ _ Ht).
    + by apply Owned_release.
  - destruct (aborted st); [done|]. injection Hstep as <-.
    by apply Owned_forcedStop.
Qed.

Lemma Owned_run schedule : ∀ st st',
  Owned drv V st → run drv o schedule st = Some st' → Owned drv V st'.
Proof.
  induction schedule as [|[w j] rest IH]; intros st st' Hown Hrun; simpl in Hrun.
  - by injection Hrun as <-.
  - destruct (step drv o w j st) as [st1|] eqn:Hstep; [|done].
    eapply IH; [|done]. by eapply Owned_step.
Qed.

Lemma Owned_start w signalAborted e d :
  failed V d = [] → Owned drv V (_startFlowOrchestrator drv o w signalAborted e d).
Proof.
  intros Hfailed. unfold _startFlowOrchestrator.
  set (st := {| flows := [] |}).
  assert (Hheld : ∀ c p, ¬ held drv (∅ : gmap Ctx Task) c p).
  { intros c p (t & Ht & _). by rewrite lookup_empty in Ht. }
  assert (Hlive : ∀ p, ¬ live drv ([] : list PendingRetry) ∅ p).
  { intros p [Hq|[c Hc]]; [|by eapply Hheld]. unfold queued in Hq. set_solver. }
  assert (Owned drv V st).
  { split; simpl.
    - constructor.
    - intros c. rewrite lookup_empty. split; [set_solver|]. by intros [? ?].
    - constructor.
    - intros c p Hc. by apply Hheld in Hc.
    - intros c1 c2 p Hc. by apply Hheld in Hc.
    - rewrite Hfailed. intros p [Hl|[?|[?|?]]]; [by apply Hlive in Hl|set_solver..].
    - intros p Hl. by apply Hlive in Hl.
    - intros p Hl. by apply Hlive in Hl.
    - rewrite Hfailed. set_solver.
    - intros c t Ht. by rewrite lookup_empty in Ht.
    - set_solver. }
  destruct signalAborted; [by apply Owned_finish|by apply Owned_startFlows].
Qed.
End OwnershipRun.

(** ** Page counters that never round

    The page counters of the TotalPages, HasMore and Cursor drivers are
    doubles, and [nextPage++] stops counting at [2^53].  The laws below
    are those of drivers that count in the integers; [Js.incr] counts as
    they do on the safe integers, which is how the laws reach the drivers
    of the code. *)
Section Safe.
Import Js.

Lemma incr_safe x : isSafeInteger x = true → incr x = (x + 1)%Z.
Proof.
  unfold isSafeInteger, incr, TWO_53.
  intros [H1 H2]%andb_true_iff. apply Z.ltb_lt in H1, H2.
  rewrite andb_true_intro; [done|]. split; [apply Z.leb_le|apply Z.ltb_lt]; lia.
Qed.
End Safe.

Section Counting.
Import Js Flow Summary Drivers.
Variable o : Options.t.

Definition totalPages_count (ctx : Ctx) (attemptsLeft : count) (retry : option Z) (now : Z)
    (d : TotalPagesState) : Exec TotalPagesState Z PageFrame :=
  match retry with
  | Some p => totalPages_begin ctx attemptsLeft retry now d
  | None =>
      match totalPages_begin ctx attemptsLeft None now d with
      | Awaits d' done k =>
          Awaits
            {| tp_summaryHelper := tp_summaryHelper d';
               tp_failCounter := tp_failCounter d';
               tp_nextPage := (tp_nextPage d + 1)%Z;
               tp_lastPage := tp_lastPage d' |}
            done k
      | x => x
      end
  end.

(** The TotalPages driver with its counter in the integers. *)
Definition totalPages_counting : Driver TotalPagesState Z PageFrame :=
  {| begin := totalPages_count;
     resume := totalPages_resume o;
     conclude := totalPages_conclude o;
     page_of_frame := page;
     page_of_retry := λ p, p |}.

Definition hasMore_count (ctx : Ctx) (attemptsLeft : count) (retry : option Z) (now : Z)
    (d : HasMoreState) : Exec HasMoreState Z PageFrame :=
  match retry with
  | Some p => hasMore_begin ctx attemptsLeft retry now d
  | None =>
      match hasMore_begin ctx attemptsLeft None now d with
      | Awaits d' done k =>
          Awaits
            {| hm_summaryHelper := hm_summaryHelper d';
               hm_failCounter := hm_failCounter d';
               hm_nextPage := (hm_nextPage d + 1)%Z;
               hm_lastPage := hm_lastPage d' |}
            done k
      | x => x
      end
  end.

(** The HasMore driver with its counter in the integers. *)
Definition hasMore_counting : Driver HasMoreState Z PageFrame :=
  {| begin := hasMore_count;
     resume := hasMore_resume o;
     conclude := hasMore_conclude o;
     page_of_frame := page;
     page_of_retry := λ p, p |}.

Definition cursor_count (ctx : Ctx) (attemptsLeft : count) (retry : option CursorRetry)
    (now : Z) (d : CursorState) : Exec CursorState CursorRetry CursorFrame :=
  match retry with
  | Some r => cursor_begin ctx attemptsLeft retry now d
  | None =>
      match cursor_begin ctx attemptsLeft None now d with
      | Awaits d' done k =>
          Awaits
            {| c_summaryHelper := c_summaryHelper d';
               c_nextPageCursor := c_nextPageCursor d';
               c_nextPageNum := (c_nextPageNum d + 1)%Z |}
            done k
      | x => x
      end
  end.

(** The Cursor driver with its counter in the integers. *)
Definition cursor_counting : Driver CursorState CursorRetry CursorFrame :=
  {| begin := cursor_count;
     resume := cursor_resume;
     conclude := cursor_conclude;
     page_of_frame := pageNum;
     page_of_retry := r_pageNum |}.
End Counting.

(** ** The last stretch of an executor *)
Section Ends.
Import Js Flow.
Context {DState TRetry Frame : Type}.
Variable drv : Driver DState TRetry Frame.
Variable V : View (DState := DState) (TRetry := TRetry) (Frame := Frame).

(** What [law_resume] asks of a stretch that returns. *)
Definition ends (k : Frame) (d : DState) (x : Exec DState TRetry Frame) : Prop :=
  ∃ d' done ret,
    x = Returns d' done ret
    ∧ advances V d done d'
    ∧ (∀ r, ret = Some r →
         page_of_retry drv r = page_of_frame drv k ∧ retry_ok V d' r)
    ∧ (failed V d' = failed V d
       ∨ (failed V d' = set_add (page_of_frame drv k) (failed V d)
          ∧ is_zero (attempts_of V k) = true ∧ ret ≠ None)).

Lemma advances_trans d d0 d' done :
  advances V d false d0 → advances V d0 done d' → advances V d done d'.
Proof.
  intros (Hk & Hr & Hf) (Hk' & Hr' & Hf'). split_and!.
  - intros ed p H. apply Hk in H. rewrite orb_false_r in H. by apply Hk'.
  - intros r H. by apply Hr', Hr.
  - intros f H. by apply Hf', Hf.
Qed.

(** A stretch may first update the state without touching
    [failedPageList]. *)
Lemma ends_after k d d0 x :
  advances V d false d0 → failed V d0 = failed V d → ends k d0 x → ends k d x.
Proof.
  intros Ha Hf (d' & done & ret & -> & Ha' & Hret & Hfail).
  exists d', done, ret. split_and!; try done.
  - by eapply advances_trans.
  - by rewrite <- Hf.
Qed.

Lemma ends_resume k d x :
  ends k d x →
  match x with
  | Awaits d' done k' =>
      page_of_frame drv k' = page_of_frame drv k
      ∧ attempts_of V k' = attempts_of V k
      ∧ failed V d' = failed V d ∧ advances V d done d' ∧ frame_ok V d' k'
  | Returns d' done ret =>
      advances V d done d'
      ∧ (∀ r, ret = Some r →
           page_of_retry drv r = page_of_frame drv k ∧ retry_ok V d' r)
      ∧ (failed V d' = failed V d
         ∨ (failed V d' = set_add (page_of_frame drv k) (failed V d)
            ∧ is_zero (attempts_of V k) = true ∧ ret ≠ None))
  end.
Proof. by intros (d' & done & ret & -> & H). Qed.
End Ends.

(** ** The five drivers keep to the orchestrator's expectations *)
Section DriverLaws.
Import Js Flow Summary Drivers.
Variable o : Options.t.

Local Ltac law :=
  unfold advances; simpl; split_and?; simpl;
  try done; try (intros; simpl in *; first [lia | naive_solver]).

Lemma failed_addAvgTiming type time h :
  failedPageList (addAvgTiming type time h) = failedPageList h.
Proof. done. Qed.

(** What [account] does to [failedPageList]. *)
Lemma account_failed successful elapsed a p h fc :
  failedPageList (account o successful elapsed a p h fc).1.1
  = if negb successful && is_zero a then set_add p (failedPageList h)
    else failedPageList h.
Proof.
  unfold account. destruct successful; [done|]. simpl.
  destruct (is_zero a); [|done]. by destruct (FailCounter.fail (policy o) (Some p) fc).
Qed.

Definition none_view : View :=
  {| failed := failedPageList;
     attempts_of := n_attemptsLeft;
     known := λ _ ed p, ed = true ∧ p = 1%Z;
     retry_ok := λ _ (_ : unit), True;
     frame_ok := λ _ _, True |}.

Lemma none_lawful : Lawful none_driver none_view.
Proof.
  split.
  - intros c a r now d _. law.
  - intros c a now d. law.
  - intros k s now d _. simpl. unfold none_resume.
    destruct s as [|v]; simpl.
    + split; [law|split; [law|]].
      destruct (is_zero (n_attemptsLeft k)) eqn:Hz; [right|left]; done.
    + split; [law|split; [law|by left]].
Qed.

Definition totalPages_view : View :=
  {| failed := λ d, failedPageList (tp_summaryHelper d);
     attempts_of := f_attemptsLeft;
     known := λ d _ p, (p < tp_nextPage d)%Z;
     retry_ok := λ _ (_ : Z), True;
     frame_ok := λ _ _, True |}.

Lemma totalPages_end_law successful k now d :
  ends (totalPages_counting o) totalPages_view k d (totalPages_end o successful k now d).
Proof.
  unfold totalPages_end, ends.
  pose proof (account_failed successful (now - startTime k) (f_attemptsLeft k) (page k)
                (tp_summaryHelper d) (tp_failCounter d)) as Hf.
  destruct (account _ _ _ _ _ _ _) as [[h fc] done]. simpl in Hf.
  do 3 eexists. split; [done|]. split; [law|split].
  - destruct successful; [done|]. by intros r [= <-].
  - simpl. rewrite Hf. destruct successful; simpl; [by left|].
    destruct (is_zero _); [right|left]; done.
Qed.

Lemma totalPages_lawful : Lawful (totalPages_counting o) totalPages_view.
Proof.
  split.
  - intros c a r now d _. simpl. law.
  - intros c a now d. simpl. law.
    by destruct (match tp_lastPage d with Some _ => _ | None => _ end).
  - intros k s now d _.
    pose proof (ends_resume (totalPages_counting o) totalPages_view k d) as E.
    change (resume (totalPages_counting o) k s now d) with (totalPages_resume o k s now d).
    unfold totalPages_resume.
    destruct (response k) as [resp|], s as [|v].
    + apply E, (totalPages_end_law false).
    + apply E.
      destruct v as [| |?|[q| | |]|?|?|?|?]; try apply (totalPages_end_law false).
      eapply ends_after; [| |apply (totalPages_end_law true)]; law.
    + apply E, (totalPages_end_law false).
    + law.
Qed.

Definition hasMore_view : View :=
  {| failed := λ d, failedPageList (hm_summaryHelper d);
     attempts_of := f_attemptsLeft;
     known := λ d _ p, (p < hm_nextPage d)%Z;
     retry_ok := λ _ (_ : Z), True;
     frame_ok := λ _ _, True |}.

Lemma hasMore_end_law successful done0 k now d :
  ends (hasMore_counting o) hasMore_view k d (hasMore_end o successful done0 k now d).
Proof.
  unfold hasMore_end, ends.
  pose proof (account_failed successful (now - startTime k) (f_attemptsLeft k) (page k)
                (hm_summaryHelper d) (hm_failCounter d)) as Hf.
  destruct (account _ _ _ _ _ _ _) as [[h fc] done]. simpl in Hf.
  do 3 eexists. split; [done|]. split; [law|split].
  - destruct successful; [done|]. by intros r [= <-].
  - simpl. rewrite Hf. destruct successful; simpl; [by left|].
    destruct (is_zero _); [right|left]; done.
Qed.

Lemma hasMore_lawful : Lawful (hasMore_counting o) hasMore_view.
Proof.
  split.
  - intros c a r now d _. simpl. unfold hasMore_begin.
    destruct (beyond _ _); law.
  - intros c a now d. simpl. law.
  - intros k s now d _.
    pose proof (ends_resume (hasMore_counting o) hasMore_view k d) as E.
    change (resume (hasMore_counting o) k s now d) with (hasMore_resume o k s now d).
    unfold hasMore_resume.
    destruct (response k) as [resp|], s as [|v].
    + apply E, (hasMore_end_law false).
    + apply E. destruct (truthy v); [apply (hasMore_end_law true)|].
      eapply ends_after; [| |apply (hasMore_end_law true)]; law.
      by destruct (match hm_lastPage d with Some _ => _ | None => _ end).
    + apply E, (hasMore_end_law false).
    + law.
Qed.

Definition cursor_view : View :=
  {| failed := λ d, failedPageList (c_summaryHelper d);
     attempts_of := c_attemptsLeft;
     known := λ d _ p, (p < c_nextPageNum d)%Z;
     retry_ok := λ _ (_ : CursorRetry), True;
     frame_ok := λ _ _, True |}.

Lemma cursor_end_law successful done0 k now d :
  ends cursor_counting cursor_view k d (cursor_end successful done0 k now d).
Proof.
  unfold cursor_end, ends. destruct successful.
  - do 3 eexists. split; [done|]. split; [law|split]; [done|by left].
  - do 3 eexists. split; [done|]. split; [law|split].
    + by intros r [= <-].
    + simpl. destruct (is_zero _); [right|left]; done.
Qed.

Lemma cursor_lawful : Lawful cursor_counting cursor_view.
Proof.
  split.
  - intros c a r now d _. simpl. law.
  - intros c a now d. simpl. law.
  - intros k s now d _.
    pose proof (ends_resume cursor_counting cursor_view k d) as E.
    change (resume cursor_counting k s now d) with (cursor_resume k s now d).
    unfold cursor_resume.
    destruct (c_response k) as [resp|], s as [|v].
    + apply E, (cursor_end_law false).
    + apply E. destruct (not_nullish v).
      * eapply ends_after; [| |apply (cursor_end_law true)]; law.
      * eapply ends_after; [| |apply (cursor_end_law true)]; law.
    + apply E, (cursor_end_law false).
    + law.
Qed.

Definition list_view : View :=
  {| failed := λ d, failedPageList (l_summaryHelper d);
     attempts_of := l_attemptsLeft;
     known := λ d _ p, (p < Z.of_nat (nextPageIndex d))%Z;
     retry_ok := λ d r, pageListItems d !! r_index r = Some (r_item r);
     frame_ok := λ d k, pageListItems d !! index k = Some (item k) |}.

Lemma list_lawful : Lawful (list_driver o) list_view.
Proof.
  split.
  - intros c a r now d Hr. simpl. law.
  - intros c a now d. simpl. unfold list_begin.
    destruct (length (pageListItems d) <=? nextPageIndex d) eqn:Hlen.
    + law. by destruct (Nat.leb _ (S _)).
    + apply Nat.leb_gt in Hlen. law.
      * by destruct (Nat.leb _ (S _)).
      * apply lookup_lt_is_Some_2 in Hlen as [x Hx]. by rewrite Hx.
  - intros k s now d Hk. simpl. unfold list_resume.
    destruct s as [|v]; simpl.
    + destruct (is_zero (l_attemptsLeft k)) eqn:Hz.
      * destruct (FailCounter.fail (policy o) None (l_failCounter d)) as [fc' cannot].
        simpl. split; [|split].
        -- law.
        -- by intros r [= <-].
        -- by right.
      * split; [|split].
        -- law.
        -- by intros r [= <-].
        -- by left.
    + split; [|split]; [law|done|by left].
Qed.
End DriverLaws.

(** ** What a job can change

    A worker touches the driver's closure only through the executor and
    only appends to the observations; it neither resolves the
    orchestrator's promise nor aborts the signal.  [startFlows] starts
    workers and may then finish or stop the cycle. *)
Section Progress.
Import Js Flow.
Context {DState TRetry Frame : Type}.
Variable drv : Driver DState TRetry Frame.
Variable o : Options.t.

Abbreviation State := (State DState TRetry Frame).
Abbreviation PendingRetry := (PendingRetry TRetry).

Definition exec_state (x : Exec DState TRetry Frame) : DState :=
  match x with Awaits d _ _ | Returns d _ _ => d end.

(** A property of the driver's closure that no stretch of the executor
    breaks. *)
Definition stable (P : DState → Prop) : Prop :=
  (∀ c a r now d, P d → P (exec_state (begin drv c a r now d)))
  ∧ (∀ k s now d, P d → P (exec_state (resume drv k s now d))).

Record worked (st st' : State) : Prop := {
  w_driver : ∀ P, stable P → P (driver st) → P (driver st');
  w_dropped : dropped st `prefix_of` dropped st';
  w_fetched : fetched st `prefix_of` fetched st';
  w_resolved : resolved st' = resolved st;
  w_aborted : aborted st' = aborted st;
  w_summary : summary st' = summary st;
}.

#[local] Instance worked_refl : Reflexive worked.
Proof. intros st. by split. Qed.

#[local] Instance worked_trans : Transitive worked.
Proof.
  intros st1 st2 st3 [Hd1 ? ? ? ? ?] [Hd2 ? ? ? ? ?].
  split; try congruence; try (by etrans).
  intros P HP Hst. by apply (Hd2 P HP), (Hd1 P HP).
Qed.

(** How a call of [startFlows], or a job, ends. *)
Inductive outcome (w : World) (st st' : State) : Prop :=
| Went : worked st st' → outcome w st st'
| Finished st1 :
    worked st st1 → resolved st1 = false → quiescent st1 = true →
    st' = finish drv w st1 → outcome w st st'
| Stopped st1 :
    worked st st1 → st' = forcedStop drv w st1 → outcome w st st'.

Lemma worked_callExecutor w ctx pr st : worked st (callExecutor drv o w ctx pr st).
Proof.
  unfold callExecutor.
  set (a := match pr with Some p => attemptsLeft p | None => _ end).
  assert (Hd : ∀ P, stable P → P (driver st) →
            P (exec_state (begin drv ctx a (retry <$> pr) (now w) (driver st)))).
  { intros P [Hb _]. apply Hb. }
  destruct (begin drv _ _ _ _ _) as [d' done k|d' done ret]; simpl in Hd.
  - split; simpl; destruct done; simpl; try done; by apply prefix_app_r.
  - split; simpl; destruct done, pr; simpl; try done; by apply prefix_app_r.
Qed.

Lemma worked_release ctx st : worked st (release ctx st).
Proof. by split. Qed.

Lemma worked_afterInterval w ctx pr canceled st :
  worked st (afterInterval drv o w ctx pr canceled st).
Proof.
  unfold afterInterval. destruct (_ || _).
  - by split.
  - etrans; [|apply worked_callExecutor]. by split.
Qed.

Lemma worked_handleFlowExecution w ctx pr st :
  worked st (handleFlowExecution drv o w ctx pr st).
Proof.
  unfold handleFlowExecution. destruct (flowsLastExecution st !! ctx).
  - destruct (0 <? _)%Z; [by split|apply worked_afterInterval].
  - etrans; [|apply worked_callExecutor]. by split.
Qed.

Lemma worked_afterExecutor ctx a pr ret st : worked st (afterExecutor ctx a pr ret st).
Proof.
  unfold afterExecutor. destruct ret as [r|]; [destruct (negb _)|]; by split.
Qed.

Lemma outcome_dispatchRetries w m : ∀ queue indexed freeContexts st st' fc ok,
  dispatchRetries drv o w m queue indexed freeContexts st = (st', fc, ok) →
  if ok then worked st st'
  else ∃ st1, worked st st1 ∧ st' = forcedStop drv w st1.
Proof.
  induction queue as [|[i pr] rest IH]; intros indexed freeContexts st st' fc ok H;
    simpl in H.
  - by injection H as <- <- <-.
  - destruct (flows_of i m) as [|ctx ?].
    + injection H as <- <- <-. by exists st.
    + apply IH in H.
      set (st1 := handleFlowExecution _ _ _ _ _ _) in H.
      assert (Hw : worked st st1).
      { etrans; [|apply worked_handleFlowExecution]. by split. }
      destruct ok.
      * by etrans.
      * destruct H as (st2 & Hw2 & ->). exists st2. split; [by etrans|done].
Qed.

Lemma worked_dispatchFresh w : ∀ freeContexts remaining st,
  worked st (dispatchFresh drv o w freeContexts remaining st).
Proof.
  induction freeContexts as [|ctx rest IH]; intros remaining st; [done|].
  cbn [dispatchFresh].
  set (x := if Options.retryDistinctFlows _ then _ else _).
  assert (Hx : worked st x.2).
  { subst x. destruct (Options.retryDistinctFlows _); [done|].
    destruct (pendingRetries st); by split. }
  destruct x as [pr st1]. simpl in Hx.
  destruct (_ && _); [done|].
  set (st2 := handleFlowExecution _ _ _ _ _ _).
  assert (Hw : worked st st2).
  { etrans; [exact Hx|]. etrans; [|apply worked_handleFlowExecution]. by split. }
  destruct (_ <=? 0)%Z; [done|]. etrans; [exact Hw|apply IH].
Qed.

Lemma outcome_startFlows w st : outcome w st (startFlows drv o w st).
Proof.
  unfold startFlows.
  destruct (resolved st) eqn:Hres; [by apply Went|].
  destruct (quiescent st) eqn:Hq; [by apply (Finished _ _ _ st)|].
  destruct (_updateFlowsContexts _ _ _ _) as [e ok].
  destruct ok; simpl; [|apply (Stopped _ _ _ (set_engine e st)); by split].
  destruct (_ <=? 0)%Z; [apply Went; by split|].
  destruct (Options.retryDistinctFlows _).
  - destruct (matchRetries _ _ _ _ _ _) as [[prs m] remaining].
    destruct (dispatchRetries _ _ _ _ _ _ _ _) as [[st1 fc] ok] eqn:Hd.
    apply outcome_dispatchRetries in Hd.
    destruct ok; simpl.
    + assert (Hw : worked st st1) by (etrans; [|exact Hd]; by split).
      destruct (_ <=? 0)%Z; [by apply Went|].
      apply Went. etrans; [exact Hw|apply worked_dispatchFresh].
    + destruct Hd as (st2 & Hw & ->). apply (Stopped _ _ _ st2); [|done].
      etrans; [|exact Hw]. by split.
  - apply Went. etrans; [|apply worked_dispatchFresh]. by split.
Qed.

Lemma outcome_step w j st st' : step drv o w j st = Some st' → outcome w st st'.
Proof.
  intros Hstep. destruct j as [|ctx|ctx s|ctx|]; simpl in Hstep.
  - destruct (ticks st) as [|n]; [done|]. injection Hstep as <-.
    destruct (outcome_startFlows w (set_ticks n st)) as [Hw|st1 Hw Hr Hq ->|st1 Hw ->].
    + apply Went. etrans; [|exact Hw]. by split.
    + apply (Finished _ _ _ st1); try done. etrans; [|exact Hw]. by split.
    + apply (Stopped _ _ _ st1); try done. etrans; [|exact Hw]. by split.
  - destruct (tasks st !! ctx) as [[pr| |]|]; try done. injection Hstep as <-.
    apply Went, worked_afterInterval.
  - destruct (tasks st !! ctx) as [[|a pr k|]|]; try done.
    assert (Hd : ∀ P, stable P → P (driver st) →
              P (exec_state (resume drv k s (now w) (driver st)))).
    { intros P [_ Hr]. apply Hr. }
    destruct (resume drv k s (now w) (driver st)) as [d' done k'|d' done ret];
      injection Hstep as <-; apply Went; split; simpl; by destruct done.
  - destruct (tasks st !! ctx) as [[| |a pr ret]|]; try done.
    injection Hstep as <-. apply Went, worked_afterExecutor.
  - destruct (aborted st); [done|]. injection Hstep as <-.
    by apply (Stopped _ _ _ st).
Qed.

(** What every outcome keeps. *)
Lemma outcome_keeps w st st' :
  outcome w st st' →
  (∀ P, stable P → P (driver st) → P (driver st'))
  ∧ dropped st `prefix_of` dropped st'
  ∧ fetched st `prefix_of` fetched st'.
Proof.
  assert (Hfin : ∀ st1, driver (finish drv w st1) = driver st1
                        ∧ dropped (finish drv w st1) = dropped st1
                        ∧ fetched (finish drv w st1) = fetched st1).
  { intros st1. unfold finish. by destruct (resolved st1). }
  intros [[]|st1 [] _ _ ->|st1 [] ->].
  - done.
  - by destruct (Hfin st1) as (-> & -> & ->).
  - unfold forcedStop. by destruct (Hfin (set_aborted true st1)) as (-> & -> & ->).
Qed.

Lemma run_keeps schedule : ∀ st st',
  run drv o schedule st = Some st' →
  (∀ P, stable P → P (driver st) → P (driver st'))
  ∧ dropped st `prefix_of` dropped st'
  ∧ fetched st `prefix_of` fetched st'.
Proof.
  induction schedule as [|[w j] rest IH]; intros st st' Hrun; simpl in Hrun.
  - by injection Hrun as <-.
  - destruct (step drv o w j st) as [st1|] eqn:Hstep; [|done].
    apply outcome_step, outcome_keeps in Hstep as (Hd & Hdr & Hfe).
    apply IH in Hrun as (Hd' & Hdr' & Hfe').
    split_and!; [|by etrans..].
    intros P HP Hst. by apply (Hd' P HP), (Hd P HP).
Qed.

Lemma start_keeps w signalAborted e d P :
  stable P → P d → P (driver (_startFlowOrchestrator drv o w signalAborted e d)).
Proof.
  intros HP Hd. unfold _startFlowOrchestrator. destruct signalAborted; [done|].
  set (st := {| flows := [] |}).
  destruct (outcome_keeps w st _ (outcome_startFlows w st)) as (Hk & _).
  by apply Hk.
Qed.

(** The summary is what the driver concludes from its closure at the
    moment the promise resolves. *)
Definition concluded (st : State) : Prop :=
  if resolved st then ∃ now d, summary st = Some (conclude drv now d)
  else summary st = None.

Lemma concluded_outcome w st st' : outcome w st st' → concluded st → concluded st'.
Proof.
  assert (Hfin : ∀ st1, concluded st1 → concluded (finish drv w st1)).
  { intros st1. unfold finish, concluded.
    destruct (resolved st1) eqn:Hr; simpl; [by rewrite Hr|]. by eauto. }
  assert (Hw : ∀ st1 st2, worked st1 st2 → concluded st1 → concluded st2).
  { intros st1 st2 [_ _ _ Hr _ Hs]. unfold concluded. by rewrite Hr, Hs. }
  intros [Hwk|st1 Hwk _ _ ->|st1 Hwk ->] Hc.
  - by eapply Hw.
  - by eapply Hfin, Hw.
  - unfold forcedStop. apply Hfin. by apply (Hw _ _ Hwk) in Hc.
Qed.

Lemma concluded_run schedule : ∀ st st',
  run drv o schedule st = Some st' → concluded st → concluded st'.
Proof.
  induction schedule as [|[w j] rest IH]; intros st st' Hrun Hc; simpl in Hrun.
  - by injection Hrun as <-.
  - destruct (step drv o w j st) as [st1|] eqn:Hstep; [|done].
    eapply IH; [done|]. eapply concluded_outcome; [by eapply outcome_step|done].
Qed.

Lemma concluded_start w signalAborted e d :
  concluded (_startFlowOrchestrator drv o w signalAborted e d).
Proof.
  unfold _startFlowOrchestrator. set (st := {| flows := [] |}).
  assert (concluded st) by done.
  destruct signalAborted.
  - unfold finish, concluded. simpl. by eauto.
  - by eapply concluded_outcome; [apply outcome_startFlows|].
Qed.
End Progress.

(** ** Drivers that agree on the safe integers

    Two drivers that differ only in how [begin] leaves the closure when
    the page it hands out is not a safe integer run alike for as long as
    every page fetched is one. *)
Section Transfer.
Import Js Flow.
Context {DState TRetry Frame : Type}.
Variables (drv drv' : Driver DState TRetry Frame) (o : Options.t).

(** Every page fetched is a safe integer. *)
Definition safe_pages (fe : list (Z * Ctx)) : bool :=
  forallb (λ x, isSafeInteger x.1) fe.

Record alike : Prop := {
  alike_resume : ∀ k s now d, resume drv' k s now d = resume drv k s now d;
  alike_conclude : ∀ now d, conclude drv' now d = conclude drv now d;
  alike_frame : ∀ k, page_of_frame drv' k = page_of_frame drv k;
  alike_retry : ∀ r, page_of_retry drv' r = page_of_retry drv r;
  alike_begin : ∀ c a r now d,
    match begin drv c a r now d with
    | Awaits d1 done k =>
        isSafeInteger (page_of_frame drv k) = true →
        begin drv' c a r now d = Awaits d1 done k
    | Returns d1 done ret => begin drv' c a r now d = Returns d1 done ret
    end;
}.

Hypothesis same : alike.

Lemma safe_pages_app fe fe' :
  safe_pages (fe ++ fe') = safe_pages fe && safe_pages fe'.
Proof. apply forallb_app. Qed.

Lemma safe_pages_prefix fe fe' :
  fe `prefix_of` fe' → safe_pages fe' = true → safe_pages fe = true.
Proof. intros [k ->]. rewrite safe_pages_app. by intros [? _]%andb_true_iff. Qed.

Lemma safe_worked (st st' : State DState TRetry Frame) :
  worked drv st st' → safe_pages (fetched st') = true → safe_pages (fetched st) = true.
Proof. intros [_ _ Hf _ _ _]. by apply safe_pages_prefix. Qed.

Lemma finish_alike w (st : State DState TRetry Frame) : finish drv' w st = finish drv w st.
Proof. unfold finish. by rewrite alike_conclude. Qed.

Lemma forcedStop_alike w (st : State DState TRetry Frame) :
  forcedStop drv' w st = forcedStop drv w st.
Proof. unfold forcedStop. apply finish_alike. Qed.

Lemma fetched_finish w (st : State DState TRetry Frame) :
  fetched (finish drv w st) = fetched st.
Proof. unfold finish. by destruct (resolved st). Qed.

Lemma fetched_forcedStop w (st : State DState TRetry Frame) :
  fetched (forcedStop drv w st) = fetched st.
Proof. unfold forcedStop. by rewrite fetched_finish. Qed.

Lemma callExecutor_alike w ctx pr st :
  safe_pages (fetched (callExecutor drv o w ctx pr st)) = true →
  callExecutor drv' o w ctx pr st = callExecutor drv o w ctx pr st.
Proof.
  unfold callExecutor.
  set (a := match pr with Some p => attemptsLeft p | None => _ end).
  pose proof (alike_begin same ctx a (retry <$> pr) (now w) (driver st)) as Hb.
  destruct (begin drv ctx a (retry <$> pr) (now w) (driver st)) as [d1 done k|d1 done ret].
  - intros Hs. rewrite Hb.
    + by rewrite (alike_frame same).
    + assert (fetched (set_tasks (<[ctx := Executing a pr k]> (tasks st))
                (set_fetched (fetched st ++ [(page_of_frame drv k, ctx)])
                   (mark_done done (set_driver d1 st))))
              = fetched st ++ [(page_of_frame drv k, ctx)]) as Hf by done.
      rewrite Hf, safe_pages_app in Hs. apply andb_true_iff in Hs as [_ Hs].
      simpl in Hs. by rewrite andb_true_r in Hs.
  - intros _. rewrite Hb. destruct pr; [|done]. by rewrite (alike_retry same).
Qed.

Lemma afterInterval_alike w ctx pr canceled st :
  safe_pages (fetched (afterInterval drv o w ctx pr canceled st)) = true →
  afterInterval drv' o w ctx pr canceled st = afterInterval drv o w ctx pr canceled st.
Proof.
  unfold afterInterval. destruct (_ || _); [done|]. apply callExecutor_alike.
Qed.

Lemma handleFlowExecution_alike w ctx pr st :
  safe_pages (fetched (handleFlowExecution drv o w ctx pr st)) = true →
  handleFlowExecution drv' o w ctx pr st = handleFlowExecution drv o w ctx pr st.
Proof.
  unfold handleFlowExecution. destruct (flowsLastExecution st !! ctx).
  - destruct (0 <? _)%Z; [done|]. apply afterInterval_alike.
  - apply callExecutor_alike.
Qed.

Lemma dispatchRetries_fetched w m queue indexed freeContexts st st' fc ok :
  dispatchRetries drv o w m queue indexed freeContexts st = (st', fc, ok) →
  fetched st `prefix_of` fetched st'.
Proof.
  intros Hd%outcome_dispatchRetries. destruct ok.
  - by destruct Hd.
  - destruct Hd as (st1 & [] & ->). by rewrite fetched_forcedStop.
Qed.

Lemma dispatchRetries_alike w m : ∀ queue indexed freeContexts st,
  safe_pages (fetched (dispatchRetries drv o w m queue indexed freeContexts st).1.1) = true →
  dispatchRetries drv' o w m queue indexed freeContexts st
  = dispatchRetries drv o w m queue indexed freeContexts st.
Proof.
  induction queue as [|[i pr] rest IH]; intros indexed freeContexts st Hs; [done|].
  cbn [dispatchRetries] in Hs |- *.
  destruct (flows_of i m) as [|ctx ?]; [by rewrite forcedStop_alike|].
  set (st1 := set_flows _ (set_pendingRetries _ st)) in *.
  assert (safe_pages (fetched (handleFlowExecution drv o w ctx (Some pr) st1)) = true) as H1.
  { destruct (dispatchRetries drv o w m rest (filter (λ e, e.1 ≠ i) indexed)
                (set_delete ctx freeContexts)
                (handleFlowExecution drv o w ctx (Some pr) st1)) as [[st2 fc] ok] eqn:Hd.
    apply dispatchRetries_fetched in Hd. by eapply safe_pages_prefix. }
  rewrite handleFlowExecution_alike by done. by apply IH.
Qed.

Lemma dispatchFresh_alike w : ∀ freeContexts remaining st,
  safe_pages (fetched (dispatchFresh drv o w freeContexts remaining st)) = true →
  dispatchFresh drv' o w freeContexts remaining st
  = dispatchFresh drv o w freeContexts remaining st.
Proof.
  induction freeContexts as [|ctx rest IH]; intros remaining st Hs; [done|].
  cbn [dispatchFresh] in Hs |- *.
  destruct (if Options.retryDistinctFlows _ then _ else _) as [pr st1].
  destruct (_ && _); [done|].
  set (st2 := set_flows _ st1) in *.
  assert (safe_pages (fetched (handleFlowExecution drv o w ctx pr st2)) = true) as H1.
  { destruct (_ <=? 0)%Z; [done|].
    eapply safe_worked; [apply worked_dispatchFresh|exact Hs]. }
  rewrite handleFlowExecution_alike by done.
  destruct (_ <=? 0)%Z; [done|]. by apply IH.
Qed.

Lemma startFlows_alike w st :
  safe_pages (fetched (startFlows drv o w st)) = true →
  startFlows drv' o w st = startFlows drv o w st.
Proof.
  unfold startFlows.
  destruct (resolved st); [done|].
  destruct (quiescent st); [by rewrite finish_alike|].
  destruct (_updateFlowsContexts _ _ _ _) as [e ok].
  destruct ok; simpl; [|by rewrite forcedStop_alike].
  destruct (_ <=? 0)%Z; [done|].
  destruct (Options.retryDistinctFlows _).
  - destruct (matchRetries _ _ _ _ _ _) as [[prs m] remaining].
    set (st1 := set_pendingRetries prs _).
    set (fc0 := set_of_list _).
    intros Hs.
    assert (safe_pages
              (fetched (dispatchRetries drv o w m (retryQueue m) (imap pair prs) fc0 st1).1.1)
            = true) as H1.
    { destruct (dispatchRetries drv o w m (retryQueue m) (imap pair prs) fc0 st1)
        as [[st2 fc] ok2]. simpl. destruct ok2; simpl in Hs; [|done].
      destruct (_ <=? 0)%Z; [done|].
      eapply safe_worked; [apply worked_dispatchFresh|exact Hs]. }
    rewrite dispatchRetries_alike by done.
    destruct (dispatchRetries drv o w m (retryQueue m) (imap pair prs) fc0 st1)
      as [[st2 fc] ok2]. destruct ok2; simpl in *; [|done].
    destruct (_ <=? 0)%Z; [done|]. by apply dispatchFresh_alike.
  - apply dispatchFresh_alike.
Qed.

Lemma step_alike w j st st' :
  step drv o w j st = Some st' → safe_pages (fetched st') = true →
  step drv' o w j st = Some st'.
Proof.
  destruct j as [|ctx|ctx s|ctx|]; simpl.
  - destruct (ticks st) as [|n]; [done|]. intros [= <-] Hs.
    by rewrite startFlows_alike.
  - destruct (tasks st !! ctx) as [[pr| |]|]; try done. intros [= <-] Hs.
    by rewrite afterInterval_alike.
  - destruct (tasks st !! ctx) as [[|a pr k|]|]; try done.
    by rewrite (alike_resume same).
  - done.
  - destruct (aborted st); [done|]. intros [= <-] _. by rewrite forcedStop_alike.
Qed.

Lemma run_alike schedule : ∀ st st',
  run drv o schedule st = Some st' → safe_pages (fetched st') = true →
  run drv' o schedule st = Some st'.
Proof.
  induction schedule as [|[w j] rest IH]; intros st st' Hrun Hs; [done|].
  simpl in Hrun |- *.
  destruct (step drv o w j st) as [st1|] eqn:Hstep; [|done].
  assert (safe_pages (fetched st1) = true) as H1.
  { destruct (run_keeps drv o _ _ _ Hrun) as (_ & _ & Hf). by eapply safe_pages_prefix. }
  rewrite (step_alike _ _ _ _ Hstep H1). by apply IH.
Qed.

Lemma start_alike w signalAborted e d :
  safe_pages (fetched (_startFlowOrchestrator drv o w signalAborted e d)) = true →
  _startFlowOrchestrator drv' o w signalAborted e d
  = _startFlowOrchestrator drv o w signalAborted e d.
Proof.
  unfold _startFlowOrchestrator. destruct signalAborted.
  - intros _. apply finish_alike.
  - apply startFlows_alike.
Qed.
End Transfer.

(** ** The cycles of the five pagination kinds *)
Section Cycles.
Import Js Flow Summary Drivers.

(** The state in which a cycle handler leaves the orchestrator at its
    await, with the driver and the options it runs under and the
    [this.#state] it was called in. *)
Inductive Cycle :
  ∀ {D R F : Type}, Driver D R F → Options.t → Engine → State D R F → Prop :=
| cycle_None o w signalAborted e :
    Cycle none_driver o e (_handlePaginationNoneCycle o w signalAborted e)
| cycle_TotalPages o w signalAborted e :
    Cycle (totalPages_driver o) o e (_handlePaginationTotalPagesCycle o w signalAborted e)
| cycle_HasMore o w signalAborted e :
    Cycle (hasMore_driver o) o e (_handlePaginationHasMoreCycle o w signalAborted e)
| cycle_Cursor o w signalAborted e :
    Cycle cursor_driver o e (_handlePaginationCursorCycle o w signalAborted e)
| cycle_List o w signalAborted e resolveList st0 :
    _handlePaginationListCycle o w signalAborted e resolveList = inr st0 →
    Cycle (list_driver o) o e st0.

Lemma list_cycle_inv o w signalAborted e resolveList st0 :
  _handlePaginationListCycle o w signalAborted e resolveList = inr st0 →
  ∃ items,
    resolveList = Fulfilled (VArray items)
    ∧ st0 = _startFlowOrchestrator (list_driver o) o w signalAborted e
              (list_init (now w) items).
Proof.
  unfold _handlePaginationListCycle.
  destruct resolveList as [|[| | | | | |[|it items]|]]; try done.
  intros [= <-]. by eexists.
Qed.

(** The same five cycles under the drivers that count in the
    integers. *)
Inductive Counting :
  ∀ {D R F : Type}, Driver D R F → Options.t → Engine → State D R F → Prop :=
| counting_None o w signalAborted e :
    Counting none_driver o e (_handlePaginationNoneCycle o w signalAborted e)
| counting_TotalPages o w signalAborted e :
    Counting (totalPages_counting o) o e
      (_startFlowOrchestrator (totalPages_counting o) o w signalAborted e
         (totalPages_init o (now w)))
| counting_HasMore o w signalAborted e :
    Counting (hasMore_counting o) o e
      (_startFlowOrchestrator (hasMore_counting o) o w signalAborted e
         (hasMore_init o (now w)))
| counting_Cursor o w signalAborted e :
    Counting cursor_counting o e
      (_startFlowOrchestrator cursor_counting o w signalAborted e (cursor_init (now w)))
| counting_List o w signalAborted e resolveList st0 :
    _handlePaginationListCycle o w signalAborted e resolveList = inr st0 →
    Counting (list_driver o) o e st0.

(** Such a cycle starts with the pages owned as the orchestrator
    expects, under a driver that keeps to its laws. *)
Lemma Counting_owned {D R F} (drv : Driver D R F) o e st0 :
  Counting drv o e st0 → ∃ V, Lawful drv V ∧ Owned drv V st0.
Proof.
  intros [o' w sa e'|o' w sa e'|o' w sa e'|o' w sa e'|o' w sa e' r st1 Hl].
  - exists none_view. split; [apply none_lawful|]. apply Owned_start; [apply none_lawful|done].
  - exists totalPages_view. split; [apply totalPages_lawful|].
    apply Owned_start; [apply totalPages_lawful|done].
  - exists hasMore_view. split; [apply hasMore_lawful|].
    apply Owned_start; [apply hasMore_lawful|done].
  - exists cursor_view. split; [apply cursor_lawful|].
    apply Owned_start; [apply cursor_lawful|done].
  - apply list_cycle_inv in Hl as (items & -> & ->).
    exists list_view. split; [apply list_lawful|].
    apply Owned_start; [apply list_lawful|done].
Qed.

Lemma Counting_run_owned {D R F} (drv : Driver D R F) o e st0 schedule st :
  Counting drv o e st0 → run drv o schedule st0 = Some st →
  ∃ V, Lawful drv V ∧ Owned drv V st.
Proof.
  intros (V & laws & Hown)%Counting_owned Hrun. exists V. split; [done|].
  by eapply Owned_run.
Qed.

Lemma alike_refl {D R F} (drv : Driver D R F) : alike drv drv.
Proof. split; try done. intros c a r now d. by destruct (begin drv c a r now d). Qed.

Lemma totalPages_alike o : alike (totalPages_driver o) (totalPages_counting o).
Proof.
  split; try done. intros c a [p|] now d; [done|]. simpl.
  intros Hsafe. by rewrite (incr_safe _ Hsafe).
Qed.

Lemma hasMore_alike o : alike (hasMore_driver o) (hasMore_counting o).
Proof.
  split; try done. intros c a [p|] now d; simpl.
  - unfold hasMore_count, hasMore_begin. by destruct (beyond _ _).
  - intros Hsafe. by rewrite (incr_safe _ Hsafe).
Qed.

Lemma cursor_alike : alike cursor_driver cursor_counting.
Proof.
  split; try done. intros c a [r|] now d; [done|]. simpl.
  intros Hsafe. by rewrite (incr_safe _ Hsafe).
Qed.

(** While every page fetched is a safe integer, a cycle is the cycle of
    a driver that counts in the integers. *)
Lemma Cycle_counting {D R F} (drv : Driver D R F) o e st0 schedule st :
  Cycle drv o e st0 →
  run drv o schedule st0 = Some st →
  safe_pages (fetched st) = true →
  ∃ drv', alike drv drv' ∧ Counting drv' o e st0 ∧ run drv' o schedule st0 = Some st.
Proof.
  intros Hc Hrun Hsafe.
  assert (Hsafe0 : safe_pages (fetched st0) = true).
  { destruct (run_keeps drv o _ _ _ Hrun) as (_ & _ & Hf). by eapply safe_pages_prefix. }
  destruct Hc as [o' w sa e'|o' w sa e'|o' w sa e'|o' w sa e'|o' w sa e' r st1 Hl].
  - exists none_driver. split; [apply alike_refl|]. split; [constructor|done].
  - exists (totalPages_counting o'). split; [apply totalPages_alike|].
    pose proof (start_alike _ _ o' (totalPages_alike o') w sa e'
                  (totalPages_init o' (now w)) Hsafe0) as Hst.
    unfold _handlePaginationTotalPagesCycle in *. rewrite <- Hst.
    split; [constructor|]. rewrite Hst. by apply (run_alike _ _ _ (totalPages_alike o')).
  - exists (hasMore_counting o'). split; [apply hasMore_alike|].
    pose proof (start_alike _ _ o' (hasMore_alike o') w sa e'
                  (hasMore_init o' (now w)) Hsafe0) as Hst.
    unfold _handlePaginationHasMoreCycle in *. rewrite <- Hst.
    split; [constructor|]. rewrite Hst. by apply (run_alike _ _ _ (hasMore_alike o')).
  - exists cursor_counting. split; [apply cursor_alike|].
    pose proof (start_alike _ _ o' cursor_alike w sa e'
                  (cursor_init (now w)) Hsafe0) as Hst.
    unfold _handlePaginationCursorCycle in *. rewrite <- Hst.
    split; [constructor|]. rewrite Hst. by apply (run_alike _ _ _ cursor_alike).
  - exists (list_driver o'). split; [apply alike_refl|]. split; [by econstructor|done].
Qed.
End Cycles.

(** ** Workers and their contexts

    Under any driver, the contexts in [flows] are those on which an
    invocation of [handleFlowExecution] is suspended. *)
Section Sync.
Import Js Flow.
Context {D R F : Type}.
Variable drv : Driver D R F.
Variable o : Options.t.
Implicit Types (st : State D R F) (ctx c : Ctx).

Definition Synced st : Prop := ∀ c, c ∈ flows st ↔ is_Some (tasks st !! c).

(** [ctx] has been added to [flows] and its worker is about to run. *)
Definition entering ctx st : Prop :=
  ∀ c, c ∈ flows st ↔ c = ctx ∨ is_Some (tasks st !! c).

Lemma Synced_entering ctx st :
  Synced st → entering ctx (set_flows (set_add ctx (flows st)) st).
Proof. intros Hs c. simpl. rewrite elem_of_set_add, (Hs c). tauto. Qed.

Lemma Synced_held ctx st : Synced st → is_Some (tasks st !! ctx) → entering ctx st.
Proof. intros Hs Hc c. rewrite (Hs c). split; [tauto|]. by intros [->|?]. Qed.

Lemma Synced_insert ctx t st st' :
  entering ctx st → flows st' = flows st → tasks st' = <[ctx := t]> (tasks st) →
  Synced st'.
Proof.
  intros Hs Hf Ht c. rewrite Hf, Ht, (Hs c).
  destruct (decide (c = ctx)) as [->|Hne].
  - rewrite lookup_insert_eq. split; eauto.
  - rewrite lookup_insert_ne by done. tauto.
Qed.

Lemma Synced_release ctx st : entering ctx st → Synced (release ctx st).
Proof.
  intros Hs c. simpl. rewrite elem_of_set_delete, (Hs c).
  destruct (decide (c = ctx)) as [->|Hne].
  - rewrite lookup_delete_eq. split; [tauto|]. by intros [? ?].
  - rewrite lookup_delete_ne by done. tauto.
Qed.

Lemma Synced_callExecutor w ctx pr st :
  entering ctx st → Synced (callExecutor drv o w ctx pr st).
Proof.
  intros Hs. unfold callExecutor.
  destruct (begin drv _ _ _ _ _) as [d done k|d done ret];
    (eapply Synced_insert; [exact Hs| |]); by destruct done.
Qed.

Lemma Synced_afterInterval w ctx pr canceled st :
  entering ctx st → Synced (afterInterval drv o w ctx pr canceled st).
Proof.
  intros Hs. unfold afterInterval. destruct (_ || _).
  - by apply Synced_release.
  - by apply Synced_callExecutor.
Qed.

Lemma Synced_handleFlowExecution w ctx pr st :
  entering ctx st → Synced (handleFlowExecution drv o w ctx pr st).
Proof.
  intros Hs. unfold handleFlowExecution. destruct (flowsLastExecution st !! ctx).
  - destruct (0 <? _)%Z; [by eapply Synced_insert|by apply Synced_afterInterval].
  - by apply Synced_callExecutor.
Qed.

Lemma Synced_finish w st : Synced st → Synced (finish drv w st).
Proof. unfold finish. by destruct (resolved st). Qed.

Lemma Synced_forcedStop w st : Synced st → Synced (forcedStop drv w st).
Proof. intros Hs. by apply Synced_finish. Qed.

Lemma Synced_dispatchRetries w m : ∀ queue indexed freeContexts st,
  Synced st → Synced (dispatchRetries drv o w m queue indexed freeContexts st).1.1.
Proof.
  induction queue as [|[i pr] rest IH]; intros indexed freeContexts st Hs; [done|].
  cbn [dispatchRetries]. destruct (flows_of i m) as [|ctx ?].
  - by apply Synced_forcedStop.
  - apply IH, Synced_handleFlowExecution.
    apply (Synced_entering ctx (set_pendingRetries _ st)), Hs.
Qed.

Lemma Synced_dispatchFresh w : ∀ freeContexts remaining st,
  Synced st → Synced (dispatchFresh drv o w freeContexts remaining st).
Proof.
  induction freeContexts as [|ctx rest IH]; intros remaining st Hs; [done|].
  cbn [dispatchFresh].
  set (x := if Options.retryDistinctFlows _ then _ else _).
  assert (Hx : Synced x.2).
  { subst x. destruct (Options.retryDistinctFlows _); [done|].
    by destruct (pendingRetries st). }
  destruct x as [pr st1]. simpl in Hx.
  destruct (_ && _); [done|].
  assert (Synced (handleFlowExecution drv o w ctx pr
                    (set_flows (set_add ctx (flows st1)) st1))) as H1.
  { by apply Synced_handleFlowExecution, Synced_entering. }
  destruct (_ <=? 0)%Z; [done|]. by apply IH.
Qed.

Lemma Synced_startFlows w st : Synced st → Synced (startFlows drv o w st).
Proof.
  intros Hs. unfold startFlows.
  destruct (resolved st); [done|].
  destruct (quiescent st); [by apply Synced_finish|].
  destruct (_updateFlowsContexts _ _ _ _) as [e ok].
  destruct ok; simpl; [|by apply Synced_forcedStop].
  destruct (_ <=? 0)%Z; [done|].
  destruct (Options.retryDistinctFlows _).
  - destruct (matchRetries _ _ _ _ _ _) as [[prs m] remaining].
    match goal with
    | |- context [dispatchRetries drv o w m ?q ?ix ?fc ?s] =>
        pose proof (Synced_dispatchRetries w m q ix fc s) as Hd;
        destruct (dispatchRetries drv o w m q ix fc s) as [[st2 fc2] ok2]
    end.
    simpl in Hd. specialize (Hd Hs).
    destruct ok2; simpl; [|done].
    destruct (_ <=? 0)%Z; [done|]. by apply Synced_dispatchFresh.
  - by apply Synced_dispatchFresh.
Qed.

Lemma Synced_step w j st st' : Synced st → step drv o w j st = Some st' → Synced st'.
Proof.
  intros Hs. destruct j as [|ctx|ctx s|ctx|]; simpl.
  - destruct (ticks st) as [|n]; [done|]. intros [= <-].
    by apply Synced_startFlows.
  - destruct (tasks st !! ctx) as [[pr| |]|] eqn:Ht; try done. intros [= <-].
    apply Synced_afterInterval, Synced_held; [done|by rewrite Ht].
  - destruct (tasks st !! ctx) as [[|a pr k|]|] eqn:Ht; try done.
    assert (entering ctx st) as He by (apply Synced_held; [done|by rewrite Ht]).
    destruct (resume drv k s (now w) (driver st)) as [d done k'|d done ret];
      intros [= <-]; (eapply Synced_insert; [exact He| |]); by destruct done.
  - destruct (tasks st !! ctx) as [[| |a pr ret]|] eqn:Ht; try done. intros [= <-].
    unfold afterExecutor.
    assert (entering ctx st) as He by (apply Synced_held; [done|by rewrite Ht]).
    apply Synced_release. destruct ret as [r|]; [destruct (negb _)|]; exact He.
  - destruct (aborted st); [done|]. intros [= <-]. by apply Synced_forcedStop.
Qed.

Lemma Synced_run schedule : ∀ st st',
  Synced st → run drv o schedule st = Some st' → Synced st'.
Proof.
  induction schedule as [|[w j] rest IH]; intros st st' Hs Hrun; simpl in Hrun.
  - by injection Hrun as <-.
  - destruct (step drv o w j st) as [st1|] eqn:Hstep; [|done].
    eapply IH; [|done]. by eapply Synced_step.
Qed.

Lemma Synced_start w signalAborted e d :
  Synced (_startFlowOrchestrator drv o w signalAborted e d).
Proof.
  unfold _startFlowOrchestrator. set (st := {| flows := [] |}).
  assert (Synced st) as Hs.
  { intros c. simpl. rewrite lookup_empty. split; [by intros ?%elem_of_nil|by intros [? ?]]. }
  destruct signalAborted; [by apply Synced_finish|by apply Synced_startFlows].
Qed.
End Sync.

Section CycleSync.
Import Js Flow Summary Drivers.

Lemma Cycle_synced {D R F} (drv : Driver D R F) o e st0 : Cycle drv o e st0 → Synced st0.
Proof.
  intros [o' w sa e'|o' w sa e'|o' w sa e'|o' w sa e'|o' w sa e' r st1 Hl];
    try apply Synced_start.
  apply list_cycle_inv in Hl as (items & -> & ->). apply Synced_start.
Qed.
End CycleSync.

(** ** C2: when the orchestrator's promise resolves *)
Section Resolution.
Import Js Flow Summary Drivers.
Context {D R F : Type}.

Lemma finish_keeps (drv : Driver D R F) w (st : State D R F) :
  aborted (finish drv w st) = aborted st
  ∧ executorDone (finish drv w st) = executorDone st
  ∧ pendingRetries (finish drv w st) = pendingRetries st
  ∧ flows (finish drv w st) = flows st
  ∧ tasks (finish drv w st) = tasks st.
Proof. unfold finish. by destruct (resolved st). Qed.

Lemma quiescent_spec (st : State D R F) :
  quiescent st = true →
  executorDone st = true ∧ flows st = [] ∧ pendingRetries st = [].
Proof.
  unfold quiescent.
  destruct (executorDone st), (flows st), (pendingRetries st); naive_solver.
Qed.

(** C2, amended.  In a cycle of any of the five kinds, a job that
    resolves the orchestrator's promise either leaves the signal
    aborted (the abort listener and the forced stop resolve at once,
    whatever is in flight), or it is a call of [startFlows] that found
    the executor done, no pending retry and no worker: then no
    invocation of [handleFlowExecution] is suspended anywhere. *)
Theorem orchestrator_resolves_only_when (drv : Driver D R F) o e st0 schedule st w j
    st' :
  Cycle drv o e st0 →
  run drv o schedule st0 = Some st →
  step drv o w j st = Some st' →
  resolved st = false →
  resolved st' = true →
  aborted st' = true
  ∨ (executorDone st' = true ∧ pendingRetries st' = [] ∧ flows st' = []
     ∧ tasks st' = ∅).
Proof.
  intros Hc Hrun Hstep Hres Hres'.
  pose proof (Synced_step _ _ _ _ _ _
                (Synced_run _ _ _ _ _ (Cycle_synced _ _ _ _ Hc) Hrun) Hstep) as Hown'.
  destruct (outcome_step _ _ _ _ _ _ Hstep) as [Hw|st1 Hw Hr Hq ->|st1 Hw ->].
  - destruct Hw. congruence.
  - right. destruct (finish_keeps drv w st1) as (Ha & He & Hp & Hf & Ht).
    apply quiescent_spec in Hq as (Hq1 & Hq2 & Hq3).
    rewrite He, Hp, Hf. split_and!; try done.
    apply map_empty. intros c.
    pose proof (Hown' c) as Hft.
    rewrite Hf, Hq2 in Hft. apply eq_None_not_Some. rewrite <- Hft. set_solver.
  - left. unfold forcedStop.
    by destruct (finish_keeps drv w (set_aborted true st1)) as (-> & _).
Qed.
End Resolution.

(** ** Concrete cycles *)
Section Scenarios.
Import Js Flow Summary Drivers.

(** A world at time [t] in which [Math.random()] gives 0, no interval
    function is configured and [initFlowContext] returns a new object
    at each call. *)
Definition world (t : Z) : World :=
  {| now := t; random := λ _, 0%Q; intervalCalls := λ _ _ _, Throw;
     flowInits := λ k, InitObject k |}.

(** The options [validateOptions] makes of a raw object, none of whose
    values calls back. *)
Definition validated (raw : gmap string value) : Options.t :=
  match (Validate.validateOptions (λ _, Throw) raw).1 with
  | Validate.Ok o => o
  | Validate.Thrown _ => Options.DEFAULT_OPTIONS
  end.

(** [this.#state] at the start of the first cycle, after the flow
    contexts have been initialised. *)
Definition first_engine (o : Options.t) : Engine :=
  let e :=
    (_updateFlowsContexts o true (flowInits (world 0))
       {| globalContext := VObject []; flowsContexts := [];
          isFirstContextInit := true; isConcurrencyFixed := false |}).1 in
  {| globalContext := globalContext e; flowsContexts := flowsContexts e;
     isFirstContextInit := false; isConcurrencyFixed := isConcurrencyFixed e |}.

Definition single_page_raw : gmap string value :=
  <["fetchHandler" := VFunction 0]> ∅.

Definition single_page : Options.t := validated single_page_raw.

Definition single_page_cycle :=
  _handlePaginationNoneCycle single_page (world 0) false (first_engine single_page).

(** The claim of C2 fails when the signal fires during a fetch: the
    promise is resolved and the summary taken while the executor of
    context 0 still awaits [fetchHandler]. *)
Lemma orchestrator_resolves_during_fetch :
  ∃ st,
    run none_driver single_page [(world 5, Abort)] single_page_cycle = Some st
    ∧ resolved st = true
    ∧ summary st ≠ None
    ∧ tasks st !! 0
      = Some (Executing (Finite 2) None
                {| n_startTime := 0; n_attemptsLeft := Finite 2 |})
    ∧ fetched st = [(1%Z, 0)].
Proof. eexists. split; [by vm_compute|]. split_and!; by vm_compute. Qed.

(** The theorem at work on the single page cycle: the fetch succeeds,
    the executor returns, and the next [startFlows] resolves the promise
    with nothing in flight. *)
Definition single_page_schedule : list (World * Job) :=
  [(world 5, Settle 0 (Fulfilled (VString "x"))); (world 5, Continue 0)].

Definition single_page_returned : State Helper unit NoneFrame :=
  default single_page_cycle
    (run none_driver single_page single_page_schedule single_page_cycle).

Definition single_page_resolved : State Helper unit NoneFrame :=
  default single_page_returned
    (step none_driver single_page (world 6) Tick single_page_returned).

Lemma orchestrator_resolves_only_when_witness :
  resolved single_page_returned = false
  ∧ resolved single_page_resolved = true
  ∧ (aborted single_page_resolved = true
     ∨ (executorDone single_page_resolved = true
        ∧ pendingRetries single_page_resolved = []
        ∧ flows single_page_resolved = []
        ∧ tasks single_page_resolved = ∅)).
Proof.
  split; [by vm_compute|]. split; [by vm_compute|].
  apply (orchestrator_resolves_only_when none_driver single_page
           (first_engine single_page) single_page_cycle single_page_schedule
           single_page_returned (world 6) Tick).
  - apply cycle_None.
  - by vm_compute.
  - by vm_compute.
  - by vm_compute.
  - by vm_compute.
Defined.
End Scenarios.

(** ** C7: retries beyond the last page of a HasMore cycle *)
Section HasMoreFacts.
Import Js Flow Summary Drivers.

Lemma hasMore_start_owned o w signalAborted e :
  Owned (hasMore_counting o) hasMore_view
    (_startFlowOrchestrator (hasMore_counting o) o w signalAborted e
       (hasMore_init o (now w))).
Proof. apply Owned_start; [apply hasMore_lawful|done]. Qed.

(** C7, amended.  In a HasMore cycle, when the executor is entered for
    a retry whose page is greater than the last page discovered so far,
    it returns [false] at once: [fetchHandler] is not called, the
    driver's closure (error count and [failedPageList] included) stays
    as it was, the page is recorded as dropped and the retry is not
    queued again.  And whatever the cycle does from any state on, as
    long as every page it has fetched is a safe integer, a page that has
    been dropped is not in [failedPageList]. *)
Theorem hasMore_drops_retry_beyond_lastPage o w0 signalAborted e schedule st w ctx pr
    later st' :
  let drv := hasMore_driver o in
  run drv o schedule (_handlePaginationHasMoreCycle o w0 signalAborted e) = Some st →
  run drv o later st = Some st' →
  (beyond (hm_lastPage (driver st)) (retry pr) = true →
   let st1 := callExecutor drv o w ctx (Some pr) st in
   begin drv ctx (attemptsLeft pr) (Some (retry pr)) (now w) (driver st)
     = Returns (driver st) false None
   ∧ driver st1 = driver st
   ∧ fetched st1 = fetched st
   ∧ dropped st1 = dropped st ++ [retry pr]
   ∧ tasks st1 !! ctx = Some (Settling (attemptsLeft pr) (Some pr) None)
   ∧ pendingRetries (afterExecutor ctx (attemptsLeft pr) (Some pr) None st1)
     = pendingRetries st)
  ∧ (safe_pages (fetched st') = true →
     ∀ p, p ∈ dropped st → p ∉ failedPageList (hm_summaryHelper (driver st'))).
Proof.
  intros drv Hrun Hlater. split.
  - intros Hb. unfold callExecutor. simpl. unfold hasMore_begin. rewrite Hb. simpl.
    split_and!; try done. by rewrite lookup_insert_eq.
  - intros Hsafe' p Hp.
    destruct (run_keeps _ _ _ _ _ Hlater) as (_ & Hpre & Hfe).
    destruct (run_keeps _ _ _ _ _ Hrun) as (_ & _ & Hfe0).
    assert (Hsafe : safe_pages (fetched st) = true) by by eapply safe_pages_prefix.
    assert (Hsafe0 : safe_pages
              (fetched (_handlePaginationHasMoreCycle o w0 signalAborted e)) = true)
      by by eapply safe_pages_prefix.
    pose proof (hasMore_start_owned o w0 signalAborted e) as Hown0.
    rewrite (start_alike _ _ o (hasMore_alike o) w0 signalAborted e _ Hsafe0) in Hown0.
    pose proof (Owned_run _ o _ (hasMore_lawful o) _ _ _ Hown0
                  (run_alike _ _ o (hasMore_alike o) _ _ _ Hrun Hsafe)) as Hown.
    pose proof (Owned_run _ o _ (hasMore_lawful o) _ _ _ Hown
                  (run_alike _ _ o (hasMore_alike o) _ _ _ Hlater Hsafe')) as Hown'.
    intros Hf. apply (o_failed_dropped _ _ _ _ _ _ _ _ _ Hown' p Hf).
    destruct Hpre as [k ->]. set_solver.
Qed.
End HasMoreFacts.

Section HasMoreScenario.
Import Js Flow Summary Drivers.

Definition two_flows_raw : gmap string value :=
  <["paginationType" := VNumber (of_Z 2)]>
    (<["concurrency" := VNumber (of_Z 2)]>
       (<["fetchHandler" := VFunction 0]> (<["resolveHasMore" := VFunction 1]> ∅))).

Definition two_flows : Options.t := validated two_flows_raw.

(** Page 2 fails on context 1 while page 1, on context 0, turns out to
    be the last one; the retry of page 2 is matched with context 0,
    waits for the interval and is dropped. *)
Definition drop_schedule : list (World * Job) :=
  [(world 10, Settle 1 Rejected); (world 11, Continue 1);
   (world 12, Settle 0 (Fulfilled (VObject [])));
   (world 13, Settle 0 (Fulfilled (VBool false))); (world 14, Continue 0);
   (world 15, Tick); (world 15, Tick); (world 1000, Wake 0)].

Definition two_flows_cycle : State HasMoreState Z PageFrame :=
  _handlePaginationHasMoreCycle two_flows (world 0) false (first_engine two_flows).

Definition after_drop : State HasMoreState Z PageFrame :=
  default two_flows_cycle
    (run (hasMore_driver two_flows) two_flows drop_schedule two_flows_cycle).

Definition at_end : State HasMoreState Z PageFrame :=
  default after_drop
    (run (hasMore_driver two_flows) two_flows
       [(world 1001, Continue 0); (world 1002, Tick)] after_drop).

(** The theorem at work after the drop: page 2 would be dropped again
    were it retried once more, and it is not in [failedPageList] when
    the cycle ends. *)
Lemma hasMore_drops_retry_beyond_lastPage_witness :
  let pr := {| retry := 2%Z; p_flows := [1]; attemptsLeft := Finite 1 |} in
  dropped after_drop = [2%Z]
  ∧ fetched after_drop = [(1%Z, 0); (2%Z, 1)]
  ∧ resolved at_end = true
  ∧ fetched (callExecutor (hasMore_driver two_flows) two_flows (world 1001) 1 (Some pr)
               after_drop) = fetched after_drop
  ∧ ∀ p, p ∈ dropped after_drop → p ∉ failedPageList (hm_summaryHelper (driver at_end)).
Proof.
  intros pr.
  split; [by vm_compute|]. split; [by vm_compute|]. split; [by vm_compute|].
  assert (Hrun : run (hasMore_driver two_flows) two_flows drop_schedule
                   (_handlePaginationHasMoreCycle two_flows (world 0) false
                      (first_engine two_flows)) = Some after_drop) by by vm_compute.
  assert (Hlater : run (hasMore_driver two_flows) two_flows
                     [(world 1001, Continue 0); (world 1002, Tick)] after_drop
                   = Some at_end) by by vm_compute.
  assert (Hbeyond : beyond (hm_lastPage (driver after_drop)) (retry pr) = true)
    by by vm_compute.
  assert (Hsafe : safe_pages (fetched at_end) = true) by by vm_compute.
  destruct (hasMore_drops_retry_beyond_lastPage two_flows (world 0) false
              (first_engine two_flows) drop_schedule after_drop (world 1001) 1 pr
              [(world 1001, Continue 0); (world 1002, Tick)] at_end Hrun Hlater)
    as [Hdrop Hnever].
  split; [|exact (Hnever Hsafe)].
  exact (proj1 (proj2 (proj2 (Hdrop Hbeyond)))).
Defined.

(** HasMore from page [2^53 - 1] on three contexts, with one retry per
    page. *)
Definition last_safe_page_raw : gmap string value :=
  <["paginationType" := VNumber (of_Z 2)]>
    (<["concurrency" := VNumber (of_Z 3)]>
       (<["paginationStart" := VNumber (of_Z 9007199254740991)]>
          (<["errorHandlingPolicy" := VObject [("retryLimit", VNumber (of_Z 1))]]>
             (<["fetchHandler" := VFunction 0]>
                (<["resolveHasMore" := VFunction 1]> ∅))))).

Definition last_safe_page : Options.t := validated last_safe_page_raw.

Definition last_safe_page_cycle : State HasMoreState Z PageFrame :=
  _handlePaginationHasMoreCycle last_safe_page (world 0) false
    (first_engine last_safe_page).

(** The fetches of page [2^53] fail on the contexts 1 and 2; the retry
    of the one fails on context 2 with no attempt left; page [2^53 - 1]
    turns out to be the last; the retry of the other is dropped. *)
Definition shared_page_schedule : list (World * Job) :=
  [(world 10, Settle 1 Rejected); (world 11, Continue 1);
   (world 12, Settle 2 Rejected); (world 13, Continue 2);
   (world 14, Tick); (world 14, Tick);
   (world 1100, Wake 2); (world 1101, Settle 2 Rejected); (world 1102, Continue 2);
   (world 1103, Settle 0 (Fulfilled (VObject [])));
   (world 1104, Settle 0 (Fulfilled (VBool false))); (world 1105, Continue 0);
   (world 1106, Wake 1)].

(** The claim of C7 fails where the page counter stops counting: from
    [paginationStart = 2^53 - 1] the second and the third worker are
    both given page [2^53], and that page ends both dropped and in
    [failedPageList]. *)
Lemma hasMore_dropped_page_failed :
  fetched last_safe_page_cycle
  = [(9007199254740991%Z, 0); (9007199254740992%Z, 1); (9007199254740992%Z, 2)]
  ∧ ∃ st,
      run (hasMore_driver last_safe_page) last_safe_page shared_page_schedule
        last_safe_page_cycle = Some st
      ∧ hm_lastPage (driver st) = Some 9007199254740991%Z
      ∧ dropped st = [9007199254740992%Z]
      ∧ failedPageList (hm_summaryHelper (driver st)) = [9007199254740992%Z].
Proof.
  split; [by vm_compute|]. eexists. split; [by vm_compute|]. split_and!; by vm_compute.
Qed.
End HasMoreScenario.

(** ** C10: what a List cycle puts into [failedPageList] *)
Section ListFacts.
Import Js Flow Summary Drivers.

(** The executor never assigns [pageListItems]. *)
Lemma list_items_stable o items :
  stable (list_driver o) (λ d, pageListItems d = items).
Proof.
  split.
  - intros c a r now d Hd. simpl. unfold list_begin.
    destruct r as [r|]; [done|]. by destruct (Nat.leb _ (nextPageIndex d)).
  - intros k s now d Hd. simpl. unfold list_resume.
    destruct s as [|v]; [|done].
    destruct (is_zero _); [|done].
    by destruct (FailCounter.fail (policy o) None (l_failCounter d)).
Qed.

(** C10.  In a List cycle over the resolved list [items], let the
    executor of some context await the fetch of an item with no attempt
    left.  When that fetch fails, the job that settles it adds to
    [failedPageList] the number [index] of the frame, and [index] is
    the zero-based position of the fetched item in [items]; so the
    terminal failure of the first item records 0. *)
Theorem list_failed_page_is_index o w0 signalAborted e items st0 schedule st w ctx a
    pr k :
  let drv := list_driver o in
  _handlePaginationListCycle o w0 signalAborted e (Fulfilled (VArray items)) = inr st0 →
  run drv o schedule st0 = Some st →
  tasks st !! ctx = Some (Executing a pr k) →
  is_zero a = true →
  ∃ st',
    step drv o w (Settle ctx Rejected) st = Some st'
    ∧ items !! index k = Some (item k)
    ∧ failedPageList (l_summaryHelper (driver st'))
      = set_add (Z.of_nat (index k)) (failedPageList (l_summaryHelper (driver st)))
    ∧ Z.of_nat (index k) ∈ failedPageList (l_summaryHelper (driver st'))
    ∧ match index k with
      | 0 => head items = Some (item k)
             ∧ 0%Z ∈ failedPageList (l_summaryHelper (driver st'))
      | S _ => True
      end.
Proof.
  intros drv Hcycle Hrun Htask Hzero.
  apply list_cycle_inv in Hcycle as (items' & [= <-] & ->).
  assert (Hown : Owned drv list_view st).
  { eapply Owned_run; [apply list_lawful| |exact Hrun].
    apply Owned_start; [apply list_lawful|done]. }
  destruct (o_task_ok _ _ _ _ _ _ _ _ _ Hown _ _ Htask) as [Hatt Hframe].
  simpl in Hatt, Hframe.
  assert (Hitems : pageListItems (driver st) = items).
  { destruct (run_keeps _ _ _ _ _ Hrun) as (Hd & _).
    apply (Hd _ (list_items_stable o items)).
    by apply start_keeps; [apply list_items_stable|]. }
  simpl. rewrite Htask. simpl. unfold list_resume.
  rewrite Hatt, Hzero.
  destruct (FailCounter.fail (policy o) None (l_failCounter (driver st)))
    as [fc cannotSkipMore] eqn:Hfail.
  eexists. split; [done|].
  assert (Hdrv : ∀ done (x : State ListState ListRetry ListFrame),
            driver (mark_done done x) = driver x) by by intros [].
  simpl. rewrite Hdrv. simpl.
  rewrite <- Hitems. split_and!; try done.
  - apply elem_of_set_add. by left.
  - destruct (index k) eqn:Hi; [|done]. split.
    + rewrite <- Hframe. by destruct (pageListItems (driver st)).
    + apply elem_of_set_add. by left.
Qed.
End ListFacts.

Section ListScenario.
Import Js Flow Summary Drivers.

Definition list_raw : gmap string value :=
  <["paginationType" := VNumber (of_Z 4)]>
    (<["fetchHandler" := VFunction 0]> (<["resolveList" := VFunction 1]> ∅)).

Definition list_options : Options.t := validated list_raw.

Definition two_items : list value := [VString "u"; VString "v"].

Definition list_cycle : State ListState ListRetry ListFrame :=
  _startFlowOrchestrator (list_driver list_options) list_options (world 0) false
    (first_engine list_options) (list_init 0 two_items).

(** The fetch of the first item fails twice; the third attempt is under
    way. *)
Definition failing_schedule : list (World * Job) :=
  [(world 10, Settle 0 Rejected); (world 11, Continue 0); (world 12, Tick);
   (world 1012, Wake 0);
   (world 1020, Settle 0 Rejected); (world 1021, Continue 0); (world 1022, Tick);
   (world 2022, Wake 0)].

Definition last_attempt : State ListState ListRetry ListFrame :=
  default list_cycle
    (run (list_driver list_options) list_options failing_schedule list_cycle).

(** The theorem at work: the third failure of the first item puts 0
    into the empty [failedPageList]. *)
Lemma list_failed_page_is_index_witness :
  failedPageList (l_summaryHelper (driver last_attempt)) = []
  ∧ ∃ st',
      step (list_driver list_options) list_options (world 2030) (Settle 0 Rejected)
        last_attempt = Some st'
      ∧ failedPageList (l_summaryHelper (driver st')) = [0%Z].
Proof.
  split; [by vm_compute|].
  destruct (list_failed_page_is_index list_options (world 0) false
              (first_engine list_options) two_items list_cycle failing_schedule
              last_attempt (world 2030) 0 (Finite 0)
              (Some {| retry := {| r_item := VString "u"; r_index := 0 |};
                       p_flows := []; attemptsLeft := Finite 0 |})
              {| l_startTime := 2022; item := VString "u"; index := 0;
                 l_attemptsLeft := Finite 0 |})
    as (st' & Hstep & _ & Hfailed & _).
  - by vm_compute.
  - by vm_compute.
  - by vm_compute.
  - by vm_compute.
  - exists st'. split; [exact Hstep|]. rewrite Hfailed. by vm_compute.
Defined.
End ListScenario.

(** ** C1: the summary of a TotalPages cycle *)
Section TotalPagesFacts.
Import Js Flow Summary Drivers.

Lemma summarize_completed now h : s_completed (summarize now h) = completed h.
Proof. unfold summarize. by destruct (total h =? 0)%Z. Qed.

(** C1, as the code has it.  Under a policy without
    [skipPageIfPossible], the default, the summary of a TotalPages cycle
    has [completed = false] however the cycle went: [complete] returns
    [canSkipPage()], which is false, and [completed] is its conjunction
    with the helper's flag. *)
Theorem totalPages_summary_not_completed o w0 signalAborted e schedule st s :
  Options.skipPageIfPossible (Options.errorHandlingPolicy o) = false →
  run (totalPages_driver o) o schedule
    (_handlePaginationTotalPagesCycle o w0 signalAborted e) = Some st →
  summary st = Some s →
  s_completed s = false.
Proof.
  intros Hskip Hrun Hs.
  pose proof (concluded_run _ _ _ _ _ Hrun
                (concluded_start _ _ w0 signalAborted e (totalPages_init o (now w0))))
    as Hc.
  unfold concluded in Hc. rewrite Hs in Hc.
  destruct (resolved st); [|done].
  destruct Hc as (now & d & [= ->]).
  cbn [conclude totalPages_driver]. unfold totalPages_conclude.
  rewrite summarize_completed. cbn [completed with_completed].
  rewrite (complete_without_skip (policy o)); [|done]. apply andb_false_r.
Qed.
End TotalPagesFacts.

Section TotalPagesScenario.
Import Js Flow Summary Drivers.

(** TotalPages with [concurrency = 3] and [paginationStart = 1], the
    rest left to the defaults. *)
Definition five_pages_raw : gmap string value :=
  <["paginationType" := VNumber (of_Z 1)]>
    (<["concurrency" := VNumber (of_Z 3)]>
       (<["paginationStart" := VNumber (of_Z 1)]>
          (<["fetchHandler" := VFunction 0]>
             (<["resolveTotalPages" := VFunction 1]> ∅)))).

Definition five_pages : Options.t := validated five_pages_raw.

Definition five_pages_cycle : State TotalPagesState Z PageFrame :=
  _handlePaginationTotalPagesCycle five_pages (world 0) false (first_engine five_pages).

(** Every fetch is fulfilled and every call of [resolveTotalPages]
    returns 5. *)
Definition fetched_on (t : Z) (ctx : Ctx) : list (World * Job) :=
  [(world t, Settle ctx (Fulfilled (VObject [])));
   (world (t + 1), Settle ctx (Fulfilled (VNumber (of_Z 5))));
   (world (t + 2), Continue ctx)].

Definition five_pages_schedule : list (World * Job) :=
  fetched_on 10 0 ++ [(world 13, Tick)]
  ++ fetched_on 20 1 ++ fetched_on 23 2 ++ [(world 26, Tick); (world 26, Tick)]
  ++ [(world 1100, Wake 0); (world 1100, Wake 1); (world 1100, Wake 2)]
  ++ fetched_on 1120 0 ++ fetched_on 1120 1
  ++ [(world 1123, Tick); (world 1123, Tick); (world 1123, Tick)].

Definition five_pages_end : State TotalPagesState Z PageFrame :=
  default five_pages_cycle
    (run (totalPages_driver five_pages) five_pages five_pages_schedule five_pages_cycle).

Definition five_pages_summary : CycleSummary :=
  default (summarize 0 (Summary.new 0)) (summary five_pages_end).

(** The theorem at work on the run of C1: five fetches, one for each of
    the pages 1 to 5, [totalPageCount = 5], an empty [failedPageList],
    no error, and yet [completed = false]. *)
Lemma totalPages_summary_not_completed_witness :
  resolved five_pages_end = true
  ∧ (fetched five_pages_end).*1 = [1; 2; 3; 4; 5]%Z
  ∧ Js.same (Num (s_totalPageCount five_pages_summary)) (of_Z 5)
  ∧ s_failedPageList five_pages_summary = []
  ∧ s_totalErrorCount five_pages_summary = 0
  ∧ s_completed five_pages_summary = false.
Proof.
  split; [by vm_compute|]. split; [by vm_compute|]. split; [by vm_compute|].
  split; [by vm_compute|]. split; [by vm_compute|].
  apply (totalPages_summary_not_completed five_pages (world 0) false
           (first_engine five_pages) five_pages_schedule five_pages_end).
  - by vm_compute.
  - by vm_compute.
  - by vm_compute.
Defined.
End TotalPagesScenario.

(** ** C5: the attempts made on a page

    Under [retryDistinctFlows] with a retry limit [R] and at least
    [R + 1] flow contexts, the contexts a page has been fetched on are
    the contexts its pending retry has visited, they are distinct, and
    together with the attempts left they add up to [R + 1]. *)
Section Accounting.
Import Js Flow.
Context {DState TRetry Frame : Type}.
Variable drv : Driver DState TRetry Frame.
Variable V : View (DState := DState) (TRetry := TRetry) (Frame := Frame).
Variable R : nat.

Abbreviation PendingRetry := (PendingRetry TRetry).
Abbreviation Task := (Task TRetry Frame).

(** The contexts [fetchHandler] was called on for page [p], in order. *)
Definition attempts (fe : list (Z * Ctx)) (p : Z) : list Ctx :=
  (filter (λ x, x.1 = p) fe).*2.

Lemma attempts_snoc fe p' c' p :
  attempts (fe ++ [(p', c')]) p
  = if decide (p' = p) then attempts fe p ++ [c'] else attempts fe p.
Proof.
  unfold attempts. rewrite filter_app, fmap_app, filter_cons, filter_nil. simpl.
  destruct (decide (p' = p)); simpl; [done|by rewrite app_nil_r].
Qed.

Lemma attempts_unfetched fe p : p ∉ fe.*1 → attempts fe p = [].
Proof.
  intros Hp. unfold attempts.
  induction fe as [|[p' c'] fe IH]; [done|].
  rewrite filter_cons. simpl.
  destruct (decide (p' = p)) as [->|_]; [set_solver|]. apply IH. set_solver.
Qed.

(** Page [p] has been attempted on [holders], and [budget] more
    attempts complete the [R + 1]. *)
Definition tally (fe : list (Z * Ctx)) (p : Z) (holders : list Ctx) (budget : nat) : Prop :=
  attempts fe p = holders ∧ NoDup holders ∧ length holders + budget = S R.

Lemma tally_other fe p' c' p holders budget :
  p ≠ p' → tally fe p holders budget → tally (fe ++ [(p', c')]) p holders budget.
Proof.
  intros Hne (Ha & Hnd & Hlen). split; [|done].
  rewrite attempts_snoc. by destruct (decide (p' = p)); [congruence|].
Qed.

Lemma tally_next fe p c holders budget :
  c ∉ holders → tally fe p holders (S budget) →
  tally (fe ++ [(p, c)]) p (holders ++ [c]) budget.
Proof.
  intros Hc (Ha & Hnd & Hlen). split; [|split].
  - rewrite attempts_snoc. destruct (decide (p = p)); [|done]. by rewrite Ha.
  - apply NoDup_app. split; [done|]. split; [|apply NoDup_singleton].
    intros x Hx ->%list_elem_of_singleton. done.
  - rewrite length_app. simpl. lia.
Qed.

Definition visited (pendingRetry : option PendingRetry) : list Ctx :=
  match pendingRetry with Some pr => p_flows pr | None => [] end.

Definition queue_ok (fe : list (Z * Ctx)) (pr : PendingRetry) : Prop :=
  ∃ n, attemptsLeft pr = Finite n ∧ tally fe (rp drv pr) (p_flows pr) (S n).

Definition chain (fe : list (Z * Ctx)) (c : Ctx) (t : Task) : Prop :=
  match t with
  | Sleeping (Some pr) => (c ∉ p_flows pr) ∧ queue_ok fe pr
  | Sleeping None => True
  | Executing a pendingRetry k =>
      ∃ n, a = Finite n ∧ tally fe (page_of_frame drv k) (visited pendingRetry ++ [c]) n
  | Settling a pendingRetry (Some r) =>
      is_zero a = false →
      ∃ n, a = Finite n ∧ tally fe (page_of_retry drv r) (visited pendingRetry ++ [c]) n
  | Settling _ _ None => True
  end.

Lemma chain_other fe p' c' c t :
  (∀ p, task_page drv t = Some p → p ≠ p') →
  chain fe c t → chain (fe ++ [(p', c')]) c t.
Proof.
  intros Hne. destruct t as [[pr|]|a pro k|a pro [r|]]; simpl in *; try done.
  - intros [Hc (n & Hn & Ht)]. split; [done|]. exists n. split; [done|].
    apply tally_other; [|done]. by apply Hne.
  - intros (n & Hn & Ht). exists n. split; [done|].
    apply tally_other; [|done]. by apply Hne.
  - intros H Hz. destruct (H Hz) as (n & Hn & Ht). exists n. split; [done|].
    apply tally_other; [|done]. apply Hne. by rewrite Hz.
Qed.

Record accounted (q : list PendingRetry) (ts : gmap Ctx Task) (d : DState)
    (fe : list (Z * Ctx)) : Prop := {
  a_queue : ∀ pr, pr ∈ q → queue_ok fe pr;
  a_tasks : ∀ c t, ts !! c = Some t → chain fe c t;
  a_failed : ∀ p, p ∈ failed V d → tally fe p (attempts fe p) 0;
}.

(** The task of [ctx] moves on without a fetch. *)
Lemma accounted_update q ts d fe ctx t' d' :
  accounted q ts d fe →
  chain fe ctx t' →
  (∀ p, p ∈ failed V d' → tally fe p (attempts fe p) 0) →
  accounted q (<[ctx := t']> ts) d' fe.
Proof.
  intros [Hq Ht Hf] Hc Hf'. split; [done| |done].
  intros c t. rewrite lookup_insert. case_decide; [|by eauto].
  by intros [= <-]; subst.
Qed.

(** [fetchHandler] is called for page [p'] on [ctx]; nobody else
    accounts for that page. *)
Lemma accounted_fetch q ts d fe ctx t' d' p' :
  accounted q ts d fe →
  (∀ pr, pr ∈ q → rp drv pr ≠ p') →
  (∀ c t p, c ≠ ctx → ts !! c = Some t → task_page drv t = Some p → p ≠ p') →
  (∀ p, p ∈ failed V d → p ≠ p') →
  failed V d' = failed V d →
  chain (fe ++ [(p', ctx)]) ctx t' →
  accounted q (<[ctx := t']> ts) d' (fe ++ [(p', ctx)]).
Proof.
  intros [Hq Ht Hf] Hnq Hnt Hnf Hfd Hc. split.
  - intros pr Hpr. destruct (Hq pr Hpr) as (n & Hn & Hta). exists n. split; [done|].
    apply tally_other; [by apply Hnq|done].
  - intros c t. rewrite lookup_insert. case_decide as Hcase.
    + by intros [= <-]; subst.
    + intros Hlook. apply chain_other; [|by eauto].
      intros p Hp. eapply Hnt; [|done..]. by intros ->.
  - intros p Hp. rewrite Hfd in Hp.
    destruct (Hf p Hp) as (_ & Hnd & Hlen).
    assert (attempts (fe ++ [(p', ctx)]) p = attempts fe p) as Heq.
    { rewrite attempts_snoc. destruct (decide (p' = p)) as [<-|]; [|done].
      by destruct (Hnf _ Hp). }
    unfold tally. by rewrite Heq.
Qed.

Lemma accounted_release q ts d fe ctx :
  accounted q ts d fe → accounted q (delete ctx ts) d fe.
Proof.
  intros [Hq Ht Hf]. split; [done| |done].
  intros c t [_ Hc]%lookup_delete_Some. by eauto.
Qed.

Lemma accounted_requeue q ts d fe ctx pr :
  accounted q ts d fe → queue_ok fe pr → accounted (q ++ [pr]) (delete ctx ts) d fe.
Proof.
  intros [Hq Ht Hf] Hpr. split; [| |done].
  - intros x [Hx| ->%list_elem_of_singleton]%elem_of_app; by eauto.
  - intros c t [_ Hc]%lookup_delete_Some. by eauto.
Qed.

Lemma accounted_park_retry q1 pr q2 ts d fe ctx :
  accounted (q1 ++ pr :: q2) ts d fe → ctx ∉ p_flows pr →
  accounted (q1 ++ q2) (<[ctx := Sleeping (Some pr)]> ts) d fe.
Proof.
  intros [Hq Ht Hf] Hctx. split; [| |done].
  - intros x Hx. apply Hq. set_solver.
  - intros c t. rewrite lookup_insert. case_decide; [|by eauto].
    intros [= <-]. subst. split; [done|]. apply Hq. set_solver.
Qed.
End Accounting.

(** ** The accounting along a run *)
Section AccountingRun.
Import Js Flow.
Context {DState TRetry Frame : Type}.
Variable drv : Driver DState TRetry Frame.
Variable o : Options.t.
Variable V : View (DState := DState) (TRetry := TRetry) (Frame := Frame).
Hypothesis laws : Lawful drv V.
Variable R : nat.
Hypothesis distinct : Options.retryDistinctFlows (Options.errorHandlingPolicy o) = true.
Hypothesis limit : Options.retryLimit (Options.errorHandlingPolicy o) = Finite R.

Abbreviation PendingRetry := (PendingRetry TRetry).
Abbreviation Task := (Task TRetry Frame).
Abbreviation State := (State DState TRetry Frame).

Implicit Types (st : State) (pr : option PendingRetry) (ctx c : Ctx).

Definition Accounted st : Prop :=
  accounted drv V R (pendingRetries st) (tasks st) (driver st) (fetched st)
  ∧ S R ≤ length (flowsContexts (engine st)).

Lemma mark_done_pendingRetries done st :
  pendingRetries (mark_done done st) = pendingRetries st.
Proof. by destruct done. Qed.

Lemma mark_done_tasks done st : tasks (mark_done done st) = tasks st.
Proof. by destruct done. Qed.

Lemma mark_done_driver done st : driver (mark_done done st) = driver st.
Proof. by destruct done. Qed.

Lemma mark_done_fetched done st : fetched (mark_done done st) = fetched st.
Proof. by destruct done. Qed.

Lemma mark_done_engine done st : engine (mark_done done st) = engine st.
Proof. by destruct done. Qed.

Local Ltac fields :=
  unfold Accounted; simpl;
  rewrite ?mark_done_pendingRetries, ?mark_done_tasks, ?mark_done_driver,
    ?mark_done_fetched, ?mark_done_engine;
  simpl.

Lemma Accounted_callExecutor w ctx pr st :
  Owned drv V st → Accounted st → tasks st !! ctx = Some (Sleeping pr) →
  (pr = None → executorDone st = false) →
  Accounted (callExecutor drv o w ctx pr st).
Proof.
  intros Hown [Hacc Hroom] Ht Hfresh. unfold callExecutor.
  pose proof (o_task_ok _ _ _ _ _ _ _ _ _ Hown _ _ Ht) as Hok.
  pose proof (a_tasks _ _ _ _ _ _ _ Hacc _ _ Ht) as Hchain.
  destruct pr as [r0|]; simpl.
  - pose proof (law_begin_retry _ _ laws ctx (attemptsLeft r0) (retry r0) (now w)
                  (driver st) Hok) as Hlaw.
    assert (Hheld : held drv (tasks st) ctx (rp drv r0)) by by eexists.
    destruct (begin drv _ _ _ _ _) as [d' done k|d' done ret].
    + destruct Hlaw as (Hpage & Hatt & Hfailed & Hadv & Hfok).
      fields. split; [|done].
      apply accounted_fetch with (d := driver st); try done.
      * intros r Hr Heq. rewrite Hpage in Heq.
        apply (o_queue_held _ _ _ _ _ _ _ _ _ Hown ctx (rp drv r0) Hheld).
        unfold queued, rp at 1. rewrite <- Heq. by apply list_elem_of_fmap_2.
      * intros c t p Hc Hlook Hp ->. rewrite Hpage in Hp. apply Hc.
        apply (o_held_unique _ _ _ _ _ _ _ _ _ Hown c ctx (rp drv r0)); [by eexists|done].
      * intros p Hp ->. rewrite Hpage in Hp.
        apply (o_live_failed _ _ _ _ _ _ _ _ _ Hown (rp drv r0)); [|done].
        right. by exists ctx.
      * simpl. destruct Hchain as (Hctx & n & Hn & Htally).
        exists n. split; [done|]. rewrite Hpage. by apply tally_next.
    + destruct Hlaw as (-> & Hfailed & Hadv).
      fields. split; [|done].
      apply accounted_update with (d := driver st); try done.
      rewrite Hfailed. apply Hacc.
  - pose proof (law_begin_fresh _ _ laws ctx (Options.retryLimit (Options.errorHandlingPolicy o))
                  (now w) (driver st)) as Hlaw.
    destruct (begin drv _ _ _ _ _) as [d' done k|d' done ret].
    + destruct Hlaw as (Hnew & Hknown & Hatt & Hfailed & Hadv & Hfok).
      assert (Hunknown : ∀ p,
                live drv (pendingRetries st) (tasks st) p ∨ p ∈ failed V (driver st)
                ∨ p ∈ dropped st ∨ p ∈ (fetched st).*1 →
                p ≠ page_of_frame drv k).
      { intros p Hp ->. apply Hnew.
        pose proof (o_known _ _ _ _ _ _ _ _ _ Hown _ Hp) as Hk.
        by rewrite (Hfresh eq_refl) in Hk. }
      fields. split; [|done].
      apply accounted_fetch with (d := driver st); try done.
      * intros r Hr. apply Hunknown. left. left. by apply list_elem_of_fmap_2.
      * intros c t p Hc Hlook Hp. apply Hunknown. left. right. exists c. by eexists.
      * intros p Hp. apply Hunknown. right. by left.
      * simpl. exists R. split; [done|]. split; [|split; [apply NoDup_singleton|simpl; lia]].
        rewrite attempts_snoc. destruct (decide _); [|done].
        rewrite attempts_unfetched; [done|].
        intros Hin. apply (Hunknown (page_of_frame drv k)); [|done]. by do 3 right.
    + destruct Hlaw as (-> & Hfailed & Hadv).
      fields. split; [|done].
      apply accounted_update with (d := driver st); try done.
      rewrite Hfailed. apply Hacc.
Qed.
Lemma Accounted_release ctx st : Accounted st → Accounted (release ctx st).
Proof.
  intros [Hacc Hroom]. split; [|done]. simpl. by apply accounted_release.
Qed.

Lemma Accounted_afterInterval w ctx pr canceled st :
  Owned drv V st → Accounted st → tasks st !! ctx = Some (Sleeping pr) →
  Accounted (afterInterval drv o w ctx pr canceled st).
Proof.
  intros Hown Hacc Ht. unfold afterInterval. simpl.
  destruct (canceled || _) eqn:Hc.
  - by apply Accounted_release.
  - apply orb_false_iff in Hc as [_ Hc]. apply Accounted_callExecutor; [done..|].
    intros ->. simpl in Hc. by rewrite andb_true_r in Hc.
Qed.

Lemma Accounted_handleFlowExecution w ctx pr st :
  Owned drv V st → Accounted st → tasks st !! ctx = Some (Sleeping pr) →
  (pr = None → executorDone st = false) →
  Accounted (handleFlowExecution drv o w ctx pr st).
Proof.
  intros Hown Hacc Ht Hfresh. unfold handleFlowExecution.
  destruct (flowsLastExecution st !! ctx) as [time|].
  - destruct (0 <? _)%Z.
    + unfold Accounted. simpl. by rewrite insert_id.
    + by apply Accounted_afterInterval.
  - by apply Accounted_callExecutor.
Qed.

(** Both invariants together. *)
Definition Sound st : Prop := Owned drv V st ∧ Accounted st.

Lemma Sound_dispatch_fresh w ctx st :
  Sound st → ctx ∉ flows st → executorDone st = false →
  Sound (handleFlowExecution drv o w ctx None (set_flows (set_add ctx (flows st)) st)).
Proof.
  intros [Hown Hacc] Hctx Hed.
  split; [by apply Owned_dispatch_fresh|].
  rewrite <- handleFlowExecution_parked.
  apply Accounted_handleFlowExecution.
  - unfold Owned. simpl. by apply owned_park.
  - destruct Hacc as [Hacc Hroom]. split; [|done]. simpl.
    apply accounted_update with (d := driver st); [done..|apply Hacc].
  - simpl. by rewrite lookup_insert_eq.
  - done.
Qed.

Lemma Sound_dispatch_retry w ctx r q1 q2 st :
  Sound st → ctx ∉ flows st → pendingRetries st = q1 ++ r :: q2 → ctx ∉ p_flows r →
  Sound (handleFlowExecution drv o w ctx (Some r)
           (set_flows (set_add ctx (flows st)) (set_pendingRetries (q1 ++ q2) st))).
Proof.
  intros [Hown Hacc] Hctx Hq Hnew.
  split; [by apply Owned_dispatch_retry|].
  rewrite <- handleFlowExecution_parked.
  apply Accounted_handleFlowExecution.
  - unfold Owned in *. simpl. rewrite Hq in Hown. by apply owned_park_retry.
  - destruct Hacc as [Hacc Hroom]. split; [|done]. simpl.
    rewrite Hq in Hacc. by apply accounted_park_retry.
  - simpl. by rewrite lookup_insert_eq.
  - done.
Qed.

(** The loop over the free contexts. *)
Lemma Sound_dispatchFresh w : ∀ freeContexts remaining st,
  Sound st → NoDup freeContexts → (∀ c, c ∈ freeContexts → c ∉ flows st) →
  Sound (dispatchFresh drv o w freeContexts remaining st).
Proof.
  induction freeContexts as [|ctx rest IH]; intros remaining st Hs Hnd Hfree; [done|].
  apply NoDup_cons in Hnd as [Hctx Hnd].
  cbn [dispatchFresh]. rewrite distinct.
  destruct (executorDone st) eqn:Hed; simpl; [done|].
  assert (Hs1 : Sound (handleFlowExecution drv o w ctx None
                         (set_flows (set_add ctx (flows st)) st))).
  { apply Sound_dispatch_fresh; [done| |done]. apply Hfree. set_solver. }
  destruct (_ <=? 0)%Z; [done|].
  apply IH; [done..|].
  intros c Hc Hin.
  apply (handleFlowExecution_frame drv o w ctx None) in Hin. simpl in Hin.
  apply elem_of_set_add in Hin as [->|Hin]; [done|].
  eapply Hfree; [|done]. set_solver.
Qed.

Lemma Sound_finish w st : Sound st → Sound (finish drv w st).
Proof.
  intros [Hown Hacc]. split; [by apply Owned_finish|].
  unfold finish. by destruct (resolved st).
Qed.

Lemma Sound_forcedStop w st : Sound st → Sound (forcedStop drv w st).
Proof.
  intros [Hown Hacc]. split; [by apply Owned_forcedStop|].
  unfold forcedStop, finish. by destruct (resolved _).
Qed.
(** The loop over the retry queue. *)
Lemma Sound_dispatchRetries w (m : @Matching TRetry) fc0 prs n :
  matched fc0 prs n m →
  ∀ queue indexed freeContexts st,
    Sound st → pendingRetries st = indexed.*2 →
    NoDup indexed.*1 → NoDup queue.*1 →
    (∀ i r, (i, r) ∈ queue → (i, r) ∈ indexed) →
    (∀ i r, (i, r) ∈ queue → prs !! i = Some r) →
    (∀ i r c l, (i, r) ∈ queue → flows_of i m = c :: l → c ∈ freeContexts) →
    NoDup freeContexts → (∀ c, c ∈ freeContexts → c ∉ flows st) →
    let '(st', free', _) := dispatchRetries drv o w m queue indexed freeContexts st in
    Sound st' ∧ NoDup free' ∧ (∀ c, c ∈ free' → c ∉ flows st').
Proof.
  intros Hm. induction queue as [|[i r] rest IH];
    intros indexed freeContexts st Hs Hq Hki Hkq Hsub Hprs Hheads Hnd Hfree; [done|].
  cbn [dispatchRetries].
  destruct (flows_of i m) as [|ctx l] eqn:Hfl.
  { split; [by apply Sound_forcedStop|]. split; [done|].
    intros c Hc. unfold forcedStop, finish. destruct (resolved _); simpl; eauto. }
  assert (Hir : (i, r) ∈ indexed) by (apply Hsub; constructor).
  destruct (filter_key_split indexed i r Hki Hir) as (x1 & x2 & Hsplit & Hfilter).
  rewrite Hfilter.
  assert (Hctx : ctx ∈ freeContexts) by (eapply (Hheads i r); [constructor|done]).
  assert (Hnew : ctx ∉ p_flows r).
  { apply (m_unvisited _ _ _ _ Hm i ctx r); [rewrite Hfl; set_solver|].
    apply Hprs. constructor. }
  simpl in Hkq. apply NoDup_cons in Hkq as [Hi Hkq].
  set (st3 := handleFlowExecution drv o w ctx (Some r) _).
  assert (Hs3 : Sound st3).
  { unfold st3. simpl. rewrite fmap_app.
    apply (Sound_dispatch_retry w ctx r (x1.*2) (x2.*2) st);
      [done|by apply Hfree| |done].
    by rewrite Hq, Hsplit, fmap_app, fmap_cons. }
  destruct (handleFlowExecution_frame drv o w ctx (Some r)
              (set_flows (set_add ctx (flows (set_pendingRetries ((x1 ++ x2).*2) st)))
                 (set_pendingRetries ((x1 ++ x2).*2) st))) as (Hf3 & Hq3 & _).
  fold st3 in Hf3, Hq3. simpl in Hf3, Hq3.
  assert (Hki' : NoDup (x1 ++ x2).*1).
  { rewrite Hsplit, fmap_app, fmap_cons in Hki. rewrite fmap_app.
    apply NoDup_app in Hki as (H1 & H2 & H3). apply NoDup_cons in H3 as [_ H3].
    apply NoDup_app. set_solver. }
  assert (Hsub' : ∀ i' r', (i', r') ∈ rest → (i', r') ∈ x1 ++ x2).
  { intros i' r' Hin. assert (i' ≠ i).
    { intros ->. apply Hi. apply list_elem_of_fmap. by exists (i, r'). }
    assert ((i', r') ∈ indexed) as Hin' by (apply Hsub; by constructor).
    rewrite Hsplit in Hin'. set_solver. }
  assert (Hprs' : ∀ i' r', (i', r') ∈ rest → prs !! i' = Some r').
  { intros i' r' Hin. apply Hprs. by constructor. }
  assert (Hheads' : ∀ i' r' c l', (i', r') ∈ rest → flows_of i' m = c :: l' →
                      c ∈ set_delete ctx freeContexts).
  { intros i' r' c l' Hin Hfl'. apply elem_of_set_delete. split.
    - intros ->. assert (i' = i) as -> by by eapply matched_heads_differ.
      apply Hi. apply list_elem_of_fmap. by exists (i, r').
    - eapply (Hheads i' r'); [by constructor|done]. }
  assert (Hfree' : ∀ c, c ∈ set_delete ctx freeContexts → c ∉ flows st3).
  { intros c [Hne Hc]%elem_of_set_delete Hin. apply Hf3 in Hin.
    apply elem_of_set_add in Hin as [?|?]; [done|]. by eapply Hfree. }
  exact (IH (x1 ++ x2) (set_delete ctx freeContexts) st3 Hs3 Hq3 Hki' Hkq Hsub' Hprs'
           Hheads' (NoDup_set_delete _ _ Hnd) Hfree').
Qed.

(** During a cycle contexts are only added. *)
Lemma init_each_grows inits : ∀ n k acc,
  length acc ≤ length (init_each inits n k acc).1.
Proof.
  induction n as [|n IH]; intros k acc; simpl; [done|].
  destruct (_initFlowContext (inits k)) as [[ctx|ctxs]|]; simpl; try done.
  etrans; [|apply IH]. rewrite length_app. simpl. lia.
Qed.

Lemma _updateFlowsContexts_grows inits e :
  length (flowsContexts e)
  ≤ length (flowsContexts (_updateFlowsContexts o false inits e).1).
Proof.
  unfold _updateFlowsContexts.
  destruct (getConcurrencyOptions o) as [[concurrency remove] supported].
  destruct (isConcurrencyFixed e); [done|].
  pose proof (init_each_grows inits (concurrency - length (flowsContexts e)) 0
                (flowsContexts e)) as H.
  by destruct (init_each _ _ _ _).
Qed.

(** With room for [R + 1] distinct contexts no retry has its visited
    contexts forgotten. *)
Lemma same_retry_unchanged nContexts fe (q q' : list PendingRetry) :
  Forall2 (same_retry nContexts) q q' →
  (∀ r, r ∈ q → queue_ok drv R fe r) → S R ≤ nContexts → q' = q.
Proof.
  induction 1 as [|r r' q q' Hr Hq IH]; intros Hok Hroom; [done|].
  f_equal.
  - destruct Hr as (Hret & Hleft & [Hfl|[_ Hfull]]).
    + destruct r, r'. simpl in *. by subst.
    + destruct (Hok r) as (n & _ & _ & _ & Hlen); [set_solver|]. lia.
  - apply IH; [|done]. intros x Hx. apply Hok. set_solver.
Qed.

Lemma Sound_startFlows w st : Sound st → Sound (startFlows drv o w st).
Proof.
  intros Hs. unfold startFlows.
  destruct (resolved st); [done|].
  destruct (quiescent st); [by apply Sound_finish|].
  pose proof (_updateFlowsContexts_grows (flowInits w) (engine st)) as Hgrow.
  destruct (_updateFlowsContexts _ _ _ _) as [e ok]. simpl in Hgrow.
  assert (Hs1 : Sound (set_engine e st)).
  { destruct Hs as [Hown [Hacc Hroom]]. split; [done|]. split; [done|]. simpl. lia. }
  destruct ok; simpl; [|by apply Sound_forcedStop].
  destruct (_ <=? 0)%Z; [done|].
  set (freeContexts := set_of_list _).
  assert (Hnd : NoDup freeContexts) by apply NoDup_set_of_list.
  assert (Hfree : ∀ c, c ∈ freeContexts → c ∉ flows st).
  { intros c [? _]%elem_of_set_of_list%list_elem_of_filter. done. }
  rewrite distinct.
  pose proof (matchRetries_matched freeContexts (length (flowsContexts e))
                (pendingRetries st)
                (currentConcurrency o (set_engine e st) - Z.of_nat (length (flows st)))%Z)
    as Hmatch.
  destruct (matchRetries _ _ _ _ _ _) as [[prs m] remaining].
  destruct Hmatch as [Hm Hsame].
  assert (prs = pendingRetries st) as ->.
  { destruct Hs1 as [_ [Hacc Hroom]].
    eapply same_retry_unchanged; [exact Hsame|apply Hacc|exact Hroom]. }
  pose proof (Sound_dispatchRetries w m _ _ _ Hm (retryQueue m)
                (imap pair (pendingRetries st))
                freeContexts (set_pendingRetries (pendingRetries st) (set_engine e st)))
    as Hloop.
  destruct (dispatchRetries _ _ _ _ _ _ _ _) as [[st' free'] ok].
  destruct Hloop as (Hs' & Hnd' & Hfree').
  - done.
  - simpl. symmetry. exact (imap_pair_snd (pendingRetries st) 0).
  - assert ((imap pair (pendingRetries st)).*1 = seq 0 (length (pendingRetries st)))
      as -> by exact (imap_pair_fst (pendingRetries st) 0).
    apply NoDup_seq.
  - apply (m_queue_nodup _ _ _ _ Hm).
  - intros i r Hin. apply (m_queue _ _ _ _ Hm) in Hin as (_ & Hi & _).
    apply list_elem_of_lookup. exists i. rewrite list_lookup_imap, Hi. done.
  - intros i r Hin. by apply (m_queue _ _ _ _ Hm) in Hin as (_ & Hi & _).
  - intros i r c l _ Hfl. apply (m_free _ _ _ _ Hm i). rewrite Hfl. set_solver.
  - done.
  - done.
  - destruct ok; simpl; [|done].
    destruct (_ <=? 0)%Z; [done|]. by apply Sound_dispatchFresh.
Qed.
Lemma Accounted_settle w ctx a pr k s st :
  Owned drv V st → Accounted st → tasks st !! ctx = Some (Executing a pr k) →
  Accounted
    (match resume drv k s (now w) (driver st) with
     | Awaits d done k' =>
         set_tasks (<[ctx := Executing a pr k']> (tasks st))
           (mark_done done (set_driver d st))
     | Returns d done ret =>
         set_tasks (<[ctx := Settling a pr ret]> (tasks st))
           (mark_done done (set_driver d st))
     end).
Proof.
  intros Hown [Hacc Hroom] Ht.
  destruct (o_task_ok _ _ _ _ _ _ _ _ _ Hown _ _ Ht) as [Hatt Hfok].
  pose proof (a_tasks _ _ _ _ _ _ _ Hacc _ _ Ht) as (n & Hn & Htally).
  pose proof (law_resume _ _ laws k s (now w) (driver st) Hfok) as Hlaw.
  destruct (resume drv k s (now w) (driver st)) as [d' done k'|d' done ret].
  - destruct Hlaw as (Hpage & Hatt' & Hfailed & Hadv & Hfok').
    fields. split; [|done].
    apply accounted_update with (d := driver st); [done| |].
    + simpl. exists n. split; [done|]. by rewrite Hpage.
    + rewrite Hfailed. apply Hacc.
  - destruct Hlaw as (Hadv & Hret & Hfail).
    fields. split; [|done].
    apply accounted_update with (d := driver st); [done| |].
    + destruct ret as [r|]; [|done]. simpl. intros _.
      destruct (Hret r eq_refl) as [Hpage _].
      exists n. split; [done|]. by rewrite Hpage.
    + intros p Hp. destruct Hfail as [Hsame|(Hadd & Hzero & _)].
      * rewrite Hsame in Hp. by apply Hacc.
      * rewrite Hadd in Hp. apply elem_of_set_add in Hp as [->|Hp]; [|by apply Hacc].
        rewrite Hatt, Hn in Hzero. destruct n; [|done].
        destruct Htally as (Heq & Hnd & Hlen). unfold tally. by rewrite Heq.
Qed.

Lemma Accounted_afterExecutor ctx a pr ret st :
  Accounted st → tasks st !! ctx = Some (Settling a pr ret) →
  Accounted (afterExecutor ctx a pr ret st).
Proof.
  intros [Hacc Hroom] Ht. unfold afterExecutor.
  pose proof (a_tasks _ _ _ _ _ _ _ Hacc _ _ Ht) as Hchain.
  destruct ret as [r|]; [|by apply Accounted_release].
  destruct (is_zero a) eqn:Hz; simpl; [by apply Accounted_release|].
  split; [|done]. simpl. apply accounted_requeue; [done|].
  destruct (Hchain Hz) as (n & -> & Heq & Hnd & Hlen).
  destruct n as [|n]; [done|].
  assert (Hctx : ctx ∉ visited pr).
  { apply NoDup_app in Hnd as (_ & Hnd & _). intros Hin. apply (Hnd _ Hin). set_solver. }
  exists n. split; [done|]. unfold rp. simpl.
  change (match pr with Some pr0 => p_flows pr0 | None => [] end) with (visited pr).
  unfold set_add. destruct (decide (ctx ∈ visited pr)); [done|].
  split; [done|]. split; [done|]. lia.
Qed.

Lemma Sound_step w j st st' : Sound st → step drv o w j st = Some st' → Sound st'.
Proof.
  intros Hs Hstep. split; [by eapply Owned_step; [|apply Hs|]|].
  destruct Hs as [Hown Hacc].
  destruct j as [|ctx|ctx s|ctx|]; simpl in Hstep.
  - destruct (ticks st) as [|n]; [done|]. injection Hstep as <-.
    by apply Sound_startFlows.
  - destruct (tasks st !! ctx) as [[pr| |]|] eqn:Ht; try done. injection Hstep as <-.
    by apply Accounted_afterInterval.
  - destruct (tasks st !! ctx) as [[|a pr k|]|] eqn:Ht; try done.
    pose proof (Accounted_settle w ctx a pr k s st Hown Hacc Ht) as H.
    destruct (resume drv k s (now w) (driver st)); by injection Hstep as <-.
  - destruct (tasks st !! ctx) as [[| |a pr ret]|] eqn:Ht; try done.
    injection Hstep as <-. by apply Accounted_afterExecutor.
  - destruct (aborted st); [done|]. injection Hstep as <-.
    by apply Sound_forcedStop.
Qed.

Lemma Sound_run schedule : ∀ st st',
  Sound st → run drv o schedule st = Some st' → Sound st'.
Proof.
  induction schedule as [|[w j] rest IH]; intros st st' Hs Hrun; simpl in Hrun.
  - by injection Hrun as <-.
  - destruct (step drv o w j st) as [st1|] eqn:Hstep; [|done].
    eapply IH; [|done]. by eapply Sound_step.
Qed.

Lemma Sound_start w signalAborted e d :
  failed V d = [] → S R ≤ length (flowsContexts e) →
  Sound (_startFlowOrchestrator drv o w signalAborted e d).
Proof.
  intros Hfailed Hroom. unfold _startFlowOrchestrator.
  set (st := {| flows := [] |}).
  assert (Hs : Sound st).
  { split.
    - pose proof (Owned_start drv o V laws w true e d Hfailed) as H.
      unfold _startFlowOrchestrator, finish in H. simpl in H.
      destruct H. by split.
    - split; [|done]. split; simpl.
      + set_solver.
      + intros c t Ht. by rewrite lookup_empty in Ht.
      + rewrite Hfailed. set_solver. }
  destruct signalAborted; [by apply Sound_finish|by apply Sound_startFlows].
Qed.

(** Every page in [failedPageList] has been fetched on [R + 1]
    distinct contexts. *)
Lemma Sound_failed st p :
  Sound st → p ∈ failed V (driver st) →
  length (attempts (fetched st) p) = S R ∧ NoDup (attempts (fetched st) p).
Proof.
  intros [_ [Hacc _]] Hp.
  destruct (a_failed _ _ _ _ _ _ _ Hacc p Hp) as (_ & Hnd & Hlen). split; [lia|done].
Qed.
End AccountingRun.

Section DistinctFlows.
Import Js Flow Summary Drivers.

Lemma summarize_failed now h : s_failedPageList (summarize now h) = failedPageList h.
Proof. unfold summarize. by destruct (total h =? 0)%Z. Qed.

(** A cycle that starts with room for [limit + 1] contexts starts
    sound, and the pages its summary would list as failed are those of
    the driver's [failedPageList]. *)
Lemma Counting_sound {D R F} (drv : Driver D R F) o e st0 limit :
  Counting drv o e st0 →
  Options.retryDistinctFlows (Options.errorHandlingPolicy o) = true →
  Options.retryLimit (Options.errorHandlingPolicy o) = Finite limit →
  S limit ≤ length (flowsContexts e) →
  ∃ V, Lawful drv V ∧ Sound drv V limit st0
       ∧ ∀ now d, s_failedPageList (conclude drv now d) = failed V d.
Proof.
  intros [o' w sa e'|o' w sa e'|o' w sa e'|o' w sa e'|o' w sa e' r st1 Hl]
    Hdistinct Hlimit Hroom.
  - exists none_view. split; [apply none_lawful|]. split.
    + apply (Sound_start _ o'); try done. apply none_lawful.
    + intros now d. apply summarize_failed.
  - exists totalPages_view. split; [apply totalPages_lawful|]. split.
    + apply (Sound_start _ o'); try done. apply totalPages_lawful.
    + intros now d. apply summarize_failed.
  - exists hasMore_view. split; [apply hasMore_lawful|]. split.
    + apply (Sound_start _ o'); try done. apply hasMore_lawful.
    + intros now d. apply summarize_failed.
  - exists cursor_view. split; [apply cursor_lawful|]. split.
    + apply (Sound_start _ o'); try done. apply cursor_lawful.
    + intros now d. apply summarize_failed.
  - apply list_cycle_inv in Hl as (items & -> & ->).
    exists list_view. split; [apply list_lawful|]. split.
    + apply (Sound_start _ o'); try done. apply list_lawful.
    + intros now d. apply summarize_failed.
Qed.

(** C5, amended.  In a cycle of any kind under [retryDistinctFlows]
    with retry limit [limit], started with at least [limit + 1] flow
    contexts: at every moment up to which every page fetched is a safe
    integer, a page that the summary would list in [failedPageList] has
    been fetched exactly [limit + 1] times, each time on another
    context. *)
Theorem failed_page_tried_on_distinct_flows {D R F} (drv : Driver D R F) o e st0 limit
    schedule st now p :
  Cycle drv o e st0 →
  Options.retryDistinctFlows (Options.errorHandlingPolicy o) = true →
  Options.retryLimit (Options.errorHandlingPolicy o) = Finite limit →
  limit + 1 ≤ length (flowsContexts e) →
  run drv o schedule st0 = Some st →
  safe_pages (fetched st) = true →
  p ∈ s_failedPageList (conclude drv now (driver st)) →
  length (attempts (fetched st) p) = limit + 1 ∧ NoDup (attempts (fetched st) p).
Proof.
  intros Hc Hdistinct Hlimit Hroom Hrun Hsafe Hp.
  destruct (Cycle_counting drv o e st0 schedule st Hc Hrun Hsafe)
    as (drv' & Hsame & Hc' & Hrun').
  destruct (Counting_sound drv' o e st0 limit Hc' Hdistinct Hlimit)
    as (V & laws & Hs & Hf); [lia|].
  rewrite <- (alike_conclude _ _ Hsame), Hf in Hp.
  pose proof (Sound_run drv' o V laws limit Hdistinct Hlimit _ _ _ Hs Hrun') as Hs'.
  destruct (Sound_failed drv' V limit st p Hs' Hp) as [Hlen Hnd].
  split; [lia|done].
Qed.
End DistinctFlows.

Section DistinctFlowsScenario.
Import Js Flow Summary Drivers.

(** Page 2 fails on context 1, then on context 2 and, with no attempt
    left, on context 0; pages 1, 3 and 4 are fetched meanwhile. *)
Definition failing_page_schedule : list (World * Job) :=
  fetched_on 10 0 ++ [(world 13, Tick)]
  ++ [(world 20, Settle 1 Rejected); (world 21, Continue 1)]
  ++ fetched_on 22 2 ++ [(world 25, Tick); (world 25, Tick)]
  ++ [(world 1100, Wake 2); (world 1101, Settle 2 Rejected); (world 1102, Continue 2);
      (world 1103, Tick); (world 1104, Wake 0)]
  ++ fetched_on 1105 0
  ++ [(world 1108, Tick); (world 2200, Wake 0); (world 2201, Settle 0 Rejected)].

Definition page_failed : State TotalPagesState Z PageFrame :=
  default five_pages_cycle
    (run (totalPages_driver five_pages) five_pages failing_page_schedule
       five_pages_cycle).

(** The theorem at work: page 2 is in [failedPageList] after three
    fetches, on the contexts 1, 2 and 0. *)
Lemma failed_page_tried_on_distinct_flows_witness :
  failedPageList (tp_summaryHelper (driver page_failed)) = [2%Z]
  ∧ attempts (fetched page_failed) 2 = [1; 2; 0]
  ∧ length (attempts (fetched page_failed) 2) = 2 + 1
  ∧ NoDup (attempts (fetched page_failed) 2).
Proof.
  split; [by vm_compute|]. split; [by vm_compute|].
  apply (failed_page_tried_on_distinct_flows (totalPages_driver five_pages) five_pages
           (first_engine five_pages) five_pages_cycle 2 failing_page_schedule
           page_failed 0 2).
  - apply cycle_TotalPages.
  - by vm_compute.
  - by vm_compute.
  - vm_compute. lia.
  - by vm_compute.
  - by vm_compute.
  - assert (s_failedPageList
              (conclude (totalPages_driver five_pages) 0 (driver page_failed)) = [2%Z])
      as -> by by vm_compute.
    apply list_elem_of_singleton. reflexivity.
Defined.

(** TotalPages from page [2^53] on two contexts that both start at
    once, with one retry per page. *)
Definition beyond_safe_raw : gmap string value :=
  <["paginationType" := VNumber (of_Z 1)]>
    (<["concurrency" := VNumber (of_Z 2)]>
       (<["paginationStart" := VNumber (of_Z 9007199254740992)]>
          (<["paginationPrefetch" := VBool true]>
             (<["errorHandlingPolicy" := VObject [("retryLimit", VNumber (of_Z 1))]]>
                (<["fetchHandler" := VFunction 0]>
                   (<["resolveTotalPages" := VFunction 1]> ∅)))))).

Definition beyond_safe : Options.t := validated beyond_safe_raw.

Definition beyond_safe_cycle : State TotalPagesState Z PageFrame :=
  _handlePaginationTotalPagesCycle beyond_safe (world 0) false
    (first_engine beyond_safe).

(** Both workers fail on page [2^53]; each retry goes to the other
    context and fails again, with no attempt left. *)
Definition twice_failed_schedule : list (World * Job) :=
  [(world 10, Settle 0 Rejected); (world 11, Continue 0);
   (world 12, Settle 1 Rejected); (world 13, Continue 1);
   (world 14, Tick); (world 14, Tick);
   (world 1100, Wake 1); (world 1101, Settle 1 Rejected); (world 1102, Continue 1);
   (world 1103, Wake 0); (world 1104, Settle 0 Rejected)].

(** The claim of C5 fails where the page counter stops counting: from
    [paginationStart = 2^53] both workers are given page [2^53], whose
    two chains of attempts add up to four fetches on two contexts when
    the page is declared failed. *)
Lemma failed_page_tried_twice_per_flow :
  Options.retryDistinctFlows (Options.errorHandlingPolicy beyond_safe) = true
  ∧ Options.retryLimit (Options.errorHandlingPolicy beyond_safe) = Finite 1
  ∧ flowsContexts (first_engine beyond_safe) = [0; 1]
  ∧ ∃ st,
      run (totalPages_driver beyond_safe) beyond_safe twice_failed_schedule
        beyond_safe_cycle = Some st
      ∧ s_failedPageList (conclude (totalPages_driver beyond_safe) 1105 (driver st))
        = [9007199254740992%Z]
      ∧ attempts (fetched st) 9007199254740992 = [0; 1; 1; 0].
Proof.
  split; [by vm_compute|]. split; [by vm_compute|]. split; [by vm_compute|].
  eexists. split; [by vm_compute|]. split; by vm_compute.
Qed.
End DistinctFlowsScenario.

(* ===================================================================== *)
(** * Part III. Further properties of the code                            *)
(* ===================================================================== *)

(** ** The fail counter over a history of calls *)
Section FailCounterHistory.
Import Options FailCounter.
Variable policy : ErrorHandlingPolicy.

(** What a driver calls between [_initFailCounter] and [complete]. *)
Inductive Call :=
| Success
| Fail (page : option Z).

Definition call (fc : t) (c : Call) : t :=
  match c with
  | Success => success fc
  | Fail page => (fail policy page fc).1
  end.

Definition after (calls : list Call) : t := fold_left call calls init.

Definition is_fail (c : Call) : bool :=
  match c with Fail _ => true | Success => false end.

(** The failures since the last success. *)
Fixpoint trailing (calls : list Call) (n : nat) : nat :=
  match calls with
  | [] => n
  | Success :: rest => trailing rest 0
  | Fail _ :: rest => trailing rest (S n)
  end.

Lemma after_snoc calls c : after (calls ++ [c]) = call (after calls) c.
Proof. unfold after. by rewrite fold_left_app. Qed.

Lemma trailing_snoc calls c : ∀ n,
  trailing (calls ++ [c]) n = if is_fail c then S (trailing calls n) else 0.
Proof.
  induction calls as [|c' calls IH]; intros n; simpl.
  - by destruct c.
  - destruct c'; apply IH.
Qed.

(** [totalPageFails] is the number of calls of [fail], and
    [consecutivePageFails] the number of those since the last call of
    [success]. *)
Theorem counters_count_failures calls :
  totalPageFails (after calls) = length (filter (λ c, is_fail c = true) calls)
  ∧ consecutivePageFails (after calls) = trailing calls 0.
Proof.
  induction calls as [|c calls [IH1 IH2]] using rev_ind; [done|].
  rewrite after_snoc, filter_app, length_app, trailing_snoc.
  destruct c as [|page]; simpl.
  - split; [lia|done].
  - split; lia.
Qed.

(** The pages that failed between two successes: the history cut at the
    calls of [success]. *)
Fixpoint runs (calls : list Call) : list (list Z) :=
  match calls with
  | [] => [[]]
  | Success :: rest => [] :: runs rest
  | Fail page :: rest =>
      match runs rest with
      | run :: others =>
          (match page with Some p => p :: run | None => run end) :: others
      | [] => []
      end
  end.

(** The same cut of a timeline, at its [undefined] entries. *)
Fixpoint segments (timeline : list (option Z)) : list (list Z) :=
  match timeline with
  | [] => [[]]
  | None :: rest => [] :: segments rest
  | Some p :: rest =>
      match segments rest with
      | seg :: others => (p :: seg) :: others
      | [] => []
      end
  end.

(** How many pages of a run are not beyond [lastPage]. *)
Definition upto (lastPage : Q) (run : list Z) : nat :=
  length (filter (λ p, Qle_bool (inject_Z p) lastPage = true) run).

Definition longest (lastPage : Q) (rs : list (list Z)) : nat :=
  foldr Nat.max 0 (upto lastPage <$> rs).

Lemma segments_nonempty timeline : segments timeline ≠ [].
Proof.
  induction timeline as [|[p|] rest IH]; simpl; try done.
  by destruct (segments rest).
Qed.

Lemma upto_cons lastPage p l :
  upto lastPage (p :: l)
  = (if Qle_bool (inject_Z p) lastPage then 1 else 0) + upto lastPage l.
Proof.
  unfold upto. rewrite filter_cons.
  by destruct (Qle_bool (inject_Z p) lastPage).
Qed.

Lemma upto_nil lastPage : upto lastPage [] = 0.
Proof. done. Qed.

Lemma longest_cons lastPage seg others :
  longest lastPage (seg :: others)
  = Nat.max (upto lastPage seg) (longest lastPage others).
Proof. done. Qed.

Lemma triple_eq (a a' b b' c c' : nat) :
  a = a' → b = b' → c = c' → (a, b, c) = (a', b', c').
Proof. by intros -> -> ->. Qed.

(** The loop of [complete], whatever the counters it starts from. *)
Lemma recount_segments lastPage : ∀ timeline tot consec cur,
  timeline ≠ [] ∨ cur = 0 →
  recount lastPage timeline (tot, consec, cur)
  = (tot + upto lastPage (omap id timeline),
     match segments timeline with
     | first :: others =>
         Nat.max consec (Nat.max (cur + upto lastPage first) (longest lastPage others))
     | [] => consec
     end,
     0).
Proof.
  induction timeline as [|page rest IH]; intros tot consec cur Hcur.
  - destruct Hcur as [?| ->]; [done|]. simpl. rewrite upto_nil.
    apply triple_eq; [lia| |done]. unfold longest. simpl. lia.
  - destruct page as [p|].
    + destruct rest as [|next rest'].
      * simpl. rewrite upto_cons, upto_nil. unfold longest. simpl.
        destruct (Qle_bool (inject_Z p) lastPage);
          [destruct (Nat.ltb_spec consec (S cur))|destruct (Nat.ltb_spec consec cur)];
          apply triple_eq; lia.
      * change (recount lastPage (Some p :: next :: rest') (tot, consec, cur))
          with (let '(tot', cur') :=
                  if Qle_bool (inject_Z p) lastPage then (S tot, S cur) else (tot, cur) in
                recount lastPage (next :: rest') (tot', consec, cur')).
        change (omap id (Some p :: next :: rest')) with (p :: omap id (next :: rest')).
        change (segments (Some p :: next :: rest'))
          with (match segments (next :: rest') with
                | seg :: others => (p :: seg) :: others
                | [] => []
                end).
        pose proof (segments_nonempty (next :: rest')) as Hne.
        rewrite upto_cons.
        destruct (Qle_bool (inject_Z p) lastPage) eqn:Hle; rewrite IH by (by left);
          destruct (segments (next :: rest')) as [|seg others]; try done;
          rewrite upto_cons, Hle; apply triple_eq; lia.
    + change (recount lastPage (None :: rest) (tot, consec, cur))
        with (recount lastPage rest (tot, if consec <? cur then cur else consec, 0)).
      rewrite IH by (by right).
      change (omap id (None :: rest)) with (omap id rest).
      change (segments (None :: rest)) with ([] :: segments rest).
      pose proof (segments_nonempty rest) as Hne.
      destruct (segments rest) as [|seg others]; [done|].
      rewrite longest_cons, upto_nil.
      destruct (Nat.ltb_spec consec cur); apply triple_eq; lia.
Qed.

(** [complete(lastPage)]: [totalPageFails] becomes the number of
    pages in the timeline that are not beyond [lastPage], and
    [consecutivePageFails] the largest number of such pages between two
    [undefined] entries.  Without [lastPage] the counters stay. *)
Lemma complete_recounts lastPage fc :
  let fc' := (complete policy (Some lastPage) fc).1 in
  totalPageFails fc' = upto lastPage (omap id (pageFailTimeline fc))
  ∧ consecutivePageFails fc' = longest lastPage (segments (pageFailTimeline fc))
  ∧ pageFailTimeline fc' = pageFailTimeline fc.
Proof.
  simpl. rewrite recount_segments by (by right). simpl.
  pose proof (segments_nonempty (pageFailTimeline fc)) as Hne.
  destruct (segments (pageFailTimeline fc)) as [|seg others]; [done|].
  split; [done|]. split; [|done]. rewrite longest_cons. lia.
Qed.

(** Cutting a timeline that continues: the last segment of the first
    part runs on into the first segment of the second. *)
Fixpoint glue (A B : list (list Z)) : list (list Z) :=
  match A with
  | [] => B
  | s :: A' =>
      match A' with
      | [] => match B with t :: T => (s ++ t) :: T | [] => [s] end
      | _ :: _ => s :: glue A' B
      end
  end.

Lemma glue_snoc F s t T : glue (F ++ [s]) (t :: T) = F ++ (s ++ t) :: T.
Proof.
  induction F as [|f F IH]; [done|].
  change ((f :: F) ++ [s]) with (f :: (F ++ [s])). simpl.
  destruct (F ++ [s]) eqn:HF; [by destruct F|]. by rewrite <- IH.
Qed.

Lemma segments_app a b : segments (a ++ b) = glue (segments a) (segments b).
Proof.
  induction a as [|[q|] a IH].
  - simpl. pose proof (segments_nonempty b) as Hb. by destruct (segments b).
  - change (segments ((Some q :: a) ++ b))
      with (match segments (a ++ b) with
            | seg :: others => (q :: seg) :: others
            | [] => []
            end).
    rewrite IH. simpl.
    pose proof (segments_nonempty a) as Ha. pose proof (segments_nonempty b) as Hb.
    destruct (segments a) as [|seg [|o os]]; [done| |done].
    simpl. by destruct (segments b).
  - change (segments ((None :: a) ++ b)) with ([] :: segments (a ++ b)).
    rewrite IH. simpl.
    pose proof (segments_nonempty a) as Ha. by destruct (segments a).
Qed.

Lemma segments_last timeline : ∃ F s, segments timeline = F ++ [s].
Proof.
  pose proof (segments_nonempty timeline) as H.
  destruct (segments timeline) as [|x l] using rev_ind; [done|]. by eexists _, _.
Qed.

Lemma segments_snoc_None timeline :
  segments (timeline ++ [None]) = segments timeline ++ [[]].
Proof.
  rewrite segments_app. destruct (segments_last timeline) as (F & s & ->).
  change (segments [None]) with ([] :: [[] : list Z]).
  rewrite glue_snoc, app_nil_r. by rewrite <- app_assoc.
Qed.

Lemma segments_snoc_Some timeline p F s :
  segments timeline = F ++ [s] → segments (timeline ++ [Some p]) = F ++ [s ++ [p]].
Proof.
  intros H. rewrite segments_app, H.
  change (segments [Some p]) with [[p]]. by rewrite glue_snoc.
Qed.

(** The last segment is empty unless the timeline ends with a page. *)
Lemma last_segment timeline F s :
  segments timeline = F ++ [s] →
  s ≠ [] ↔ ∃ p, last timeline = Some (Some p).
Proof.
  destruct timeline as [|x timeline _] using rev_ind.
  - simpl. intros H. assert (F = [] ∧ s = []) as [-> ->].
    { destruct F as [|? [|??]]; naive_solver. }
    split; [done|]. by intros [? ?].
  - rewrite last_snoc. destruct x as [p|].
    + destruct (segments_last timeline) as (F' & s' & H').
      rewrite (segments_snoc_Some _ _ _ _ H'). intros [_ <-]%app_inj_tail.
      split; [by eauto|]. intros _. by destruct s'.
    + rewrite segments_snoc_None. intros [_ <-]%app_inj_tail.
      split; [done|]. by intros [? ?].
Qed.

(** The history as the timeline it would give if every success left a
    mark. *)
Definition marks (calls : list Call) : list (option Z) :=
  calls ≫= λ c,
    match c with
    | Success => [None]
    | Fail (Some p) => [Some p]
    | Fail None => []
    end.

Lemma runs_marks calls : runs calls = segments (marks calls).
Proof.
  induction calls as [|[|[p|]] calls IH]; simpl; try done.
  - by rewrite IH.
  - by rewrite IH.
  - rewrite IH. pose proof (segments_nonempty (marks calls)) as H.
    by destruct (segments (marks calls)).
Qed.

Lemma marks_snoc calls c : marks (calls ++ [c]) = marks calls ++ marks [c].
Proof. unfold marks. by rewrite bind_app. Qed.

Lemma longest_app lastPage A B :
  longest lastPage (A ++ B) = Nat.max (longest lastPage A) (longest lastPage B).
Proof.
  induction A as [|a A IH]; [done|].
  change ((a :: A) ++ B) with (a :: (A ++ B)). rewrite !longest_cons, IH. lia.
Qed.

(** The timeline keeps the failed pages and, up to empty ones, the runs
    of the history. *)
Lemma timeline_of_history calls :
  omap id (pageFailTimeline (after calls)) = omap id (marks calls)
  ∧ ∃ F G s,
      segments (pageFailTimeline (after calls)) = F ++ [s]
      ∧ segments (marks calls) = G ++ [s]
      ∧ ∀ lastPage, longest lastPage F = longest lastPage G.
Proof.
  induction calls as [|c calls (Hpages & F & G & s & HF & HG & Hlong)] using rev_ind.
  - split; [done|]. by exists [], [], [].
  - rewrite after_snoc, marks_snoc. destruct c as [|[p|]]; simpl.
    + destruct (last (pageFailTimeline (after calls))) as [[p|]|] eqn:Hlast.
      * split.
        { rewrite !omap_app. simpl. by rewrite Hpages. }
        exists (F ++ [s]), (G ++ [s]), []. rewrite !segments_snoc_None, HF, HG.
        split; [done|]. split; [done|]. intros lastPage.
        by rewrite !longest_app, Hlong.
      * assert (s = []) as ->.
        { destruct (decide (s = [])) as [|Hs]; [done|].
          apply (last_segment _ _ _ HF) in Hs as [p Hp]. congruence. }
        split.
        { rewrite omap_app. simpl. by rewrite app_nil_r. }
        exists F, (G ++ [[]]), []. rewrite segments_snoc_None, HG.
        split; [done|]. split; [done|]. intros lastPage.
        rewrite longest_app, Hlong. change (longest lastPage [[]]) with 0. lia.
      * assert (s = []) as ->.
        { destruct (decide (s = [])) as [|Hs]; [done|].
          apply (last_segment _ _ _ HF) in Hs as [p Hp]. congruence. }
        split.
        { rewrite omap_app. simpl. by rewrite app_nil_r. }
        exists F, (G ++ [[]]), []. rewrite segments_snoc_None, HG.
        split; [done|]. split; [done|]. intros lastPage.
        rewrite longest_app, Hlong. change (longest lastPage [[]]) with 0. lia.
    + split.
      { rewrite !omap_app. simpl. by rewrite Hpages. }
      exists F, G, (s ++ [p]).
      by rewrite (segments_snoc_Some _ _ _ _ HF), (segments_snoc_Some _ _ _ _ HG).
    + rewrite app_nil_r. split; [done|]. by exists F, G, s.
Qed.

(** After any history of calls, [complete(lastPage)] sets
    [totalPageFails] to the number of failures of a page that is not
    beyond [lastPage], and [consecutivePageFails] to the largest number
    of such failures with no success in between. *)
Theorem complete_recounts_history calls lastPage :
  let fc := (complete policy (Some lastPage) (after calls)).1 in
  totalPageFails fc = upto lastPage (omap id (marks calls))
  ∧ consecutivePageFails fc = longest lastPage (runs calls).
Proof.
  destruct (complete_recounts lastPage (after calls)) as (Htot & Hcons & _).
  destruct (timeline_of_history calls) as (Hpages & F & G & s & HF & HG & Hlong).
  simpl in *. rewrite Htot, Hcons, Hpages, runs_marks, HF, HG.
  split; [done|]. by rewrite !longest_app, Hlong.
Qed.
End FailCounterHistory.

(** ** The statistics a cycle keeps *)
Section Statistics.
Import Js Flow Summary Drivers.

(** Every timed attempt is counted once as successful or as failed,
    the failed ones are the errors, and each failed page stands for an
    error of its own. *)
Record balanced (h : Helper) : Prop := {
  b_count : (avg_all h).2 = (avg_successful h).2 + (avg_failed h).2;
  b_errors : (avg_failed h).2 = totalErrorCount h;
  b_failed : length (failedPageList h) ≤ totalErrorCount h;
  b_nodup : NoDup (failedPageList h);
}.

Lemma balanced_new now : balanced (Summary.new now).
Proof. split; simpl; try done. constructor. Qed.

Lemma balanced_with_completed b h : balanced h → balanced (with_completed b h).
Proof. by intros []. Qed.

Lemma balanced_with_totalPageCount n h : balanced h → balanced (with_totalPageCount n h).
Proof. by intros []. Qed.

Lemma length_set_add (p : Z) l : length (set_add p l) ≤ S (length l).
Proof. unfold set_add. case_decide; [lia|]. rewrite length_app. simpl. lia. Qed.

(** A successful attempt, its two samples taken in either order. *)
Lemma balanced_success time h :
  balanced h →
  balanced (addAvgTiming Successful time (addAvgTiming All time h))
  ∧ balanced (addAvgTiming All time (addAvgTiming Successful time h)).
Proof. intros []. split; split; simpl; try done; lia. Qed.

(** A failed attempt, with or without the page put on the list. *)
Lemma balanced_failure time h (terminal : bool) p :
  balanced h →
  let failed h := if terminal then add_failed p h else h in
  balanced (failed (addAvgTiming Failed time (count_error (addAvgTiming All time h))))
  ∧ balanced (addAvgTiming All time
                (failed (addAvgTiming Failed time (count_error h)))).
Proof.
  intros []. pose proof (length_set_add p (failedPageList h)).
  destruct terminal; split; split; simpl; try done; try lia; by apply NoDup_set_add.
Qed.

Lemma account_balanced o successful elapsed a p h fc :
  balanced h → balanced (account o successful elapsed a p h fc).1.1.
Proof.
  intros Hb. unfold account. destruct successful.
  - apply balanced_success, Hb.
  - destruct (is_zero a) eqn:Hz.
    + destruct (FailCounter.fail (policy o) (Some p) fc). simpl.
      apply (balanced_failure elapsed h true p Hb).
    + apply (balanced_failure elapsed h false p Hb).
Qed.

Lemma none_balanced : stable none_driver balanced.
Proof.
  split; [done|]. intros k s now h Hb. simpl. unfold none_resume.
  destruct s as [|v]; simpl.
  - apply (balanced_failure (now - n_startTime k) h (is_zero (n_attemptsLeft k)) 1 Hb).
  - apply balanced_success. by apply balanced_with_completed.
Qed.

Lemma totalPages_balanced o :
  stable (totalPages_driver o) (λ d, balanced (tp_summaryHelper d)).
Proof.
  assert (Hend : ∀ successful k now d,
            balanced (tp_summaryHelper d) →
            balanced (tp_summaryHelper
                        (exec_state (totalPages_end o successful k now d)))).
  { intros successful k now d Hb. unfold totalPages_end.
    pose proof (account_balanced o successful (now - startTime k) (f_attemptsLeft k)
                  (page k) _ (tp_failCounter d) Hb) as H.
    by destruct (account _ _ _ _ _ _ _) as [[h fc] done]. }
  split.
  - intros c a r now d Hb. simpl. destruct r as [p|]; simpl; [done|].
    destruct (match tp_lastPage d with Some _ => _ | None => _ end); [|done].
    by apply balanced_with_completed.
  - intros k s now d Hb. simpl. unfold totalPages_resume.
    destruct (response k) as [resp|], s as [|v]; try by apply Hend.
    + destruct v as [| |?|[q| | |]|?|?|?|?]; try by apply Hend.
      apply Hend. simpl. by apply balanced_with_totalPageCount.
    + done.
Qed.

Lemma hasMore_balanced o :
  stable (hasMore_driver o) (λ d, balanced (hm_summaryHelper d)).
Proof.
  assert (Hend : ∀ successful done0 k now d,
            balanced (hm_summaryHelper d) →
            balanced (hm_summaryHelper
                        (exec_state (hasMore_end o successful done0 k now d)))).
  { intros successful done0 k now d Hb. unfold hasMore_end.
    pose proof (account_balanced o successful (now - startTime k) (f_attemptsLeft k)
                  (page k) _ (hm_failCounter d) Hb) as H.
    by destruct (account _ _ _ _ _ _ _) as [[h fc] done]. }
  split.
  - intros c a r now d Hb. simpl. unfold hasMore_begin.
    destruct r as [p|]; simpl; [|done]. by destruct (beyond _ _).
  - intros k s now d Hb. simpl. unfold hasMore_resume.
    destruct (response k) as [resp|], s as [|v]; try by apply Hend.
    + destruct (truthy v); [by apply Hend|]. apply Hend. simpl.
      destruct (match hm_lastPage d with Some _ => _ | None => _ end).
      * by apply balanced_with_totalPageCount, balanced_with_completed.
      * by apply balanced_with_completed.
    + done.
Qed.

Lemma cursor_balanced : stable cursor_driver (λ d, balanced (c_summaryHelper d)).
Proof.
  assert (Hend : ∀ successful done0 k now d,
            balanced (c_summaryHelper d) →
            balanced (c_summaryHelper
                        (exec_state (cursor_end successful done0 k now d)))).
  { intros successful done0 k now d Hb. unfold cursor_end. destruct successful; simpl.
    - apply balanced_success, Hb.
    - apply (balanced_failure (now - c_startTime k) _ (is_zero (c_attemptsLeft k))
               (pageNum k) Hb). }
  split.
  - intros c a r now d Hb. simpl. by destruct r.
  - intros k s now d Hb. simpl. unfold cursor_resume.
    destruct (c_response k) as [resp|], s as [|v]; try by apply Hend.
    + destruct (not_nullish v); apply Hend; simpl; [done|].
      by apply balanced_with_completed.
    + done.
Qed.

Lemma list_balanced o : stable (list_driver o) (λ d, balanced (l_summaryHelper d)).
Proof.
  split.
  - intros c a r now d Hb. simpl. unfold list_begin. destruct r as [r|]; [done|].
    destruct (Nat.leb _ (nextPageIndex d)); simpl;
      destruct (Nat.leb _ (S _)); try done; by apply balanced_with_completed.
  - intros k s now d Hb. simpl. unfold list_resume. destruct s as [|v]; simpl.
    + destruct (is_zero (l_attemptsLeft k)) eqn:Hz.
      * destruct (FailCounter.fail (policy o) None (l_failCounter d)). simpl.
        apply (balanced_failure (now - l_startTime k) _ true (Z.of_nat (index k)) Hb).
      * apply (balanced_failure (now - l_startTime k) _ false 0 Hb).
    + apply balanced_success, Hb.
Qed.

(** The helper inside the closure of each driver. *)
Inductive helper_of : ∀ {D R F : Type}, Driver D R F → (D → Helper) → Prop :=
| helper_None : helper_of none_driver id
| helper_TotalPages o : helper_of (totalPages_driver o) tp_summaryHelper
| helper_HasMore o : helper_of (hasMore_driver o) hm_summaryHelper
| helper_Cursor : helper_of cursor_driver c_summaryHelper
| helper_List o : helper_of (list_driver o) l_summaryHelper.

(** In a cycle of any kind the statistics of the driver's helper stay
    balanced: [timings.avg.all] has as many samples as [successful] and
    [failed] together; [totalErrorCount] is the number of failed
    samples; and [failedPageList] has no page twice and no more pages
    than there were errors. *)
Theorem statistics_balanced {D R F} (drv : Driver D R F) o e st0 schedule st :
  Cycle drv o e st0 →
  run drv o schedule st0 = Some st →
  ∃ helper, helper_of drv helper ∧ balanced (helper (driver st)).
Proof.
  intros Hc Hrun. destruct (run_keeps _ _ _ _ _ Hrun) as (Hkeep & _).
  destruct Hc as [o' w sa e'|o' w sa e'|o' w sa e'|o' w sa e'|o' w sa e' r st1 Hl].
  - exists id. split; [constructor|].
    apply (Hkeep _ none_balanced).
    unfold _handlePaginationNoneCycle.
    apply start_keeps; [apply none_balanced|].
    by apply balanced_with_totalPageCount, balanced_new.
  - exists tp_summaryHelper. split; [constructor|].
    apply (Hkeep _ (totalPages_balanced o')).
    unfold _handlePaginationTotalPagesCycle.
    apply start_keeps; [apply totalPages_balanced|]. apply balanced_new.
  - exists hm_summaryHelper. split; [constructor|].
    apply (Hkeep _ (hasMore_balanced o')).
    unfold _handlePaginationHasMoreCycle.
    apply start_keeps; [apply hasMore_balanced|]. apply balanced_new.
  - exists c_summaryHelper. split; [constructor|].
    apply (Hkeep _ cursor_balanced).
    unfold _handlePaginationCursorCycle.
    apply start_keeps; [apply cursor_balanced|]. apply balanced_new.
  - apply list_cycle_inv in Hl as (items & -> & ->).
    exists l_summaryHelper. split; [constructor|].
    apply (Hkeep _ (list_balanced o')).
    apply start_keeps; [apply list_balanced|]. apply balanced_new.
Qed.
End Statistics.

Section StatisticsScenario.
Import Js Flow Summary Drivers.

(** The theorem at work on the cycle in which page 2 failed three
    times. *)
Lemma statistics_balanced_witness :
  ∃ helper,
    helper_of (totalPages_driver five_pages) helper
    ∧ balanced (helper (driver page_failed)).
Proof.
  apply (statistics_balanced (totalPages_driver five_pages) five_pages
           (first_engine five_pages) five_pages_cycle failing_page_schedule page_failed).
  - apply cycle_TotalPages.
  - by vm_compute.
Defined.
End StatisticsScenario.



(** ** The number of workers *)
Section Concurrency.
Import Js Flow.
Context {DState TRetry Frame : Type}.
Variable drv : Driver DState TRetry Frame.
Variable o : Options.t.

Abbreviation State := (State DState TRetry Frame).
Abbreviation PendingRetry := (PendingRetry TRetry).
Implicit Types (st : State) (ctx c : Ctx).

Lemma length_set_add_ctx ctx (l : list Ctx) : length (set_add ctx l) ≤ S (length l).
Proof. unfold set_add. case_decide; [lia|]. rewrite length_app. simpl. lia. Qed.

Lemma length_set_delete_ctx ctx (l : list Ctx) : length (set_delete ctx l) ≤ length l.
Proof. apply length_filter. Qed.

(** What the concurrency in force is read from. *)
Definition same_quota st st' : Prop :=
  firstPageReady st' = firstPageReady st ∧ engine st' = engine st.

Lemma currentConcurrency_same st st' :
  same_quota st st' → currentConcurrency o st' = currentConcurrency o st.
Proof. intros [H1 H2]. unfold currentConcurrency. by rewrite H1, H2. Qed.

(** A worker that starts does not add to [flows] by itself. *)
Lemma callExecutor_quota w ctx pr st :
  flows (callExecutor drv o w ctx pr st) = flows st
  ∧ same_quota st (callExecutor drv o w ctx pr st).
Proof.
  unfold callExecutor, same_quota.
  destruct (begin drv _ _ _ _ _) as [d' done k|d' done ret]; by destruct done.
Qed.

Lemma handleFlowExecution_quota w ctx pr st :
  length (flows (handleFlowExecution drv o w ctx pr st)) ≤ length (flows st)
  ∧ same_quota st (handleFlowExecution drv o w ctx pr st).
Proof.
  unfold handleFlowExecution, afterInterval.
  destruct (flowsLastExecution st !! ctx) as [time|].
  - destruct (0 <? _)%Z; [done|]. simpl. destruct (_ && _).
    + simpl. split; [apply length_set_delete_ctx|done].
    + destruct (callExecutor_quota w ctx pr
                  (set_flowsLastExecution (<[ctx:=now w]> (flowsLastExecution st)) st))
        as (-> & ?). done.
  - destruct (callExecutor_quota w ctx pr
                (set_flowsLastExecution (<[ctx:=now w]> (flowsLastExecution st)) st))
      as (-> & ?). done.
Qed.

Lemma offer_all_queue i (available : list Ctx) : ∀ m : @Matching TRetry,
  retryQueue (fold_left (offer i) available m) = retryQueue m.
Proof.
  induction available as [|c l IH]; intros m; [done|]. simpl.
  by rewrite IH, offer_queue.
Qed.

(** Every retry put into the queue takes one of the free slots, and
    the matching stops when none is left. *)
Lemma matchRetries_budget freeContexts nContexts : ∀ prs i (m : @Matching TRetry) r,
  (0 < r)%Z →
  let '(_, m', r') := matchRetries freeContexts nContexts i prs m r in
  (0 ≤ r')%Z
  ∧ Z.of_nat (length (retryQueue m'))
    = (Z.of_nat (length (retryQueue m)) + (r - r'))%Z.
Proof.
  induction prs as [|pr rest IH]; intros i m r Hr.
  - simpl. lia.
  - cbn [matchRetries].
    set (reset := nContexts <=? length (p_flows pr)).
    set (available := if reset then freeContexts else _).
    set (m0 := {| availableFlows := <[i := []]> (availableFlows m) |}).
    pose proof (offer_all_queue i available m0) as Hq.
    set (m1 := fold_left (offer i) available m0) in *.
    simpl in Hq.
    destruct (flows_of i m1) as [|c l].
    + specialize (IH (S i) m1 r Hr).
      destruct (matchRetries freeContexts nContexts (S i) rest m1 r) as [[rest' m3] r3].
      by rewrite Hq in IH.
    + destruct (Z.leb_spec (r - 1) 0).
      * simpl. rewrite length_app, Hq. simpl. lia.
      * set (m2 := {| availableFlows := availableFlows m1 |}).
        assert (Hr1 : (0 < r - 1)%Z) by lia.
        specialize (IH (S i) m2 (r - 1)%Z Hr1).
        destruct (matchRetries freeContexts nContexts (S i) rest m2 (r - 1))
          as [[rest' m3] r3].
        simpl in IH. rewrite length_app, Hq in IH. simpl in IH. lia.
Qed.

Lemma dispatchRetries_quota w (m : @Matching TRetry) : ∀ queue indexed freeContexts st,
  let '(st', _, _) := dispatchRetries drv o w m queue indexed freeContexts st in
  length (flows st') ≤ length (flows st) + length queue
  ∧ firstPageReady st' = firstPageReady st ∧ engine st' = engine st.
Proof.
  induction queue as [|[i pr] rest IH]; intros indexed freeContexts st.
  - simpl. split; [lia|done].
  - cbn [dispatchRetries]. destruct (flows_of i m) as [|ctx l].
    + unfold forcedStop, finish. destruct (resolved _); simpl; split; (lia || done).
    + set (st1 := set_flows _ _).
      destruct (handleFlowExecution_quota w ctx (Some pr) st1) as (Hlen & Hf & He).
      specialize (IH (filter (λ e, e.1 ≠ i) indexed) (set_delete ctx freeContexts)
                    (handleFlowExecution drv o w ctx (Some pr) st1)).
      destruct (dispatchRetries _ _ _ _ _ _ _ _) as [[st' fc'] ok].
      destruct IH as (Hlen' & Hf' & He').
      pose proof (length_set_add_ctx ctx (flows st)).
      simpl in *. split; [lia|]. split; congruence.
Qed.

Lemma dispatchFresh_quota w : ∀ freeContexts r st,
  (0 < r)%Z →
  let st' := dispatchFresh drv o w freeContexts r st in
  (Z.of_nat (length (flows st')) ≤ Z.of_nat (length (flows st)) + r)%Z
  ∧ firstPageReady st' = firstPageReady st ∧ engine st' = engine st.
Proof.
  induction freeContexts as [|ctx rest IH]; intros r st Hr.
  - simpl. split; [lia|done].
  - cbn [dispatchFresh].
    set (x := if Options.retryDistinctFlows _ then _ else _).
    assert (Hx : flows x.2 = flows st ∧ firstPageReady x.2 = firstPageReady st
                 ∧ engine x.2 = engine st).
    { subst x. destruct (Options.retryDistinctFlows _); [done|].
      by destruct (pendingRetries st). }
    destruct x as [pr st1]. simpl in Hx. destruct Hx as (Hfl & Hfp & Hen).
    destruct (_ && _); [simpl; rewrite Hfl; split; [lia|done]|].
    set (st2 := set_flows _ _).
    destruct (handleFlowExecution_quota w ctx pr st2) as (Hlen & Hf & He).
    pose proof (length_set_add_ctx ctx (flows st1)) as Hadd.
    simpl in Hlen. rewrite Hfl in Hadd, Hlen.
    destruct (Z.leb_spec (r - 1) 0).
    + simpl in *. split; [lia|]. split; congruence.
    + assert (Hr1 : (0 < r - 1)%Z) by lia.
      destruct (IH (r - 1)%Z (handleFlowExecution drv o w ctx pr st2) Hr1)
        as (Hlen' & Hf' & He').
      simpl in *. split; [lia|]. split; congruence.
Qed.

Lemma _updateFlowsContexts_quota inits st :
  currentConcurrency o (set_engine (_updateFlowsContexts o false inits (engine st)).1 st)
  = currentConcurrency o st.
Proof.
  unfold _updateFlowsContexts, currentConcurrency.
  destruct (getConcurrencyOptions o) as [[concurrency remove] supported].
  destruct (isConcurrencyFixed (engine st)) eqn:Hfixed; [simpl; by rewrite Hfixed|].
  destruct (init_each _ _ _ _) as [ctxs ok]. simpl. by rewrite !andb_false_r.
Qed.

Lemma finish_quota w st :
  flows (finish drv w st) = flows st ∧ same_quota st (finish drv w st).
Proof. unfold finish. by destruct (resolved st). Qed.

(** [startFlows] fills the free slots and no more. *)
Lemma startFlows_quota w st :
  (Z.of_nat (length (flows (startFlows drv o w st)))
   ≤ Z.max (Z.of_nat (length (flows st))) (currentConcurrency o st))%Z
  ∧ currentConcurrency o (startFlows drv o w st) = currentConcurrency o st.
Proof.
  unfold startFlows.
  destruct (resolved st); [split; [lia|done]|].
  destruct (quiescent st).
  { destruct (finish_quota w st) as (-> & Hq).
    split; [lia|by apply currentConcurrency_same]. }
  pose proof (_updateFlowsContexts_quota (flowInits w) st) as Hcap.
  destruct (_updateFlowsContexts _ _ _ _) as [e ok]. simpl in Hcap.
  set (st1 := set_engine e st) in *.
  destruct ok; simpl.
  2:{ unfold forcedStop.
      destruct (finish_quota w (set_aborted true st1)) as (-> & Hq).
      split; [simpl; lia|].
      rewrite (currentConcurrency_same _ _ Hq). exact Hcap. }
  destruct (Z.leb_spec (currentConcurrency o st1 - Z.of_nat (length (flows st))) 0)
    as [Hfull|Hfree]; [split; [simpl; lia|done]|].
  set (freeContexts := set_of_list _).
  destruct (Options.retryDistinctFlows _).
  - pose proof (matchRetries_budget freeContexts (length (flowsContexts e))
                  (pendingRetries st) 0 no_matching _ Hfree) as Hbudget.
    destruct (matchRetries _ _ _ _ _ _) as [[prs m] r'].
    destruct Hbudget as [Hr' Hq]. simpl in Hq.
    pose proof (dispatchRetries_quota w m (retryQueue m) (imap pair prs) freeContexts
                  (set_pendingRetries prs st1)) as Hloop.
    destruct (dispatchRetries _ _ _ _ _ _ _ _) as [[st2 free'] ok].
    destruct Hloop as (Hlen & Hf & He). simpl in Hlen, Hf, He.
    assert (Hcap2 : currentConcurrency o st2 = currentConcurrency o st1).
    { by apply currentConcurrency_same. }
    destruct ok; simpl; [|split; [lia|congruence]].
    destruct (Z.leb_spec r' 0); [split; [lia|congruence]|].
    destruct (dispatchFresh_quota w free' r' st2) as (Hlen3 & Hf3 & He3); [lia|].
    split; [lia|].
    rewrite (currentConcurrency_same st2); [congruence|done].
  - destruct (dispatchFresh_quota w freeContexts
                (currentConcurrency o st1 - Z.of_nat (length (flows st)))%Z st1)
      as (Hlen3 & Hf3 & He3); [lia|].
    split; [simpl in Hlen3; lia|].
    rewrite (currentConcurrency_same st1); [congruence|done].
Qed.

(** No job leaves more workers in flight than there were before it or
    than the concurrency in force when it runs, which
    [currentConcurrency] computes from the options as they are then: a
    worker is only ever started by [startFlows], into the slots that
    are free at that call.  For TotalPages without prefetch the
    concurrency in force is one until the first page is ready. *)
Theorem workers_within_concurrency w j st st' :
  step drv o w j st = Some st' →
  (Z.of_nat (length (flows st'))
   ≤ Z.max (Z.of_nat (length (flows st))) (currentConcurrency o st))%Z.
Proof.
  intros Hstep. destruct j as [|ctx|ctx s|ctx|]; simpl in Hstep.
  - destruct (ticks st) as [|n]; [done|]. injection Hstep as <-.
    destruct (startFlows_quota w (set_ticks n st)) as [Hlen _].
    change (currentConcurrency o (set_ticks n st)) with (currentConcurrency o st) in *.
    simpl in Hlen. lia.
  - destruct (tasks st !! ctx) as [[pr| |]|]; try done. injection Hstep as <-.
    unfold afterInterval. destruct (_ || _).
    + pose proof (length_set_delete_ctx ctx (flows st)). simpl. lia.
    + destruct (callExecutor_quota w ctx pr
                  (set_flowsLastExecution (<[ctx:=now w]> (flowsLastExecution st)) st))
        as (Hfl & Hq).
      rewrite Hfl. simpl. lia.
  - destruct (tasks st !! ctx) as [[|a pr k|]|]; try done.
    destruct (resume drv k s (now w) (driver st)) as [d' done k'|d' done ret];
      injection Hstep as <-; destruct done; simpl; lia.
  - destruct (tasks st !! ctx) as [[| |a pr ret]|]; try done.
    injection Hstep as <-. unfold afterExecutor.
    pose proof (length_set_delete_ctx ctx (flows st)).
    destruct ret as [r|]; [destruct (negb _)|]; simpl; lia.
  - destruct (aborted st); [done|]. injection Hstep as <-.
    unfold forcedStop.
    destruct (finish_quota w (set_aborted true st)) as (Hfl & Hq).
    rewrite Hfl. simpl. lia.
Qed.
End Concurrency.

Section ConcurrencyScenario.
Import Js Flow Summary Drivers.

Definition first_page_schedule : list (World * Job) :=
  fetched_on 10 0 ++ [(world 13, Tick)].

Definition first_page_ready : State TotalPagesState Z PageFrame :=
  default five_pages_cycle
    (run (totalPages_driver five_pages) five_pages first_page_schedule five_pages_cycle).

Definition first_page_returned : State TotalPagesState Z PageFrame :=
  default five_pages_cycle
    (run (totalPages_driver five_pages) five_pages (fetched_on 10 0) five_pages_cycle).

(** The theorem at work: a TotalPages cycle with [concurrency = 3]
    starts with one worker; once the first page is ready the next call
    of [startFlows] starts three. *)
Lemma workers_within_concurrency_witness :
  flows five_pages_cycle = [0]
  ∧ currentConcurrency five_pages five_pages_cycle = 1%Z
  ∧ flows first_page_returned = []
  ∧ currentConcurrency five_pages first_page_returned = 3%Z
  ∧ flows first_page_ready = [0; 1; 2]
  ∧ (Z.of_nat (length (flows first_page_ready))
     ≤ Z.max (Z.of_nat (length (flows first_page_returned)))
         (currentConcurrency five_pages first_page_returned))%Z.
Proof.
  split; [by vm_compute|]. split; [by vm_compute|]. split; [by vm_compute|].
  split; [by vm_compute|]. split; [by vm_compute|].
  apply (workers_within_concurrency (totalPages_driver five_pages) five_pages (world 13)
           Tick first_page_returned first_page_ready).
  by vm_compute.
Defined.
End ConcurrencyScenario.

(** ** Who works on what *)
Section Holders.
Import Js Flow Summary Drivers.

(** The view under which a cycle is owned, tied to what its summary
    lists as failed. *)
Lemma Counting_view {D R F} (drv : Driver D R F) o e st0 :
  Counting drv o e st0 →
  ∃ V, Lawful drv V ∧ Owned drv V st0
       ∧ ∀ now d, s_failedPageList (conclude drv now d) = failed V d.
Proof.
  intros [o' w sa e'|o' w sa e'|o' w sa e'|o' w sa e'|o' w sa e' r st1 Hl].
  - exists none_view. split; [apply none_lawful|]. split.
    + apply Owned_start; [apply none_lawful|done].
    + intros now d. apply summarize_failed.
  - exists totalPages_view. split; [apply totalPages_lawful|]. split.
    + apply Owned_start; [apply totalPages_lawful|done].
    + intros now d. apply summarize_failed.
  - exists hasMore_view. split; [apply hasMore_lawful|]. split.
    + apply Owned_start; [apply hasMore_lawful|done].
    + intros now d. apply summarize_failed.
  - exists cursor_view. split; [apply cursor_lawful|]. split.
    + apply Owned_start; [apply cursor_lawful|done].
    + intros now d. apply summarize_failed.
  - apply list_cycle_inv in Hl as (items & -> & ->).
    exists list_view. split; [apply list_lawful|]. split.
    + apply Owned_start; [apply list_lawful|done].
    + intros now d. apply summarize_failed.
Qed.

(** In a cycle of any kind, for as long as every page fetched is a safe
    integer: a context carries at most one worker and [flows] lists
    exactly the contexts that carry one.  While an executor awaits the
    fetch of a page, no other executor is fetching that page, no pending
    retry is queued for it, and the page is not in [failedPageList]. *)
Theorem page_in_flight_once {D R F} (drv : Driver D R F) o e st0 schedule st :
  Cycle drv o e st0 →
  run drv o schedule st0 = Some st →
  safe_pages (fetched st) = true →
  NoDup (flows st)
  ∧ (∀ c, c ∈ flows st ↔ is_Some (tasks st !! c))
  ∧ ∀ c a pr k,
      tasks st !! c = Some (Executing a pr k) →
      (∀ c' a' pr' k',
         tasks st !! c' = Some (Executing a' pr' k') →
         page_of_frame drv k' = page_of_frame drv k → c' = c)
      ∧ (∀ r, r ∈ pendingRetries st →
           page_of_retry drv (retry r) ≠ page_of_frame drv k)
      ∧ ∀ now, page_of_frame drv k ∉ s_failedPageList (conclude drv now (driver st)).
Proof.
  intros Hc Hrun Hsafe.
  destruct (Cycle_counting drv o e st0 schedule st Hc Hrun Hsafe)
    as (drv' & Hsame & Hc' & Hrun').
  destruct (Counting_view drv' o e st0 Hc') as (V & laws & Hown0 & Hfailed).
  pose proof (Owned_run drv' o V laws _ _ _ Hown0 Hrun') as Hown.
  split; [apply Hown|]. split; [apply Hown|].
  intros c a pr k Ht.
  assert (Hheld : held drv' (tasks st) c (page_of_frame drv' k)) by by eexists.
  split; [|split].
  - intros c' a' pr' k' Ht' Hpage.
    apply (o_held_unique _ _ _ _ _ _ _ _ _ Hown c' c (page_of_frame drv' k)); [|done].
    eexists. split; [done|]. simpl. by rewrite !(alike_frame _ _ Hsame), Hpage.
  - intros r Hr Heq.
    apply (o_queue_held _ _ _ _ _ _ _ _ _ Hown c _ Hheld).
    unfold queued. rewrite (alike_frame _ _ Hsame), <- Heq, <- (alike_retry _ _ Hsame).
    by apply (list_elem_of_fmap_2 (rp drv')).
  - intros now. rewrite <- (alike_conclude _ _ Hsame), <- (alike_frame _ _ Hsame), Hfailed.
    apply (o_live_failed _ _ _ _ _ _ _ _ _ Hown). right. by exists c.
Qed.
End Holders.

Section HoldersScenario.
Import Js Flow Summary Drivers.

(** The theorem at work with three pages in flight. *)
Lemma page_in_flight_once_witness :
  NoDup (flows first_page_ready)
  ∧ ∀ c, c ∈ flows first_page_ready ↔ is_Some (tasks first_page_ready !! c).
Proof.
  destruct (page_in_flight_once (totalPages_driver five_pages) five_pages
              (first_engine five_pages) five_pages_cycle first_page_schedule
              first_page_ready) as (Hnd & Hflows & _).
  - apply cycle_TotalPages.
  - by vm_compute.
  - by vm_compute.
  - by split.
Defined.
End HoldersScenario.

(** ** The contexts retries are sent to *)
Section RetryMatching.
Import Js Flow.
Context {DState TRetry Frame : Type}.
Variable drv : Driver DState TRetry Frame.
Variable o : Options.t.

Abbreviation PendingRetry := (PendingRetry TRetry).

(** The context the loop over [retryQueue] takes for record [i]:
    [const [ctx] = availableFlows]. *)
Definition chosen (m : @Matching TRetry) (i : nat) : option Ctx := head (flows_of i m).

(** Under [retryDistinctFlows], a queued retry is sent to a free
    context it has not visited -- the contexts it visited are forgotten
    only once they are as many as the flow contexts -- and no two
    retries of one call of [startFlows] are sent to the same context. *)
Theorem retry_goes_to_unvisited_context freeContexts nContexts
    (prs : list PendingRetry) remaining :
  let '(prs', m, _) :=
    matchRetries freeContexts nContexts 0 prs no_matching remaining in
  (∀ i pr, (i, pr) ∈ retryQueue m →
     ∃ ctx pr0,
       chosen m i = Some ctx ∧ ctx ∈ freeContexts ∧ (ctx ∉ p_flows pr)
       ∧ prs !! i = Some pr0 ∧ retry pr = retry pr0
       ∧ attemptsLeft pr = attemptsLeft pr0
       ∧ (p_flows pr = p_flows pr0
          ∨ (p_flows pr = [] ∧ nContexts ≤ length (p_flows pr0))))
  ∧ ∀ i j ctx, chosen m i = Some ctx → chosen m j = Some ctx → i = j.
Proof.
  pose proof (matchRetries_matched freeContexts nContexts prs remaining) as H.
  destruct (matchRetries _ _ _ _ _ _) as [[prs' m] r']. destruct H as [Hm Hsame].
  split.
  - intros i pr Hin.
    destruct (m_queue _ _ _ _ Hm i pr Hin) as (Hi & Hpr & Hne).
    unfold chosen. destruct (flows_of i m) as [|ctx rest] eqn:Hfl; [done|].
    destruct (Forall2_lookup_r _ _ _ _ _ Hsame Hpr) as (pr0 & Hpr0 & Hret & Hleft & Hfl0).
    exists ctx, pr0. split; [done|]. split.
    { apply (m_free _ _ _ _ Hm i). rewrite Hfl. set_solver. }
    split.
    { apply (m_unvisited _ _ _ _ Hm i ctx pr); [rewrite Hfl; set_solver|done]. }
    done.
  - intros i j ctx Hi Hj. unfold chosen in *.
    destruct (flows_of i m) as [|c fl] eqn:Hfi; [done|].
    destruct (flows_of j m) as [|c' fl'] eqn:Hfj; [done|].
    simpl in *. injection Hi as ->. injection Hj as ->.
    assert (compatibilityMap m !! ctx = Some i) as H1
      by (apply (m_owner _ _ _ _ Hm); rewrite Hfi; set_solver).
    assert (compatibilityMap m !! ctx = Some j) as H2
      by (apply (m_owner _ _ _ _ Hm); rewrite Hfj; set_solver).
    congruence.
Qed.

End RetryMatching.

(** ** What validation guarantees *)
Section ValidOptions.
Import Js Options Validate.

Definition valid_interval (i : Interval) : Prop :=
  match i with
  | Scalar ms => (0 ≤ ms)%Z
  | Range a b => (0 ≤ a)%Z ∧ (0 ≤ b)%Z
  | Func _ => True
  end.

(** No negative delay and at least one flow. *)
Record valid (o : Options.t) : Prop := {
  valid_int : valid_interval (interval o);
  valid_cycle : from_option valid_interval True (cycleInterval o);
  valid_concurrency : 1 ≤ concurrency o;
}.

Lemma coerce_ms_nonneg q : (0 ≤ coerce_ms q)%Z.
Proof. unfold coerce_ms. lia. Qed.

Lemma set_interval_valid p initial v :
  from_option valid_interval True initial →
  from_option valid_interval True (set_interval p initial v).1.
Proof.
  intros Hi. destruct v as [| |?|[q| | |]|?|?|items|?]; simpl; try done.
  - apply coerce_ms_nonneg.
  - destruct (items !! 0) as [[| |?|[a| | |]|?|?|?|?]|]; try done.
    destruct (items !! 1) as [[| |?|[b| | |]|?|?|?|?]|]; try done.
    simpl. split; apply coerce_ms_nonneg.
Qed.

Lemma set_concurrency_valid v : 1 ≤ (set_concurrency v).1.
Proof. destruct v as [| |?|[q| | |]|?|?|?|?]; simpl; try done. lia. Qed.

Lemma assign_all_valid raw : valid (assign_all raw).1.
Proof.
  split; unfold assign_all; cbn [fst interval cycleInterval concurrency].
  - pose proof (set_interval_valid "interval" (Some (interval DEFAULT_OPTIONS))
                  (get "interval" raw)) as H.
    destruct (set_interval _ _ _).1; simpl in *; [apply H|]; simpl; lia.
  - by apply set_interval_valid.
  - apply set_concurrency_valid.
Qed.

(** The resolver the pagination type of [o] calls is there. *)
Definition resolver_defined (o : Options.t) : Prop :=
  match paginationType o with
  | None_ => True
  | TotalPages => is_Some (resolveTotalPages o)
  | HasMore => is_Some (resolveHasMore o)
  | Cursor => is_Some (resolveCursor o)
  | List => is_Some (resolveList o)
  end.

(** Options a cycle can run on. *)
Record ready (o : Options.t) : Prop := {
  ready_valid : valid o;
  ready_fetch : is_Some (fetchHandler o);
  ready_resolver : resolver_defined o;
}.

Lemma check_required_ready o o' : valid o → check_required o = Ok o' → ready o'.
Proof.
  intros Hv. unfold check_required.
  destruct (fetchHandler o) as [f|] eqn:Hf; [|done].
  destruct (paginationType o) eqn:Hp.
  2-5: match goal with |- context [defined ?r] => destruct r eqn:Hr end; simpl; try done.
  all: intros [= <-]; split; [done|by rewrite Hf|].
  all: unfold resolver_defined; rewrite Hp; try done.
  all: match goal with H : _ = Some _ |- _ => by rewrite H end.
Qed.

(** Whatever object is passed as options, when [validateOptions] returns
    instead of throwing, the options it returns have a [fetchHandler],
    the resolver of their pagination type, intervals that are not
    negative and a concurrency of at least one. *)
Theorem validateOptions_ready calls raw o :
  (validateOptions calls raw).1 = Ok o → ready o.
Proof.
  unfold validateOptions. destruct (logged calls _) as [ws [|]]; [done|].
  apply check_required_ready, assign_all_valid.
Qed.
End ValidOptions.

Section ValidOptionsExample.
Import Js Options Validate.

Lemma validateOptions_ready_witness : ready five_pages.
Proof. by apply (validateOptions_ready (λ _, Throw) five_pages_raw). Defined.
End ValidOptionsExample.

Section IntervalSign.
Import Js Interval.
Context {This : Type}.

Lemma draw_nonneg a b random :
  (0 ≤ a)%Z → (0 ≤ b)%Z → (0 <= random)%Q → (random < 1)%Q → (0 ≤ draw a b random)%Z.
Proof.
  intros Ha Hb H0 H1. destruct (Z.le_gt_cases a b) as [Hab|Hba].
  - destruct (draw_uniform a b random Hab H0 H1) as [[? _] _]. lia.
  - unfold draw. set (n := (b - a + 1)%Z).
    assert (Hn : (inject_Z n <= 0)%Q).
    { change (inject_Z n <= inject_Z 0)%Q. rewrite <- Zle_Qle. lia. }
    assert (Hle : (inject_Z n <= random * inject_Z n)%Q).
    { assert (Hm : (random * - inject_Z n <= 1 * - inject_Z n)%Q).
      { apply Qmult_le_compat_r; [by apply Qlt_le_weak|].
        apply (Qopp_le_compat _ 0) in Hn. exact Hn. }
      apply Qopp_le_compat in Hm.
      assert (E1 : (- (1 * - inject_Z n) == inject_Z n)%Q) by ring.
      assert (E2 : (- (random * - inject_Z n) == random * inject_Z n)%Q) by ring.
      by rewrite E1, E2 in Hm. }
    apply Qfloor_resp_le in Hle. rewrite Qfloor_inject_Z in Hle. lia.
Qed.

(** For options that are valid, as validated options are, and a random
    number in [0, 1), the interval computed for [interval] or
    [cycleInterval] is never negative, whatever an interval function
    returns. *)
Theorem computeInterval_never_negative (calls : Calls This) o (g : This) random
    property ctx :
  valid o → (0 <= random)%Q → (random < 1)%Q →
  (0 ≤ computeInterval calls o g random property ctx)%Z.
Proof.
  intros [Hi Hc _] H0 H1.
  assert (Hl : valid_interval (lookup o property)).
  { destruct property; [done|]. simpl. by destruct (Options.cycleInterval o). }
  unfold computeInterval, resolve.
  destruct (lookup o property) as [ms|a b|f]; simpl in *.
  - done.
  - destruct Hl. by apply draw_nonneg.
  - assert (Hfb : (0 ≤ draw 1000 2000 random)%Z) by (by apply draw_nonneg).
    destruct (calls f g ctx) as [|x]; [done|].
    destruct x as [q| | |]; try rewrite coerce_Num; simpl; try done.
    rewrite Z.div_1_r. lia.
Qed.
End IntervalSign.

Section IntervalSignExample.
Import Js Interval.

(** The theorem at work on the options validated from a range written
    backwards. *)
Lemma computeInterval_never_negative_witness :
  (0 ≤ computeInterval no_interval_calls reversed_range_options VUndefined (1 # 2)
         interval None)%Z.
Proof.
  apply computeInterval_never_negative.
  - apply assign_all_valid.
  - done.
  - done.
Defined.
End IntervalSignExample.

(** ** What an assignment to validated options can change *)
Section TrapLaws.
Import Js Options Validate Trap.

(** On a target that holds the defaults the cases are those of the loop
    of [validateOptions]. *)
Lemma loop_is_trap_on_defaults p v :
  set_interval p (Some (interval DEFAULT_OPTIONS)) v
  = trap_interval p (Some (interval DEFAULT_OPTIONS)) (Some (interval DEFAULT_OPTIONS)) v
  ∧ set_interval p None v = trap_interval p None None v
  ∧ (∀ d, set_strategy p d v = trap_strategy p d d v)
  ∧ set_concurrency v = trap_concurrency (concurrency DEFAULT_OPTIONS) v
  ∧ set_paginationStart v = trap_paginationStart (paginationStart DEFAULT_OPTIONS) v
  ∧ (∀ d, set_boolean p d v = trap_boolean p d d v)
  ∧ set_init p v = trap_init p None v
  ∧ set_required p v = trap_required p None v
  ∧ set_optional p v = trap_optional p None v
  ∧ (∀ d, set_policy_number p d v = trap_policy_number p d d v)
  ∧ set_logger v = trap_logger (logger DEFAULT_OPTIONS) v.
Proof. by split_and!; try intros d; destruct v as [| |?|[?| | |]|?|?|?|?]. Qed.

Lemma trap_interval_valid p dflt current v :
  from_option valid_interval True dflt →
  from_option valid_interval True current →
  from_option valid_interval True (trap_interval p dflt current v).1.
Proof.
  intros Hd Hc. destruct v as [| |?|[q| | |]|?|?|items|?]; simpl; try done.
  - apply coerce_ms_nonneg.
  - destruct (items !! 0) as [[| |?|[a| | |]|?|?|?|?]|]; try done.
    destruct (items !! 1) as [[| |?|[b| | |]|?|?|?|?]|]; try done.
    simpl. split; apply coerce_ms_nonneg.
Qed.

Lemma trap_interval_defined p d current v :
  is_Some current → is_Some (trap_interval p (Some d) current v).1.
Proof.
  intros Hc. destruct v as [| |?|[q| | |]|?|?|items|?]; simpl; try done.
  destruct (items !! 0) as [[| |?|[a| | |]|?|?|?|?]|]; try done.
  destruct (items !! 1) as [[| |?|[b| | |]|?|?|?|?]|]; done.
Qed.

Lemma trap_concurrency_valid current v : 1 ≤ current → 1 ≤ (trap_concurrency current v).1.
Proof. intros Hc. destruct v as [| |?|[q| | |]|?|?|?|?]; simpl; try done. lia. Qed.

Lemma trap_required_keeps p current v :
  is_Some current → is_Some (trap_required p current v).1.
Proof. intros Hc. by destruct v. Qed.

Lemma on_keeps {A} (P : A → Prop) k p trap (current : A) v :
  P current → (∀ c, P c → P (trap c v).1) → P (on k p trap current v).1.
Proof. intros Hc Ht. unfold on. destruct (String.eqb p k); [by apply Ht|done]. Qed.

(** Whatever is assigned to whatever property of options a cycle can
    run on, a cycle can run on them afterwards: the handlers in use are
    still there, no interval is negative and the concurrency is at
    least one.  The pagination type never changes. *)
Theorem set_keeps_ready p v o :
  ready o →
  ready (set p v o).1 ∧ paginationType (set p v o).1 = paginationType o.
Proof.
  intros [[Hi Hc Hn] Hf Hr]. split; [|done]. split; [split|..].
  - cbn [set fst interval].
    pose proof (on_keeps (λ c, is_Some c ∧ from_option valid_interval True c)
                  "interval" p
                  (trap_interval "interval" (Some (interval DEFAULT_OPTIONS)))
                  (Some (interval o)) v) as H.
    destruct H as [[i Hsome] Hv]; [done| |].
    + intros c [Hs Hv]. split; [by apply trap_interval_defined|].
      apply trap_interval_valid; [simpl; lia|done].
    + by rewrite Hsome in Hv |- *.
  - cbn [set fst cycleInterval].
    apply (on_keeps (from_option valid_interval True)); [done|].
    intros c Hv. by apply trap_interval_valid.
  - cbn [set fst concurrency].
    apply (on_keeps (λ c, 1 ≤ c)); [done|]. intros c. apply trap_concurrency_valid.
  - cbn [set fst fetchHandler].
    apply (on_keeps is_Some); [done|]. intros c. apply trap_required_keeps.
  - unfold resolver_defined in *. cbn [set fst paginationType].
    destruct (paginationType o); [done|..];
      cbn [set fst resolveTotalPages resolveHasMore resolveCursor resolveList];
      (apply (on_keeps is_Some); [done|]); intros c; apply trap_required_keeps.
Qed.

Local Ltac by_key p :=
  unfold set, on;
  repeat match goal with
    | |- context [String.eqb p ?k] =>
        destruct (String.eqb_spec p k) as [->|?]
    end.

Lemma unknown_key p : p ∉ KEYS → bool_decide (p ∈ KEYS) = false.
Proof. intros. by apply bool_decide_eq_false. Qed.

(** An assignment that logs a notice leaves the options as they were,
    unless it is to [errorHandlingPolicy], whose properties are assigned
    one by one. *)
Theorem set_refused_changes_nothing p v o :
  p ≠ "errorHandlingPolicy" → (set p v o).2 ≠ [] → (set p v o).1 = o.
Proof.
  intros Hp. destruct o. by_key p; try done.
  all: cbn -[KEYS].
  all: try rewrite unknown_key by (rewrite !elem_of_cons, elem_of_nil; naive_solver).
  all: try rewrite bool_decide_true by (unfold KEYS; repeat constructor).
  all: try done.
  all: destruct v as [| |?|[?| | |]|?|?|items|?]; cbn; try done.
  all: repeat case_match; simplify_eq/=; done.
Qed.

Lemma set_policy_known c x :
  set_policy "retryLimit" x c
  = (let t := trap_policy_number "retryLimit" (retryLimit DEFAULT_POLICY) (retryLimit c) x in
     ({| retryLimit := t.1; retryDistinctFlows := retryDistinctFlows c;
         skipPageIfPossible := skipPageIfPossible c;
         maxTotalPageFails := maxTotalPageFails c;
         maxConsecutivePageFails := maxConsecutivePageFails c |}, invalid t.2))
  ∧ set_policy "retryDistinctFlows" x c
    = (let t := trap_boolean (policyKeyPath "retryDistinctFlows")
                  (retryDistinctFlows DEFAULT_POLICY) (retryDistinctFlows c) x in
       ({| retryLimit := retryLimit c; retryDistinctFlows := t.1;
           skipPageIfPossible := skipPageIfPossible c;
           maxTotalPageFails := maxTotalPageFails c;
           maxConsecutivePageFails := maxConsecutivePageFails c |}, invalid t.2))
  ∧ set_policy "skipPageIfPossible" x c
    = (let t := trap_boolean (policyKeyPath "skipPageIfPossible")
                  (skipPageIfPossible DEFAULT_POLICY) (skipPageIfPossible c) x in
       ({| retryLimit := retryLimit c; retryDistinctFlows := retryDistinctFlows c;
           skipPageIfPossible := t.1;
           maxTotalPageFails := maxTotalPageFails c;
           maxConsecutivePageFails := maxConsecutivePageFails c |}, invalid t.2))
  ∧ set_policy "maxTotalPageFails" x c
    = (let t := trap_policy_number "maxTotalPageFails" (maxTotalPageFails DEFAULT_POLICY)
                  (maxTotalPageFails c) x in
       ({| retryLimit := retryLimit c; retryDistinctFlows := retryDistinctFlows c;
           skipPageIfPossible := skipPageIfPossible c;
           maxTotalPageFails := t.1;
           maxConsecutivePageFails := maxConsecutivePageFails c |}, invalid t.2))
  ∧ set_policy "maxConsecutivePageFails" x c
    = (let t := trap_policy_number "maxConsecutivePageFails"
                  (maxConsecutivePageFails DEFAULT_POLICY) (maxConsecutivePageFails c) x in
       ({| retryLimit := retryLimit c; retryDistinctFlows := retryDistinctFlows c;
           skipPageIfPossible := skipPageIfPossible c;
           maxTotalPageFails := maxTotalPageFails c;
           maxConsecutivePageFails := t.1 |}, invalid t.2)).
Proof.
  unfold set_policy, on, invalid. cbn -[POLICY_KEYS].
  rewrite !bool_decide_true by (unfold POLICY_KEYS; repeat constructor).
  by rewrite !app_nil_r.
Qed.

(** Assigning a whole policy: each property is assigned what the value
    holds for it, [undefined] when the value is not an object. *)
Lemma trap_errorHandlingPolicy_fields c value :
  trap_errorHandlingPolicy c value
  = let rl :=
      trap_policy_number "retryLimit" (retryLimit DEFAULT_POLICY) (retryLimit c)
        (policy_prop "retryLimit" value) in
    let rdf :=
      trap_boolean (policyKeyPath "retryDistinctFlows") (retryDistinctFlows DEFAULT_POLICY)
        (retryDistinctFlows c) (policy_prop "retryDistinctFlows" value) in
    let skip :=
      trap_boolean (policyKeyPath "skipPageIfPossible") (skipPageIfPossible DEFAULT_POLICY)
        (skipPageIfPossible c) (policy_prop "skipPageIfPossible" value) in
    let mt :=
      trap_policy_number "maxTotalPageFails" (maxTotalPageFails DEFAULT_POLICY)
        (maxTotalPageFails c) (policy_prop "maxTotalPageFails" value) in
    let mc :=
      trap_policy_number "maxConsecutivePageFails" (maxConsecutivePageFails DEFAULT_POLICY)
        (maxConsecutivePageFails c) (policy_prop "maxConsecutivePageFails" value) in
    ({| retryLimit := rl.1; retryDistinctFlows := rdf.1; skipPageIfPossible := skip.1;
        maxTotalPageFails := mt.1; maxConsecutivePageFails := mc.1 |},
     invalid rl.2 ++ invalid rdf.2 ++ invalid skip.2 ++ invalid mt.2 ++ invalid mc.2).
Proof.
  unfold trap_errorHandlingPolicy, POLICY_KEYS. cbn [fold_left fst snd].
  destruct (set_policy_known c (policy_prop "retryLimit" value)) as (-> & _).
  cbn [fst snd].
  match goal with |- context [set_policy "retryDistinctFlows" ?x ?c'] =>
    destruct (set_policy_known c' x) as (_ & -> & _) end.
  cbn [fst snd retryLimit retryDistinctFlows skipPageIfPossible maxTotalPageFails
         maxConsecutivePageFails].
  match goal with |- context [set_policy "skipPageIfPossible" ?x ?c'] =>
    destruct (set_policy_known c' x) as (_ & _ & -> & _) end.
  cbn [fst snd retryLimit retryDistinctFlows skipPageIfPossible maxTotalPageFails
         maxConsecutivePageFails].
  match goal with |- context [set_policy "maxTotalPageFails" ?x ?c'] =>
    destruct (set_policy_known c' x) as (_ & _ & _ & -> & _) end.
  cbn [fst snd retryLimit retryDistinctFlows skipPageIfPossible maxTotalPageFails
         maxConsecutivePageFails].
  match goal with |- context [set_policy "maxConsecutivePageFails" ?x ?c'] =>
    destruct (set_policy_known c' x) as (_ & _ & _ & _ & ->) end.
  cbn [fst snd retryLimit retryDistinctFlows skipPageIfPossible maxTotalPageFails
         maxConsecutivePageFails app].
  by rewrite <- !app_assoc.
Qed.

Lemma trap_policy_number_accepted p d c x :
  (trap_policy_number p d c x).2 = [] →
  (trap_policy_number p d c x).1 = (set_policy_number p d x).1.
Proof. by destruct x as [| |?|[?| | |]|?|?|?|?]. Qed.

Lemma trap_boolean_accepted p d c x :
  (trap_boolean p d c x).2 = [] → (trap_boolean p d c x).1 = (set_boolean p d x).1.
Proof. by destruct x. Qed.

Lemma invalid_nil w : invalid w = [] → w = [].
Proof. by destruct w. Qed.

(** An assignment to [errorHandlingPolicy] that logs nothing replaces
    the whole policy by the one [validateOptions] makes of the value:
    what the value does not hold goes back to its default, whatever the
    policy held before. *)
Theorem policy_assignment_replaces v o :
  (set "errorHandlingPolicy" v o).2 = [] →
  errorHandlingPolicy (set "errorHandlingPolicy" v o).1 = (set_errorHandlingPolicy v).1.
Proof.
  unfold set, on. cbn -[trap_errorHandlingPolicy KEYS].
  rewrite trap_errorHandlingPolicy_fields. cbn -[KEYS].
  intros H. apply app_eq_nil in H as [H _].
  repeat (apply app_eq_nil in H as [?%invalid_nil H]). apply invalid_nil in H.
  unfold set_errorHandlingPolicy. cbn.
  by rewrite !trap_policy_number_accepted, !trap_boolean_accepted.
Qed.
End TrapLaws.

Section TrapExamples.
Import Js Options Validate Trap.

Lemma set_keeps_ready_witness :
  ready (set "fetchHandler" VNull five_pages).1
  ∧ paginationType (set "fetchHandler" VNull five_pages).1 = paginationType five_pages.
Proof.
  apply set_keeps_ready.
  apply (check_required_ready (assign_all five_pages_raw).1);
    [apply assign_all_valid|by vm_compute].
Defined.

Lemma set_refused_changes_nothing_witness :
  (set "concurrency" (VNumber NaN) five_pages).1 = five_pages.
Proof. by apply set_refused_changes_nothing. Defined.

Lemma policy_assignment_replaces_witness :
  let v := VObject [("retryLimit", VNumber (of_Z 5))] in
  errorHandlingPolicy (set "errorHandlingPolicy" v five_pages).1
  = (set_errorHandlingPolicy v).1.
Proof. intros v. by apply policy_assignment_replaces. Defined.
End TrapExamples.

(** ** The flow contexts ([_updateFlowsContexts]) *)
Section FlowContexts.
Import Js Flow.
Variable o : Options.t.

(** The [concurrency] of [_getConcurrencyOptions]. *)
Definition flow_count : nat := (getConcurrencyOptions o).1.1.

(** [removeContextForRedundantFlows] of [_getConcurrencyOptions]. *)
Definition remove_redundant : bool := (getConcurrencyOptions o).1.2.

Lemma init_each_spec inits : ∀ n k acc,
  let r := init_each inits n k acc in
  acc `prefix_of` r.1
  ∧ (r.2 = true → length r.1 = length acc + n)
  ∧ (r.2 = false → length r.1 < length acc + n).
Proof.
  induction n as [|n IH]; intros k acc; simpl.
  { split; [done|]. split; [lia|done]. }
  destruct (_initFlowContext (inits k)) as [[ctx|ctxs]|]; simpl.
  - destruct (IH (S k) (acc ++ [ctx])) as (Hpre & Hok & Hfail).
    rewrite length_app in Hok, Hfail. simpl in Hok, Hfail.
    split; [|split].
    + etrans; [|exact Hpre]. by apply prefix_app_r.
    + intros H. specialize (Hok H). lia.
    + intros H. specialize (Hfail H). lia.
  - split; [done|]. split; [done|lia].
  - split; [done|]. split; [done|lia].
Qed.

(** The update made while a cycle runs only adds contexts: those there
    come first, in their order.  When it succeeds and the concurrency is
    not fixed there are as many contexts as flows allowed, or as before
    if there were more; when it fails there are fewer than that.  With
    a fixed concurrency nothing changes. *)
Theorem updateFlowsContexts_tops_up inits e :
  let r := _updateFlowsContexts o false inits e in
  flowsContexts e `prefix_of` flowsContexts r.1
  ∧ globalContext r.1 = globalContext e
  ∧ isFirstContextInit r.1 = isFirstContextInit e
  ∧ isConcurrencyFixed r.1 = isConcurrencyFixed e
  ∧ (if isConcurrencyFixed e then r = (e, true)
     else if r.2
          then length (flowsContexts r.1) = flow_count `max` length (flowsContexts e)
          else length (flowsContexts r.1) < flow_count).
Proof.
  unfold _updateFlowsContexts, flow_count.
  destruct (getConcurrencyOptions o) as [[concurrency remove] supported]. simpl.
  destruct (isConcurrencyFixed e) eqn:Hfixed; [by rewrite ?Hfixed|].
  pose proof (init_each_spec inits (concurrency - length (flowsContexts e)) 0
                (flowsContexts e)) as (Hpre & Hok & Hfail).
  destruct (init_each _ _ _ _) as [ctxs ok]. simpl in *.
  split_and!; try done. apply prefix_length in Hpre.
  destruct ok; [specialize (Hok eq_refl)|specialize (Hfail eq_refl)]; lia.
Qed.

Lemma before_cycle_nonempty inits e :
  isFirstContextInit e = true ∨ Options.resetFlowContext o = true →
  (_updateFlowsContexts o true inits e).2 = true →
  flowsContexts (_updateFlowsContexts o true inits e).1 ≠ [].
Proof.
  intros Hreset. unfold _updateFlowsContexts.
  destruct (getConcurrencyOptions o) as [[concurrency remove] supported]. simpl.
  assert (negb (isFirstContextInit e) && negb (Options.resetFlowContext o) = false) as ->.
  { destruct Hreset as [-> | ->]; [done|]. by rewrite andb_false_r. }
  destruct (_initFlowContext (inits 0)) as [[ctx|ctxs]|] eqn:Hinit; simpl; [| |done].
  - pose proof (init_each_spec inits (concurrency - 1) 1 [ctx]) as (Hpre & _).
    destruct (init_each _ _ _ _) as [new [|]]; simpl in *; [|done].
    intros _. destruct Hpre as [k ->]. done.
  - intros _.
    destruct (inits 0) as [|[|item items]|?|]; simpl in Hinit; try done.
    destruct item as [c|]; [|done]. simpl in Hinit.
    destruct (mapM id items) as [l|]; simpl in Hinit; [|done]. by simplify_eq.
Qed.

Lemma before_cycle_failed inits e :
  (_updateFlowsContexts o true inits e).2 = false →
  (_updateFlowsContexts o true inits e).1 = e.
Proof.
  unfold _updateFlowsContexts.
  destruct (getConcurrencyOptions o) as [[concurrency remove] supported]. simpl.
  destruct (negb (isFirstContextInit e) && negb (Options.resetFlowContext o)); [done|].
  destruct (_initFlowContext (inits 0)) as [[ctx|ctxs]|]; simpl; [|done..].
  by destruct (init_each _ _ _ _) as [new [|]].
Qed.

Lemma before_cycle_skipped inits e :
  isFirstContextInit e = false → Options.resetFlowContext o = false →
  _updateFlowsContexts o true inits e = (e, true).
Proof.
  intros Hf Hr. unfold _updateFlowsContexts.
  destruct (getConcurrencyOptions o) as [[concurrency remove] supported]. simpl.
  by rewrite Hf, Hr.
Qed.

Lemma before_cycle_first inits e :
  isFirstContextInit (_updateFlowsContexts o true inits e).1 = isFirstContextInit e.
Proof.
  unfold _updateFlowsContexts.
  destruct (getConcurrencyOptions o) as [[concurrency remove] supported]. simpl.
  destruct (negb (isFirstContextInit e) && negb (Options.resetFlowContext o)); [done|].
  destruct (_initFlowContext (inits 0)) as [[ctx|ctxs]|]; simpl; [|done..].
  by destruct (init_each _ _ _ _) as [new [|]].
Qed.

(** The update made before a cycle, on the first cycle or with
    [resetFlowContext].  When it fails the engine keeps the contexts it
    had.  When it succeeds there is at least one context: the array
    [initFlowContext] returned, which fixes the concurrency, or as many
    contexts as flows allowed, followed by the old contexts beyond them
    unless redundant contexts are removed. *)
Theorem updateFlowsContexts_before_cycle inits e :
  isFirstContextInit e = true ∨ Options.resetFlowContext o = true →
  let r := _updateFlowsContexts o true inits e in
  globalContext r.1 = globalContext e
  ∧ isFirstContextInit r.1 = isFirstContextInit e
  ∧ if r.2
    then flowsContexts r.1 ≠ []
         ∧ if isConcurrencyFixed r.1
           then _initFlowContext (inits 0) = Some (inr (flowsContexts r.1))
           else length (flowsContexts r.1)
                = (if remove_redundant then 1 `max` flow_count
                   else (1 `max` flow_count) `max` length (flowsContexts e))
                ∧ drop (1 `max` flow_count) (flowsContexts r.1)
                  = if remove_redundant then []
                    else drop (1 `max` flow_count) (flowsContexts e)
    else r.1 = e.
Proof.
  intros Hreset. unfold _updateFlowsContexts, flow_count, remove_redundant.
  destruct (getConcurrencyOptions o) as [[concurrency remove] supported]. simpl.
  assert (negb (isFirstContextInit e) && negb (Options.resetFlowContext o) = false) as ->.
  { destruct Hreset as [-> | ->]; [done|]. by rewrite andb_false_r. }
  destruct (_initFlowContext (inits 0)) as [[ctx|ctxs]|] eqn:Hinit; simpl; [| |done].
  - pose proof (init_each_spec inits (concurrency - 1) 1 [ctx]) as (Hpre & Hok & Hfail).
    destruct (init_each _ _ _ _) as [new [|]]; simpl in *; [|done].
    specialize (Hok eq_refl). clear Hfail.
    assert (length new = 1 `max` concurrency) as Hlen by lia.
    split_and!; try done.
    + destruct new; [simpl in Hlen; lia|done].
    + rewrite length_app. destruct remove; simpl; [lia|].
      rewrite length_drop. lia.
    + rewrite <- Hlen, drop_app_length. by destruct remove.
  - split_and!; try done.
    destruct (inits 0) as [|[|item items]|?|]; simpl in Hinit; try done.
    destruct item as [c|]; [|done]. simpl in Hinit.
    destruct (mapM id items) as [l|]; simpl in Hinit; [|done]. by simplify_eq.
Qed.
End FlowContexts.

Section FlowContextsExample.
Import Js Flow.

Lemma updateFlowsContexts_before_cycle_witness :
  let e := {| globalContext := VObject []; flowsContexts := [];
              isFirstContextInit := true; isConcurrencyFixed := false |} in
  length (flowsContexts (_updateFlowsContexts five_pages true (flowInits (world 0)) e).1)
  = 3.
Proof.
  intros e.
  pose proof (updateFlowsContexts_before_cycle five_pages (flowInits (world 0)) e
                (or_introl eq_refl)) as (_ & _ & H).
  change ((_updateFlowsContexts five_pages true (flowInits (world 0)) e).2) with true in H.
  destruct H as [_ H].
  change (isConcurrencyFixed (_updateFlowsContexts five_pages true (flowInits (world 0)) e).1)
    with false in H.
  by destruct H as [-> _].
Defined.
End FlowContextsExample.

(** ** Starting and stopping *)
Section RunnerLaws.
Import Js Flow Runner.
Variable o : Options.t.

Implicit Types (r : Runner.t) (env : Env) (j : Job).

Definition is_start (j : Job) : bool :=
  match j with Start | StartOnce => true | _ => false end.

Definition is_stop (j : Job) : bool :=
  match j with Stop _ => true | _ => false end.

(** The continuations the loop can still need once its signal is
    aborted. *)
Definition remaining r : nat :=
  match phase r with
  | Idle => 0
  | Returned => 1
  | Sleeping s => match Sleep.timer s with Some _ => 3 | None => 2 end
  | InSummaryHandler _ _ => 4
  | InCycle _ => 5
  end.

(** The continuations of a schedule. *)
Definition continuations (jobs : list (Env * Job)) : nat :=
  length (filter (λ x, is_stop x.2 = false) jobs).

Lemma iterate_aborted env r : signal r ≠ None → iterate o env r = leave r.
Proof. unfold iterate, aborted. by destruct (signal r). Qed.

Lemma stop_aborted forced r :
  signal r ≠ None →
  signal (stop forced r) ≠ None ∧ cycles (stop forced r) = cycles r
  ∧ remaining (stop forced r) ≤ remaining r.
Proof.
  intros Hs. destruct r as [run [reason|] lis cur ph st cy em]; [|done].
  unfold stop, dispatch, onabort, remaining, Sleep.step. simpl.
  destruct run, forced, lis, cur, ph as [| | |s|]; simpl; try done.
  all: try (split_and!; try done; lia).
  all: destruct (Sleep.listening s), (Sleep.timer s); simpl; split_and!; try done; lia.
Qed.

(** The loop is at an [await]. *)
Definition suspended (p : Phase) : bool :=
  match p with InCycle _ | InSummaryHandler _ _ | Sleeping _ => true | _ => false end.

(** A cycle has begun and its summary is not emitted yet. *)
Definition in_round (p : Phase) : bool :=
  match p with InCycle _ | InSummaryHandler _ _ => true | _ => false end.

(** The summary the summary handler is working on. *)
Definition pending (p : Phase) : list Summary.CycleSummary :=
  match p with InSummaryHandler _ s => [s] | _ => [] end.

(** What calls of [stop] made from within a stretch can change: the
    signal of the scheduler and, when one of them is forced, the signal
    of the cycle; and nothing at all on a scheduler that is not marked
    as running. *)
Record nudged (calls : list bool) r r' : Prop := {
  n_running : running r' = running r;
  n_listening : listening r' = listening r;
  n_cycles : cycles r' = cycles r;
  n_emitted : emitted r' = emitted r;
  n_idle : running r = false → signal r' = signal r ∧ currentCycle r' = currentCycle r;
  n_signal : signal r ≠ None → signal r' ≠ None;
  n_some : is_Some (currentCycle r') ↔ is_Some (currentCycle r);
  n_forced :
    (currentCycle r = Some true → signal r ≠ None) →
    currentCycle r' = Some true → signal r' ≠ None;
  n_current :
    currentCycle r' = currentCycle r
    ∨ (currentCycle r' = Some true ∧ running r = true ∧ true ∈ calls);
  n_phase : in_round (phase r) = true → phase r' = phase r;
  n_remaining : remaining r' ≤ remaining r;
}.

Lemma nudged_refl calls r : nudged calls r r.
Proof. split; try done. by left. Qed.

Lemma nudged_stop forced r : nudged [forced] r (stop forced r).
Proof.
  destruct r as [run sig lis cur ph st cy em].
  unfold stop, dispatch, onabort, remaining, Sleep.step. simpl.
  destruct run; simpl; [|apply nudged_refl].
  destruct sig as [reason|], forced, lis, cur as [[|]|], ph as [| | |s|]; simpl;
    split; simpl; try done; try (by left); try (by intros [? ?]);
    try (right; split_and!; try done; set_solver);
    try (split; by intros [? ?]); try (unfold remaining; simpl; lia).
  all: unfold remaining; simpl; destruct (Sleep.listening s), (Sleep.timer s); simpl; lia.
Qed.

Lemma nudged_trans calls1 calls2 r1 r2 r3 :
  nudged calls1 r1 r2 → nudged calls2 r2 r3 → nudged (calls1 ++ calls2) r1 r3.
Proof.
  intros [] []. split; try congruence.
  - intros Hr. destruct (n_idle0 Hr) as [<- <-]. apply n_idle1. congruence.
  - by auto.
  - by rewrite n_some1.
  - by auto.
  - destruct n_current1 as [->|(? & ? & ?)].
    + destruct n_current0 as [->|(? & ? & ?)]; [by left|].
      right. split_and!; try done. set_solver.
    + right. split_and!; try done; [congruence|set_solver].
  - intros Hin. rewrite n_phase1; [by apply n_phase0|]. by rewrite n_phase0.
  - lia.
Qed.

Lemma nudged_reenter env c r : nudged (stops env c) r (reenter env c r).
Proof.
  unfold reenter. generalize (stops env c). intros calls. revert r.
  induction calls as [|forced calls IH]; intros r; [apply nudged_refl|].
  simpl. apply (nudged_trans [forced] calls _ (stop forced r)); [apply nudged_stop|apply IH].
Qed.

Lemma stop_state forced r : state (stop forced r) = state r.
Proof.
  destruct r as [run sig lis cur ph st cy em]. unfold stop, dispatch, onabort. simpl.
  by destruct run, sig as [[|]|], forced, lis, cur, ph.
Qed.

Lemma reenter_state env c r : state (reenter env c r) = state r.
Proof.
  unfold reenter. generalize (stops env c). intros calls. revert r.
  induction calls as [|forced calls IH]; intros r; [done|].
  simpl. by rewrite IH, stop_state.
Qed.

Lemma nudged_with_state calls r x e : nudged calls r x → nudged calls r (with_state e x).
Proof. by intros []. Qed.

Lemma nudged_more calls calls' r r' :
  (true ∈ calls → true ∈ calls') → nudged calls r r' → nudged calls' r r'.
Proof.
  intros Hsub []. split; try done.
  destruct n_current0 as [?|(? & ? & ?)]; [by left|right; by auto].
Qed.

Lemma summarized_aborted env startTime s r :
  signal r ≠ None →
  let r' := summarized o env startTime s r in
  signal r' ≠ None ∧ cycles r' = cycles r ∧ remaining r' ≤ 2.
Proof.
  intros Hs. unfold summarized.
  set (r0 := {| running := running r; signal := signal r; listening := listening r;
                currentCycle := currentCycle r; phase := phase r; state := state r;
                cycles := cycles r; emitted := emitted r ++ [s] |}).
  pose proof (nudged_reenter env Listeners r0) as H1.
  set (r1 := reenter env Listeners r0) in *.
  set (r2 := match Interval.lookup o Interval.cycleInterval with
             | Options.Func _ => reenter env CycleInterval r1
             | _ => r1
             end).
  assert (signal r2 ≠ None ∧ cycles r2 = cycles r) as [Hs2 Hc2].
  { assert (signal r1 ≠ None) as Hs1 by (by apply (n_signal _ _ _ H1)).
    assert (cycles r1 = cycles r) as Hc1 by (by rewrite (n_cycles _ _ _ H1)).
    unfold r2. destruct (Interval.lookup o Interval.cycleInterval); try done.
    pose proof (nudged_reenter env CycleInterval r1) as H2.
    split; [by apply (n_signal _ _ _ H2)|by rewrite (n_cycles _ _ _ H2)]. }
  assert (∀ ms, let r' := sleep ms r2 in
                signal r' ≠ None ∧ cycles r' = cycles r ∧ remaining r' ≤ 2) as Hsl.
  { intros ms. unfold sleep, remaining, aborted. simpl.
    destruct (signal r2); [|done]. simpl. split_and!; try done. }
  assert (let r' := iterate o env r2 in
          signal r' ≠ None ∧ cycles r' = cycles r ∧ remaining r' ≤ 2) as Hit.
  { rewrite iterate_aborted by done. unfold remaining. simpl. split_and!; try done. lia. }
  simpl. by repeat case_match.
Qed.

Lemma step_aborted env j r r' :
  signal r ≠ None → is_start j = false → step o env j r = Some r' →
  signal r' ≠ None ∧ cycles r' = cycles r
  ∧ if is_stop j then remaining r' ≤ remaining r else remaining r' < remaining r.
Proof.
  intros Hs Hj Hstep. destruct j; try done; simpl in Hstep.
  - simplify_eq. by apply stop_aborted.
  - destruct (phase r) eqn:Hp; try done.
    assert (remaining r = 5) as Hr by (unfold remaining; by rewrite Hp).
    destruct (Options.summaryHandler o); simplify_eq/=.
    + pose proof (nudged_reenter env SummaryHandler r) as H1.
      split; [by apply (n_signal _ _ _ H1)|]. split; [by rewrite (n_cycles _ _ _ H1)|].
      unfold remaining at 1. simpl. lia.
    + destruct (summarized_aborted env startTime s r Hs) as (? & ? & ?).
      split_and!; try done. lia.
  - destruct (phase r) eqn:Hp; try done. simplify_eq/=.
    assert (remaining r = 4) as Hr by (unfold remaining; by rewrite Hp).
    destruct (summarized_aborted env startTime s r Hs) as (? & ? & ?).
    split_and!; try done. lia.
  - destruct (phase r) eqn:Hp; try done.
    unfold remaining. rewrite Hp.
    destruct (Sleep.timer s); simplify_eq/=. split_and!; try done. lia.
  - destruct (phase r) eqn:Hp; try done.
    unfold remaining. rewrite Hp.
    destruct (Sleep.settled s); simplify_eq/=. rewrite iterate_aborted by done.
    simpl. split_and!; try done. destruct (Sleep.timer s); lia.
  - destruct (phase r) eqn:Hp; try done. simplify_eq/=.
    unfold remaining. rewrite Hp. simpl. split_and!; try done. lia.
Qed.

Lemma run_aborted jobs : ∀ r r',
  signal r ≠ None → Forall (λ x, is_start x.2 = false) jobs →
  run o jobs r = Some r' →
  signal r' ≠ None ∧ cycles r' = cycles r
  ∧ remaining r' + continuations jobs ≤ remaining r.
Proof.
  induction jobs as [|[env j] jobs IH]; intros r r' Hs Hjobs Hrun; simpl in Hrun.
  { simplify_eq. unfold continuations. simpl. split_and!; try done. lia. }
  apply Forall_cons in Hjobs as [Hj Hjobs]. simpl in Hj.
  destruct (step o env j r) as [r1|] eqn:Hstep; [|done].
  destruct (step_aborted env j r r1 Hs Hj Hstep) as (Hs1 & Hc1 & Hrem).
  destruct (IH r1 r' Hs1 Hjobs Hrun) as (Hs' & Hc' & Hrem').
  split; [done|]. split; [congruence|].
  unfold continuations in *. rewrite filter_cons. simpl.
  destruct (is_stop j); case_decide; simpl; try done; lia.
Qed.

(** Once a stretch has left the signal of the scheduler aborted, by a
    graceful or a forced stop, no later stretch starts a cycle until
    [start] is called again, and each continuation of the loop brings
    it closer to its end: the loop is over after five of them at
    most. *)
Theorem no_cycle_after_stop jobs r r' :
  signal r ≠ None → Forall (λ x, is_start x.2 = false) jobs →
  run o jobs r = Some r' →
  cycles r' = cycles r ∧ remaining r' + continuations jobs ≤ remaining r.
Proof. intros Hs Hj Hrun. by destruct (run_aborted jobs r r' Hs Hj Hrun) as (_ & ? & ?). Qed.

Definition has_contexts (e : Engine) : Prop :=
  isFirstContextInit e = false → flowsContexts e ≠ [].

Record wf r : Prop := {
  wf_running : running r = match phase r with Idle => false | _ => true end;
  wf_listening : listening r = suspended (phase r);
  wf_current : suspended (phase r) = true → is_Some (currentCycle r);
  wf_forced : currentCycle r = Some true → signal r ≠ None;
  wf_count : cycles r = length (emitted r) + (if in_round (phase r) then 1 else 0);
  wf_contexts : has_contexts (state r);
}.

Lemma wf_created g : wf (created g).
Proof. by split. Qed.

(** The signal a cycle is started with: not aborted, unless an
    initialiser of the round made a forced stop on the running
    scheduler. *)
Definition cycle_signal env r r' : Prop :=
  currentCycle r' = Some false
  ∨ (currentCycle r' = Some true ∧ running r = true
     ∧ (true ∈ stops env InitThis ∨ true ∈ stops env InitFlow)).

(** What a round of the loop leaves, whether it starts a cycle or
    leaves the loop. *)
Record round env r r' : Prop := {
  rd_running : running r' = running r;
  rd_emitted : emitted r' = emitted r;
  rd_forced : currentCycle r' = Some true → signal r' ≠ None;
  rd_contexts : has_contexts (state r');
  rd_signal : running r = false → signal r' = signal r;
  rd_phase :
    (phase r' = Returned ∧ listening r' = false ∧ cycles r' = cycles r)
    ∨ (phase r' = InCycle (now (world_of env)) ∧ listening r' = true
       ∧ cycle_signal env r r' ∧ signal r = None
       ∧ cycles r' = S (cycles r)
       ∧ isFirstContextInit (state r') = false ∧ flowsContexts (state r') ≠ []);
}.

Lemma update_has_contexts inits e :
  has_contexts e →
  let u := _updateFlowsContexts o true inits e in
  if u.2 then flowsContexts u.1 ≠ [] else u.1 = e.
Proof.
  intros He. simpl.
  destruct (_updateFlowsContexts o true inits e).2 eqn:Hok;
    [|by apply before_cycle_failed].
  destruct (isFirstContextInit e) eqn:Hf;
    [apply before_cycle_nonempty; by auto|].
  destruct (Options.resetFlowContext o) eqn:Hr;
    [apply before_cycle_nonempty; by auto|].
  rewrite before_cycle_skipped by done. by apply He.
Qed.

(** The calls of [stop] the initialisers of a round can make. *)
Definition round_calls env : list bool := stops env InitThis ++ stops env InitFlow.

Lemma leave_round env r x :
  signal r = None → nudged (round_calls env) (with_currentCycle (Some false) r) x →
  has_contexts (state x) →
  round env r (leave (_forcedStopOnError x)).
Proof.
  intros Hsig Hn Hc.
  pose proof (nudged_trans _ _ _ _ _ Hn (nudged_stop true x)) as [].
  simpl in *. unfold _forcedStopOnError. split; simpl; try done.
  - apply n_forced0. by intros [=].
  - by rewrite stop_state.
  - intros Hr. destruct (n_idle0 Hr) as [-> _]. done.
  - left. by rewrite n_cycles0.
Qed.

Lemma iterate_round env r :
  listening r = true → has_contexts (state r) →
  round env r (iterate o env r).
Proof.
  intros Hl Hc. unfold iterate, aborted.
  destruct (signal r) as [reason|] eqn:Hsig.
  { split; simpl; try done; [by rewrite Hsig|by left]. }
  set (r0 := with_currentCycle (Some false) r).
  (* the second half of the round, from a state the reset has left *)
  assert (∀ x : Runner.t,
            nudged (stops env InitThis) r0 x → has_contexts (state x) →
            round env r
              (let '(e, ok) :=
                 _updateFlowsContexts o true (flowInits (world_of env)) (state x) in
               let x := if initialises o x then reenter env InitFlow x else x in
               if ok then
                 {| running := running x; signal := signal x; listening := listening x;
                    currentCycle := currentCycle x; phase := InCycle (now (world_of env));
                    state :=
                      {| globalContext := globalContext e;
                         flowsContexts := flowsContexts e;
                         isFirstContextInit := false;
                         isConcurrencyFixed := isConcurrencyFixed e |};
                    cycles := S (cycles x); emitted := emitted x |}
               else leave (_forcedStopOnError (with_state e x)))) as Hupdate.
  { intros x Hx Hcx.
    pose proof (update_has_contexts (flowInits (world_of env)) (state x) Hcx) as Hu.
    simpl in Hu.
    set (x2 := if initialises o x then reenter env InitFlow x else x).
    assert (nudged (round_calls env) r0 x2 ∧ state x2 = state x) as [Hn Hst].
    { unfold x2, round_calls. destruct (initialises o x).
      - split; [|apply reenter_state].
        apply (nudged_trans _ _ _ _ _ Hx), nudged_reenter.
      - split; [|done]. eapply nudged_more; [|exact Hx]. set_solver. }
    destruct (_updateFlowsContexts o true (flowInits (world_of env)) (state x))
      as [e [|]]; simpl in Hu.
    - pose proof Hn as []. simpl in *. split; simpl; try done.
      + apply n_forced0. by intros [=].
      + by intros _.
      + intros Hr. by destruct (n_idle0 Hr) as [-> _].
      + right. split_and!; try done; [by rewrite n_listening0| |by rewrite n_cycles0].
        unfold cycle_signal, round_calls in *. simpl.
        destruct n_current0 as [->|(-> & ? & Hin)]; [by left|right].
        split_and!; try done. by apply elem_of_app.
    - subst e. apply leave_round; [done|by apply nudged_with_state|done]. }
  unfold resetThisContext. fold r0.
  destruct (Options.resetThisContext o && negb (isFirstContextInit (state r0))).
  - pose proof (nudged_reenter env InitThis r0) as Hn.
    assert (nudged (round_calls env) r0 (reenter env InitThis r0)) as Hn'.
    { eapply nudged_more; [|exact Hn]. unfold round_calls. set_solver. }
    assert (has_contexts (state (reenter env InitThis r0))) as Hc'
      by (by rewrite reenter_state).
    destruct (call_initThisContext o env) as [|g]; [by apply leave_round|].
    destruct (is_object g); [|by apply leave_round].
    apply Hupdate; [by apply nudged_with_state|].
    simpl. rewrite reenter_state. exact Hc.
  - apply Hupdate; [apply nudged_refl|done].
Qed.

Definition set_running (r : Runner.t) : Runner.t :=
  {| running := true; signal := signal r; listening := listening r;
     currentCycle := currentCycle r; phase := phase r; state := state r;
     cycles := cycles r; emitted := emitted r |}.

Lemma round_wf env r r' :
  round env r r' → cycles r = length (emitted r) → wf (set_running r').
Proof.
  intros [Hrun Hem Hf Hc Hsig Hph] Hcount.
  destruct Hph as [(Hp & Hl & Hcy)|(Hp & Hl & Hcur & _ & Hcy & _)].
  - split; simpl; rewrite ?Hp, ?Hl, ?Hcy, ?Hem; try done. simpl. lia.
  - split; simpl; rewrite ?Hp, ?Hl, ?Hcy, ?Hem; try done; simpl.
    + intros _. by destruct Hcur as [->|(-> & _)].
    + lia.
Qed.

Lemma set_running_id r : running r = true → set_running r = r.
Proof. destruct r. simpl. by intros ->. Qed.

Lemma wf_stop forced r :
  wf r →
  wf (stop forced r)
  ∧ suspended (phase (stop forced r)) = suspended (phase r)
  ∧ in_round (phase (stop forced r)) = in_round (phase r)
  ∧ (in_round (phase r) = true → phase (stop forced r) = phase r)
  ∧ pending (phase (stop forced r)) = pending (phase r)
  ∧ emitted (stop forced r) = emitted r
  ∧ cycles (stop forced r) = cycles r
  ∧ state (stop forced r) = state r.
Proof.
  intros [Hrun Hl Hcur Hf Hcount Hctx].
  destruct r as [run sig lis cur ph st cy em]. simpl in *.
  unfold stop, dispatch, onabort. simpl.
  destruct run; simpl; [|by split_and!].
  destruct sig as [reason|], forced, lis, cur as [[|]|], ph; simpl in *;
    split_and!; try done; split; simpl; try done.
Qed.

(** The state a callback leaves when the loop is in a round and goes
    on to the phase [p]. *)
Lemma wf_nudged calls r x p :
  wf r → in_round (phase r) = true → nudged calls r x → state x = state r →
  in_round p = true → wf (with_phase p x).
Proof.
  intros [Hrun Hl Hcur Hf Hcount Hctx] Hin [] Hst Hp.
  assert (suspended (phase r) = true) as Hsus by (by destruct (phase r)).
  assert (running r = true) as Hr by (rewrite Hrun; by destruct (phase r)).
  split; simpl.
  - rewrite n_running0, Hr. by destruct p.
  - rewrite n_listening0, Hl, Hsus. by destruct p.
  - intros _. apply n_some0. by auto.
  - by auto.
  - rewrite n_cycles0, n_emitted0, Hcount, Hin, Hp. done.
  - by rewrite Hst.
Qed.

(** The summary a job hands to the loop. *)
Definition handed (j : Job) : list Summary.CycleSummary :=
  match j with CycleEnds s => [s] | _ => [] end.

Record started env r r' : Prop := {
  st_cycles : cycles r' = S (cycles r);
  st_phase : phase r' = InCycle (now (world_of env));
  st_signal : cycle_signal env r r';
  st_first : isFirstContextInit (state r') = false;
  st_contexts : flowsContexts (state r') ≠ [];
}.

Lemma round_started env r r' :
  round env r r' → cycles r' = cycles r ∨ started env r r'.
Proof.
  intros [_ _ _ _ _ [(_ & _ & Hc)|(Hp & _ & Hcur & _ & Hcy & Hfi & Hctx)]];
    [by left|by right].
Qed.

Lemma round_pending env r r' : round env r r' → pending (phase r') = [].
Proof. intros Hrd. by destruct (rd_phase _ _ _ Hrd) as [(-> & _)|(-> & _)]. Qed.

Lemma summarized_spec env startTime s r :
  wf r → in_round (phase r) = true →
  let r' := summarized o env startTime s r in
  wf r'
  ∧ (cycles r' = cycles r ∨ started env r r')
  ∧ emitted r' ++ pending (phase r') = emitted r ++ [s].
Proof.
  intros Hwf Hin. pose proof Hwf as [Hrun Hl Hcur Hf Hcount Hctx]. unfold summarized.
  set (r0 := {| running := running r; signal := signal r; listening := listening r;
                currentCycle := currentCycle r; phase := phase r; state := state r;
                cycles := cycles r; emitted := emitted r ++ [s] |}).
  set (r1 := reenter env Listeners r0).
  set (r2 := match Interval.lookup o Interval.cycleInterval with
             | Options.Func _ => reenter env CycleInterval r1
             | _ => r1
             end).
  assert (running r = true) as Hr by (rewrite Hrun; by destruct (phase r)).
  assert (listening r = true) as Hlis by (rewrite Hl; by destruct (phase r)).
  assert (∃ calls, nudged calls r0 r2) as [calls Hn].
  { pose proof (nudged_reenter env Listeners r0) as H1. fold r1 in H1. unfold r2.
    destruct (Interval.lookup o Interval.cycleInterval); try by eexists.
    eexists. exact (nudged_trans _ _ _ _ _ H1 (nudged_reenter env CycleInterval r1)). }
  assert (state r2 = state r) as Hst.
  { unfold r2, r1. destruct (Interval.lookup o Interval.cycleInterval);
      by rewrite ?reenter_state. }
  pose proof Hn as []. simpl in *.
  assert (let r' := iterate o env r2 in
          wf r' ∧ (cycles r' = cycles r ∨ started env r r')
          ∧ emitted r' ++ pending (phase r') = emitted r ++ [s]) as Hit.
  { assert (round env r2 (iterate o env r2)) as Hrd.
    { apply iterate_round; [congruence|by rewrite Hst]. }
    simpl. split; [|split].
    - rewrite <- (set_running_id (iterate o env r2))
        by (rewrite (rd_running _ _ _ Hrd); congruence).
      apply (round_wf env r2); [done|].
      rewrite n_cycles0, n_emitted0, Hcount, Hin, length_app. simpl. lia.
    - destruct (round_started _ _ _ Hrd) as [?|[]]; [left; congruence|right].
      split; try done; [congruence|].
      unfold cycle_signal in *. by rewrite <- n_running0.
    - by rewrite (rd_emitted _ _ _ Hrd), (round_pending _ _ _ Hrd), app_nil_r. }
  assert (∀ ms, let r' := sleep ms r2 in
                wf r' ∧ (cycles r' = cycles r ∨ started env r r')
                ∧ emitted r' ++ pending (phase r') = emitted r ++ [s]) as Hsl.
  { intros ms. simpl. split; [|split; [by left|by rewrite app_nil_r]].
    split; simpl; try done; try congruence.
    - intros _. apply n_some0, Hcur. by rewrite <- Hl.
    - by auto.
    - rewrite n_cycles0, n_emitted0, Hcount, Hin, length_app. simpl. lia.
    - by rewrite Hst. }
  simpl in *. by repeat case_match.
Qed.

Lemma start_spec env r :
  wf r → running r = false →
  let r0 :=
    {| running := false; signal := None; listening := true; currentCycle := None;
       phase := phase r; state := state r; cycles := cycles r; emitted := emitted r |} in
  round env r0 (iterate o env r0)
  ∧ wf (set_running (iterate o env r0))
  ∧ phase r = Idle.
Proof.
  intros [Hrun Hl Hcur Hf Hcount Hctx] Hr r0.
  assert (phase r = Idle) as Hidle by (rewrite Hr in Hrun; by destruct (phase r)).
  assert (round env r0 (iterate o env r0)) as Hrd by (by apply iterate_round).
  split; [done|]. split; [|done].
  apply (round_wf env r0 _ Hrd). simpl. rewrite Hcount, Hidle. simpl. lia.
Qed.

Lemma step_spec env j r r' :
  wf r → step o env j r = Some r' →
  wf r'
  ∧ (cycles r' = cycles r ∨ started env r r')
  ∧ emitted r' ++ pending (phase r')
    = (emitted r ++ pending (phase r)) ++ handed j.
Proof.
  intros Hwf Hstep. pose proof Hwf as [Hrun Hl Hcur Hf Hcount Hctx].
  destruct j; simpl in Hstep.
  - (* start *)
    unfold start in Hstep. destruct (running r) eqn:Hr; simplify_eq/=.
    { rewrite app_nil_r. by auto. }
    destruct (start_spec env r Hwf Hr) as (Hrd & Hwf1 & Hidle). simpl in *.
    split; [done|]. split.
    + destruct (round_started _ _ _ Hrd) as [?|[]]; [by left|right].
      split; try done. unfold cycle_signal in *. simpl in *. by rewrite Hr.
    + simpl. by rewrite (rd_emitted _ _ _ Hrd), (round_pending _ _ _ Hrd), Hidle, !app_nil_r.
  - (* startOnce *)
    unfold startOnce, start in Hstep. destruct (running r) eqn:Hr; simplify_eq/=.
    { rewrite app_nil_r. by auto. }
    destruct (start_spec env r Hwf Hr) as (Hrd & Hwf1 & Hidle). simpl in *.
    set (r0 := {| running := false; signal := None; listening := true;
                  currentCycle := None; phase := phase r; state := state r;
                  cycles := cycles r; emitted := emitted r |}) in *.
    destruct (wf_stop false _ Hwf1) as (Hwf2 & _ & _ & Hin & Hpe & Hem & Hcy & Hst).
    fold (set_running (iterate o env r0)).
    split; [done|]. rewrite Hpe, Hem, Hcy. split.
    + destruct (round_started _ _ _ Hrd) as [?|[H1 H2 H3 H4 H5]]; [by left|right].
      split; rewrite ?Hcy, ?Hst; try done.
      * rewrite Hin; simpl; by rewrite H2.
      * destruct H3 as [H3|(_ & ? & _)]; [|done]. left.
        unfold stop. simpl. rewrite (rd_signal _ _ _ Hrd) by done. simpl.
        unfold dispatch, onabort. simpl.
        destruct (listening (iterate o env r0)); simpl; rewrite H2; simpl; done.
    + simpl. by rewrite (rd_emitted _ _ _ Hrd), (round_pending _ _ _ Hrd), Hidle, !app_nil_r.
  - (* stop *)
    simplify_eq. destruct (wf_stop forced r Hwf) as (? & _ & _ & _ & -> & -> & -> & _).
    rewrite app_nil_r. by auto.
  - (* the cycle ends *)
    destruct (phase r) as [|startTime| | |] eqn:Hp; try done.
    destruct (Options.summaryHandler o); simplify_eq/=.
    + pose proof (nudged_reenter env SummaryHandler r) as Hn.
      split; [|split; [left; apply Hn|by rewrite (n_emitted _ _ _ Hn), app_nil_r]].
      apply (wf_nudged (stops env SummaryHandler) r); try done;
        [by rewrite Hp|apply reenter_state].
    + destruct (summarized_spec env startTime s r Hwf) as (? & ? & ->);
        [by rewrite Hp|]. rewrite ?Hp. simpl. by rewrite ?app_nil_r.
  - (* the summary handler settles *)
    destruct (phase r) as [| |startTime s| |] eqn:Hp; try done. simplify_eq/=.
    destruct (summarized_spec env startTime s r Hwf) as (? & ? & ->);
      [by rewrite Hp|]. rewrite ?Hp. simpl. by rewrite ?app_nil_r.
  - (* the timer fires *)
    destruct (phase r) as [| | |s|] eqn:Hp; try done.
    destruct (Sleep.timer s); simplify_eq/=. rewrite ?Hp, ?app_nil_r.
    split; [|by auto]. split; simpl; rewrite ?Hp in *; done.
  - (* the sleep is over *)
    destruct (phase r) as [| | |s|] eqn:Hp; try done.
    destruct (Sleep.settled s); simplify_eq/=.
    assert (running r = true) as Hr by (by rewrite Hrun).
    assert (listening r = true) as Hlis by (by rewrite Hl).
    pose proof (iterate_round env r Hlis Hctx) as Hrd. split; [|split].
    + rewrite <- (set_running_id (iterate o env r)) by (by rewrite (rd_running _ _ _ Hrd)).
      apply (round_wf env r); [done|]. rewrite Hcount. simpl. lia.
    + destruct (round_started _ _ _ Hrd) as [?|[]]; [by left|by right].
    + by rewrite (rd_emitted _ _ _ Hrd), (round_pending _ _ _ Hrd), ?Hp, ?app_nil_r.
  - (* the finally callback *)
    destruct (phase r) eqn:Hp; try done. simplify_eq/=. rewrite ?Hp, ?app_nil_r.
    split; [|by auto]. split; simpl; try done.
Qed.

(** The summaries the cycle handler resolved with during a schedule. *)
Definition resolved_with (jobs : list (Env * Job)) : list Summary.CycleSummary :=
  jobs ≫= λ x, handed x.2.

Lemma run_spec jobs : ∀ r r',
  wf r → run o jobs r = Some r' →
  wf r'
  ∧ emitted r' ++ pending (phase r') = (emitted r ++ pending (phase r)) ++ resolved_with jobs.
Proof.
  induction jobs as [|[env j] jobs IH]; intros r r' Hwf Hrun; simpl in Hrun.
  { simplify_eq. by rewrite app_nil_r. }
  destruct (step o env j r) as [r1|] eqn:Hstep; [|done].
  destruct (step_spec env j r r1 Hwf Hstep) as (Hwf1 & _ & Hem).
  destruct (IH r1 r' Hwf1 Hrun) as (Hwf' & Hem').
  split; [done|]. rewrite Hem', Hem. unfold resolved_with. simpl.
  by rewrite app_assoc.
Qed.

(** However the scheduler is driven from its creation on, the
    [cycleSummary] events are the summaries the cycle handler resolved
    with, in that order and once each, the last one held back while the
    summary handler runs; and every cycle started has had its summary
    emitted, but for the one in progress. *)
Theorem summaries_emitted_in_order g jobs r :
  run o jobs (created g) = Some r →
  emitted r ++ pending (phase r) = resolved_with jobs
  ∧ cycles r = length (emitted r) + (if in_round (phase r) then 1 else 0).
Proof.
  intros Hrun. destruct (run_spec jobs _ _ (wf_created g) Hrun) as (Hwf & Hem).
  split; [done|]. apply Hwf.
Qed.

(** Whenever the cycle handler is called, the flow contexts have been
    initialised and there is at least one of them.  The signal it is
    given is not aborted, with one exception: the loop tests the signal
    of the scheduler at the head of a round only, so a forced stop
    called by [initThisContext] or [initFlowContext] in the round
    itself, on a scheduler whose [start] has returned, aborts the signal
    of the cycle and the cycle is started all the same. *)
Theorem cycle_starts_ready g jobs r env j r' :
  run o jobs (created g) = Some r → step o env j r = Some r' →
  cycles r' ≠ cycles r →
  cycles r' = S (cycles r)
  ∧ phase r' = InCycle (now (world_of env))
  ∧ isFirstContextInit (state r') = false
  ∧ flowsContexts (state r') ≠ []
  ∧ (currentCycle r' = Some false
     ∨ currentCycle r' = Some true ∧ running r = true
       ∧ (true ∈ stops env InitThis ∨ true ∈ stops env InitFlow)).
Proof.
  intros Hrun Hstep Hne. destruct (run_spec jobs _ _ (wf_created g) Hrun) as (Hwf & _).
  by destruct (step_spec env j r r' Hwf Hstep) as (_ & [?|[]] & _).
Qed.


(** [startOnce] on a scheduler that is not running starts one cycle at
    most: whatever follows, short of another start, no further cycle is
    started, and the loop is over after five continuations at most. *)
Theorem startOnce_runs_one_cycle g before r env jobs r' :
  run o before (created g) = Some r → running r = false →
  Forall (λ x, is_start x.2 = false) jobs →
  run o jobs (startOnce o env r) = Some r' →
  cycles r' = cycles (startOnce o env r)
  ∧ cycles r' ≤ S (cycles r)
  ∧ continuations jobs ≤ 5.
Proof.
  intros Hbefore Hr Hjobs Hrun.
  destruct (run_spec before _ _ (wf_created g) Hbefore) as (Hwf & _).
  assert (step o env StartOnce r = Some (startOnce o env r)) as Hstep by done.
  destruct (step_spec env _ r _ Hwf Hstep) as (Hwf1 & Hcy & _).
  assert (signal (startOnce o env r) ≠ None) as Hsig.
  { unfold startOnce, start. rewrite Hr.
    destruct (start_spec env r Hwf Hr) as (Hrd & _ & _). simpl in Hrd.
    set (r0 := {| running := false; signal := None; listening := true;
                  currentCycle := None; phase := phase r; state := state r;
                  cycles := cycles r; emitted := emitted r |}) in *.
    unfold stop. simpl. rewrite (rd_signal _ _ _ Hrd) by done. simpl.
    unfold dispatch, onabort. simpl.
    by destruct (listening (iterate o env r0)), (phase (iterate o env r0)). }
  destruct (run_aborted jobs _ _ Hsig Hjobs Hrun) as (_ & Hc & Hrem).
  split; [done|]. split.
  - rewrite Hc. destruct Hcy as [->|[-> _ _ _ _]]; lia.
  - assert (remaining (startOnce o env r) ≤ 5); [|lia].
    unfold remaining. by repeat case_match; lia.
Qed.

(** [start] on a scheduler that is not running returns with the
    scheduler marked as running and its signal not aborted, also when
    the first round met an error (an initialiser of the contexts threw,
    say) and left the loop: the forced stop requested on the way found
    no running scheduler to stop.  Otherwise the first cycle has
    begun. *)
Theorem start_aborts_nothing g jobs r env :
  run o jobs (created g) = Some r → running r = false →
  let r' := (start o env r).1 in
  running r' = true ∧ signal r' = None
  ∧ (phase r' = Returned ∧ cycles r' = cycles r
     ∨ phase r' = InCycle (now (world_of env)) ∧ cycles r' = S (cycles r)).
Proof.
  intros Hrun Hr. destruct (run_spec jobs _ _ (wf_created g) Hrun) as (Hwf & _).
  unfold start. rewrite Hr. simpl.
  destruct (start_spec env r Hwf Hr) as (Hrd & _ & _). simpl in Hrd.
  split; [done|]. split; [by rewrite (rd_signal _ _ _ Hrd)|].
  destruct (rd_phase _ _ _ Hrd) as [(? & _ & ?)|(? & _ & _ & _ & ? & _)]; by auto.
Qed.
End RunnerLaws.

Section RunnerExamples.
Import Js Flow Runner.

(** A stretch at time [t]; [initThisContext] is not called, and no
    callback calls [stop]. *)
Definition at_time (t : Z) : Env :=
  {| world_of := world t; chance := 0; thisCalls := λ _, Throw; stops := λ _, [] |}.

(** A scheduler on the options of [five_pages], started at time 0 and
    told to stop gracefully at time 5, while its first cycle runs. *)
Definition stopping : Runner.t :=
  default (created (VObject []))
    (run five_pages [(at_time 0, Start); (at_time 5, Stop false)] (created (VObject []))).

(** The cycle ends at time 30, the loop sleeps on the aborted signal,
    resumes and returns. *)
Definition winding_down : list (Env * Job) :=
  [(at_time 30, CycleEnds five_pages_summary); (at_time 30, Wake); (at_time 30, Finally)].

Definition stopped : Runner.t := default stopping (run five_pages winding_down stopping).

Lemma no_cycle_after_stop_witness :
  running stopped = false ∧ cycles stopped = 1
  ∧ cycles stopped = cycles stopping
  ∧ remaining stopped + continuations winding_down ≤ remaining stopping.
Proof.
  split; [by vm_compute|]. split; [by vm_compute|].
  apply (no_cycle_after_stop five_pages winding_down stopping stopped).
  - by vm_compute.
  - by repeat constructor.
  - by vm_compute.
Defined.

Lemma summaries_emitted_in_order_witness :
  let jobs := [(at_time 0, Start); (at_time 5, Stop false)] ++ winding_down in
  emitted stopped ++ pending (phase stopped) = resolved_with jobs
  ∧ cycles stopped = length (emitted stopped) + (if in_round (phase stopped) then 1 else 0).
Proof.
  intros jobs. apply (summaries_emitted_in_order five_pages (VObject []) jobs).
  by vm_compute.
Defined.

(** The options of [five_pages] with [resetFlowContext] set:
    [initFlowContext] is called at the head of every round. *)
Definition resetting : Options.t :=
  validated (<["resetFlowContext" := VBool true]> five_pages_raw).

(** A stretch at time [t] in which [initFlowContext] calls
    [stop(forced)]. *)
Definition stopping_init (forced : bool) (t : Z) : Env :=
  {| world_of := world t; chance := 0; thisCalls := λ _, Throw;
     stops := λ c, match c with InitFlow => [forced] | _ => [] end |}.

(** The first cycle of a scheduler started at time 0 ends at time 30,
    and the timer of the sleep that follows fires a second later. *)
Definition second_round : list (Env * Job) :=
  [(at_time 0, Start); (at_time 30, CycleEnds five_pages_summary); (at_time 1030, Timeout)].

Definition slept : Runner.t :=
  default (created (VObject [])) (run resetting second_round (created (VObject []))).

Definition woken (forced : bool) : Runner.t :=
  default slept (step resetting (stopping_init forced 1030) Wake slept).

Lemma cycle_starts_ready_witness :
  cycles (woken true) = S (cycles slept)
  ∧ phase (woken true) = InCycle 1030
  ∧ isFirstContextInit (state (woken true)) = false
  ∧ flowsContexts (state (woken true)) ≠ []
  ∧ (currentCycle (woken true) = Some false
     ∨ currentCycle (woken true) = Some true ∧ running slept = true
       ∧ (true ∈ stops (stopping_init true 1030) InitThis
          ∨ true ∈ stops (stopping_init true 1030) InitFlow)).
Proof.
  apply (cycle_starts_ready resetting (VObject []) second_round slept
           (stopping_init true 1030) Wake (woken true)); by vm_compute.
Defined.

(** A stop called by [initFlowContext] comes after the test of the
    signal at the head of the round: the cycle is started all the same,
    on a signal that a forced stop has aborted already; within [start]
    the same call does nothing. *)
Lemma stop_within_round :
  cycles slept = 1
  ∧ (cycles (woken true) = 2 ∧ currentCycle (woken true) = Some true
     ∧ signal (woken true) = Some forcedStop)
  ∧ (cycles (woken false) = 2 ∧ currentCycle (woken false) = Some false
     ∧ signal (woken false) = Some gracefulStop)
  ∧ (let r := (start resetting (stopping_init true 0) (created (VObject []))).1 in
     cycles r = 1 ∧ currentCycle r = Some false ∧ signal r = None).
Proof. by vm_compute. Qed.


Lemma startOnce_runs_one_cycle_witness :
  let r := startOnce five_pages (at_time 0) (created (VObject [])) in
  cycles stopped = cycles r ∧ cycles stopped ≤ 1 ∧ continuations winding_down ≤ 5.
Proof.
  intros r.
  apply (startOnce_runs_one_cycle five_pages (VObject []) [] (created (VObject []))
           (at_time 0) winding_down stopped).
  - done.
  - done.
  - by repeat constructor.
  - by vm_compute.
Defined.

(** A world in which [initFlowContext] throws. *)
Definition failing_init : Env :=
  {| world_of :=
       {| now := 0; random := λ _, 0%Q; intervalCalls := λ _ _ _, Throw;
          flowInits := λ _, InitThrows |};
     chance := 0; thisCalls := λ _, Throw; stops := λ _, [] |}.

Lemma start_aborts_nothing_witness :
  let r' := (start five_pages failing_init (created (VObject []))).1 in
  running r' = true ∧ signal r' = None
  ∧ (phase r' = Returned ∧ cycles r' = 0 ∨ phase r' = InCycle 0 ∧ cycles r' = 1).
Proof.
  apply (start_aborts_nothing five_pages (VObject []) [] (created (VObject []))
           failing_init); done.
Defined.
End RunnerExamples.

(** ** No page is fetched more often than the retry limit allows *)
Section Bounds.
Import Js Flow.
Context {DState TRetry Frame : Type}.
Variable drv : Driver DState TRetry Frame.
Variable o : Options.t.
Variable V : View (DState := DState) (TRetry := TRetry) (Frame := Frame).
Hypothesis laws : Lawful drv V.
Variable R : nat.
Hypothesis distinct : Options.retryDistinctFlows (Options.errorHandlingPolicy o) = true.
Hypothesis limit : Options.retryLimit (Options.errorHandlingPolicy o) = Finite R.

Abbreviation PendingRetry := (PendingRetry TRetry).
Abbreviation Task := (Task TRetry Frame).
Abbreviation State := (State DState TRetry Frame).

Implicit Types (st : State) (pr : option PendingRetry) (ctx c : Ctx).

(** Every page has been fetched on distinct contexts, [R + 1] of them
    at most. *)
Definition Bounded st : Prop :=
  ∀ p, NoDup (attempts (fetched st) p) ∧ length (attempts (fetched st) p) ≤ S R.

(** At most one more call of [fetchHandler], by a task now waiting for
    it. *)
Definition one_fetch st st' : Prop :=
  fetched st' = fetched st
  ∨ ∃ c a pr k,
      fetched st' = fetched st ++ [(page_of_frame drv k, c)]
      ∧ tasks st' !! c = Some (Executing a pr k).

Lemma Bounded_same st st' : fetched st' = fetched st → Bounded st → Bounded st'.
Proof. intros Hf Hb p. rewrite Hf. apply Hb. Qed.

Lemma Bounded_next st st' :
  Bounded st → Accounted drv V R st' → one_fetch st st' → Bounded st'.
Proof.
  intros Hb [Hacc _] [Hsame|(c & a & pr & k & Hf & Ht)]; [by eapply Bounded_same|].
  intros p. destruct (decide (p = page_of_frame drv k)) as [->|Hne].
  - destruct (a_tasks _ _ _ _ _ _ _ Hacc _ _ Ht) as (n & _ & Heq & Hnd & Hlen).
    rewrite Heq. split; [done|lia].
  - rewrite Hf, attempts_snoc. destruct (decide _); [congruence|]. apply Hb.
Qed.

Lemma one_fetch_callExecutor w ctx pr st : one_fetch st (callExecutor drv o w ctx pr st).
Proof.
  unfold callExecutor.
  destruct (begin drv _ _ _ _ _) as [d' done k|d' done ret].
  - right. eexists ctx, _, pr, k. simpl. rewrite lookup_insert_eq.
    split; [|done]. by destruct done.
  - left. simpl. by destruct done.
Qed.

Lemma one_fetch_afterInterval w ctx pr canceled st :
  one_fetch st (afterInterval drv o w ctx pr canceled st).
Proof.
  unfold afterInterval. destruct (_ || _); [by left|].
  apply (one_fetch_callExecutor w ctx pr (set_flowsLastExecution _ st)).
Qed.

Lemma one_fetch_handleFlowExecution w ctx pr st :
  one_fetch st (handleFlowExecution drv o w ctx pr st).
Proof.
  unfold handleFlowExecution. destruct (flowsLastExecution st !! ctx) as [time|].
  - destruct (0 <? _)%Z; [by left|]. apply one_fetch_afterInterval.
  - apply (one_fetch_callExecutor w ctx pr (set_flowsLastExecution _ st)).
Qed.

(** Both invariants and the bound. *)
Definition Within st : Prop := Sound drv V R st ∧ Bounded st.

Lemma Within_dispatch_fresh w ctx st :
  Within st → ctx ∉ flows st → executorDone st = false →
  Within (handleFlowExecution drv o w ctx None (set_flows (set_add ctx (flows st)) st)).
Proof.
  intros [Hs Hb] Hctx Hed.
  assert (Hs' := Sound_dispatch_fresh drv o V laws R limit w ctx st Hs Hctx Hed).
  split; [done|].
  eapply Bounded_next; [|apply Hs'|apply one_fetch_handleFlowExecution]. done.
Qed.

Lemma Within_dispatch_retry w ctx r q1 q2 st :
  Within st → ctx ∉ flows st → pendingRetries st = q1 ++ r :: q2 → ctx ∉ p_flows r →
  Within (handleFlowExecution drv o w ctx (Some r)
            (set_flows (set_add ctx (flows st)) (set_pendingRetries (q1 ++ q2) st))).
Proof.
  intros [Hs Hb] Hctx Hq Hnew.
  assert (Hs' := Sound_dispatch_retry drv o V laws R limit w ctx r q1 q2 st Hs Hctx Hq Hnew).
  split; [done|].
  eapply Bounded_next; [|apply Hs'|apply one_fetch_handleFlowExecution]. done.
Qed.

Lemma Within_dispatchFresh w : ∀ freeContexts remaining st,
  Within st → NoDup freeContexts → (∀ c, c ∈ freeContexts → c ∉ flows st) →
  Within (dispatchFresh drv o w freeContexts remaining st).
Proof.
  induction freeContexts as [|ctx rest IH]; intros remaining st Hs Hnd Hfree; [done|].
  apply NoDup_cons in Hnd as [Hctx Hnd].
  cbn [dispatchFresh]. rewrite distinct.
  destruct (executorDone st) eqn:Hed; simpl; [done|].
  assert (Hs1 : Within (handleFlowExecution drv o w ctx None
                          (set_flows (set_add ctx (flows st)) st))).
  { apply Within_dispatch_fresh; [done| |done]. apply Hfree. set_solver. }
  destruct (_ <=? 0)%Z; [done|].
  apply IH; [done..|].
  intros c Hc Hin.
  apply (handleFlowExecution_frame drv o w ctx None) in Hin. simpl in Hin.
  apply elem_of_set_add in Hin as [->|Hin]; [done|].
  eapply Hfree; [|done]. set_solver.
Qed.

Lemma Within_finish w st : Within st → Within (finish drv w st).
Proof.
  intros [Hs Hb]. split; [by apply Sound_finish|].
  unfold finish. by destruct (resolved st).
Qed.

Lemma Within_forcedStop w st : Within st → Within (forcedStop drv w st).
Proof.
  intros [Hs Hb]. split; [by apply Sound_forcedStop|].
  unfold forcedStop, finish. by destruct (resolved _).
Qed.

Lemma Within_dispatchRetries w (m : @Matching TRetry) fc0 prs n :
  matched fc0 prs n m →
  ∀ queue indexed freeContexts st,
    Within st → pendingRetries st = indexed.*2 →
    NoDup indexed.*1 → NoDup queue.*1 →
    (∀ i r, (i, r) ∈ queue → (i, r) ∈ indexed) →
    (∀ i r, (i, r) ∈ queue → prs !! i = Some r) →
    (∀ i r c l, (i, r) ∈ queue → flows_of i m = c :: l → c ∈ freeContexts) →
    NoDup freeContexts → (∀ c, c ∈ freeContexts → c ∉ flows st) →
    let '(st', free', _) := dispatchRetries drv o w m queue indexed freeContexts st in
    Within st' ∧ NoDup free' ∧ (∀ c, c ∈ free' → c ∉ flows st').
Proof.
  intros Hm. induction queue as [|[i r] rest IH];
    intros indexed freeContexts st Hs Hq Hki Hkq Hsub Hprs Hheads Hnd Hfree; [done|].
  cbn [dispatchRetries].
  destruct (flows_of i m) as [|ctx l] eqn:Hfl.
  { split; [by apply Within_forcedStop|]. split; [done|].
    intros c Hc. unfold forcedStop, finish. destruct (resolved _); simpl; eauto. }
  assert (Hir : (i, r) ∈ indexed) by (apply Hsub; constructor).
  destruct (filter_key_split indexed i r Hki Hir) as (x1 & x2 & Hsplit & Hfilter).
  rewrite Hfilter.
  assert (Hctx : ctx ∈ freeContexts) by (eapply (Hheads i r); [constructor|done]).
  assert (Hnew : ctx ∉ p_flows r).
  { apply (m_unvisited _ _ _ _ Hm i ctx r); [rewrite Hfl; set_solver|].
    apply Hprs. constructor. }
  simpl in Hkq. apply NoDup_cons in Hkq as [Hi Hkq].
  set (st3 := handleFlowExecution drv o w ctx (Some r) _).
  assert (Hs3 : Within st3).
  { unfold st3. simpl. rewrite fmap_app.
    apply (Within_dispatch_retry w ctx r (x1.*2) (x2.*2) st);
      [done|by apply Hfree| |done].
    by rewrite Hq, Hsplit, fmap_app, fmap_cons. }
  destruct (handleFlowExecution_frame drv o w ctx (Some r)
              (set_flows (set_add ctx (flows (set_pendingRetries ((x1 ++ x2).*2) st)))
                 (set_pendingRetries ((x1 ++ x2).*2) st))) as (Hf3 & Hq3 & _).
  fold st3 in Hf3, Hq3. simpl in Hf3, Hq3.
  assert (Hki' : NoDup (x1 ++ x2).*1).
  { rewrite Hsplit, fmap_app, fmap_cons in Hki. rewrite fmap_app.
    apply NoDup_app in Hki as (H1 & H2 & H3). apply NoDup_cons in H3 as [_ H3].
    apply NoDup_app. set_solver. }
  assert (Hsub' : ∀ i' r', (i', r') ∈ rest → (i', r') ∈ x1 ++ x2).
  { intros i' r' Hin. assert (i' ≠ i).
    { intros ->. apply Hi. apply list_elem_of_fmap. by exists (i, r'). }
    assert ((i', r') ∈ indexed) as Hin' by (apply Hsub; by constructor).
    rewrite Hsplit in Hin'. set_solver. }
  assert (Hprs' : ∀ i' r', (i', r') ∈ rest → prs !! i' = Some r').
  { intros i' r' Hin. apply Hprs. by constructor. }
  assert (Hheads' : ∀ i' r' c l', (i', r') ∈ rest → flows_of i' m = c :: l' →
                      c ∈ set_delete ctx freeContexts).
  { intros i' r' c l' Hin Hfl'. apply elem_of_set_delete. split.
    - intros ->. assert (i' = i) as -> by by eapply matched_heads_differ.
      apply Hi. apply list_elem_of_fmap. by exists (i, r').
    - eapply (Hheads i' r'); [by constructor|done]. }
  assert (Hfree' : ∀ c, c ∈ set_delete ctx freeContexts → c ∉ flows st3).
  { intros c [Hne Hc]%elem_of_set_delete Hin. apply Hf3 in Hin.
    apply elem_of_set_add in Hin as [?|?]; [done|]. by eapply Hfree. }
  exact (IH (x1 ++ x2) (set_delete ctx freeContexts) st3 Hs3 Hq3 Hki' Hkq Hsub' Hprs'
           Hheads' (NoDup_set_delete _ _ Hnd) Hfree').
Qed.

Lemma Within_startFlows w st : Within st → Within (startFlows drv o w st).
Proof.
  intros Hs. unfold startFlows.
  destruct (resolved st); [done|].
  destruct (quiescent st); [by apply Within_finish|].
  pose proof (_updateFlowsContexts_grows o (flowInits w) (engine st)) as Hgrow.
  destruct (_updateFlowsContexts _ _ _ _) as [e ok]. simpl in Hgrow.
  assert (Hs1 : Within (set_engine e st)).
  { destruct Hs as [[Hown [Hacc Hroom]] Hb]. split; [|done].
    split; [done|]. split; [done|]. simpl. lia. }
  destruct ok; simpl; [|by apply Within_forcedStop].
  destruct (_ <=? 0)%Z; [done|].
  set (freeContexts := set_of_list _).
  assert (Hnd : NoDup freeContexts) by apply NoDup_set_of_list.
  assert (Hfree : ∀ c, c ∈ freeContexts → c ∉ flows st).
  { intros c [? _]%elem_of_set_of_list%list_elem_of_filter. done. }
  rewrite distinct.
  pose proof (matchRetries_matched freeContexts (length (flowsContexts e))
                (pendingRetries st)
                (currentConcurrency o (set_engine e st) - Z.of_nat (length (flows st)))%Z)
    as Hmatch.
  destruct (matchRetries _ _ _ _ _ _) as [[prs m] remaining].
  destruct Hmatch as [Hm Hsame].
  assert (prs = pendingRetries st) as ->.
  { destruct Hs1 as [[_ [Hacc Hroom]] _].
    eapply (same_retry_unchanged drv o V laws R distinct limit);
      [exact Hsame|apply Hacc|exact Hroom]. }
  pose proof (Within_dispatchRetries w m _ _ _ Hm (retryQueue m)
                (imap pair (pendingRetries st))
                freeContexts (set_pendingRetries (pendingRetries st) (set_engine e st)))
    as Hloop.
  destruct (dispatchRetries _ _ _ _ _ _ _ _) as [[st' free'] ok].
  destruct Hloop as (Hs' & Hnd' & Hfree').
  - done.
  - simpl. symmetry. exact (imap_pair_snd (pendingRetries st) 0).
  - assert ((imap pair (pendingRetries st)).*1 = seq 0 (length (pendingRetries st)))
      as -> by exact (imap_pair_fst (pendingRetries st) 0).
    apply NoDup_seq.
  - apply (m_queue_nodup _ _ _ _ Hm).
  - intros i r Hin. apply (m_queue _ _ _ _ Hm) in Hin as (_ & Hi & _).
    apply list_elem_of_lookup. exists i. rewrite list_lookup_imap, Hi. done.
  - intros i r Hin. by apply (m_queue _ _ _ _ Hm) in Hin as (_ & Hi & _).
  - intros i r c l _ Hfl. apply (m_free _ _ _ _ Hm i). rewrite Hfl. set_solver.
  - done.
  - done.
  - destruct ok; simpl; [|done].
    destruct (_ <=? 0)%Z; [done|]. by apply Within_dispatchFresh.
Qed.

Lemma Within_step w j st st' : Within st → step drv o w j st = Some st' → Within st'.
Proof.
  intros [Hs Hb] Hstep.
  assert (Hs' := Sound_step drv o V laws R distinct limit w j st st' Hs Hstep).
  split; [done|]. destruct Hs as [Hown Hacc].
  destruct j as [|ctx|ctx s|ctx|]; simpl in Hstep.
  - destruct (ticks st) as [|n]; [done|]. injection Hstep as <-.
    by apply (Within_startFlows w (set_ticks n st)).
  - destruct (tasks st !! ctx) as [[pr| |]|] eqn:Ht; try done. injection Hstep as <-.
    eapply Bounded_next; [exact Hb|apply Hs'|apply one_fetch_afterInterval].
  - destruct (tasks st !! ctx) as [[|a pr k|]|] eqn:Ht; try done.
    destruct (resume drv k s (now w) (driver st)) as [d done k'|d done ret];
      injection Hstep as <-; (eapply Bounded_same; [|exact Hb]); simpl;
      by destruct done.
  - destruct (tasks st !! ctx) as [[| |a pr ret]|] eqn:Ht; try done.
    injection Hstep as <-. eapply Bounded_same; [|exact Hb].
    unfold afterExecutor. by destruct ret as [r|]; [destruct (negb _)|].
  - destruct (aborted st); [done|]. injection Hstep as <-.
    eapply Bounded_same; [|exact Hb]. unfold forcedStop, finish. by destruct (resolved _).
Qed.

Lemma Within_run schedule : ∀ st st',
  Within st → run drv o schedule st = Some st' → Within st'.
Proof.
  induction schedule as [|[w j] rest IH]; intros st st' Hs Hrun; simpl in Hrun.
  - by injection Hrun as <-.
  - destruct (step drv o w j st) as [st1|] eqn:Hstep; [|done].
    eapply IH; [|done]. by eapply Within_step.
Qed.

Lemma Within_start w signalAborted e d :
  failed V d = [] → S R ≤ length (flowsContexts e) →
  Within (_startFlowOrchestrator drv o w signalAborted e d).
Proof.
  intros Hfailed Hroom. unfold _startFlowOrchestrator.
  set (st := {| flows := [] |}).
  assert (Hs : Within st).
  { split; [|by split; [apply NoDup_nil|simpl; lia]].
    pose proof (Sound_start drv o V laws R distinct limit w true e d Hfailed Hroom) as H.
    unfold _startFlowOrchestrator, finish in H. simpl in H.
    destruct H as [Hown [Hacc Hr]]. split; [by destruct Hown|].
    split; [|done]. by destruct Hacc. }
  destruct signalAborted; [by apply Within_finish|by apply Within_startFlows].
Qed.
End Bounds.

Section RetryLimit.
Import Js Flow Summary Drivers.

Lemma Counting_within {D R F} (drv : Driver D R F) o e st0 limit :
  Counting drv o e st0 →
  Options.retryDistinctFlows (Options.errorHandlingPolicy o) = true →
  Options.retryLimit (Options.errorHandlingPolicy o) = Finite limit →
  S limit ≤ length (flowsContexts e) →
  ∃ V, Lawful drv V ∧ Within drv V limit st0.
Proof.
  intros [o' w sa e'|o' w sa e'|o' w sa e'|o' w sa e'|o' w sa e' r st1 Hl]
    Hdistinct Hlimit Hroom.
  - exists none_view. split; [apply none_lawful|].
    apply (Within_start _ o'); try done. apply none_lawful.
  - exists totalPages_view. split; [apply totalPages_lawful|].
    apply (Within_start _ o'); try done. apply totalPages_lawful.
  - exists hasMore_view. split; [apply hasMore_lawful|].
    apply (Within_start _ o'); try done. apply hasMore_lawful.
  - exists cursor_view. split; [apply cursor_lawful|].
    apply (Within_start _ o'); try done. apply cursor_lawful.
  - apply list_cycle_inv in Hl as (items & -> & ->).
    exists list_view. split; [apply list_lawful|].
    apply (Within_start _ o'); try done. apply list_lawful.
Qed.

(** In a cycle of any kind under [retryDistinctFlows] with retry limit
    [limit], started with at least [limit + 1] flow contexts: at every
    moment up to which every page fetched is a safe integer, whether it
    failed or not, a page has been fetched at most [limit + 1] times,
    and never twice on the same context. *)
Theorem page_fetched_within_retry_limit {D R F} (drv : Driver D R F) o e st0 limit
    schedule st p :
  Cycle drv o e st0 →
  Options.retryDistinctFlows (Options.errorHandlingPolicy o) = true →
  Options.retryLimit (Options.errorHandlingPolicy o) = Finite limit →
  limit + 1 ≤ length (flowsContexts e) →
  run drv o schedule st0 = Some st →
  safe_pages (fetched st) = true →
  length (attempts (fetched st) p) ≤ limit + 1 ∧ NoDup (attempts (fetched st) p).
Proof.
  intros Hc Hdistinct Hlimit Hroom Hrun Hsafe.
  destruct (Cycle_counting drv o e st0 schedule st Hc Hrun Hsafe)
    as (drv' & Hsame & Hc' & Hrun').
  destruct (Counting_within drv' o e st0 limit Hc' Hdistinct Hlimit) as (V & laws & Hw);
    [lia|].
  pose proof (Within_run drv' o V laws limit Hdistinct Hlimit _ _ _ Hw Hrun') as [_ Hb].
  destruct (Hb p) as [Hnd Hlen]. split; [lia|done].
Qed.
End RetryLimit.

Section RetryLimitScenario.
Import Js Flow Summary Drivers.

(** The theorem at work on the run in which page 2 fails three times:
    page 1, fetched meanwhile, was fetched once. *)
Lemma page_fetched_within_retry_limit_witness :
  attempts (fetched page_failed) 1 = [0]
  ∧ length (attempts (fetched page_failed) 1) ≤ 2 + 1
  ∧ NoDup (attempts (fetched page_failed) 1).
Proof.
  split; [by vm_compute|].
  apply (page_fetched_within_retry_limit (totalPages_driver five_pages) five_pages
           (first_engine five_pages) five_pages_cycle 2 failing_page_schedule
           page_failed 1).
  - apply cycle_TotalPages.
  - by vm_compute.
  - by vm_compute.
  - vm_compute. lia.
  - by vm_compute.
  - by vm_compute.
Defined.
End RetryLimitScenario.

(** ** No page is skipped *)
Section Tracking.
Import Js Flow.
Context {DState TRetry Frame : Type}.
Variable drv : Driver DState TRetry Frame.
Variable o : Options.t.

Abbreviation State := (State DState TRetry Frame).
Abbreviation PendingRetry := (PendingRetry TRetry).

(** A relation between the driver's closure and the calls of
    [fetchHandler] that the executor keeps: a call is recorded when the
    executor stops at it. *)
Variable I : DState → list (Z * Ctx) → Prop.

Definition tracks : Prop :=
  (∀ c a r now d fe, I d fe →
     match begin drv c a r now d with
     | Awaits d' _ k => I d' (fe ++ [(page_of_frame drv k, c)])
     | Returns d' _ _ => I d' fe
     end)
  ∧ (∀ k s now d fe, I d fe → I (exec_state (resume drv k s now d)) fe).

Hypothesis kept : tracks.

Definition Tracked (st : State) : Prop := I (driver st) (fetched st).

Lemma Tracked_callExecutor w ctx pr st :
  Tracked st → Tracked (callExecutor drv o w ctx pr st).
Proof.
  intros Ht. unfold callExecutor, Tracked.
  set (a := match pr with Some p => attemptsLeft p | None => _ end).
  pose proof (proj1 kept ctx a (retry <$> pr) (now w) (driver st) (fetched st) Ht) as H.
  destruct (begin drv _ _ _ _ _) as [d' done k|d' done ret]; simpl; by destruct done.
Qed.

Lemma Tracked_afterInterval w ctx pr canceled st :
  Tracked st → Tracked (afterInterval drv o w ctx pr canceled st).
Proof.
  intros Ht. unfold afterInterval. destruct (_ || _); [done|].
  by apply (Tracked_callExecutor w ctx pr (set_flowsLastExecution _ st)).
Qed.

Lemma Tracked_handleFlowExecution w ctx pr st :
  Tracked st → Tracked (handleFlowExecution drv o w ctx pr st).
Proof.
  intros Ht. unfold handleFlowExecution. destruct (flowsLastExecution st !! ctx).
  - destruct (0 <? _)%Z; [done|]. by apply Tracked_afterInterval.
  - by apply (Tracked_callExecutor w ctx pr (set_flowsLastExecution _ st)).
Qed.

Lemma Tracked_afterExecutor ctx a pr ret st :
  Tracked st → Tracked (afterExecutor ctx a pr ret st).
Proof.
  intros Ht. unfold afterExecutor. by destruct ret as [r|]; [destruct (negb _)|].
Qed.

Lemma Tracked_finish w st : Tracked st → Tracked (finish drv w st).
Proof. intros Ht. unfold finish. by destruct (resolved st). Qed.

Lemma Tracked_forcedStop w st : Tracked st → Tracked (forcedStop drv w st).
Proof. intros Ht. unfold forcedStop, finish. by destruct (resolved _). Qed.

Lemma Tracked_dispatchRetries w m : ∀ queue indexed freeContexts st,
  Tracked st → Tracked (dispatchRetries drv o w m queue indexed freeContexts st).1.1.
Proof.
  induction queue as [|[i pr] rest IH]; intros indexed freeContexts st Ht; [done|].
  cbn [dispatchRetries]. destruct (flows_of i m) as [|ctx ?].
  - by apply Tracked_forcedStop.
  - apply IH. by apply Tracked_handleFlowExecution.
Qed.

Lemma Tracked_dispatchFresh w : ∀ freeContexts remaining st,
  Tracked st → Tracked (dispatchFresh drv o w freeContexts remaining st).
Proof.
  induction freeContexts as [|ctx rest IH]; intros remaining st Ht; [done|].
  cbn [dispatchFresh].
  set (x := if Options.retryDistinctFlows _ then _ else _).
  assert (Hx : Tracked x.2).
  { unfold x. destruct (Options.retryDistinctFlows _); [done|].
    by destruct (pendingRetries st). }
  destruct x as [pr st1]. simpl in Hx.
  destruct (_ && _); [done|].
  assert (H1 : Tracked (handleFlowExecution drv o w ctx pr
                          (set_flows (set_add ctx (flows st1)) st1))).
  { by apply Tracked_handleFlowExecution. }
  destruct (_ <=? 0)%Z; [done|]. by apply IH.
Qed.

Lemma Tracked_startFlows w st : Tracked st → Tracked (startFlows drv o w st).
Proof.
  intros Ht. unfold startFlows.
  destruct (resolved st); [done|].
  destruct (quiescent st); [by apply Tracked_finish|].
  destruct (_updateFlowsContexts _ _ _ _) as [e ok].
  destruct ok; simpl; [|by apply Tracked_forcedStop].
  destruct (_ <=? 0)%Z; [done|].
  destruct (Options.retryDistinctFlows _).
  - destruct (matchRetries _ _ _ _ _ _) as [[prs m] remaining].
    pose proof (Tracked_dispatchRetries w m (retryQueue m) (imap pair prs)
                  (set_of_list
                     (filter (λ ctx, ctx ∉ flows (set_engine e st))
                        (flowsContexts (engine (set_engine e st)))))
                  (set_pendingRetries prs (set_engine e st)) Ht) as Hd.
    destruct (dispatchRetries _ _ _ _ _ _ _ _) as [[st1 fc] ok]. simpl in Hd.
    destruct ok; simpl; [|done].
    destruct (_ <=? 0)%Z; [done|]. by apply Tracked_dispatchFresh.
  - by apply Tracked_dispatchFresh.
Qed.

Lemma Tracked_step w j st st' : Tracked st → step drv o w j st = Some st' → Tracked st'.
Proof.
  intros Ht Hstep. destruct j as [|ctx|ctx s|ctx|]; simpl in Hstep.
  - destruct (ticks st) as [|n]; [done|]. injection Hstep as <-.
    by apply (Tracked_startFlows w (set_ticks n st)).
  - destruct (tasks st !! ctx) as [[pr| |]|]; try done. injection Hstep as <-.
    by apply Tracked_afterInterval.
  - destruct (tasks st !! ctx) as [[|a pr k|]|]; try done.
    pose proof (proj2 kept k s (now w) (driver st) (fetched st) Ht) as H.
    destruct (resume drv k s (now w) (driver st)) as [d' done k'|d' done ret];
      injection Hstep as <-; unfold Tracked; simpl; by destruct done.
  - destruct (tasks st !! ctx) as [[| |a pr ret]|]; try done.
    injection Hstep as <-. by apply Tracked_afterExecutor.
  - destruct (aborted st); [done|]. injection Hstep as <-.
    by apply Tracked_forcedStop.
Qed.

Lemma Tracked_run schedule : ∀ st st',
  Tracked st → run drv o schedule st = Some st' → Tracked st'.
Proof.
  induction schedule as [|[w j] rest IH]; intros st st' Ht Hrun; simpl in Hrun.
  - by injection Hrun as <-.
  - destruct (step drv o w j st) as [st1|] eqn:Hstep; [|done].
    eapply IH; [|done]. by eapply Tracked_step.
Qed.

Lemma Tracked_start w signalAborted e d :
  I d [] → Tracked (_startFlowOrchestrator drv o w signalAborted e d).
Proof.
  intros Hd. unfold _startFlowOrchestrator.
  destruct signalAborted; [by apply Tracked_finish|by apply Tracked_startFlows].
Qed.
End Tracking.

Section NoPageSkipped.
Import Js Flow Summary Drivers.

(** The pages from [first] to [next d - 1] have been fetched. *)
Definition covered {D} (first : Z) (next : D → Z) (d : D) (fe : list (Z * Ctx)) : Prop :=
  ∀ p, (first ≤ p < next d)%Z → p ∈ fe.*1.

Lemma covered_more {D} first (next : D → Z) d d' fe x :
  next d' = next d → covered first next d fe → covered first next d' (fe ++ [x]).
Proof.
  intros Hn Hc p Hp. rewrite fmap_app. apply elem_of_app. left. apply Hc. lia.
Qed.

Lemma covered_same {D} first (next : D → Z) d d' fe :
  next d' = next d → covered first next d fe → covered first next d' fe.
Proof. intros Hn Hc p Hp. apply Hc. lia. Qed.

Lemma covered_next {D} first (next : D → Z) d d' fe c :
  next d' = (next d + 1)%Z → covered first next d fe →
  covered first next d' (fe ++ [(next d, c)]).
Proof.
  intros Hn Hc p Hp. rewrite fmap_app. apply elem_of_app.
  destruct (decide (p = next d)) as [->|Hne]; [right; set_solver|].
  left. apply Hc. lia.
Qed.

Lemma totalPages_tracks o :
  tracks (totalPages_counting o) (covered (Options.paginationStart o) tp_nextPage).
Proof.
  split.
  - intros c a [p|] now d fe Hc; simpl.
    + by apply (covered_more _ _ d).
    + by apply (covered_next _ _ d).
  - intros k s now d fe Hc. simpl. unfold totalPages_resume, totalPages_end.
    destruct (response k) as [r|], s as [|v]; simpl; try done.
    all: repeat case_match; simpl; by apply (covered_same _ _ d).
Qed.

Lemma hasMore_tracks o :
  tracks (hasMore_counting o) (covered (Options.paginationStart o) hm_nextPage).
Proof.
  split.
  - intros c a [p|] now d fe Hc; simpl.
    + destruct (beyond _ _); [done|]. by apply (covered_more _ _ d).
    + by apply (covered_next _ _ d).
  - intros k s now d fe Hc. simpl. unfold hasMore_resume, hasMore_end.
    destruct (response k) as [r|], s as [|v]; simpl; try done.
    all: repeat case_match; simpl; by apply (covered_same _ _ d).
Qed.

Lemma cursor_tracks : tracks cursor_counting (covered 1 c_nextPageNum).
Proof.
  split.
  - intros c a [r|] now d fe Hc; simpl.
    + by apply (covered_more _ _ d).
    + by apply (covered_next _ _ d).
  - intros k s now d fe Hc. simpl. unfold cursor_resume, cursor_end.
    destruct (c_response k) as [r|], s as [|v]; simpl; try done.
    all: repeat case_match; simpl; by apply (covered_same _ _ d).
Qed.

(** The index after the last item handed out. *)
Definition list_next (d : ListState) : Z :=
  Z.of_nat (nextPageIndex d `min` length (pageListItems d)).

Lemma list_tracks o : tracks (list_driver o) (covered 0 list_next).
Proof.
  split.
  - intros c a [r|] now d fe Hc; simpl.
    + by apply (covered_more _ _ d).
    + unfold list_begin.
      destruct (length (pageListItems d) <=? nextPageIndex d) eqn:Hlen.
      * apply Nat.leb_le in Hlen. apply (covered_same _ _ d); [|done].
        unfold list_next. cbn [nextPageIndex pageListItems]. lia.
      * apply Nat.leb_gt in Hlen. cbn [index].
        assert (Z.of_nat (nextPageIndex d) = list_next d) as ->
          by (unfold list_next; lia).
        apply (covered_next _ _ d); [|done].
        unfold list_next. cbn [nextPageIndex pageListItems]. lia.
  - intros k s now d fe Hc. simpl. unfold list_resume.
    destruct s as [|v]; simpl; [|by apply (covered_same _ _ d)].
    repeat case_match; simpl; by apply (covered_same _ _ d).
Qed.

(** A cycle tracked under a driver that counts in the integers is
    tracked under the driver of the code, for as long as every page
    fetched is a safe integer. *)
Lemma Tracked_safe {D R F} (drv drv' : Driver D R F) o (I : D → list (Z * Ctx) → Prop)
    w signalAborted e d schedule st :
  alike drv drv' → tracks drv' I → I d [] →
  run drv o schedule (_startFlowOrchestrator drv o w signalAborted e d) = Some st →
  safe_pages (fetched st) = true →
  I (driver st) (fetched st).
Proof.
  intros Hsame Hkept Hd Hrun Hsafe.
  assert (Hsafe0 : safe_pages
            (fetched (_startFlowOrchestrator drv o w signalAborted e d)) = true).
  { destruct (run_keeps drv o _ _ _ Hrun) as (_ & _ & Hf). by eapply safe_pages_prefix. }
  pose proof (Tracked_start drv' o I Hkept w signalAborted e d Hd) as H0.
  rewrite (start_alike _ _ o Hsame w signalAborted e d Hsafe0) in H0.
  exact (Tracked_run drv' o I Hkept _ _ _ H0 (run_alike _ _ o Hsame _ _ _ Hrun Hsafe)).
Qed.

(** In a cycle of a kind that numbers its pages, at every moment up to
    which every page fetched is a safe integer, every page the executor
    has handed out so far has been passed to [fetchHandler]: from
    [paginationStart] (1 for a cursor, index 0 for a list) up to the
    page before [nextPage], none is left out. *)
Theorem no_page_skipped o w signalAborted e :
  (∀ schedule st p,
     run (totalPages_driver o) o schedule
       (_handlePaginationTotalPagesCycle o w signalAborted e) = Some st →
     safe_pages (fetched st) = true →
     (Options.paginationStart o ≤ p < tp_nextPage (driver st))%Z →
     p ∈ (fetched st).*1)
  ∧ (∀ schedule st p,
       run (hasMore_driver o) o schedule
         (_handlePaginationHasMoreCycle o w signalAborted e) = Some st →
       safe_pages (fetched st) = true →
       (Options.paginationStart o ≤ p < hm_nextPage (driver st))%Z →
       p ∈ (fetched st).*1)
  ∧ (∀ schedule st p,
       run cursor_driver o schedule
         (_handlePaginationCursorCycle o w signalAborted e) = Some st →
       safe_pages (fetched st) = true →
       (1 ≤ p < c_nextPageNum (driver st))%Z →
       p ∈ (fetched st).*1)
  ∧ (∀ resolveList st0 schedule st i,
       _handlePaginationListCycle o w signalAborted e resolveList = inr st0 →
       run (list_driver o) o schedule st0 = Some st →
       i < nextPageIndex (driver st) → i < length (pageListItems (driver st)) →
       Z.of_nat i ∈ (fetched st).*1).
Proof.
  split_and!.
  - intros schedule st p Hrun Hsafe Hp.
    refine (Tracked_safe _ _ o _ w signalAborted e _ schedule st (totalPages_alike o)
              (totalPages_tracks o) _ Hrun Hsafe p Hp).
    intros q Hq. simpl in Hq. lia.
  - intros schedule st p Hrun Hsafe Hp.
    refine (Tracked_safe _ _ o _ w signalAborted e _ schedule st (hasMore_alike o)
              (hasMore_tracks o) _ Hrun Hsafe p Hp).
    intros q Hq. simpl in Hq. lia.
  - intros schedule st p Hrun Hsafe Hp.
    refine (Tracked_safe _ _ o _ w signalAborted e _ schedule st cursor_alike
              cursor_tracks _ Hrun Hsafe p Hp).
    intros q Hq. simpl in Hq. lia.
  - intros resolveList st0 schedule st i Hl Hrun Hi Hlen.
    apply list_cycle_inv in Hl as (items & -> & ->).
    refine (Tracked_run _ _ _ (list_tracks o) _ _ _ _ Hrun (Z.of_nat i) _).
    + apply Tracked_start; [apply list_tracks|]. intros q Hq. unfold list_next in Hq.
      simpl in Hq. lia.
    + unfold list_next. lia.
Qed.
End NoPageSkipped.

Section NoPageSkippedScenario.
Import Js Flow Summary Drivers.

(** The theorem at work on the run in which page 2 fails three times:
    the pages 1 to 4 have been handed out and fetched. *)
Lemma no_page_skipped_witness :
  tp_nextPage (driver page_failed) = 5%Z
  ∧ ∀ p, (1 ≤ p < 5)%Z → p ∈ (fetched page_failed).*1.
Proof.
  split; [by vm_compute|]. intros p Hp.
  apply (proj1 (no_page_skipped five_pages (world 0) false (first_engine five_pages))
           failing_page_schedule page_failed p).
  - by vm_compute.
  - by vm_compute.
  - assert (Options.paginationStart five_pages = 1%Z) as -> by by vm_compute.
    assert (tp_nextPage (driver page_failed) = 5%Z) as -> by by vm_compute.
    lia.
Defined.
End NoPageSkippedScenario.
